(** * Path-reduction trees (libdict, [pr_tree.c])

    A shallow embedding of [src/src/pr_tree.c] and the verification of its
    specification.  The C code works on heap-allocated nodes linked by
    [parent], [llink] and [rlink] pointers; the embedding keeps that shape:
    a memory of nodes indexed by address, the [pr_tree] structure, and every
    function written statement by statement over this state in an error
    monad.  Loops carry a fuel argument; pointer dereferences that the C
    code performs on a null or dangling pointer are faults. *)

From stdpp Require Import base option list sorting gmap.
From Stdlib Require Import ZArith Lia.

Local Open Scope Z_scope.

(** ** Machine integers and pointers *)

(** [void *] keys and data are opaque pointers, compared only through the
    comparator. *)
Abbreviation ptr := Z (only parsing).
Definition NULL : ptr := 0.

(** Addresses of [pr_node] blocks; a node pointer is [option addr], with
    [None] for the null pointer. *)
Abbreviation addr := Z (only parsing).

(** [weight_t] is [unsigned long] (64 bits) and [count] is [unsigned]
    (32 bits); their arithmetic wraps around. *)
Definition ULONG_MOD : Z := 2 ^ 64.
Definition UINT_MOD : Z := 2 ^ 32.
Definition wrap_ulong (z : Z) : Z := z mod ULONG_MOD.
Definition wrap_uint (z : Z) : Z := z mod UINT_MOD.

(** ** Data model *)

Record pr_node : Type := mk_node {
  key : ptr;
  datum : ptr;
  parent : option addr;
  llink : option addr;
  rlink : option addr;
  weight : Z
}.

Definition set_key (k : ptr) (n : pr_node) : pr_node :=
  mk_node k (datum n) (parent n) (llink n) (rlink n) (weight n).
Definition set_datum (d : ptr) (n : pr_node) : pr_node :=
  mk_node (key n) d (parent n) (llink n) (rlink n) (weight n).
Definition set_parent (p : option addr) (n : pr_node) : pr_node :=
  mk_node (key n) (datum n) p (llink n) (rlink n) (weight n).
Definition set_llink (p : option addr) (n : pr_node) : pr_node :=
  mk_node (key n) (datum n) (parent n) p (rlink n) (weight n).
Definition set_rlink (p : option addr) (n : pr_node) : pr_node :=
  mk_node (key n) (datum n) (parent n) (llink n) p (weight n).
Definition set_weight (w : Z) (n : pr_node) : pr_node :=
  mk_node (key n) (datum n) (parent n) (llink n) (rlink n) w.

(** [struct pr_tree].  [key_cmp] returns an [int] of which only the sign is
    used.  [del_func] is a callback into the caller's world: the model
    records whether it is set, and logs every call in the state. *)
Record pr_tree : Type := mk_tree {
  root : option addr;
  count : Z;
  key_cmp : ptr -> ptr -> Z;
  del_func : bool
}.

(** The program state: the memory holding the nodes, the tree structure and
    the trace of [del_func] calls. *)
Record state : Type := mk_state {
  mem : gmap Z pr_node;
  tree : pr_tree;
  del_log : list (ptr * ptr)
}.

Definition with_mem (m : gmap Z pr_node) (s : state) : state :=
  mk_state m (tree s) (del_log s).
Definition with_root (r : option addr) (s : state) : state :=
  mk_state (mem s)
    (mk_tree r (count (tree s)) (key_cmp (tree s)) (del_func (tree s)))
    (del_log s).
Definition with_count (c : Z) (s : state) : state :=
  mk_state (mem s)
    (mk_tree (root (tree s)) c (key_cmp (tree s)) (del_func (tree s)))
    (del_log s).

(** [struct pr_itor]: the tree it is bound to is the one of the state. *)
Record pr_itor : Type := mk_itor { itor_node : option addr }.

(** ** The error monad *)

Inductive res (A : Type) : Type :=
| Ok (a : A)
| Fault
| Timeout.
Arguments Ok {A} a.
Arguments Fault {A}.
Arguments Timeout {A}.

#[global] Instance res_bind : MBind res := fun A B (k : A -> res B) c =>
  match c with
  | Ok a => k a
  | Fault => Fault
  | Timeout => Timeout
  end.

(** ** Memory access *)

(** [*node] for a non-null node pointer. *)
Definition deref (s : state) (a : addr) : res pr_node :=
  match mem s !! a with
  | Some n => Ok n
  | None => Fault
  end.

(** [*p] for a node pointer that may be null. *)
Definition load (s : state) (p : option addr) : res pr_node :=
  match p with
  | Some a => deref s a
  | None => Fault
  end.

(** Assignment to one field of [*a]. *)
Definition update (s : state) (a : addr) (f : pr_node -> pr_node) : res state :=
  n ← deref s a;
  Ok (with_mem (<[a := f n]> (mem s)) s).

(** [#define WEIGHT(n) ((n) ? (n)->weight : 1)] *)
Definition WEIGHT (s : state) (p : option addr) : res Z :=
  match p with
  | Some a => n ← deref s a; Ok (weight n)
  | None => Ok 1
  end.

(** [#define REWEIGH(n) (n)->weight = WEIGHT((n)->llink) + WEIGHT((n)->rlink)] *)
Definition REWEIGH (s : state) (a : addr) : res state :=
  n ← deref s a;
  wl ← WEIGHT s (llink n);
  wr ← WEIGHT s (rlink n);
  update s a (set_weight (wrap_ulong (wl + wr))).

(** [MALLOC]: the allocator's answer [m] is an input of the model; [None] is
    an allocation failure.  A block it returns is not live and lies inside
    the 64-bit address space. *)
Definition valid_block (s : state) (a : addr) : bool :=
  bool_decide (mem s !! a = None) && (0 <? a) && (a <? ULONG_MOD - 1).

Definition MALLOC (s : state) (m : option addr) : res (option addr) :=
  match m with
  | None => Ok None
  | Some a => if valid_block s a then Ok (Some a) else Fault
  end.

(** [FREE] *)
Definition FREE (s : state) (a : addr) : state :=
  with_mem (delete a (mem s)) s.

(** [if (tree->del_func) tree->del_func(key, datum)] *)
Definition call_del_func (s : state) (k d : ptr) : state :=
  if del_func (tree s)
  then mk_state (mem s) (tree s) (del_log s ++ [(k, d)])
  else s.

(** ** Creation *)

(** Modelled from the spec: [dict_ptr_cmp] is defined in [dict.c], which is
    not among the sources; it is the pointer-identity comparison that orders
    keys by their addresses. *)
Definition dict_ptr_cmp (k1 k2 : ptr) : Z :=
  if k1 <? k2 then -1 else if k2 <? k1 then 1 else 0.

(** [pr_tree_new]; [malloc_ok] tells whether [MALLOC] of the tree structure
    succeeds.  The new tree owns no node. *)
Definition pr_tree_new (malloc_ok : bool)
    (cmp : option (ptr -> ptr -> Z)) (del : bool) : option state :=
  if malloc_ok then
    Some (mk_state ∅
            (mk_tree None 0
               (match cmp with Some f => f | None => dict_ptr_cmp end) del)
            [])
  else None.

(** [node_new] *)
Definition node_new (s : state) (m : option addr) (k d : ptr)
  : res (option addr * state) :=
  p ← MALLOC s m;
  match p with
  | None => Ok (None, s)
  | Some a =>
      Ok (Some a, with_mem (<[a := mk_node k d None None None 2]> (mem s)) s)
  end.

(** [ASSERT(cond)] *)
Definition ASSERT (b : bool) : res unit := if b then Ok tt else Fault.

(** Exit of a loop whose body may [return] from the enclosing function. *)
Inductive loop_exit (R B : Type) : Type :=
| Return (r : R)
| Break (b : B).
Arguments Return {R B} r.
Arguments Break {R B} b.

(** ** Search *)

Fixpoint search_loop (fuel : nat) (s : state) (k : ptr) (node : option addr)
  : res ptr :=
  match node with
  | None => Ok NULL
  | Some a =>
      match fuel with
      | O => Timeout
      | S fuel =>
          n ← deref s a;
          let rv := key_cmp (tree s) k (key n) in
          if rv <? 0 then search_loop fuel s k (llink n)
          else if 0 <? rv then search_loop fuel s k (rlink n)
          else Ok (datum n)
      end
  end.

Definition pr_tree_search (fuel : nat) (s : state) (k : ptr) : res ptr :=
  search_loop fuel s k (root (tree s)).

Definition pr_tree_csearch (fuel : nat) (s : state) (k : ptr) : res ptr :=
  pr_tree_search fuel s k.

(** ** Rotations *)

(** The assignment [parent->llink = x] or [parent->rlink = x], whichever
    slot holds [node], or [tree->root = x] when [parent] is null. *)
Definition replace_child (s : state) (par : option addr) (node : addr)
    (x : option addr) : res state :=
  match par with
  | Some p =>
      pn ← deref s p;
      if bool_decide (llink pn = Some node)
      then update s p (set_llink x)
      else update s p (set_rlink x)
  | None => Ok (with_root x s)
  end.

Definition rot_left (s : state) (node : addr) : res state :=
  n ← deref s node;
  match rlink n with
  | None => Fault
  | Some rl =>
      r ← deref s rl;
      s ← update s node (set_rlink (llink r));
      r ← deref s rl;
      s ← match llink r with
          | Some c => update s c (set_parent (Some node))
          | None => Ok s
          end;
      n ← deref s node;
      let par := parent n in
      s ← update s rl (set_parent par);
      s ← replace_child s par node (Some rl);
      s ← update s rl (set_llink (Some node));
      s ← update s node (set_parent (Some rl));
      s ← REWEIGH s node;
      REWEIGH s rl
  end.

Definition rot_right (s : state) (node : addr) : res state :=
  n ← deref s node;
  match llink n with
  | None => Fault
  | Some ll =>
      l ← deref s ll;
      s ← update s node (set_llink (rlink l));
      l ← deref s ll;
      s ← match rlink l with
          | Some c => update s c (set_parent (Some node))
          | None => Ok s
          end;
      n ← deref s node;
      let par := parent n in
      s ← update s ll (set_parent par);
      s ← replace_child s par node (Some ll);
      s ← update s ll (set_rlink (Some node));
      s ← update s node (set_parent (Some ll));
      s ← REWEIGH s node;
      REWEIGH s ll
  end.

(** ** Rebalancing *)

(** [fixup]; the [goto again] is the recursive call on the same [node].  The
    macro [FIXUP] used by insert and probe is the textual expansion of this
    function and is modelled by it. *)
Fixpoint fixup (fuel : nat) (s : state) (node : addr) : res state :=
  match fuel with
  | O => Timeout
  | S fuel =>
      n ← deref s node;
      wl ← WEIGHT s (llink n);
      wr ← WEIGHT s (rlink n);
      if wl <? wr then
        r ← load s (rlink n);
        wrr ← WEIGHT s (rlink r);
        if wl <? wrr then
          s ← rot_left s node;
          fixup fuel s node
        else
          wrl ← WEIGHT s (llink r);
          if wl <? wrl then
            match rlink n with
            | None => Fault
            | Some temp =>
                s ← rot_right s temp;
                s ← rot_left s node;
                t ← deref s temp;
                s ← match rlink t with
                    | Some x => fixup fuel s x
                    | None => Ok s
                    end;
                fixup fuel s node
            end
          else Ok s
      else if wr <? wl then
        l ← load s (llink n);
        wll ← WEIGHT s (llink l);
        if wr <? wll then
          s ← rot_right s node;
          fixup fuel s node
        else
          wlr ← WEIGHT s (rlink l);
          if wr <? wlr then
            match llink n with
            | None => Fault
            | Some temp =>
                s ← rot_left s temp;
                s ← rot_right s node;
                t ← deref s temp;
                s ← match llink t with
                    | Some x => fixup fuel s x
                    | None => Ok s
                    end;
                fixup fuel s node
            end
          else Ok s
      else Ok s
  end.

(** ** Insertion *)

(** The ascent of insert and probe:
    [while ((node = parent) != NULL)
       { parent = parent->parent; node->weight++; FIXUP(tree, node); }] *)
Fixpoint insert_ascend (gas fuel : nat) (s : state) (par : option addr)
  : res state :=
  match par with
  | None => Ok s
  | Some node =>
      match fuel with
      | O => Timeout
      | S fuel =>
          n ← deref s node;
          let par := parent n in
          s ← update s node (fun n => set_weight (wrap_ulong (weight n + 1)) n);
          s ← fixup gas s node;
          insert_ascend gas fuel s par
      end
  end.

(** What insert and probe do once the descent has left the tree at a null
    link below [par], with [rv] the last comparison; [hit] is the value
    returned for a new key. *)
Definition insert_link (fuel : nat) (s : state) (m : option addr)
    (k d : ptr) (par : option addr) (rv : Z) (hit : Z) : res (Z * state) :=
  '(p, s) ← node_new s m k d;
  match p with
  | None => Ok (-1, s)
  | Some node =>
      s ← update s node (set_parent par);
      match par with
      | None =>
          _ ← ASSERT (count (tree s) =? 0);
          Ok (hit, with_count 1 (with_root (Some node) s))
      | Some p =>
          s ← update s p
                (if rv <? 0 then set_llink (Some node) else set_rlink (Some node));
          s ← insert_ascend fuel fuel s par;
          Ok (hit, with_count (wrap_uint (count (tree s) + 1)) s)
      end
  end.

Fixpoint insert_loop (fuel : nat) (s : state) (k d : ptr) (overwrite : Z)
    (node par : option addr) (rv : Z)
  : res (loop_exit (Z * state) (option addr * Z)) :=
  match node with
  | None => Ok (Break (par, rv))
  | Some a =>
      match fuel with
      | O => Timeout
      | S fuel =>
          n ← deref s a;
          let rv := key_cmp (tree s) k (key n) in
          if rv <? 0 then insert_loop fuel s k d overwrite (llink n) (Some a) rv
          else if 0 <? rv then
            insert_loop fuel s k d overwrite (rlink n) (Some a) rv
          else if overwrite =? 0 then Ok (Return (1, s))
          else
            let s := call_del_func s (key n) (datum n) in
            s ← update s a (set_key k);
            s ← update s a (set_datum d);
            Ok (Return (0, s))
      end
  end.

(** [pr_tree_insert]; [m] is the answer of [MALLOC] should a node be
    allocated. *)
Definition pr_tree_insert (fuel : nat) (s : state) (m : option addr)
    (k d : ptr) (overwrite : Z) : res (Z * state) :=
  e ← insert_loop fuel s k d overwrite (root (tree s)) None 0;
  match e with
  | Return r => Ok r
  | Break (par, rv) => insert_link fuel s m k d par rv 0
  end.

Fixpoint probe_loop (fuel : nat) (s : state) (k : ptr)
    (node par : option addr) (rv : Z)
  : res (loop_exit ptr (option addr * Z)) :=
  match node with
  | None => Ok (Break (par, rv))
  | Some a =>
      match fuel with
      | O => Timeout
      | S fuel =>
          n ← deref s a;
          let rv := key_cmp (tree s) k (key n) in
          if rv <? 0 then probe_loop fuel s k (llink n) (Some a) rv
          else if 0 <? rv then probe_loop fuel s k (rlink n) (Some a) rv
          else Ok (Return (datum n))
      end
  end.

(** [pr_tree_probe]; the in/out slot [*datum] is the argument [d] and the
    second component of the result. *)
Definition pr_tree_probe (fuel : nat) (s : state) (m : option addr)
    (k d : ptr) : res (Z * ptr * state) :=
  e ← probe_loop fuel s k (root (tree s)) None 0;
  match e with
  | Return d' => Ok (0, d', s)
  | Break (par, rv) =>
      '(r, s) ← insert_link fuel s m k d par rv 1;
      Ok (r, d, s)
  end.

(** ** Removal *)

(** [for (; temp; temp = temp->parent) temp->weight--;] *)
Fixpoint decrement_ancestors (fuel : nat) (s : state) (temp : option addr)
  : res state :=
  match temp with
  | None => Ok s
  | Some t =>
      match fuel with
      | O => Timeout
      | S fuel =>
          s ← update s t (fun n => set_weight (wrap_ulong (weight n - 1)) n);
          n ← deref s t;
          decrement_ancestors fuel s (parent n)
      end
  end.

(** The splice of [pr_tree_remove] (lines 385-406 with [out = node->rlink],
    lines 408-428 with [out = node->llink]): [node], which has at most the
    child [out], is unlinked and freed, and the weights of its ancestors are
    decremented. *)
Definition remove_splice (fuel : nat) (s : state) (node : addr)
    (out : option addr) : res (Z * state) :=
  n ← deref s node;
  s ← match out with
      | Some o => update s o (set_parent (parent n))
      | None => Ok s
      end;
  n ← deref s node;
  s ← replace_child s (parent n) node out;
  n ← deref s node;
  let temp := parent n in
  let s := call_del_func s (key n) (datum n) in
  let s := FREE s node in
  s ← decrement_ancestors fuel s temp;
  Ok (0, with_count (wrap_uint (count (tree s) - 1)) s).

Fixpoint remove_loop (gas fuel : nat) (s : state) (k : ptr)
    (node : option addr) : res (Z * state) :=
  match node with
  | None => Ok (-1, s)
  | Some a =>
      match fuel with
      | O => Timeout
      | S fuel =>
          n ← deref s a;
          let rv := key_cmp (tree s) k (key n) in
          if negb (rv =? 0) then
            remove_loop gas fuel s k (if rv <? 0 then llink n else rlink n)
          else
            match llink n, rlink n with
            | None, _ => remove_splice gas s a (rlink n)
            | Some _, None => remove_splice gas s a (llink n)
            | Some ll, Some rl =>
                wl ← WEIGHT s (llink n);
                wr ← WEIGHT s (rlink n);
                if wr <? wl then
                  l ← deref s ll;
                  wll ← WEIGHT s (llink l);
                  wlr ← WEIGHT s (rlink l);
                  s ← (if wll <? wlr then rot_left s ll else Ok s);
                  n ← deref s a;
                  let out := llink n in
                  s ← rot_right s a;
                  o ← load s out;
                  remove_loop gas fuel s k (rlink o)
                else
                  r ← deref s rl;
                  wrr ← WEIGHT s (rlink r);
                  wrl ← WEIGHT s (llink r);
                  s ← (if wrr <? wrl then rot_right s rl else Ok s);
                  n ← deref s a;
                  let out := rlink n in
                  s ← rot_left s a;
                  o ← load s out;
                  remove_loop gas fuel s k (llink o)
            end
      end
  end.

Definition pr_tree_remove (fuel : nat) (s : state) (k : ptr)
  : res (Z * state) :=
  _ ← ASSERT (negb (k =? NULL));
  remove_loop fuel fuel s k (root (tree s)).

(** ** Clearing *)

Fixpoint empty_loop (fuel : nat) (s : state) (node : option addr)
  : res state :=
  match node with
  | None => Ok s
  | Some a =>
      match fuel with
      | O => Timeout
      | S fuel =>
          n ← deref s a;
          match llink n, rlink n with
          | Some l, _ => empty_loop fuel s (Some l)
          | None, Some r => empty_loop fuel s (Some r)
          | None, None =>
              let s := call_del_func s (key n) (datum n) in
              let par := parent n in
              let s := FREE s a in
              s ← match par with
                  | Some p =>
                      pn ← deref s p;
                      if bool_decide (llink pn = Some a)
                      then update s p (set_llink None)
                      else update s p (set_rlink None)
                  | None => Ok s
                  end;
              empty_loop fuel s par
          end
      end
  end.

Definition pr_tree_empty (fuel : nat) (s : state) : res (Z * state) :=
  let count := count (tree s) in
  s ← empty_loop fuel s (root (tree s));
  Ok (count, with_count 0 (with_root None s)).

(** [pr_tree_destroy]: the tree structure itself is freed, so only the count
    and the trace of [del_func] calls survive. *)
Definition pr_tree_destroy (fuel : nat) (s : state)
  : res (Z * list (ptr * ptr)) :=
  match root (tree s) with
  | Some _ => '(c, s) ← pr_tree_empty fuel s; Ok (c, del_log s)
  | None => Ok (0, del_log s)
  end.

(** ** Extremes and neighbours *)

Fixpoint node_min (fuel : nat) (s : state) (node : addr) : res addr :=
  match fuel with
  | O => Timeout
  | S fuel =>
      n ← deref s node;
      match llink n with
      | Some l => node_min fuel s l
      | None => Ok node
      end
  end.

Fixpoint node_max (fuel : nat) (s : state) (node : addr) : res addr :=
  match fuel with
  | O => Timeout
  | S fuel =>
      n ← deref s node;
      match rlink n with
      | Some r => node_max fuel s r
      | None => Ok node
      end
  end.

(** [while (temp && temp->rlink == node) { node = temp; temp = temp->parent; }
    return temp;] *)
Fixpoint ascend_from_right (fuel : nat) (s : state) (node : addr)
    (temp : option addr) : res (option addr) :=
  match temp with
  | None => Ok None
  | Some t =>
      match fuel with
      | O => Timeout
      | S fuel =>
          tn ← deref s t;
          if bool_decide (rlink tn = Some node)
          then ascend_from_right fuel s t (parent tn)
          else Ok temp
      end
  end.

Fixpoint ascend_from_left (fuel : nat) (s : state) (node : addr)
    (temp : option addr) : res (option addr) :=
  match temp with
  | None => Ok None
  | Some t =>
      match fuel with
      | O => Timeout
      | S fuel =>
          tn ← deref s t;
          if bool_decide (llink tn = Some node)
          then ascend_from_left fuel s t (parent tn)
          else Ok temp
      end
  end.

Definition node_next (fuel : nat) (s : state) (node : addr)
  : res (option addr) :=
  n ← deref s node;
  match rlink n with
  | Some r => x ← node_min fuel s r; Ok (Some x)
  | None => ascend_from_right fuel s node (parent n)
  end.

Definition node_prev (fuel : nat) (s : state) (node : addr)
  : res (option addr) :=
  n ← deref s node;
  match llink n with
  | Some l => x ← node_max fuel s l; Ok (Some x)
  | None => ascend_from_left fuel s node (parent n)
  end.

Definition pr_tree_min (fuel : nat) (s : state) : res ptr :=
  match root (tree s) with
  | None => Ok NULL
  | Some r => a ← node_min fuel s r; n ← deref s a; Ok (key n)
  end.

Definition pr_tree_max (fuel : nat) (s : state) : res ptr :=
  match root (tree s) with
  | None => Ok NULL
  | Some r => a ← node_max fuel s r; n ← deref s a; Ok (key n)
  end.

Definition pr_tree_count (s : state) : Z := count (tree s).

(** ** Walk *)

(** [for (node = node_min(tree->root); node; node = node_next(node))
      { ++count; if (!visit(node->key, node->datum)) break; }]
    The visitor is a caller's function; the model records, in order, the
    pairs it is called with. *)
Fixpoint walk_loop (gas fuel : nat) (s : state) (visit : ptr -> ptr -> bool)
    (node : option addr) (count : Z) (seen : list (ptr * ptr))
  : res (Z * list (ptr * ptr)) :=
  match node with
  | None => Ok (count, seen)
  | Some a =>
      match fuel with
      | O => Timeout
      | S fuel =>
          n ← deref s a;
          let count := wrap_uint (count + 1) in
          let seen := seen ++ [(key n, datum n)] in
          if visit (key n) (datum n) then
            nx ← node_next gas s a;
            walk_loop gas fuel s visit nx count seen
          else Ok (count, seen)
      end
  end.

Definition pr_tree_walk (fuel : nat) (s : state) (visit : ptr -> ptr -> bool)
  : res (Z * list (ptr * ptr)) :=
  match root (tree s) with
  | None => Ok (0, [])
  | Some r =>
      a ← node_min fuel s r;
      walk_loop fuel fuel s visit (Some a) 0 []
  end.

(** ** Cursor *)

(** [RETVALID(itor)] *)
Definition RETVALID (it : pr_itor) : Z :=
  match itor_node it with Some _ => 1 | None => 0 end.

Definition pr_itor_valid (it : pr_itor) : Z := RETVALID it.

Definition pr_itor_invalidate (it : pr_itor) : pr_itor := mk_itor None.

Definition pr_itor_first (fuel : nat) (s : state) (it : pr_itor)
  : res (Z * pr_itor) :=
  match root (tree s) with
  | None => let it := mk_itor None in Ok (RETVALID it, it)
  | Some r =>
      a ← node_min fuel s r;
      let it := mk_itor (Some a) in Ok (RETVALID it, it)
  end.

Definition pr_itor_last (fuel : nat) (s : state) (it : pr_itor)
  : res (Z * pr_itor) :=
  match root (tree s) with
  | None => let it := mk_itor None in Ok (RETVALID it, it)
  | Some r =>
      a ← node_max fuel s r;
      let it := mk_itor (Some a) in Ok (RETVALID it, it)
  end.

(** [pr_itor_new]; [malloc_ok] tells whether [MALLOC] of the cursor
    succeeds.  The fresh cursor's [node] field is uninitialised until
    [pr_itor_first] sets it. *)
Definition pr_itor_new (fuel : nat) (s : state) (malloc_ok : bool)
  : res (option pr_itor) :=
  if malloc_ok then
    '(_, it) ← pr_itor_first fuel s (mk_itor None);
    Ok (Some it)
  else Ok None.

Definition pr_itor_next (fuel : nat) (s : state) (it : pr_itor)
  : res (Z * pr_itor) :=
  match itor_node it with
  | None => pr_itor_first fuel s it
  | Some a =>
      nx ← node_next fuel s a;
      let it := mk_itor nx in Ok (RETVALID it, it)
  end.

Definition pr_itor_prev (fuel : nat) (s : state) (it : pr_itor)
  : res (Z * pr_itor) :=
  match itor_node it with
  | None => pr_itor_last fuel s it
  | Some a =>
      nx ← node_prev fuel s a;
      let it := mk_itor nx in Ok (RETVALID it, it)
  end.

Fixpoint itor_search_loop (fuel : nat) (s : state) (k : ptr)
    (node : option addr) : res (option addr) :=
  match node with
  | None => Ok None
  | Some a =>
      match fuel with
      | O => Timeout
      | S fuel =>
          n ← deref s a;
          let rv := key_cmp (tree s) k (key n) in
          if rv <? 0 then itor_search_loop fuel s k (llink n)
          else if 0 <? rv then itor_search_loop fuel s k (rlink n)
          else Ok node
      end
  end.

Definition pr_itor_search (fuel : nat) (s : state) (it : pr_itor) (k : ptr)
  : res (Z * pr_itor) :=
  node ← itor_search_loop fuel s k (root (tree s));
  let it := mk_itor node in Ok (RETVALID it, it).

Definition pr_itor_key (s : state) (it : pr_itor) : res ptr :=
  match itor_node it with
  | Some a => n ← deref s a; Ok (key n)
  | None => Ok NULL
  end.

Definition pr_itor_data (s : state) (it : pr_itor) : res ptr :=
  match itor_node it with
  | Some a => n ← deref s a; Ok (datum n)
  | None => Ok NULL
  end.

Definition pr_itor_cdata (s : state) (it : pr_itor) : res ptr :=
  pr_itor_data s it.

(** [pr_itor_set_data]; [old_datum] is whether the caller passes a slot for
    the previous value, which is then the second component of the result. *)
Definition pr_itor_set_data (s : state) (it : pr_itor) (d : ptr)
    (old_datum : bool) : res (Z * option ptr * state) :=
  match itor_node it with
  | None => Ok (-1, None, s)
  | Some a =>
      n ← deref s a;
      let old := if old_datum then Some (datum n) else None in
      s ← update s a (set_datum d);
      Ok (0, old, s)
  end.

(** ** Moving a cursor by several steps *)

(** [while (count-- && itor->node) itor->node = node_next(itor->node);] *)
Fixpoint nextn_loop (fuel : nat) (s : state) (count : nat)
    (node : option addr) : res (option addr) :=
  match count, node with
  | S count, Some a => nx ← node_next fuel s a; nextn_loop fuel s count nx
  | _, _ => Ok node
  end.

Fixpoint prevn_loop (fuel : nat) (s : state) (count : nat)
    (node : option addr) : res (option addr) :=
  match count, node with
  | S count, Some a => nx ← node_prev fuel s a; prevn_loop fuel s count nx
  | _, _ => Ok node
  end.

(** [pr_itor_nextn]; [count] is an [unsigned]. *)
Definition pr_itor_nextn (fuel : nat) (s : state) (it : pr_itor) (count : Z)
  : res (Z * pr_itor) :=
  if count =? 0 then Ok (RETVALID it, it)
  else
    '(count, it) ←
      match itor_node it with
      | None => '(_, it) ← pr_itor_first fuel s it; Ok (wrap_uint (count - 1), it)
      | Some _ => Ok (count, it)
      end;
    node ← nextn_loop fuel s (Z.to_nat count) (itor_node it);
    let it := mk_itor node in Ok (RETVALID it, it).

Definition pr_itor_prevn (fuel : nat) (s : state) (it : pr_itor) (count : Z)
  : res (Z * pr_itor) :=
  if count =? 0 then Ok (RETVALID it, it)
  else
    '(count, it) ←
      match itor_node it with
      | None => '(_, it) ← pr_itor_last fuel s it; Ok (wrap_uint (count - 1), it)
      | Some _ => Ok (count, it)
      end;
    node ← prevn_loop fuel s (Z.to_nat count) (itor_node it);
    let it := mk_itor node in Ok (RETVALID it, it).

(** ** Shape metrics *)

(** [node_height]; [l] and [r] are [unsigned], and [MAX] is the larger of
    its arguments. *)
Fixpoint node_height (fuel : nat) (s : state) (node : addr) : res Z :=
  match fuel with
  | O => Timeout
  | S fuel =>
      n ← deref s node;
      l ← match llink n with
          | Some ll => h ← node_height fuel s ll; Ok (wrap_uint (h + 1))
          | None => Ok 0
          end;
      r ← match rlink n with
          | Some rl => h ← node_height fuel s rl; Ok (wrap_uint (h + 1))
          | None => Ok 0
          end;
      Ok (Z.max l r)
  end.

(** [node_mheight], with [MIN] the smaller of its arguments. *)
Fixpoint node_mheight (fuel : nat) (s : state) (node : addr) : res Z :=
  match fuel with
  | O => Timeout
  | S fuel =>
      n ← deref s node;
      l ← match llink n with
          | Some ll => h ← node_mheight fuel s ll; Ok (wrap_uint (h + 1))
          | None => Ok 0
          end;
      r ← match rlink n with
          | Some rl => h ← node_mheight fuel s rl; Ok (wrap_uint (h + 1))
          | None => Ok 0
          end;
      Ok (Z.min l r)
  end.

(** [node_pathlen] *)
Fixpoint node_pathlen (fuel : nat) (s : state) (node : addr) (level : Z)
  : res Z :=
  match fuel with
  | O => Timeout
  | S fuel =>
      nd ← deref s node;
      let n := 0 in
      n ← match llink nd with
          | Some ll =>
              p ← node_pathlen fuel s ll (wrap_uint (level + 1));
              Ok (wrap_uint (n + wrap_uint (level + p)))
          | None => Ok n
          end;
      match rlink nd with
      | Some rl =>
          p ← node_pathlen fuel s rl (wrap_uint (level + 1));
          Ok (wrap_uint (n + wrap_uint (level + p)))
      | None => Ok n
      end
  end.

Definition pr_tree_height (fuel : nat) (s : state) : res Z :=
  match root (tree s) with
  | Some r => node_height fuel s r
  | None => Ok 0
  end.

Definition pr_tree_mheight (fuel : nat) (s : state) : res Z :=
  match root (tree s) with
  | Some r => node_mheight fuel s r
  | None => Ok 0
  end.

Definition pr_tree_pathlen (fuel : nat) (s : state) : res Z :=
  match root (tree s) with
  | Some r => node_pathlen fuel s r 1
  | None => Ok 0
  end.

(** ** A traversal by cursor

    The loop of a caller that reads every key through a cursor:
    [for (pr_itor_first(it); pr_itor_valid(it); pr_itor_next(it))
       seen += pr_itor_key(it);] *)
Fixpoint itor_loop (gas fuel : nat) (s : state) (it : pr_itor)
    (seen : list ptr) : res (list ptr) :=
  if pr_itor_valid it =? 0 then Ok seen
  else
    match fuel with
    | O => Timeout
    | S fuel =>
        k ← pr_itor_key s it;
        '(_, it) ← pr_itor_next gas s it;
        itor_loop gas fuel s it (seen ++ [k])
    end.

Definition itor_keys (fuel : nat) (s : state) (it : pr_itor)
  : res (list ptr) :=
  '(_, it) ← pr_itor_first fuel s it;
  itor_loop fuel fuel s it [].

(** * Abstraction: the tree a memory holds

    The invariants are stated on the binary tree that the linked nodes
    form.  A [ptree] lists, for every node, its address and the contents of
    its [key], [datum] and [weight] fields; the [parent], [llink] and
    [rlink] fields are determined by the shape. *)

Inductive ptree : Type :=
| Leaf
| Node (l : ptree) (a : addr) (k d : ptr) (w : Z) (r : ptree).

Definition root_ptr (t : ptree) : option addr :=
  match t with
  | Leaf => None
  | Node _ a _ _ _ _ => Some a
  end.

(** The weight read by [WEIGHT] at the root of [t]. *)
Definition fweight (t : ptree) : Z :=
  match t with
  | Leaf => 1
  | Node _ _ _ _ w _ => w
  end.

Fixpoint size (t : ptree) : nat :=
  match t with
  | Leaf => O
  | Node l _ _ _ _ r => S (size l + size r)
  end.

(** Addresses, and key/datum pairs, in symmetric order. *)
Fixpoint addrs (t : ptree) : list addr :=
  match t with
  | Leaf => []
  | Node l a _ _ _ r => addrs l ++ a :: addrs r
  end.

Fixpoint entries (t : ptree) : list (ptr * ptr) :=
  match t with
  | Leaf => []
  | Node l _ k d _ r => entries l ++ (k, d) :: entries r
  end.

Definition keys (t : ptree) : list ptr := (entries t).*1.

(** [repr_tree m par t]: in memory [m], the nodes of [t] are linked as [t]
    says, below a node at [par]. *)
Fixpoint repr_tree (m : gmap Z pr_node) (par : option addr) (t : ptree)
  : Prop :=
  match t with
  | Leaf => True
  | Node l a k d w r =>
      m !! a = Some (mk_node k d par (root_ptr l) (root_ptr r) w)
      /\ repr_tree m (Some a) l
      /\ repr_tree m (Some a) r
  end.

(** [rep s t]: the tree of state [s] is [t]. *)
Definition rep (s : state) (t : ptree) : Prop :=
  root (tree s) = root_ptr t
  /\ repr_tree (mem s) None t
  /\ NoDup (addrs t).

(** ** Positions inside a tree

    A node pointer held by the C code is a position in the tree: the
    subtree below it and the path of ancestors above it, nearest first. *)

Inductive frame : Type :=
| InL (a : addr) (k d : ptr) (w : Z) (r : ptree)
| InR (l : ptree) (a : addr) (k d : ptr) (w : Z).

Definition fill (f : frame) (t : ptree) : ptree :=
  match f with
  | InL a k d w r => Node t a k d w r
  | InR l a k d w => Node l a k d w t
  end.

Definition frame_addr (f : frame) : addr :=
  match f with
  | InL a _ _ _ _ => a
  | InR _ a _ _ _ => a
  end.

Definition frame_sibling (f : frame) : ptree :=
  match f with
  | InL _ _ _ _ r => r
  | InR l _ _ _ _ => l
  end.

Fixpoint plug (c : list frame) (t : ptree) : ptree :=
  match c with
  | [] => t
  | f :: c => plug c (fill f t)
  end.

Definition ctx_parent (c : list frame) : option addr :=
  match c with
  | [] => None
  | f :: _ => Some (frame_addr f)
  end.

Fixpoint ctx_root (c : list frame) (hole : option addr) : option addr :=
  match c with
  | [] => hole
  | f :: c => ctx_root c (Some (frame_addr f))
  end.

Fixpoint ctx_addrs (c : list frame) : list addr :=
  match c with
  | [] => []
  | f :: c => frame_addr f :: addrs (frame_sibling f) ++ ctx_addrs c
  end.

(** The node record of a frame whose free slot holds [hole]. *)
Definition frame_node (f : frame) (par hole : option addr) : pr_node :=
  match f with
  | InL _ k d w r => mk_node k d par hole (root_ptr r) w
  | InR l _ k d w => mk_node k d par (root_ptr l) hole w
  end.

Fixpoint repr_ctx (m : gmap Z pr_node) (c : list frame) (hole : option addr)
  : Prop :=
  match c with
  | [] => True
  | f :: c =>
      m !! frame_addr f = Some (frame_node f (ctx_parent c) hole)
      /\ repr_tree m (Some (frame_addr f)) (frame_sibling f)
      /\ repr_ctx m c (Some (frame_addr f))
  end.

(** * The operations on the abstract tree

    What each C function does to the tree it works on.  These functions are
    the specifications against which the memory-level code above is
    verified; they follow its loops step by step. *)

Definition frot_left (t : ptree) : ptree :=
  match t with
  | Node A b kb db wb (Node C d kd dd wd E) =>
      let wB := wrap_ulong (fweight A + fweight C) in
      Node (Node A b kb db wB C) d kd dd (wrap_ulong (wB + fweight E)) E
  | _ => t
  end.

Definition frot_right (t : ptree) : ptree :=
  match t with
  | Node (Node A b kb db wb C) d kd dd wd E =>
      let wD := wrap_ulong (fweight C + fweight E) in
      Node A b kb db (wrap_ulong (fweight A + wD)) (Node C d kd dd wD E)
  | _ => t
  end.

Definition on_left (f : ptree -> ptree) (t : ptree) : ptree :=
  match t with
  | Leaf => Leaf
  | Node l a k d w r => Node (f l) a k d w r
  end.

Definition on_right (f : ptree -> ptree) (t : ptree) : ptree :=
  match t with
  | Leaf => Leaf
  | Node l a k d w r => Node l a k d w (f r)
  end.

Definition left (t : ptree) : ptree :=
  match t with Leaf => Leaf | Node l _ _ _ _ _ => l end.
Definition right (t : ptree) : ptree :=
  match t with Leaf => Leaf | Node _ _ _ _ _ r => r end.

(** [fixup] at the root of [t].  After a single rotation the node has
    become the left (or right) child of the new root and is examined again;
    after a double rotation the far grandchild is fixed up first. *)
Fixpoint ffixup (fuel : nat) (t : ptree) : ptree :=
  match fuel with
  | O => t
  | S fuel =>
      let wl := fweight (left t) in
      let wr := fweight (right t) in
      if wl <? wr then
        if wl <? fweight (right (right t)) then
          on_left (ffixup fuel) (frot_left t)
        else if wl <? fweight (left (right t)) then
          on_left (ffixup fuel)
            (on_right (on_right (ffixup fuel))
               (frot_left (on_right frot_right t)))
        else t
      else if wr <? wl then
        if wr <? fweight (left (left t)) then
          on_right (ffixup fuel) (frot_right t)
        else if wr <? fweight (right (left t)) then
          on_right (ffixup fuel)
            (on_left (on_left (ffixup fuel))
               (frot_right (on_left frot_left t)))
        else t
      else t
  end.

(** The descent shared by search, insert, probe and remove: from the
    position [(c, t)] towards key [k], down to the node holding a key equal
    to [k] or to the null link where it would be. *)
Fixpoint fdescend (cmp : ptr -> ptr -> Z) (k : ptr) (c : list frame)
    (t : ptree) : list frame * ptree :=
  match t with
  | Leaf => (c, Leaf)
  | Node l a k' d w r =>
      let rv := cmp k k' in
      if rv <? 0 then fdescend cmp k (InL a k' d w r :: c) l
      else if 0 <? rv then fdescend cmp k (InR l a k' d w :: c) r
      else (c, t)
  end.

Definition fsearch (cmp : ptr -> ptr -> Z) (k : ptr) (t : ptree) : ptr :=
  match (fdescend cmp k [] t).2 with
  | Leaf => NULL
  | Node _ _ _ d _ _ => d
  end.

Definition frame_add_weight (z : Z) (f : frame) : frame :=
  match f with
  | InL a k d w r => InL a k d (wrap_ulong (w + z)) r
  | InR l a k d w => InR l a k d (wrap_ulong (w + z))
  end.

(** The ascent of insert: every ancestor, nearest first, has its weight
    incremented and is fixed up. *)
Fixpoint fascend (gas : nat) (c : list frame) (t : ptree) : ptree :=
  match c with
  | [] => t
  | f :: c => fascend gas c (ffixup gas (fill (frame_add_weight 1 f) t))
  end.

Definition finsert_new (gas : nat) (cmp : ptr -> ptr -> Z) (a : addr)
    (k d : ptr) (t : ptree) : ptree :=
  fascend gas (fdescend cmp k [] t).1 (Node Leaf a k d 2 Leaf).

Definition set_entry (k d : ptr) (t : ptree) : ptree :=
  match t with
  | Leaf => Leaf
  | Node l a _ _ w r => Node l a k d w r
  end.

(** The loop of remove once it stands on the node to delete. *)
Fixpoint fremove_at (fuel : nat) (c : list frame) (t : ptree) : ptree :=
  match fuel with
  | O => plug c t
  | S fuel =>
      match t with
      | Leaf => plug c t
      | Node Leaf _ _ _ _ r => plug (frame_add_weight (-1) <$> c) r
      | Node l _ _ _ _ Leaf => plug (frame_add_weight (-1) <$> c) l
      | Node l a k d w r =>
          if fweight r <? fweight l then
            let l := if fweight (left l) <? fweight (right l)
                     then frot_left l else l in
            match frot_right (Node l a k d w r) with
            | Node A o ko do wo t' => fremove_at fuel (InR A o ko do wo :: c) t'
            | Leaf => Leaf
            end
          else
            let r := if fweight (right r) <? fweight (left r)
                     then frot_right r else r in
            match frot_left (Node l a k d w r) with
            | Node t' o ko do wo E => fremove_at fuel (InL o ko do wo E :: c) t'
            | Leaf => Leaf
            end
      end
  end.

(** One iteration of the rotation loop of remove at a node with two
    children: the frame that the rotation puts above the node, and the
    subtree that the node keeps. *)
Definition fremove_rot (t : ptree) : option (frame * ptree) :=
  match t with
  | Node (Node _ _ _ _ _ _ as l) a k d w (Node _ _ _ _ _ _ as r) =>
      if fweight r <? fweight l then
        let l := if fweight (left l) <? fweight (right l)
                 then frot_left l else l in
        match frot_right (Node l a k d w r) with
        | Node A o ko do wo t' => Some (InR A o ko do wo, t')
        | Leaf => None
        end
      else
        let r := if fweight (right r) <? fweight (left r)
                 then frot_right r else r in
        match frot_left (Node l a k d w r) with
        | Node t' o ko do wo E => Some (InL o ko do wo E, t')
        | Leaf => None
        end
  | _ => None
  end.

Definition fremove (fuel : nat) (cmp : ptr -> ptr -> Z) (k : ptr)
    (t : ptree) : ptree :=
  let '(c, t') := fdescend cmp k [] t in fremove_at fuel c t'.

(** * Invariants *)

(** Weights: every node's weight is the sum of the weights of its children,
    an absent child counting for 1; equivalently, one more than the number
    of nodes below and including it. *)
Fixpoint weights_ok (t : ptree) : Prop :=
  match t with
  | Leaf => True
  | Node l _ _ _ w r => w = fweight l + fweight r /\ weights_ok l /\ weights_ok r
  end.

(** The comparator's contract: the sign of [cmp] is a strict total order up
    to the equivalence [cmp a b = 0]. *)
Record cmp_ok (cmp : ptr -> ptr -> Z) : Prop := {
  cmp_antisym : forall a b, cmp a b < 0 <-> 0 < cmp b a;
  cmp_trans : forall a b c, cmp a b < 0 -> cmp b c < 0 -> cmp a c < 0;
  cmp_eq_l : forall a b c, cmp a b = 0 -> cmp b c < 0 -> cmp a c < 0;
  cmp_eq_r : forall a b c, cmp a b = 0 -> cmp c b < 0 -> cmp c a < 0
}.

(** Keys in strictly ascending comparator order. *)
Definition ascending (cmp : ptr -> ptr -> Z) (l : list ptr) : Prop :=
  StronglySorted (fun a b => cmp a b < 0) l.

(** The path-reduction balance condition at the root of [t]. *)
Definition balanced_root (t : ptree) : Prop :=
  let wl := fweight (left t) in
  let wr := fweight (right t) in
  (wl < wr ->
     fweight (right (right t)) <= wl /\ fweight (left (right t)) <= wl)
  /\ (wr < wl ->
     fweight (left (left t)) <= wr /\ fweight (right (left t)) <= wr).

Fixpoint balanced (t : ptree) : Prop :=
  match t with
  | Leaf => True
  | Node l _ _ _ _ r => balanced_root t /\ balanced l /\ balanced r
  end.

(** The same condition, read from memory at node [a] the way [fixup] reads
    it. *)
Definition node_balanced (s : state) (a : addr) : res bool :=
  n ← deref s a;
  wl ← WEIGHT s (llink n);
  wr ← WEIGHT s (rlink n);
  if wl <? wr then
    r ← load s (rlink n);
    wrr ← WEIGHT s (rlink r);
    wrl ← WEIGHT s (llink r);
    Ok ((wrr <=? wl) && (wrl <=? wl))
  else if wr <? wl then
    l ← load s (llink n);
    wll ← WEIGHT s (llink l);
    wlr ← WEIGHT s (rlink l);
    Ok ((wll <=? wr) && (wlr <=? wr))
  else Ok true.

(** The invariant of the states the program reaches: the memory holds a
    tree, whose weights are exact, whose nodes lie in the address space and
    whose size is the count. *)
Record wf (s : state) (t : ptree) : Prop := {
  wf_rep : rep s t;
  wf_weights : weights_ok t;
  wf_range : Forall (fun a => 0 < a < ULONG_MOD - 1) (addrs t);
  wf_count : count (tree s) = wrap_uint (Z.of_nat (size t));
  wf_dom : forall a, is_Some (mem s !! a) <-> a ∈ addrs t
}.

(** States reachable from a new tree by the mutating operations. *)
Inductive reachable : state -> Prop :=
| reach_new cmp del s :
    pr_tree_new true cmp del = Some s -> reachable s
| reach_insert s fuel m k d overwrite rv s' :
    reachable s ->
    pr_tree_insert fuel s m k d overwrite = Ok (rv, s') -> reachable s'
| reach_probe s fuel m k d rv d' s' :
    reachable s ->
    pr_tree_probe fuel s m k d = Ok (rv, d', s') -> reachable s'
| reach_remove s fuel k rv s' :
    reachable s ->
    pr_tree_remove fuel s k = Ok (rv, s') -> reachable s'
| reach_empty s fuel n s' :
    reachable s ->
    pr_tree_empty fuel s = Ok (n, s') -> reachable s'
| reach_set_data s it d old_datum rv old s' :
    reachable s ->
    pr_itor_set_data s it d old_datum = Ok (rv, old, s') -> reachable s'.

(** The invariant of the reachable states: the nodes form a well-formed tree
    and, when the comparator is an order, the keys ascend in order. *)
Definition tree_inv (s : state) (t : ptree) : Prop :=
  wf s t
  /\ (cmp_ok (key_cmp (tree s)) -> ascending (key_cmp (tree s)) (keys t)).

(** ** The invariants of the specification, read from memory *)

(** The weight invariant at every live node. *)
Definition weight_invariant (s : state) : Prop :=
  forall a n, mem s !! a = Some n ->
    exists wl wr,
      WEIGHT s (llink n) = Ok wl /\ WEIGHT s (rlink n) = Ok wr
      /\ weight n = wl + wr.

(** The path-reduction balance condition at every live node. *)
Definition balance_invariant (s : state) : Prop :=
  forall a, is_Some (mem s !! a) -> node_balanced s a = Ok true.

(** The entries that the live nodes hold. *)
Definition stored (s : state) (k d : ptr) : Prop :=
  exists a n, mem s !! a = Some n /\ key n = k /\ datum n = d.

(** ** Sequences of operations *)

Inductive op : Type :=
| Insert (m : option addr) (k d : ptr) (overwrite : Z)
| Probe (m : option addr) (k d : ptr)
| Remove (k : ptr)
| Empty.

Definition run_op (fuel : nat) (s : state) (o : op) : res state :=
  match o with
  | Insert m k d ow => '(_, s) ← pr_tree_insert fuel s m k d ow; Ok s
  | Probe m k d => '(_, s) ← pr_tree_probe fuel s m k d; Ok s
  | Remove k => '(_, s) ← pr_tree_remove fuel s k; Ok s
  | Empty => '(_, s) ← pr_tree_empty fuel s; Ok s
  end.

Fixpoint run_ops (fuel : nat) (s : state) (os : list op) : res state :=
  match os with
  | [] => Ok s
  | o :: os => s ← run_op fuel s o; run_ops fuel s os
  end.

(** The state that a sequence of operations leaves, starting from a new
    tree with the comparator [dict_ptr_cmp] and no [del_func]. *)
Definition state_after (fuel : nat) (os : list op) : option state :=
  s ← pr_tree_new true None false;
  match run_ops fuel s os with
  | Ok s => Some s
  | _ => None
  end.

(** ** Scenarios

    Concrete runs of the program, on keys that are small integers compared
    by [dict_ptr_cmp] and node blocks at the addresses 100, 101, ... *)

Definition empty_state : state :=
  mk_state ∅ (mk_tree None 0 dict_ptr_cmp false) [].

Definition final_state (fuel : nat) (os : list op) : state :=
  default empty_state (state_after fuel os).

(** Keys 2, 1, 3, 4 in this order. *)
Definition sample_ops : list op :=
  [Insert (Some 100) 2 20 0; Insert (Some 101) 1 10 0;
   Insert (Some 102) 3 30 0; Insert (Some 103) 4 40 0].

Definition sample_state : state := final_state 10 sample_ops.

(** The same, and then key 1 removed. *)
Definition spliced_state : state :=
  final_state 10 (sample_ops ++ [Remove 1]).

(** The keys of [sample_ops] in a tree that has a [del_func]. *)
Definition logged_state : state :=
  match pr_tree_new true None true with
  | Some s =>
      match run_ops 10 s sample_ops with
      | Ok s => s
      | _ => empty_state
      end
  | None => empty_state
  end.

(** Fifteen insertions and nothing else. *)
Definition leaning_ops : list op :=
  (fun '(a, k) => Insert (Some a) k 0 0) <$>
  [(100, 18); (101, 14); (102, 9); (103, 5); (104, 1); (105, 17); (106, 12);
   (107, 4); (108, 2); (109, 3); (110, 16); (111, 15); (112, 11); (113, 7);
   (114, 10)].

Definition leaning_state : state := final_state 20 leaning_ops.

(** The pairs of [sample_ops], inserted in descending order of the keys and
    into other blocks. *)
Definition resorted_ops : list op :=
  [Insert (Some 200) 4 40 0; Insert (Some 201) 3 30 0;
   Insert (Some 202) 2 20 0; Insert (Some 203) 1 10 0].

Definition resorted_state : state := final_state 10 resorted_ops.

(** The tree of [sample_ops], emptied. *)
Definition emptied_state : state := final_state 20 (sample_ops ++ [Empty]).

(** ** Further notions on trees and states *)

(** The number of levels of a tree, and the number of levels that are
    full, counted from the root. *)
Fixpoint levels (t : ptree) : nat :=
  match t with
  | Leaf => O
  | Node l _ _ _ _ r => S (levels l `max` levels r)
  end.

Fixpoint full_levels (t : ptree) : nat :=
  match t with
  | Leaf => O
  | Node l _ _ _ _ r => S (full_levels l `min` full_levels r)
  end.

(** The sum, over the nodes below the root of [t], of their depths, the
    children of the root being at depth [level]. *)
Fixpoint fpathlen (t : ptree) (level : Z) : Z :=
  match t with
  | Leaf => 0
  | Node l _ _ _ _ r =>
      (match l with Leaf => 0 | _ => level + fpathlen l (level + 1) end)
      + (match r with Leaf => 0 | _ => level + fpathlen r (level + 1) end)
  end.

(** The links of the live nodes agree with each other: a child's [parent]
    is the node that links to it, the root has no parent, and every other
    node is a child of its parent. *)
Definition links_ok (s : state) : Prop :=
  (forall r, root (tree s) = Some r ->
     exists n, mem s !! r = Some n /\ parent n = None)
  /\ (forall a n, mem s !! a = Some n ->
       (forall b, llink n = Some b ->
          exists nb, mem s !! b = Some nb /\ parent nb = Some a)
       /\ (forall b, rlink n = Some b ->
            exists nb, mem s !! b = Some nb /\ parent nb = Some a)
       /\ (llink n <> None -> llink n <> rlink n)
       /\ match parent n with
          | Some p =>
              exists np, mem s !! p = Some np
                /\ (llink np = Some a \/ rlink np = Some a)
          | None => root (tree s) = Some a
          end).

(** The entries of a tree, children before their parent. *)
Fixpoint postorder (t : ptree) : list (ptr * ptr) :=
  match t with
  | Leaf => []
  | Node l _ k d _ r => postorder l ++ postorder r ++ [(k, d)]
  end.

(** The entries that [del_func] has been called with since [s], when the
    tree has a [del_func]; none when it has not. *)
Definition released (s : state) (l : list (ptr * ptr)) : list (ptr * ptr) :=
  if del_func (tree s) then l else [].

(** * Auxiliary notions of the proofs *)

(** State components that only insertion, removal and clearing change. *)
Definition same_meta (s s' : state) : Prop :=
  count (tree s') = count (tree s)
  /\ key_cmp (tree s') = key_cmp (tree s)
  /\ del_func (tree s') = del_func (tree s)
  /\ del_log s' = del_log s.

(** A tree that fits the address space has weights that fit [weight_t]. *)
Definition fits (t : ptree) : Prop := Z.of_nat (size t) + 1 < ULONG_MOD.

(** [keeps t t']: [t'] has the nodes of [t], in the same order, and exact
    weights. *)
Definition keeps (t t' : ptree) : Prop :=
  size t' = size t
  /\ addrs t' = addrs t
  /\ entries t' = entries t
  /\ weights_ok t'
  /\ fweight t' = fweight t.

Definition frame_weight (f : frame) : Z :=
  match f with
  | InL _ _ _ w _ => w
  | InR _ _ _ _ w => w
  end.

(** [ctx_stale z c w]: the weights along [c] become exact once [z] is
    added to each of them, for a subtree of weight [w] at the position. *)
Fixpoint ctx_stale (z : Z) (c : list frame) (w : Z) : Prop :=
  match c with
  | [] => True
  | f :: c =>
      weights_ok (frame_sibling f)
      /\ frame_weight f + z = fweight (frame_sibling f) + w
      /\ ctx_stale z c (frame_weight f + z)
  end.

Fixpoint ctx_size (c : list frame) : nat :=
  match c with
  | [] => O
  | f :: c => S (size (frame_sibling f) + ctx_size c)
  end.

(** The entries to the left and to the right of a position. *)
Fixpoint ctx_left (c : list frame) : list (ptr * ptr) :=
  match c with
  | [] => []
  | InL _ _ _ _ _ :: c => ctx_left c
  | InR l _ k d _ :: c => ctx_left c ++ entries l ++ [(k, d)]
  end.

Fixpoint ctx_right (c : list frame) : list (ptr * ptr) :=
  match c with
  | [] => []
  | InL _ k d _ r :: c => (k, d) :: entries r ++ ctx_right c
  | InR _ _ _ _ _ :: c => ctx_right c
  end.

(** The addresses before and after a position, in order. *)
Fixpoint ctx_before (c : list frame) : list addr :=
  match c with
  | [] => []
  | InL _ _ _ _ _ :: c => ctx_before c
  | InR l a _ _ _ :: c => ctx_before c ++ addrs l ++ [a]
  end.

Fixpoint ctx_after (c : list frame) : list addr :=
  match c with
  | [] => []
  | InL a _ _ _ r :: c => a :: addrs r ++ ctx_after c
  | InR _ _ _ _ _ :: c => ctx_after c
  end.

(** What a walk shows to its visitor: the entries in order, up to the first
    one at which the visitor returns false. *)
Fixpoint walk_prefix (visit : ptr -> ptr -> bool) (l : list (ptr * ptr))
  : list (ptr * ptr) :=
  match l with
  | [] => []
  | (k, d) :: l => (k, d) :: if visit k d then walk_prefix visit l else []
  end.

(** The last comparison of a descent agrees with the side of the nearest
    ancestor on which the position lies. *)
Definition slot_ok (rv : Z) (c : list frame) : Prop :=
  match c with
  | [] => True
  | InL _ _ _ _ _ :: _ => rv < 0
  | InR _ _ _ _ _ :: _ => ~ rv < 0
  end.

(** The same blocks are live in [s] and [s']. *)
Definition same_dom (s s' : state) : Prop :=
  forall x, is_Some (mem s' !! x) <-> is_Some (mem s !! x).

(** The weights stored in memory are the same in [s] and [s'], except at
    the addresses in [X]. *)
Definition same_weights_except (X : list addr) (s s' : state) : Prop :=
  forall x, x ∉ X -> weight <$> mem s' !! x = weight <$> mem s !! x.

(** [around cmp k c]: the key [k] lies between what is on the left and what
    is on the right of the position [c]. *)
Definition around (cmp : ptr -> ptr -> Z) (k : ptr) (c : list frame) : Prop :=
  (forall k', k' ∈ (ctx_left c).*1 -> 0 < cmp k k')
  /\ (forall k', k' ∈ (ctx_right c).*1 -> cmp k k' < 0).

(** Some node of the tree holds a key that compares equal to [k]. *)
Definition holds_key (s : state) (k : ptr) : Prop :=
  exists a n, mem s !! a = Some n /\ key_cmp (tree s) k (key n) = 0.

(** [le_res r1 r2]: whatever [r1] returns, [r2] returns too.  More fuel
    never changes a result. *)
Definition le_res {A : Type} (r1 r2 : res A) : Prop :=
  forall v, r1 = Ok v -> r2 = Ok v.

(** ** The steps of insert and remove, as seen in memory *)

(** [parent_chain s a l]: [l] lists the ancestors of the node at [a], from
    its parent up to the root. *)
Inductive parent_chain (s : state) : addr -> list addr -> Prop :=
| chain_root a n :
    mem s !! a = Some n -> parent n = None -> parent_chain s a []
| chain_step a n p l :
    mem s !! a = Some n -> parent n = Some p -> parent_chain s p l ->
    parent_chain s a (p :: l).

(** [leaf_linked s a k d s0]: [s0] is [s] with one more node, the leaf at
    [a] that holds [k] and [d] and has weight 2: it is the root when [s] has
    none, and otherwise stands below a node [p] of [s], in the place of a
    null link of [p].  Nothing else differs. *)
Definition leaf_linked (s : state) (a : addr) (k d : ptr) (s0 : state)
  : Prop :=
  (root (tree s) = None
   /\ s0 = with_root (Some a)
             (with_mem (<[a := mk_node k d None None None 2]> (mem s)) s))
  \/ exists p np np',
       mem s !! p = Some np
       /\ ((llink np = None /\ np' = set_llink (Some a) np)
           \/ (rlink np = None /\ np' = set_rlink (Some a) np))
       /\ s0 = with_mem (<[p := np']>
                          (<[a := mk_node k d (Some p) None None 2]> (mem s)))
                s.

(** [ascent gas P s l s']: the ascent of insert from the state [s] through
    the nodes [l], to the state [s'].  At each node [a] of [l] in turn, the
    weight of [a] is incremented by one, no other field of any node being
    touched, and [fixup] is called on [a] and returns; [P] relates the
    state in which the ascent reaches [a], the node [a], and the state in
    which its [fixup] returns. *)
Inductive ascent (gas : nat) (P : state -> addr -> state -> Prop)
  : state -> list addr -> state -> Prop :=
| ascent_done s : ascent gas P s [] s
| ascent_at s a n s2 l s' :
    mem s !! a = Some n ->
    fixup gas (with_mem (<[a := set_weight (weight n + 1) n]> (mem s)) s) a
      = Ok s2 ->
    P s a s2 ->
    ascent gas P s2 l s' ->
    ascent gas P s (a :: l) s'.

(** The one child, if any, of a node that has at most one: [out] in
    [pr_tree_remove]. *)
Definition only_child (n : pr_node) : option addr :=
  match llink n with
  | None => rlink n
  | Some _ => llink n
  end.

(** What the splice of the node [n] at [a] does to the links of another
    node [nx] at [x]: the child of [n] gets the parent of [n] as its
    parent, the parent of [n] gets that child in the place of [a], and
    every other node keeps its links. *)
Definition splice_links (a : addr) (n : pr_node) (x : addr) (nx : pr_node)
  : pr_node :=
  if bool_decide (only_child n = Some x) then set_parent (parent n) nx
  else if bool_decide (parent n = Some x) then
    if bool_decide (llink nx = Some a) then set_llink (only_child n) nx
    else set_rlink (only_child n) nx
  else nx.

(** ** Decomposition at a position *)

Lemma root_ptr_fill f t : root_ptr (fill f t) = Some (frame_addr f).
Proof. by destruct f. Qed.

Lemma root_ptr_plug c t : root_ptr (plug c t) = ctx_root c (root_ptr t).
Proof.
  revert t; induction c as [|f c IH]; intros t; simpl; [done|].
  by rewrite IH, root_ptr_fill.
Qed.

Lemma addrs_fill f t :
  addrs (fill f t) ≡ₚ frame_addr f :: addrs (frame_sibling f) ++ addrs t.
Proof.
  destruct f; simpl.
  - rewrite <- Permutation_middle. f_equiv. apply (comm (++)).
  - by rewrite <- Permutation_middle.
Qed.

Lemma addrs_plug c t : addrs (plug c t) ≡ₚ ctx_addrs c ++ addrs t.
Proof.
  revert t; induction c as [|f c IH]; intros t; simpl; [done|].
  rewrite IH, addrs_fill. simpl.
  rewrite <- Permutation_middle. f_equiv.
  rewrite !(assoc (++)). f_equiv. apply (comm (++)).
Qed.

Lemma size_plug_fill c f t : size (plug c (fill f t)) = size (plug (f :: c) t).
Proof. done. Qed.

Lemma repr_tree_fill m par f t :
  repr_tree m par (fill f t) <->
  m !! frame_addr f = Some (frame_node f par (root_ptr t))
  /\ repr_tree m (Some (frame_addr f)) (frame_sibling f)
  /\ repr_tree m (Some (frame_addr f)) t.
Proof. destruct f; simpl; tauto. Qed.

Lemma repr_tree_plug m c t :
  repr_tree m None (plug c t) <->
  repr_ctx m c (root_ptr t) /\ repr_tree m (ctx_parent c) t.
Proof.
  revert t; induction c as [|f c IH]; intros t; simpl; [tauto|].
  rewrite IH, root_ptr_fill, repr_tree_fill. tauto.
Qed.

(** Memories that agree on the addresses of a tree, or of a context, hold
    it alike. *)
Lemma repr_tree_agree m m' par t :
  (forall a, a ∈ addrs t -> m' !! a = m !! a) ->
  repr_tree m par t -> repr_tree m' par t.
Proof.
  revert par; induction t as [|l IHl a k d w r IHr]; intros par Hag; simpl; [done|].
  intros (Ha & Hl & Hr). split_and!.
  - rewrite Hag; [done|]. set_solver.
  - apply IHl; [|done]. intros x Hx; apply Hag. set_solver.
  - apply IHr; [|done]. intros x Hx; apply Hag. set_solver.
Qed.

Lemma repr_ctx_agree m m' c hole :
  (forall a, a ∈ ctx_addrs c -> m' !! a = m !! a) ->
  repr_ctx m c hole -> repr_ctx m' c hole.
Proof.
  revert hole; induction c as [|f c IH]; intros hole Hag; simpl; [done|].
  intros (Ha & Hs & Hc). split_and!.
  - rewrite Hag; [done|]. set_solver.
  - eapply repr_tree_agree; [|done]. intros x Hx; apply Hag. set_solver.
  - apply IH; [|done]. intros x Hx; apply Hag. set_solver.
Qed.

(** Changing the pointer held in the free slot of the nearest ancestor. *)
Lemma repr_ctx_hole m m' c hole hole' :
  (forall a, a ∈ ctx_addrs c -> Some a <> ctx_parent c -> m' !! a = m !! a) ->
  match c with
  | [] => True
  | f :: c' => m' !! frame_addr f = Some (frame_node f (ctx_parent c') hole')
  end ->
  NoDup (ctx_addrs c) ->
  repr_ctx m c hole -> repr_ctx m' c hole'.
Proof.
  destruct c as [|f c]; simpl; [done|].
  intros Hag Hf Hnd (Ha & Hs & Hc).
  apply NoDup_cons in Hnd as [Hnin Hnd].
  split_and!; [done| |].
  - eapply repr_tree_agree; [|done]. intros x Hx; apply Hag; [set_solver|].
    intros [= ->]. set_solver.
  - eapply repr_ctx_agree; [|done]. intros x Hx; apply Hag; [set_solver|].
    intros [= ->]. set_solver.
Qed.

(** ** Reading and writing at a position *)

Ltac nodup_split :=
  repeat match goal with
  | H : NoDup (_ ++ _) |- _ => apply NoDup_app in H as (? & ? & ?)
  | H : NoDup (_ :: _) |- _ => apply NoDup_cons in H as (? & ?)
  end.

#[global] Arguments deref : simpl never.
#[global] Arguments update : simpl never.
#[global] Arguments with_mem : simpl never.
#[global] Arguments with_root : simpl never.
#[global] Arguments with_count : simpl never.

Lemma rep_focus s c t :
  rep s (plug c t) <->
  root (tree s) = ctx_root c (root_ptr t)
  /\ repr_ctx (mem s) c (root_ptr t)
  /\ repr_tree (mem s) (ctx_parent c) t
  /\ NoDup (ctx_addrs c ++ addrs t).
Proof.
  unfold rep. rewrite root_ptr_plug, repr_tree_plug, addrs_plug. tauto.
Qed.

Lemma deref_focus s c l a k d w r :
  rep s (plug c (Node l a k d w r)) ->
  deref s a = Ok (mk_node k d (ctx_parent c) (root_ptr l) (root_ptr r) w).
Proof.
  intros (_ & _ & (Ha & _) & _)%rep_focus. unfold deref. by rewrite Ha.
Qed.

Lemma WEIGHT_focus s c t :
  rep s (plug c t) -> WEIGHT s (root_ptr t) = Ok (fweight t).
Proof.
  destruct t as [|l a k d w r]; [done|].
  intros H. simpl. by rewrite (deref_focus _ _ _ _ _ _ _ _ H).
Qed.


Lemma same_meta_refl s : same_meta s s.
Proof. done. Qed.

Lemma same_meta_trans s1 s2 s3 :
  same_meta s1 s2 -> same_meta s2 s3 -> same_meta s1 s3.
Proof. unfold same_meta. intuition congruence. Qed.

(** An assignment to the [key], [datum] or [weight] field of the node at a
    position. *)
Lemma update_focus s c l a k d w r f k' d' w' :
  rep s (plug c (Node l a k d w r)) ->
  f (mk_node k d (ctx_parent c) (root_ptr l) (root_ptr r) w)
    = mk_node k' d' (ctx_parent c) (root_ptr l) (root_ptr r) w' ->
  exists s', update s a f = Ok s'
    /\ rep s' (plug c (Node l a k' d' w' r))
    /\ tree s' = tree s /\ del_log s' = del_log s
    /\ mem s' = <[a := mk_node k' d' (ctx_parent c) (root_ptr l) (root_ptr r) w']> (mem s).
Proof.
  intros H Hf. unfold update. rewrite (deref_focus _ _ _ _ _ _ _ _ H). simpl.
  eexists; split; [done|]. rewrite Hf. split_and!; try done.
  apply rep_focus in H as (Hroot & Hc & (Ha & Hl & Hr) & Hnd).
  apply rep_focus. simpl in *. split_and!; try done.
  - eapply repr_ctx_agree; [|done]. intros x Hx.
    apply lookup_insert_ne. intros ->. nodup_split. set_solver.
  - apply lookup_insert_eq.
  - eapply repr_tree_agree; [|done]. intros x Hx.
    apply lookup_insert_ne. intros ->. nodup_split. set_solver.
  - eapply repr_tree_agree; [|done]. intros x Hx.
    apply lookup_insert_ne. intros ->. nodup_split. set_solver.
Qed.

Lemma mbind_Ok {A B} (f : A -> res B) (a : A) : mbind f (Ok a) = f a.
Proof. done. Qed.

Lemma deref_Some s a n : mem s !! a = Some n -> deref s a = Ok n.
Proof. unfold deref. by intros ->. Qed.

Lemma update_Some s a f n :
  mem s !! a = Some n -> update s a f = Ok (with_mem (<[a := f n]> (mem s)) s).
Proof. unfold update. intros H. by rewrite (deref_Some _ _ _ H). Qed.

Lemma with_mem_with_mem m m' s : with_mem m (with_mem m' s) = with_mem m s.
Proof. done. Qed.
Lemma mem_with_mem m s : mem (with_mem m s) = m.
Proof. done. Qed.
Lemma mem_with_root r s : mem (with_root r s) = mem s.
Proof. done. Qed.
Lemma with_mem_with_root m r s : with_mem m (with_root r s) = with_root r (with_mem m s).
Proof. done. Qed.

Lemma WEIGHT_agree s m par t :
  repr_tree m par t ->
  (forall a, root_ptr t = Some a -> mem s !! a = m !! a) ->
  WEIGHT s (root_ptr t) = Ok (fweight t).
Proof.
  destruct t; simpl; [done|]. intros (H & _) Hag.
  unfold deref. rewrite Hag by done. by rewrite H.
Qed.

Lemma root_ptr_addrs t a : root_ptr t = Some a -> a ∈ addrs t.
Proof. destruct t; simpl; [done|]. intros [= ->]. set_solver. Qed.

(** Distinctness of addresses, from the absence of duplicates. *)
Lemma submseteq_NoDup (l k : list Z) : NoDup k -> l ⊆+ k -> NoDup l.
Proof.
  intros Hnd [k' Hk]%submseteq_Permutation. rewrite Hk in Hnd.
  by apply NoDup_app in Hnd as (? & _).
Qed.

Lemma nodup_ne (L : list Z) a b : NoDup L -> [a; b] ⊆+ L -> a <> b.
Proof.
  intros Hnd Hsub. assert (Hab : NoDup [a; b]) by (by eapply submseteq_NoDup).
  apply NoDup_cons in Hab as [Hab _]. set_solver.
Qed.

Lemma nodup_ne_in (L X : list Z) a x :
  NoDup L -> a :: X ⊆+ L -> x ∈ X -> a <> x.
Proof.
  intros Hnd Hsub Hx ->.
  assert (Hab : NoDup (x :: X)) by (by eapply submseteq_NoDup).
  by apply NoDup_cons in Hab as [Hab _].
Qed.

Ltac ne_tac :=
  match goal with
  | Hnd : NoDup ?L |- ?a <> ?x =>
      first
      [ apply (nodup_ne L a x Hnd); solve_submseteq
      | match goal with
        | Hx : x ∈ ?X |- _ => apply (nodup_ne_in L X a x Hnd); [solve_submseteq|exact Hx]
        | Hx : root_ptr ?t = Some x |- _ =>
            apply (nodup_ne_in L (addrs t) a x Hnd);
            [solve_submseteq|exact (root_ptr_addrs _ _ Hx)]
        end ]
  end.

(** Looking up an address in a memory built by assignments. *)
Ltac lookup_tac :=
  rewrite ?mem_with_root, ?mem_with_mem;
  repeat first [ rewrite lookup_insert_eq | rewrite lookup_insert_ne by ne_tac ];
  try eassumption; try reflexivity.

Lemma WEIGHT_None s : WEIGHT s None = Ok 1.
Proof. done. Qed.
Lemma WEIGHT_Some s a : WEIGHT s (Some a) = n ← deref s a; Ok (weight n).
Proof. done. Qed.

Ltac node_simpl :=
  cbv [set_rlink set_parent set_llink set_key set_datum set_weight];
  cbn [rlink llink parent key datum weight].

Lemma root_ptr_ne (L : list Z) t a :
  NoDup L -> a :: addrs t ⊆+ L -> root_ptr t <> Some a.
Proof.
  intros Hnd Hsub E%root_ptr_addrs.
  by eapply (nodup_ne_in L (addrs t) a a Hnd).
Qed.

Ltac slot_ne_tac :=
  first
  [ discriminate
  | match goal with
    | Hnd : NoDup ?L |- root_ptr ?t <> Some ?a =>
        apply (root_ptr_ne L t a Hnd); solve_submseteq
    | |- Some ?a <> Some ?b =>
        let E := fresh in intros E; injection E; ne_tac
    end ].

Ltac exec_step :=
  first
  [ rewrite mbind_Ok
  | rewrite bool_decide_eq_true_2 by reflexivity
  | rewrite bool_decide_eq_false_2 by slot_ne_tac
  | erewrite deref_Some by lookup_tac
  | erewrite update_Some by lookup_tac
  | rewrite with_mem_with_mem
  | rewrite with_mem_with_root
  | rewrite mem_with_mem
  | rewrite mem_with_root
  | rewrite WEIGHT_None
  | rewrite WEIGHT_Some
  | rewrite insert_insert_eq
  | erewrite WEIGHT_agree by (first [eassumption | intros ? ?; lookup_tac])
  | progress node_simpl ].

Ltac agree_tac :=
  first
  [ eapply repr_tree_agree; [|eassumption]; intros ? ?; lookup_tac
  | eapply repr_ctx_agree; [|eassumption]; intros ? ?; lookup_tac ].

Lemma addrs_frot_left t : addrs (frot_left t) = addrs t.
Proof.
  destruct t as [|A b kb db wb [|C d kd dd wd E]]; simpl; try done.
  by rewrite <- app_assoc.
Qed.

Ltac finish_rep c :=
  eexists; split; [reflexivity|]; split; [|done];
  apply (rep_focus _ c); simpl;
  split_and!; try done; try lookup_tac; try agree_tac.

Lemma rot_left_spec s c A b kb db wb C d kd dd wd E :
  rep s (plug c (Node A b kb db wb (Node C d kd dd wd E))) ->
  exists s', rot_left s b = Ok s'
    /\ rep s' (plug c (frot_left (Node A b kb db wb (Node C d kd dd wd E))))
    /\ same_meta s s'.
Proof.
  intros H.
  apply rep_focus in H as (Hroot & Hc & (Hmb & HA & Hmd & HC & HE) & Hnd).
  unfold rot_left, REWEIGH, replace_child.
  destruct C as [|Cl c0 kc dc wc Cr];
    destruct c as [|[p kp dp wp pr | pl p kp dp wp] c]; simpl in *.
  - repeat exec_step. finish_rep (@nil frame).
    by rewrite <- app_assoc.
  - destruct Hc as (Hp & Hpr & Hc).
    repeat exec_step. finish_rep (InL p kp dp wp pr :: c).
    by rewrite <- (app_assoc (addrs A)).
  - destruct Hc as (Hp & Hpr & Hc).
    repeat exec_step. finish_rep (InR pl p kp dp wp :: c).
    by rewrite <- (app_assoc (addrs A)).
  - destruct HC as (Hc0 & HCl & HCr).
    repeat exec_step. finish_rep (@nil frame).
    by rewrite <- (app_assoc (addrs A)).
  - destruct Hc as (Hp & Hpr & Hc). destruct HC as (Hc0 & HCl & HCr).
    repeat exec_step. finish_rep (InL p kp dp wp pr :: c).
    by rewrite <- (app_assoc (addrs A)).
  - destruct Hc as (Hp & Hpr & Hc). destruct HC as (Hc0 & HCl & HCr).
    repeat exec_step. finish_rep (InR pl p kp dp wp :: c).
    by rewrite <- (app_assoc (addrs A)).
Qed.

Lemma addrs_frot_right t : addrs (frot_right t) = addrs t.
Proof.
  destruct t as [|[|A b kb db wb C] d kd dd wd E]; simpl; try done.
  by rewrite <- app_assoc.
Qed.

Lemma rot_right_spec s c A b kb db wb C d kd dd wd E :
  rep s (plug c (Node (Node A b kb db wb C) d kd dd wd E)) ->
  exists s', rot_right s d = Ok s'
    /\ rep s' (plug c (frot_right (Node (Node A b kb db wb C) d kd dd wd E)))
    /\ same_meta s s'.
Proof.
  intros H.
  apply rep_focus in H as (Hroot & Hc & (Hmd & (Hmb & HA & HC) & HE) & Hnd).
  unfold rot_right, REWEIGH, replace_child.
  destruct C as [|Cl c0 kc dc wc Cr];
    destruct c as [|[p kp dp wp pr | pl p kp dp wp] c]; simpl in *.
  - repeat exec_step. finish_rep (@nil frame).
    by rewrite <- app_assoc in Hnd.
  - destruct Hc as (Hp & Hpr & Hc).
    repeat exec_step. finish_rep (InL p kp dp wp pr :: c).
    by rewrite <- (app_assoc (addrs A)) in Hnd.
  - destruct Hc as (Hp & Hpr & Hc).
    repeat exec_step. finish_rep (InR pl p kp dp wp :: c).
    by rewrite <- (app_assoc (addrs A)) in Hnd.
  - destruct HC as (Hc0 & HCl & HCr).
    repeat exec_step. finish_rep (@nil frame).
    by rewrite <- (app_assoc (addrs A)) in Hnd.
  - destruct Hc as (Hp & Hpr & Hc). destruct HC as (Hc0 & HCl & HCr).
    repeat exec_step. finish_rep (InL p kp dp wp pr :: c).
    by rewrite <- (app_assoc (addrs A)) in Hnd.
  - destruct Hc as (Hp & Hpr & Hc). destruct HC as (Hc0 & HCl & HCr).
    repeat exec_step. finish_rep (InR pl p kp dp wp :: c).
    by rewrite <- (app_assoc (addrs A)) in Hnd.
Qed.

(** * Properties of the abstract operations *)

(** ** Weights and sizes *)


Lemma ULONG_MOD_eq : ULONG_MOD = 18446744073709551616.
Proof. reflexivity. Qed.

Lemma UINT_MOD_eq : UINT_MOD = 4294967296.
Proof. reflexivity. Qed.

Ltac ulia := unfold fits in *; rewrite ?ULONG_MOD_eq, ?UINT_MOD_eq in *; simpl in *; lia.

Lemma wrap_ulong_small z : 0 <= z < ULONG_MOD -> wrap_ulong z = z.
Proof. intros. unfold wrap_ulong. by apply Z.mod_small. Qed.

Lemma fweight_size t : weights_ok t -> fweight t = Z.of_nat (size t) + 1.
Proof.
  induction t as [|l IHl a k d w r IHr]; simpl; [done|].
  intros (-> & Hl & Hr). rewrite IHl, IHr by done. lia.
Qed.

Lemma fweight_pos t : weights_ok t -> 1 <= fweight t.
Proof. intros H. rewrite (fweight_size _ H). lia. Qed.

Lemma fweight_leaf t : weights_ok t -> fweight t <= 1 -> t = Leaf.
Proof.
  destruct t; [done|]. intros H. rewrite (fweight_size _ H). simpl. lia.
Qed.


Lemma size_frot_left t : size (frot_left t) = size t.
Proof. destruct t as [|A b kb db wb [|C d kd dd wd E]]; simpl; lia. Qed.

Lemma size_frot_right t : size (frot_right t) = size t.
Proof. destruct t as [|[|A b kb db wb C] d kd dd wd E]; simpl; lia. Qed.

Lemma entries_frot_left t : entries (frot_left t) = entries t.
Proof.
  destruct t as [|A b kb db wb [|C d kd dd wd E]]; simpl; try done.
  by rewrite <- app_assoc.
Qed.

Lemma entries_frot_right t : entries (frot_right t) = entries t.
Proof.
  destruct t as [|[|A b kb db wb C] d kd dd wd E]; simpl; try done.
  by rewrite <- app_assoc.
Qed.

Lemma weights_ok_frot_left t :
  weights_ok t -> fits t -> weights_ok (frot_left t).
Proof.
  destruct t as [|A b kb db wb [|C d kd dd wd E]]; simpl; try done.
  unfold fits; simpl. intros (-> & HA & -> & HC & HE) Hfit.
  pose proof (fweight_size _ HA). pose proof (fweight_size _ HC).
  pose proof (fweight_size _ HE).
  rewrite (wrap_ulong_small (fweight A + fweight C)) by ulia.
  rewrite wrap_ulong_small by ulia. split_and!; try done.
Qed.

Lemma weights_ok_frot_right t :
  weights_ok t -> fits t -> weights_ok (frot_right t).
Proof.
  destruct t as [|[|A b kb db wb C] d kd dd wd E]; simpl; try done.
  unfold fits; simpl. intros (-> & (-> & HA & HC) & HE) Hfit.
  pose proof (fweight_size _ HA). pose proof (fweight_size _ HC).
  pose proof (fweight_size _ HE).
  rewrite (wrap_ulong_small (fweight C + fweight E)) by ulia.
  rewrite wrap_ulong_small by ulia. split_and!; try done.
Qed.

Lemma fweight_frot_left t :
  weights_ok t -> fits t -> fweight (frot_left t) = fweight t.
Proof.
  intros H Hfit. rewrite !fweight_size, size_frot_left;
    auto using weights_ok_frot_left.
Qed.

Lemma fweight_frot_right t :
  weights_ok t -> fits t -> fweight (frot_right t) = fweight t.
Proof.
  intros H Hfit. rewrite !fweight_size, size_frot_right;
    auto using weights_ok_frot_right.
Qed.

(** ** Operations that keep the nodes, their order and the weights *)


Lemma keeps_refl t : weights_ok t -> keeps t t.
Proof. by unfold keeps. Qed.

Lemma keeps_trans t1 t2 t3 : keeps t1 t2 -> keeps t2 t3 -> keeps t1 t3.
Proof. unfold keeps. intuition congruence. Qed.

Lemma keeps_fits t t' : keeps t t' -> fits t -> fits t'.
Proof. unfold keeps, fits. intros (-> & _). done. Qed.

Lemma keeps_weights_ok t t' : keeps t t' -> weights_ok t'.
Proof. unfold keeps. tauto. Qed.

Lemma weights_ok_left t : weights_ok t -> weights_ok (left t).
Proof. destruct t; simpl; tauto. Qed.

Lemma weights_ok_right t : weights_ok t -> weights_ok (right t).
Proof. destruct t; simpl; tauto. Qed.

Lemma fits_left t : fits t -> fits (left t).
Proof. destruct t; unfold fits; simpl; lia. Qed.

Lemma fits_right t : fits t -> fits (right t).
Proof. destruct t; unfold fits; simpl; lia. Qed.

Lemma keeps_frot_left t : weights_ok t -> fits t -> keeps t (frot_left t).
Proof.
  intros H Hfit. unfold keeps.
  rewrite size_frot_left, addrs_frot_left, entries_frot_left.
  split_and!; auto using weights_ok_frot_left, fweight_frot_left.
Qed.

Lemma keeps_frot_right t : weights_ok t -> fits t -> keeps t (frot_right t).
Proof.
  intros H Hfit. unfold keeps.
  rewrite size_frot_right, addrs_frot_right, entries_frot_right.
  split_and!; auto using weights_ok_frot_right, fweight_frot_right.
Qed.

Lemma keeps_on_left f t :
  weights_ok t -> keeps (left t) (f (left t)) -> keeps t (on_left f t).
Proof.
  destruct t as [|l a k d w r]; simpl; [done|].
  intros (-> & Hl & Hr) (Hs & Ha & He & Hw & Hf). unfold keeps; simpl.
  rewrite Hs, Ha, He, Hf. done.
Qed.

Lemma keeps_on_right f t :
  weights_ok t -> keeps (right t) (f (right t)) -> keeps t (on_right f t).
Proof.
  destruct t as [|l a k d w r]; simpl; [done|].
  intros (-> & Hl & Hr) (Hs & Ha & He & Hw & Hf). unfold keeps; simpl.
  rewrite Hs, Ha, He, Hf. done.
Qed.

Lemma left_on_left f t : left (on_left f t) = f (left t) \/ t = Leaf.
Proof. destruct t; auto. Qed.

(** ** [ffixup] keeps the nodes, their order and the weight invariant *)

Lemma ffixup_leaf fuel : ffixup fuel Leaf = Leaf.
Proof. by destruct fuel. Qed.

Lemma ffixup_keeps fuel t :
  weights_ok t -> fits t -> keeps t (ffixup fuel t).
Proof.
  revert t; induction fuel as [|fuel IH]; intros t Hw Hfit; simpl;
    [by apply keeps_refl|].
  assert (Hsub : forall u, weights_ok u -> fits u ->
            keeps u (on_left (ffixup fuel) u) /\ keeps u (on_right (ffixup fuel) u)).
  { intros u Hu Hfu. split.
    - apply keeps_on_left; [done|]. apply IH; auto using weights_ok_left, fits_left.
    - apply keeps_on_right; [done|]. apply IH; auto using weights_ok_right, fits_right. }
  repeat case_match; try by apply keeps_refl.
  - eapply keeps_trans; [by apply keeps_frot_left|].
    apply Hsub; [by apply weights_ok_frot_left|].
    eapply keeps_fits; [by apply keeps_frot_left|done].
  - assert (K1 : keeps t (on_right frot_right t)).
    { apply keeps_on_right; [done|].
      apply keeps_frot_right; auto using weights_ok_right, fits_right. }
    assert (K2 : keeps t (frot_left (on_right frot_right t))).
    { eapply keeps_trans; [done|]. apply keeps_frot_left;
        eauto using keeps_weights_ok, keeps_fits. }
    set (t2 := frot_left (on_right frot_right t)) in *.
    assert (K3 : keeps t (on_right (on_right (ffixup fuel)) t2)).
    { eapply keeps_trans; [done|]. apply keeps_on_right;
        [eauto using keeps_weights_ok|].
      apply Hsub; eauto using keeps_weights_ok, keeps_fits, weights_ok_right, fits_right. }
    eapply keeps_trans; [done|].
    apply Hsub; eauto using keeps_weights_ok, keeps_fits.
  - eapply keeps_trans; [by apply keeps_frot_right|].
    apply Hsub; [by apply weights_ok_frot_right|].
    eapply keeps_fits; [by apply keeps_frot_right|done].
  - assert (K1 : keeps t (on_left frot_left t)).
    { apply keeps_on_left; [done|].
      apply keeps_frot_left; auto using weights_ok_left, fits_left. }
    assert (K2 : keeps t (frot_right (on_left frot_left t))).
    { eapply keeps_trans; [done|]. apply keeps_frot_right;
        eauto using keeps_weights_ok, keeps_fits. }
    set (t2 := frot_right (on_left frot_left t)) in *.
    assert (K3 : keeps t (on_left (on_left (ffixup fuel)) t2)).
    { eapply keeps_trans; [done|]. apply keeps_on_left;
        [eauto using keeps_weights_ok|].
      apply Hsub; eauto using keeps_weights_ok, keeps_fits, weights_ok_left, fits_left. }
    eapply keeps_trans; [done|].
    apply Hsub; eauto using keeps_weights_ok, keeps_fits.
Qed.

(** * [fixup] on memory performs [ffixup] on the tree *)

Lemma load_Some s a : load s (Some a) = deref s a.
Proof. done. Qed.

Lemma fixup_unfold fuel s node :
  fixup (S fuel) s node =
  (n ← deref s node;
   wl ← WEIGHT s (llink n);
   wr ← WEIGHT s (rlink n);
   if wl <? wr then
     r ← load s (rlink n);
     wrr ← WEIGHT s (rlink r);
     if wl <? wrr then
       s ← rot_left s node;
       fixup fuel s node
     else
       wrl ← WEIGHT s (llink r);
       if wl <? wrl then
         match rlink n with
         | None => Fault
         | Some temp =>
             s ← rot_right s temp;
             s ← rot_left s node;
             t ← deref s temp;
             s ← match rlink t with
                 | Some x => fixup fuel s x
                 | None => Ok s
                 end;
             fixup fuel s node
         end
       else Ok s
   else if wr <? wl then
     l ← load s (llink n);
     wll ← WEIGHT s (llink l);
     if wr <? wll then
       s ← rot_right s node;
       fixup fuel s node
     else
       wlr ← WEIGHT s (rlink l);
       if wr <? wlr then
         match llink n with
         | None => Fault
         | Some temp =>
             s ← rot_left s temp;
             s ← rot_right s node;
             t ← deref s temp;
             s ← match llink t with
                 | Some x => fixup fuel s x
                 | None => Ok s
                 end;
             fixup fuel s node
         end
       else Ok s
   else Ok s).
Proof. done. Qed.

Lemma fixup_spec fuel : forall s c t a,
  root_ptr t = Some a ->
  rep s (plug c t) ->
  weights_ok t -> fits t -> (size t <= fuel)%nat ->
  exists s', fixup fuel s a = Ok s'
    /\ rep s' (plug c (ffixup fuel t))
    /\ same_meta s s'.
Proof.
  induction fuel as [|fuel IH]; intros s c t a Hroot H Hw Hfit Hsz.
  { destruct t; simpl in *; [done|lia]. }
  destruct t as [|l a' k d w r]; [done|]. injection Hroot as ->.
  rewrite fixup_unfold.
  rewrite (deref_focus _ _ _ _ _ _ _ _ H), mbind_Ok. cbn [llink rlink].
  rewrite (WEIGHT_focus s (InL a k d w r :: c) l H), mbind_Ok.
  rewrite (WEIGHT_focus s (InR l a k d w :: c) r H), mbind_Ok.
  pose proof Hw as (Hweq & Hwl & Hwr).
  pose proof (fweight_pos _ Hwl) as Hl1. pose proof (fweight_pos _ Hwr) as Hr1.
  cbn [ffixup left right].
  destruct (fweight l <? fweight r) eqn:E1.
  - apply Z.ltb_lt in E1.
    destruct r as [|rl ra kr dr wr rr]; [simpl in E1; lia|].
    cbn [root_ptr left right]. rewrite load_Some.
    rewrite (deref_focus s (InR l a k d w :: c) _ _ _ _ _ _ H), mbind_Ok.
    cbn [llink rlink].
    rewrite (WEIGHT_focus s (InR rl ra kr dr wr :: InR l a k d w :: c) rr H), mbind_Ok.
    cbn [left right].
    destruct (fweight l <? fweight rr) eqn:E2.
    + destruct (rot_left_spec _ _ _ _ _ _ _ _ _ _ _ _ _ H) as (s1 & -> & H1 & M1).
      rewrite mbind_Ok. cbn [frot_left] in H1 |- *.
      pose proof (weights_ok_frot_left _ Hw Hfit) as Hw'. cbn [frot_left] in Hw'.
      destruct Hw' as (_ & Hw' & _).
      set (wB := wrap_ulong (fweight l + fweight rl)) in *.
      set (wD := wrap_ulong (wB + fweight rr)) in *.
      edestruct (IH s1 (InL ra kr dr wD rr :: c) (Node l a k d wB rl) a)
        as (s2 & -> & H2 & M2); [done|exact H1|exact Hw'| | |].
      { unfold fits in *; simpl in *; lia. }
      { simpl in *; lia. }
      eexists; split_and!; [done|exact H2|by eapply same_meta_trans].
    + rewrite (WEIGHT_focus s (InL ra kr dr wr rr :: InR l a k d w :: c) rl H), mbind_Ok.
      destruct (fweight l <? fweight rl) eqn:E3.
      * apply Z.ltb_lt in E3. destruct Hwr as (Hwreq & Hwrl & Hwrr).
        destruct rl as [|rll rla krl drl wrl rlr]; [simpl in E3; lia|].
        destruct (rot_right_spec s (InR l a k d w :: c) _ _ _ _ _ _ _ _ _ _ _ H)
          as (s1 & -> & H1 & M1).
        rewrite mbind_Ok. cbn [frot_right plug fill] in H1.
        destruct (rot_left_spec s1 c _ _ _ _ _ _ _ _ _ _ _ H1) as (s2 & -> & H2 & M2).
        rewrite mbind_Ok. cbn [frot_left] in H2.
        cbn [on_right frot_right frot_left on_left].
        set (wD := wrap_ulong (fweight rlr + fweight rr)) in *.
        set (wB := wrap_ulong (fweight l + fweight rll)) in *.
        set (wC := wrap_ulong (wB + fweight (Node rlr ra kr dr wD rr))) in *.
        rewrite (deref_focus s2 (InR (Node l a k d wB rll) rla krl drl wC :: c)
                   _ _ _ _ _ _ H2), mbind_Ok.
        cbn [rlink].
        assert (HwB : weights_ok (Node l a k d wB rll)).
        { destruct Hwrl as (? & Hwrll & ?). simpl; split_and!; try done.
          unfold wB. apply wrap_ulong_small.
          pose proof (fweight_size _ Hwl). pose proof (fweight_size _ Hwrll).
          unfold fits in Hfit. simpl in Hfit. ulia. }
        assert (exists s3, match root_ptr rr with
                           | Some x => fixup fuel s2 x
                           | None => Ok s2
                           end = Ok s3
                  /\ rep s3 (plug c (Node (Node l a k d wB rll) rla krl drl wC
                                      (Node rlr ra kr dr wD (ffixup fuel rr))))
                  /\ same_meta s2 s3) as (s3 & -> & H3 & M3).
        { destruct rr as [|rrl rra krr drr wrr rrr] eqn:Err.
          - exists s2. rewrite ffixup_leaf. by split_and!.
          - rewrite <- Err in *. 
            edestruct (IH s2 (InR rlr ra kr dr wD :: InR (Node l a k d wB rll) rla krl drl wC :: c)
                         rr rra) as (s3 & Hf3 & H3 & M3);
              [by rewrite Err|exact H2|done| | |].
            { unfold fits in *; simpl in *; lia. }
            { simpl in *; lia. }
            exists s3. rewrite Err at 1. simpl. by split_and!. }
        rewrite mbind_Ok.
        edestruct (IH s3 (InL rla krl drl wC (Node rlr ra kr dr wD (ffixup fuel rr)) :: c)
                     (Node l a k d wB rll) a) as (s4 & -> & H4 & M4);
          [done|exact H3|done| | |].
        { unfold fits in *; simpl in *; lia. }
        { simpl in *; lia. }
        eexists; split_and!; [done|exact H4|].
        eauto using same_meta_trans.
      * eexists; split_and!; [done|done|apply same_meta_refl].
  - destruct (fweight r <? fweight l) eqn:E1'.
    + apply Z.ltb_lt in E1'.
      destruct l as [|ll la kl dl wl lr]; [simpl in E1'; lia|].
      cbn [root_ptr left right]. rewrite load_Some.
      rewrite (deref_focus s (InL a k d w r :: c) _ _ _ _ _ _ H), mbind_Ok.
      cbn [llink rlink].
      rewrite (WEIGHT_focus s (InL la kl dl wl lr :: InL a k d w r :: c) ll H), mbind_Ok.
      cbn [left right].
      destruct (fweight r <? fweight ll) eqn:E2.
      * destruct (rot_right_spec _ _ _ _ _ _ _ _ _ _ _ _ _ H) as (s1 & -> & H1 & M1).
        rewrite mbind_Ok. cbn [frot_right] in H1 |- *.
        pose proof (weights_ok_frot_right _ Hw Hfit) as Hw'. cbn [frot_right] in Hw'.
        destruct Hw' as (_ & _ & Hw').
        set (wD := wrap_ulong (fweight lr + fweight r)) in *.
        set (wB := wrap_ulong (fweight ll + wD)) in *.
        edestruct (IH s1 (InR ll la kl dl wB :: c) (Node lr a k d wD r) a)
          as (s2 & -> & H2 & M2); [done|exact H1|exact Hw'| | |].
        { unfold fits in *; simpl in *; lia. }
        { simpl in *; lia. }
        eexists; split_and!; [done|exact H2|by eapply same_meta_trans].
      * rewrite (WEIGHT_focus s (InR ll la kl dl wl :: InL a k d w r :: c) lr H), mbind_Ok.
        destruct (fweight r <? fweight lr) eqn:E3.
        -- apply Z.ltb_lt in E3. destruct Hwl as (Hwleq & Hwll & Hwlr).
           destruct lr as [|lrl lra klr dlr wlr lrr]; [simpl in E3; lia|].
           destruct (rot_left_spec s (InL a k d w r :: c) _ _ _ _ _ _ _ _ _ _ _ H)
             as (s1 & -> & H1 & M1).
           rewrite mbind_Ok. cbn [frot_left plug fill] in H1.
           destruct (rot_right_spec s1 c _ _ _ _ _ _ _ _ _ _ _ H1) as (s2 & -> & H2 & M2).
           rewrite mbind_Ok. cbn [frot_right] in H2.
           cbn [on_right frot_right frot_left on_left].
           set (wB := wrap_ulong (fweight ll + fweight lrl)) in *.
           set (wD := wrap_ulong (fweight lrr + fweight r)) in *.
           set (wC := wrap_ulong (fweight (Node ll la kl dl wB lrl) + wD)) in *.
           rewrite (deref_focus s2 (InL lra klr dlr wC (Node lrr a k d wD r) :: c)
                      _ _ _ _ _ _ H2), mbind_Ok.
           cbn [llink].
           assert (HwD : weights_ok (Node lrr a k d wD r)).
           { destruct Hwlr as (? & ? & Hwlrr). simpl; split_and!; try done.
             unfold wD. apply wrap_ulong_small.
             pose proof (fweight_size _ Hwr). pose proof (fweight_size _ Hwlrr).
             unfold fits in Hfit. simpl in Hfit. ulia. }
           assert (exists s3, match root_ptr ll with
                              | Some x => fixup fuel s2 x
                              | None => Ok s2
                              end = Ok s3
                     /\ rep s3 (plug c (Node (Node (ffixup fuel ll) la kl dl wB lrl)
                                         lra klr dlr wC (Node lrr a k d wD r)))
                     /\ same_meta s2 s3) as (s3 & -> & H3 & M3).
           { destruct ll as [|lll lla kll dll wll llr] eqn:Ell.
             - exists s2. rewrite ffixup_leaf. by split_and!.
             - rewrite <- Ell in *.
               edestruct (IH s2 (InL la kl dl wB lrl :: InL lra klr dlr wC (Node lrr a k d wD r) :: c)
                            ll lla) as (s3 & Hf3 & H3 & M3);
                 [by rewrite Ell|exact H2|done| | |].
               { unfold fits in *; simpl in *; lia. }
               { simpl in *; lia. }
               exists s3. rewrite Ell at 1. simpl. by split_and!. }
           rewrite mbind_Ok.
           edestruct (IH s3 (InR (Node (ffixup fuel ll) la kl dl wB lrl) lra klr dlr wC :: c)
                        (Node lrr a k d wD r) a) as (s4 & -> & H4 & M4);
             [done|exact H3|done| | |].
           { unfold fits in *; simpl in *; lia. }
           { simpl in *; lia. }
           eexists; split_and!; [done|exact H4|].
           eauto using same_meta_trans.
        -- eexists; split_and!; [done|done|apply same_meta_refl].
    + eexists; split_and!; [done|done|apply same_meta_refl].
Qed.

(** * Insertion *)

(** ** The context of a position *)



Lemma weights_ok_fill f t :
  weights_ok (fill f t) <->
  weights_ok t /\ weights_ok (frame_sibling f)
  /\ frame_weight f = fweight (frame_sibling f) + fweight t.
Proof. destruct f; simpl; intuition lia. Qed.

Lemma fweight_fill f t : fweight (fill f t) = frame_weight f.
Proof. by destruct f. Qed.

Lemma weights_ok_plug c t :
  weights_ok (plug c t) <-> weights_ok t /\ ctx_stale 0 c (fweight t).
Proof.
  revert t; induction c as [|f c IH]; intros t; simpl; [tauto|].
  rewrite IH, weights_ok_fill, fweight_fill, Z.add_0_r. tauto.
Qed.

Lemma ctx_stale_shift z c w : ctx_stale 0 c w -> ctx_stale z c (w + z).
Proof.
  revert w; induction c as [|f c IH]; intros w; simpl; [done|].
  rewrite Z.add_0_r. intros (Hs & Hw & Hc). split_and!; [done|lia|by apply IH].
Qed.

Lemma size_plug c t : size (plug c t) = (size t + ctx_size c)%nat.
Proof.
  revert t; induction c as [|f c IH]; intros t; simpl; [lia|].
  rewrite IH. destruct f; simpl; lia.
Qed.

Lemma size_plug_le c t : (size t <= size (plug c t))%nat.
Proof. rewrite size_plug. lia. Qed.

Lemma length_le_size_plug c t : (length c + size t <= size (plug c t))%nat.
Proof.
  rewrite size_plug. induction c as [|f c IH]; simpl; lia.
Qed.

Lemma size_fill_add_weight z f t :
  size (fill (frame_add_weight z f) t) = size (fill f t).
Proof. by destruct f. Qed.

Lemma size_plug_congr c t t' : size t = size t' -> size (plug c t) = size (plug c t').
Proof. intros E. by rewrite !size_plug, E. Qed.

Lemma fits_plug c t : fits (plug c t) -> fits t.
Proof. unfold fits. pose proof (size_plug_le c t). lia. Qed.

(** ** The ascent *)

Lemma entries_plug c t :
  entries (plug c t) = ctx_left c ++ entries t ++ ctx_right c.
Proof.
  revert t; induction c as [|f c IH]; intros t; simpl; [by rewrite app_nil_r|].
  rewrite IH. destruct f; simpl; by rewrite <- ?app_assoc.
Qed.

Lemma addrs_plug_congr c t t' :
  addrs t = addrs t' -> addrs (plug c t) = addrs (plug c t').
Proof.
  revert t t'; induction c as [|f c IH]; intros t t' E; simpl; [done|].
  apply IH. destruct f; simpl; by rewrite E.
Qed.

Lemma entries_plug_congr c t t' :
  entries t = entries t' -> entries (plug c t) = entries (plug c t').
Proof. intros E. by rewrite !entries_plug, E. Qed.

Lemma addrs_fill_add_weight z f t :
  addrs (fill (frame_add_weight z f) t) = addrs (fill f t).
Proof. by destruct f. Qed.

Lemma entries_fill_add_weight z f t :
  entries (fill (frame_add_weight z f) t) = entries (fill f t).
Proof. by destruct f. Qed.

Lemma length_addrs t : length (addrs t) = size t.
Proof.
  induction t; simpl; [done|]. rewrite length_app. simpl. lia.
Qed.

Lemma fascend_keeps gas c t :
  weights_ok t -> ctx_stale 1 c (fweight t) -> fits (plug c t) ->
  weights_ok (fascend gas c t)
  /\ size (fascend gas c t) = size (plug c t)
  /\ addrs (fascend gas c t) = addrs (plug c t)
  /\ entries (fascend gas c t) = entries (plug c t).
Proof.
  revert t; induction c as [|f c IH]; intros t Hw Hst Hfit; [done|].
  cbn [fascend plug]. destruct Hst as (Hws & Hweq & Hst).
  assert (Hsz1 : size (plug c (fill (frame_add_weight 1 f) t)) = size (plug (f :: c) t)).
  { cbn [plug]. apply size_plug_congr, size_fill_add_weight. }
  assert (Hfit1 : fits (fill (frame_add_weight 1 f) t)).
  { apply (fits_plug c). unfold fits in *. by rewrite Hsz1. }
  assert (Hw1 : weights_ok (fill (frame_add_weight 1 f) t)).
  { pose proof (fweight_size _ Hw). pose proof (fweight_size _ Hws).
    unfold fits in Hfit1.
    destruct f; simpl in *; split_and!; try done;
      rewrite wrap_ulong_small; ulia. }
  destruct (ffixup_keeps gas _ Hw1 Hfit1) as (Ksz & Kad & Ken & Kw & Kfw).
  destruct (IH (ffixup gas (fill (frame_add_weight 1 f) t))) as (R1 & R2 & R3 & R4).
  - done.
  - rewrite Kfw, fweight_fill.
    pose proof (fweight_size _ Hw). pose proof (fweight_size _ Hws).
    unfold fits in Hfit1.
    destruct f; simpl in *; rewrite wrap_ulong_small; try done; ulia.
  - unfold fits in *. rewrite (size_plug_congr c _ _ Ksz). by rewrite Hsz1.
  - split_and!; [done| | |].
    + rewrite R2. rewrite (size_plug_congr c _ _ Ksz). apply Hsz1.
    + rewrite R3. rewrite (addrs_plug_congr c _ _ Kad).
      apply addrs_plug_congr, addrs_fill_add_weight.
    + rewrite R4. rewrite (entries_plug_congr c _ _ Ken).
      apply entries_plug_congr, entries_fill_add_weight.
Qed.

Lemma insert_ascend_unfold gas fuel s node :
  insert_ascend gas (S fuel) s (Some node) =
  (n ← deref s node;
   s ← update s node (fun n => set_weight (wrap_ulong (weight n + 1)) n);
   s ← fixup gas s node;
   insert_ascend gas fuel s (parent n)).
Proof. done. Qed.

(** One ancestor's [node->weight++]. *)
Lemma bump_focus z s c f t :
  rep s (plug (f :: c) t) ->
  exists n s1,
    deref s (frame_addr f) = Ok n /\ parent n = ctx_parent c
    /\ update s (frame_addr f)
         (fun n => set_weight (wrap_ulong (weight n + z)) n) = Ok s1
    /\ rep s1 (plug c (fill (frame_add_weight z f) t))
    /\ tree s1 = tree s /\ del_log s1 = del_log s
    /\ (forall x, is_Some (mem s1 !! x) <-> is_Some (mem s !! x)).
Proof.
  intros H. destruct f as [a k d w r|l a k d w]; simpl in *.
  - edestruct (update_focus s c t a k d w r
                 (fun n => set_weight (wrap_ulong (weight n + z)) n)
                 k d (wrap_ulong (w + z)))
      as (s1 & Hu & H1 & Ht & Hl & Hm); [exact H|reflexivity|].
    eexists _, s1. rewrite (deref_focus _ _ _ _ _ _ _ _ H).
    split_and!; try done. intros x. rewrite Hm.
    destruct (decide (a = x)) as [->|]; [|by rewrite lookup_insert_ne].
    rewrite lookup_insert_eq. apply rep_focus in H as (_ & _ & (-> & _) & _). done.
  - edestruct (update_focus s c l a k d w t
                 (fun n => set_weight (wrap_ulong (weight n + z)) n)
                 k d (wrap_ulong (w + z)))
      as (s1 & Hu & H1 & Ht & Hl & Hm); [exact H|reflexivity|].
    eexists _, s1. rewrite (deref_focus _ _ _ _ _ _ _ _ H).
    split_and!; try done. intros x. rewrite Hm.
    destruct (decide (a = x)) as [->|]; [|by rewrite lookup_insert_ne].
    rewrite lookup_insert_eq. apply rep_focus in H as (_ & _ & (-> & _) & _). done.
Qed.

Lemma insert_ascend_spec gas : forall fuel c s t,
  rep s (plug c t) ->
  weights_ok t -> ctx_stale 1 c (fweight t) -> fits (plug c t) ->
  (length c <= fuel)%nat -> (size (plug c t) <= gas)%nat ->
  exists s', insert_ascend gas fuel s (ctx_parent c) = Ok s'
    /\ rep s' (fascend gas c t)
    /\ same_meta s s'.
Proof.
  induction fuel as [|fuel IH]; intros c s t H Hw Hst Hfit Hlen Hgas.
  { destruct c; simpl in *; [|lia]. exists s. split_and!; [done|done|apply same_meta_refl]. }
  destruct c as [|f c].
  { exists s. split_and!; [done|done|apply same_meta_refl]. }
  cbn [ctx_parent fascend]. rewrite insert_ascend_unfold.
  destruct Hst as (Hws & Hweq & Hst).
  assert (Hsz1 : size (plug c (fill (frame_add_weight 1 f) t)) = size (plug (f :: c) t)).
  { cbn [plug]. apply size_plug_congr, size_fill_add_weight. }
  assert (Hfit1 : fits (fill (frame_add_weight 1 f) t)).
  { apply (fits_plug c). unfold fits in *. by rewrite Hsz1. }
  assert (Hw1 : weights_ok (fill (frame_add_weight 1 f) t)).
  { pose proof (fweight_size _ Hw). pose proof (fweight_size _ Hws).
    unfold fits in Hfit1.
    destruct f; simpl in *; split_and!; try done;
      rewrite wrap_ulong_small; ulia. }
  destruct (bump_focus 1 s c f t H) as (n & s1 & -> & Hp & -> & H1 & Ht & Hl & _).
  rewrite !mbind_Ok, Hp.
  edestruct (fixup_spec gas s1 c (fill (frame_add_weight 1 f) t) (frame_addr f))
    as (s2 & -> & H2 & M2); [by destruct f|exact H1|done|done| |].
  { pose proof (size_plug_le c (fill (frame_add_weight 1 f) t)). lia. }
  rewrite mbind_Ok.
  destruct (ffixup_keeps gas _ Hw1 Hfit1) as (Ksz & Kad & Ken & Kw & Kfw).
  edestruct (IH c s2 (ffixup gas (fill (frame_add_weight 1 f) t)))
    as (s3 & -> & H3 & M3); [exact H2|done| | | | |].
  { rewrite Kfw, fweight_fill.
    pose proof (fweight_size _ Hw). pose proof (fweight_size _ Hws).
    unfold fits in Hfit1.
    destruct f; simpl in *; rewrite wrap_ulong_small; try done; ulia. }
  { unfold fits in *. rewrite (size_plug_congr c _ _ Ksz). by rewrite Hsz1. }
  { simpl in Hlen. lia. }
  { rewrite (size_plug_congr c _ _ Ksz). by rewrite Hsz1. }
  eexists; split_and!; [done|exact H3|].
  eapply same_meta_trans; [|exact M3]. eapply same_meta_trans; [|exact M2].
  unfold same_meta. by rewrite Ht, Hl.
Qed.

(** * What the memory-level code leaves alone

    These facts are read off the code itself and hold in every state. *)

Lemma bind_Ok_inv {A B} (c : res A) (k : A -> res B) y :
  c ≫= k = Ok y -> exists x, c = Ok x /\ k x = Ok y.
Proof. destruct c; simpl; [eauto|done|done]. Qed.

Ltac inv_bind H :=
  repeat
    match type of H with
    | (_ ≫= _) = Ok _ =>
        let x := fresh "x" in
        let E := fresh "E" in
        apply bind_Ok_inv in H as (x & E & H)
    end.

Ltac inv_step H :=
  first
  [ progress inv_bind H
  | match type of H with
    | (if ?b then _ else _) = Ok _ => destruct b eqn:?
    | match ?o with Some _ => _ | None => _ end = Ok _ => destruct o eqn:?
    | Fault = Ok _ => discriminate H
    | Timeout = Ok _ => discriminate H
    end ].

Ltac inv_all H := repeat inv_step H.

Lemma deref_inv s a n : deref s a = Ok n -> mem s !! a = Some n.
Proof. unfold deref. by destruct (mem s !! a); intros [= ->]. Qed.

Lemma update_inv s a f s' :
  update s a f = Ok s' ->
  exists n, mem s !! a = Some n /\ s' = with_mem (<[a := f n]> (mem s)) s.
Proof.
  unfold update. intros H. inv_bind H. apply deref_inv in E.
  injection H as <-. eauto.
Qed.

Lemma same_dom_refl s : same_dom s s.
Proof. done. Qed.

Lemma same_dom_trans s1 s2 s3 : same_dom s1 s2 -> same_dom s2 s3 -> same_dom s1 s3.
Proof. unfold same_dom. intros H1 H2 x. by rewrite H2, H1. Qed.

Lemma update_same_dom s a f s' : update s a f = Ok s' -> same_dom s s'.
Proof.
  intros (n & Hn & ->)%update_inv x. rewrite mem_with_mem.
  rewrite lookup_insert_is_Some'. split; [|by right].
  intros [->|]; [by rewrite Hn|done].
Qed.

Lemma replace_child_same_dom s par node x s' :
  replace_child s par node x = Ok s' -> same_dom s s'.
Proof.
  unfold replace_child. destruct par as [p|]; [|by intros [= <-]].
  intros H. inv_bind H. case_bool_decide; eauto using update_same_dom.
Qed.

Lemma REWEIGH_same_dom s a s' : REWEIGH s a = Ok s' -> same_dom s s'.
Proof. unfold REWEIGH. intros H. inv_bind H. eauto using update_same_dom. Qed.

Ltac to_same_dom :=
  repeat match goal with
  | E : update _ _ _ = Ok _ |- _ => apply update_same_dom in E
  | E : REWEIGH _ _ = Ok _ |- _ => apply REWEIGH_same_dom in E
  | E : replace_child _ _ _ _ = Ok _ |- _ => apply replace_child_same_dom in E
  | E : match ?o with Some _ => _ | None => _ end = Ok _ |- _ =>
      destruct o; [|injection E as <-]
  end.

Lemma rot_left_same_dom s a s' : rot_left s a = Ok s' -> same_dom s s'.
Proof.
  unfold rot_left. intros H. inv_bind H.
  destruct (rlink x) as [rl|]; [|done]. inv_bind H.
  to_same_dom; eauto 12 using same_dom_trans.
Qed.

Lemma rot_right_same_dom s a s' : rot_right s a = Ok s' -> same_dom s s'.
Proof.
  unfold rot_right. intros H. inv_bind H.
  destruct (llink x) as [ll|]; [|done]. inv_bind H.
  to_same_dom; eauto 12 using same_dom_trans.
Qed.

Lemma fixup_same_dom fuel : forall s a s',
  fixup fuel s a = Ok s' -> same_dom s s'.
Proof.
  induction fuel as [|fuel IH]; intros s a s' H; [done|].
  rewrite fixup_unfold in H. inv_all H;
    repeat match goal with
    | E : match ?o with Some _ => _ | None => _ end = Ok _ |- _ =>
        destruct o eqn:?
    | E : rot_left _ _ = Ok _ |- _ => apply rot_left_same_dom in E
    | E : rot_right _ _ = Ok _ |- _ => apply rot_right_same_dom in E
    | E : fixup fuel _ _ = Ok _ |- _ => apply IH in E
    | E : Ok _ = Ok _ |- _ => injection E as <-
    end; try done; eauto 8 using same_dom_trans.
Qed.

Lemma insert_ascend_same_dom gas fuel : forall s p s',
  insert_ascend gas fuel s p = Ok s' -> same_dom s s'.
Proof.
  induction fuel as [|fuel IH]; intros s [p|] s' H; try done;
    try (by injection H as <-).
  rewrite insert_ascend_unfold in H. inv_bind H.
  apply update_same_dom in E0. apply fixup_same_dom in E1. apply IH in H.
  eauto using same_dom_trans.
Qed.

(** [fixup] returns only once the node it was called on satisfies the
    balance condition at the place where it then stands. *)
Lemma fixup_balanced fuel : forall s a s',
  fixup fuel s a = Ok s' -> node_balanced s' a = Ok true.
Proof.
  induction fuel as [|fuel IH]; intros s a s' H; [done|].
  rewrite fixup_unfold in H. inv_all H;
    repeat match goal with
    | E : match ?o with Some _ => _ | None => _ end = Ok _ |- _ =>
        destruct o eqn:?
    end; eauto.
  all: injection H as <-; unfold node_balanced.
  all: repeat match goal with
       | E : _ = Ok _ |- _ => rewrite E; clear E; rewrite mbind_Ok
       | E : (_ <? _) = _ |- _ => rewrite E
       end; try done.
  all: f_equal; apply andb_true_iff; split; apply Z.leb_le; lia.
Qed.

(** ** Trees that fit the address space *)

Lemma NoDup_range_length (l : list Z) (n : Z) :
  0 < n -> NoDup l -> Forall (fun a => 0 < a < n) l -> Z.of_nat (length l) < n.
Proof.
  intros Hn Hnd Hr.
  assert (Hnd' : NoDup (Z.to_nat <$> l)).
  { apply NoDup_fmap_2_strong; [|done].
    intros x y Hx Hy E. rewrite Forall_forall in Hr.
    pose proof (Hr _ Hx). pose proof (Hr _ Hy). lia. }
  assert (Hin : (Z.to_nat <$> l) ⊆ seq 1 (Z.to_nat n - 1)).
  { intros x (y & -> & Hy)%list_elem_of_fmap. rewrite Forall_forall in Hr.
    pose proof (Hr _ Hy). apply elem_of_seq. lia. }
  apply NoDup_ListNoDup in Hnd'.
  pose proof (List.NoDup_incl_length (l' := seq 1 (Z.to_nat n - 1)) Hnd') as Hlen.
  rewrite length_fmap, length_seq in Hlen.
  assert ((length l <= Z.to_nat n - 1)%nat); [|lia].
  apply Hlen. intros x Hx. apply list_elem_of_In, Hin, list_elem_of_In, Hx.
Qed.

Lemma fits_range t :
  NoDup (addrs t) -> Forall (fun a => 0 < a < ULONG_MOD - 1) (addrs t) -> fits t.
Proof.
  intros Hnd Hr. assert (0 < ULONG_MOD - 1) as H0 by (rewrite ULONG_MOD_eq; lia).
  pose proof (NoDup_range_length _ _ H0 Hnd Hr) as H.
  rewrite length_addrs in H. unfold fits. lia.
Qed.

Lemma wf_fits s t : wf s t -> fits t.
Proof. intros [(_ & _ & Hnd) _ Hr _ _]. by apply fits_range. Qed.

(** ** Linking a new node *)

Lemma rep_call_del_func s k d t : rep (call_del_func s k d) t <-> rep s t.
Proof. unfold call_del_func, rep. by destruct (del_func (tree s)). Qed.

Lemma tree_call_del_func s k d : tree (call_del_func s k d) = tree s.
Proof. unfold call_del_func. by destruct (del_func (tree s)). Qed.

Lemma mem_call_del_func s k d : mem (call_del_func s k d) = mem s.
Proof. unfold call_del_func. by destruct (del_func (tree s)). Qed.

Lemma rep_with_count s n t : rep (with_count n s) t <-> rep s t.
Proof. done. Qed.

Lemma wrap_uint_succ z : wrap_uint (wrap_uint z + 1) = wrap_uint (z + 1).
Proof. unfold wrap_uint. by rewrite Zplus_mod_idemp_l. Qed.

Lemma wrap_uint_pred z : wrap_uint (wrap_uint z - 1) = wrap_uint (z - 1).
Proof. unfold wrap_uint. by rewrite Zminus_mod_idemp_l. Qed.

Lemma valid_block_inv s a :
  valid_block s a = true -> mem s !! a = None /\ 0 < a < ULONG_MOD - 1.
Proof.
  unfold valid_block. rewrite !andb_true_iff, bool_decide_eq_true.
  rewrite !Z.ltb_lt. tauto.
Qed.

(** The state after [node_new], [node->parent = parent] and the assignment
    of the new node to its parent's link (or to the root). *)
Lemma attach_spec s c a k d rv :
  rep s (plug c Leaf) -> mem s !! a = None -> slot_ok rv c ->
  (forall x, x ∈ addrs (plug c Leaf) -> is_Some (mem s !! x)) ->
  let s1 := with_mem (<[a := mk_node k d None None None 2]> (mem s)) s in
  exists s2 s3,
    update s1 a (set_parent (ctx_parent c)) = Ok s2
    /\ match ctx_parent c with
       | None => s3 = with_root (Some a) s2
       | Some p =>
           update s2 p (if rv <? 0 then set_llink (Some a)
                        else set_rlink (Some a)) = Ok s3
       end
    /\ rep s3 (plug c (Node Leaf a k d 2 Leaf))
    /\ same_meta s s3
    /\ (forall x, is_Some (mem s3 !! x) <-> x = a \/ is_Some (mem s !! x)).
Proof.
  intros H Hfresh Hslot Hdom s1.
  assert (Hnin : a ∉ ctx_addrs c).
  { intros Hin. destruct (Hdom a) as [? E]; [|by rewrite Hfresh in E].
    rewrite addrs_plug. set_solver. }
  apply rep_focus in H as (Hroot & Hc & _ & Hnd). simpl in Hnd, Hroot.
  rewrite app_nil_r in Hnd.
  assert (Hnd' : NoDup (ctx_addrs c ++ [a])).
  { apply NoDup_app. split_and!; [done|set_solver|apply NoDup_singleton]. }
  clear Hnd. subst s1.
  destruct c as [|[p kp dp wp pr | pl p kp dp wp] c]; simpl in *.
  - eexists _, _.
    split; [repeat exec_step; reflexivity|].
    split; [reflexivity|].
    split_and!.
    + apply (rep_focus _ []). simpl. split_and!; try done; lookup_tac.
    + done.
    + intros x. rewrite mem_with_root, mem_with_mem, !lookup_insert_is_Some'.
      naive_solver.
  - destruct Hc as (Hp & Hpr & Hc).
    apply Z.ltb_lt in Hslot. rewrite Hslot.
    eexists _, _.
    split; [repeat exec_step; reflexivity|].
    split; [repeat exec_step; reflexivity|].
    split_and!.
    + apply (rep_focus _ (InL p kp dp wp pr :: c)). simpl.
      split_and!; try done; try lookup_tac; try agree_tac.
    + done.
    + intros x. rewrite mem_with_mem, !lookup_insert_is_Some'.
      split; [intros [->|[->|]]; eauto; right; by rewrite Hp|naive_solver].
  - destruct Hc as (Hp & Hpr & Hc).
    apply Z.ltb_nlt in Hslot. rewrite Hslot.
    eexists _, _.
    split; [repeat exec_step; reflexivity|].
    split; [repeat exec_step; reflexivity|].
    split_and!.
    + apply (rep_focus _ (InR pl p kp dp wp :: c)). simpl.
      split_and!; try done; try lookup_tac; try agree_tac.
    + done.
    + intros x. rewrite mem_with_mem, !lookup_insert_is_Some'.
      split; [intros [->|[->|]]; eauto; right; by rewrite Hp|naive_solver].
Qed.

(** ** The descent *)

Lemma fdescend_plug cmp k : forall t c c' t',
  fdescend cmp k c t = (c', t') -> plug c' t' = plug c t.
Proof.
  induction t as [|l IHl a k0 d w r IHr]; intros c c' t'; simpl.
  - by intros [= <- <-].
  - repeat case_match; intros E.
    + by rewrite (IHl _ _ _ E).
    + by rewrite (IHr _ _ _ E).
    + by injection E as <- <-.
Qed.

Lemma fdescend_found cmp k : forall t c c' l a k0 d w r,
  fdescend cmp k c t = (c', Node l a k0 d w r) -> cmp k k0 = 0.
Proof.
  induction t as [|l' IHl a' k' d' w' r' IHr]; intros c c' l a k0 d w r; simpl.
  - done.
  - destruct (cmp k k' <? 0) eqn:E1; [by eauto|].
    destruct (0 <? cmp k k') eqn:E2; [by eauto|].
    intros [= _ _ _ <- _ _ _]. lia.
Qed.

Lemma search_loop_spec k : forall t c fuel s,
  rep s (plug c t) -> (size t <= fuel)%nat ->
  search_loop fuel s k (root_ptr t) =
    Ok (match (fdescend (key_cmp (tree s)) k c t).2 with
        | Leaf => NULL
        | Node _ _ _ d _ _ => d
        end).
Proof.
  induction t as [|l IHl a k0 d w r IHr]; intros c fuel s H Hsz.
  - by destruct fuel.
  - destruct fuel as [|fuel]; simpl in Hsz; [lia|].
    cbn [search_loop root_ptr fdescend].
    rewrite (deref_focus _ _ _ _ _ _ _ _ H), mbind_Ok. cbn [key llink rlink datum].
    destruct (_ <? 0).
    + apply (IHl (InL a k0 d w r :: c)); [done|lia].
    + destruct (0 <? _); [|done].
      apply (IHr (InR l a k0 d w :: c)); [done|lia].
Qed.

Lemma insert_loop_spec k d ow : forall t c fuel s rv,
  rep s (plug c t) -> (size t <= fuel)%nat -> slot_ok rv c ->
  match fdescend (key_cmp (tree s)) k c t with
  | (c', Leaf) =>
      exists rv',
        insert_loop fuel s k d ow (root_ptr t) (ctx_parent c) rv
          = Ok (Break (ctx_parent c', rv'))
        /\ slot_ok rv' c'
  | (c', Node l a k0 d0 w r) =>
      insert_loop fuel s k d ow (root_ptr t) (ctx_parent c) rv =
        if ow =? 0 then Ok (Return (1, s))
        else
          s1 ← update (call_del_func s k0 d0) a (set_key k);
          s2 ← update s1 a (set_datum d);
          Ok (Return (0, s2))
  end.
Proof.
  induction t as [|l IHl a k0 d0 w r IHr]; intros c fuel s rv H Hsz Hslot.
  - simpl. exists rv. by destruct fuel.
  - destruct fuel as [|fuel]; simpl in Hsz; [lia|].
    cbn [insert_loop root_ptr fdescend].
    rewrite (deref_focus _ _ _ _ _ _ _ _ H), mbind_Ok. cbn [key llink rlink datum].
    destruct (_ <? 0) eqn:E1.
    + apply (IHl (InL a k0 d0 w r :: c)); [done|lia|]. simpl. lia.
    + destruct (0 <? _) eqn:E2; [|done].
      apply (IHr (InR l a k0 d0 w :: c)); [done|lia|]. simpl. lia.
Qed.

Lemma probe_loop_spec k : forall t c fuel s rv,
  rep s (plug c t) -> (size t <= fuel)%nat -> slot_ok rv c ->
  match fdescend (key_cmp (tree s)) k c t with
  | (c', Leaf) =>
      exists rv',
        probe_loop fuel s k (root_ptr t) (ctx_parent c) rv
          = Ok (Break (ctx_parent c', rv'))
        /\ slot_ok rv' c'
  | (c', Node l a k0 d0 w r) =>
      probe_loop fuel s k (root_ptr t) (ctx_parent c) rv = Ok (Return d0)
  end.
Proof.
  induction t as [|l IHl a k0 d0 w r IHr]; intros c fuel s rv H Hsz Hslot.
  - simpl. exists rv. by destruct fuel.
  - destruct fuel as [|fuel]; simpl in Hsz; [lia|].
    cbn [probe_loop root_ptr fdescend].
    rewrite (deref_focus _ _ _ _ _ _ _ _ H), mbind_Ok. cbn [key llink rlink datum].
    destruct (_ <? 0) eqn:E1.
    + apply (IHl (InL a k0 d0 w r :: c)); [done|lia|]. simpl. lia.
    + destruct (0 <? _) eqn:E2; [|done].
      apply (IHr (InR l a k0 d0 w :: c)); [done|lia|]. simpl. lia.
Qed.

Lemma itor_search_loop_spec k : forall t c fuel s,
  rep s (plug c t) -> (size t <= fuel)%nat ->
  itor_search_loop fuel s k (root_ptr t) =
    Ok (root_ptr (fdescend (key_cmp (tree s)) k c t).2).
Proof.
  induction t as [|l IHl a k0 d w r IHr]; intros c fuel s H Hsz.
  - by destruct fuel.
  - destruct fuel as [|fuel]; simpl in Hsz; [lia|].
    cbn [itor_search_loop root_ptr fdescend].
    rewrite (deref_focus _ _ _ _ _ _ _ _ H), mbind_Ok. cbn [key llink rlink datum].
    destruct (_ <? 0).
    + apply (IHl (InL a k0 d w r :: c)); [done|lia].
    + destruct (0 <? _); [|done].
      apply (IHr (InR l a k0 d w :: c)); [done|lia].
Qed.

(** ** Insertion of a new key *)

Lemma insert_link_fail fuel s k d par rv hit :
  insert_link fuel s None k d par rv hit = Ok (-1, s).
Proof. done. Qed.

Lemma Forall_range_perm (P : Z -> Prop) (l l' : list Z) :
  l ≡ₚ l' -> Forall P l -> Forall P l'.
Proof. by intros ->. Qed.

Lemma insert_link_wf fuel s c a k d rv hit :
  wf s (plug c Leaf) -> slot_ok rv c -> valid_block s a = true ->
  (size (plug c Leaf) < fuel)%nat ->
  exists s',
    insert_link fuel s (Some a) k d (ctx_parent c) rv hit = Ok (hit, s')
    /\ wf s' (fascend fuel c (Node Leaf a k d 2 Leaf))
    /\ key_cmp (tree s') = key_cmp (tree s)
    /\ del_func (tree s') = del_func (tree s)
    /\ del_log s' = del_log s.
Proof.
  intros [Hrep Hw Hr Hcnt Hdom] Hslot (Hfresh & Hrange)%valid_block_inv Hfuel.
  destruct (attach_spec s c a k d rv Hrep Hfresh Hslot)
    as (s2 & s3 & Hu2 & Hu3 & H3 & M3 & D3).
  { intros x Hx. by apply Hdom. }
  set (t := Node Leaf a k d 2 Leaf) in *.
  assert (Hsz : size (plug c t) = S (size (plug c Leaf))).
  { rewrite !size_plug. simpl. lia. }
  assert (Hperm : addrs (plug c t) ≡ₚ a :: addrs (plug c Leaf)).
  { rewrite !addrs_plug. unfold t. simpl. solve_Permutation. }
  assert (Hr' : Forall (fun a => 0 < a < ULONG_MOD - 1) (addrs (plug c t))).
  { eapply Forall_range_perm; [symmetry; exact Hperm|]. by constructor. }
  assert (Hfit : fits (plug c t)).
  { apply fits_range; [|done]. by destruct H3 as (_ & _ & ?). }
  assert (Hwt : weights_ok t) by done.
  assert (Hst : ctx_stale 1 c (fweight t)).
  { apply weights_ok_plug in Hw as [_ Hw]. by apply (ctx_stale_shift 1) in Hw. }
  destruct (fascend_keeps fuel c t Hwt Hst Hfit) as (K1 & K2 & K3 & K4).
  unfold insert_link, node_new, MALLOC, valid_block.
  rewrite bool_decide_eq_true_2 by done.
  replace (0 <? a) with true by (symmetry; apply Z.ltb_lt; lia).
  replace (a <? ULONG_MOD - 1) with true by (symmetry; apply Z.ltb_lt; lia).
  cbn [andb]. rewrite !mbind_Ok. fold t.
  change (with_mem (<[a:=mk_node k d None None None 2]> (mem s)) s)
    with (with_mem (<[a:=mk_node k d None None None 2]> (mem s)) s) in Hu2.
  rewrite Hu2, mbind_Ok.
  destruct M3 as (Mc & Mk & Mf & Ml).
  destruct c as [|f c]; cbn [ctx_parent] in *.
  - subst s3. unfold ASSERT.
    replace (count (tree s2)) with (count (tree s)) by (by rewrite <- Mc).
    rewrite Hcnt. cbn [plug size]. change (wrap_uint (Z.of_nat 0) =? 0) with true.
    cbn iota. rewrite mbind_Ok.
    eexists; split; [reflexivity|]. split; [|done].
    cbn [fascend]. split.
    + done.
    + done.
    + done.
    + done.
    + intros x. unfold with_count, with_root; simpl. rewrite D3, Hdom.
      unfold t; simpl. set_solver.
  - rewrite Hu3, mbind_Ok.
    edestruct (insert_ascend_spec fuel fuel (f :: c) s3 t)
      as (s4 & Ha & H4 & M4); [exact H3|done|done|done| | |].
    { pose proof (length_le_size_plug (f :: c) t). lia. }
    { lia. }
    cbn [ctx_parent] in Ha. rewrite Ha, mbind_Ok.
    pose proof (insert_ascend_same_dom _ _ _ _ _ Ha) as D4.
    destruct M4 as (Mc4 & Mk4 & Mf4 & Ml4).
    eexists; split; [reflexivity|].
    split; [|unfold with_count; simpl; split_and!; congruence].
    split.
    + by apply rep_with_count.
    + done.
    + by rewrite K3.
    + unfold with_count; cbn [count tree]. rewrite Mc4, Mc, Hcnt, K2, Hsz.
      rewrite wrap_uint_succ. f_equal. lia.
    + intros x. unfold with_count; cbn [mem].
      rewrite (D4 x), D3, K3, Hperm, Hdom. set_solver.
Qed.

(** ** [pr_tree_insert] and [pr_tree_probe] *)

Lemma wf_set_entry s c l a k0 d0 w r k d s1 s2 :
  wf s (plug c (Node l a k0 d0 w r)) ->
  update s a (set_key k) = Ok s1 ->
  update s1 a (set_datum d) = Ok s2 ->
  wf s2 (plug c (Node l a k d w r))
  /\ tree s2 = tree s /\ del_log s2 = del_log s.
Proof.
  intros [Hrep Hw Hr Hcnt Hdom] H1 H2.
  edestruct (update_focus s c l a k0 d0 w r (set_key k) k d0 w)
    as (s1' & Hu1 & R1 & T1 & L1 & _); [done|done|].
  rewrite H1 in Hu1. injection Hu1 as <-.
  edestruct (update_focus s1 c l a k d0 w r (set_datum d) k d w)
    as (s2' & Hu2 & R2 & T2 & L2 & _); [done|done|].
  rewrite H2 in Hu2. injection Hu2 as <-.
  split; [|split; congruence].
  assert (Ha : addrs (plug c (Node l a k d w r)) = addrs (plug c (Node l a k0 d0 w r)))
    by (by apply addrs_plug_congr).
  split.
  - done.
  - apply weights_ok_plug in Hw as [Hw1 Hw2]. apply weights_ok_plug. done.
  - by rewrite Ha.
  - rewrite T2, T1, Hcnt. f_equal. f_equal. by apply size_plug_congr.
  - intros x. rewrite Ha, <- Hdom.
    rewrite (update_same_dom _ _ _ _ H2 x). apply (update_same_dom _ _ _ _ H1 x).
Qed.

Lemma wf_call_del_func s k d t : wf (call_del_func s k d) t <-> wf s t.
Proof.
  unfold call_del_func. destruct (del_func (tree s)); [|done].
  split; intros [? ? ? ? ?]; by split.
Qed.

Lemma pr_tree_insert_spec fuel s t m k d ow :
  wf s t -> (size t < fuel)%nat ->
  match fdescend (key_cmp (tree s)) k [] t with
  | (c, Leaf) =>
      match m with
      | None => pr_tree_insert fuel s m k d ow = Ok (-1, s)
      | Some a =>
          valid_block s a = true ->
          exists s',
            pr_tree_insert fuel s m k d ow = Ok (0, s')
            /\ wf s' (finsert_new fuel (key_cmp (tree s)) a k d t)
            /\ key_cmp (tree s') = key_cmp (tree s)
            /\ del_func (tree s') = del_func (tree s)
            /\ del_log s' = del_log s
      end
  | (c, Node l a k0 d0 w r) =>
      if ow =? 0 then pr_tree_insert fuel s m k d ow = Ok (1, s)
      else
        exists s',
          pr_tree_insert fuel s m k d ow = Ok (0, s')
          /\ wf s' (plug c (Node l a k d w r))
          /\ key_cmp (tree s') = key_cmp (tree s)
          /\ del_func (tree s') = del_func (tree s)
          /\ del_log s' = del_log (call_del_func s k0 d0)
  end.
Proof.
  intros Hwf Hfuel. pose proof Hwf as [Hrep _ _ _ _].
  pose proof (insert_loop_spec k d ow t [] fuel s 0 Hrep) as Hloop.
  unfold pr_tree_insert, finsert_new.
  destruct Hrep as (Hroot & _). rewrite Hroot. cbn [ctx_parent] in Hloop.
  destruct (fdescend (key_cmp (tree s)) k [] t) as [c t'] eqn:Ed.
  pose proof (fdescend_plug _ _ _ _ _ _ Ed) as Hplug. cbn [plug] in Hplug.
  destruct t' as [|l a k0 d0 w r].
  - destruct Hloop as (rv' & -> & Hslot); [lia|done|].
    rewrite mbind_Ok. destruct m as [a|]; [|done].
    intros Hvalid. rewrite <- Hplug in Hwf.
    destruct (insert_link_wf fuel s c a k d rv' 0 Hwf Hslot Hvalid)
      as (s' & -> & Hwf' & ? & ? & ?); [by rewrite Hplug|].
    exists s'. by split_and!.
  - rewrite Hloop; [|lia|done]. destruct (ow =? 0); [done|].
    rewrite <- Hplug in Hwf. apply (wf_call_del_func _ k0 d0) in Hwf.
    pose proof Hwf as [Hrep' _ _ _ _].
    edestruct (update_focus (call_del_func s k0 d0) c l a k0 d0 w r (set_key k) k d0 w)
      as (s1 & Hu1 & R1 & T1 & L1 & _); [done|done|].
    edestruct (update_focus s1 c l a k d0 w r (set_datum d) k d w)
      as (s2 & Hu2 & R2 & T2 & L2 & _); [done|done|].
    rewrite Hu1, mbind_Ok, Hu2, !mbind_Ok.
    destruct (wf_set_entry _ _ _ _ _ _ _ _ k d _ _ Hwf Hu1 Hu2) as (Hwf2 & Ht & Hl).
    exists s2. split_and!; try done.
    + by rewrite Ht, tree_call_del_func.
    + by rewrite Ht, tree_call_del_func.
Qed.

Lemma pr_tree_probe_spec fuel s t m k d :
  wf s t -> (size t < fuel)%nat ->
  match fdescend (key_cmp (tree s)) k [] t with
  | (c, Leaf) =>
      match m with
      | None => pr_tree_probe fuel s m k d = Ok (-1, d, s)
      | Some a =>
          valid_block s a = true ->
          exists s',
            pr_tree_probe fuel s m k d = Ok (1, d, s')
            /\ wf s' (finsert_new fuel (key_cmp (tree s)) a k d t)
            /\ key_cmp (tree s') = key_cmp (tree s)
            /\ del_func (tree s') = del_func (tree s)
            /\ del_log s' = del_log s
      end
  | (c, Node l a k0 d0 w r) =>
      pr_tree_probe fuel s m k d = Ok (0, d0, s)
  end.
Proof.
  intros Hwf Hfuel. pose proof Hwf as [Hrep _ _ _ _].
  pose proof (probe_loop_spec k t [] fuel s 0 Hrep) as Hloop.
  unfold pr_tree_probe, finsert_new.
  destruct Hrep as (Hroot & _). rewrite Hroot. cbn [ctx_parent] in Hloop.
  destruct (fdescend (key_cmp (tree s)) k [] t) as [c t'] eqn:Ed.
  pose proof (fdescend_plug _ _ _ _ _ _ Ed) as Hplug. cbn [plug] in Hplug.
  destruct t' as [|l a k0 d0 w r].
  - destruct Hloop as (rv' & -> & Hslot); [lia|done|].
    rewrite mbind_Ok. destruct m as [a|]; [|done].
    intros Hvalid. rewrite <- Hplug in Hwf.
    destruct (insert_link_wf fuel s c a k d rv' 1 Hwf Hslot Hvalid)
      as (s' & -> & Hwf' & ? & ? & ?); [by rewrite Hplug|].
    exists s'. by split_and!.
  - rewrite Hloop; [done|lia|done].
Qed.

(** * Removal *)

(** ** Decrementing the weights of the ancestors *)

Lemma decrement_ancestors_unfold fuel s t :
  decrement_ancestors (S fuel) s (Some t) =
  (s ← update s t (fun n => set_weight (wrap_ulong (weight n - 1)) n);
   n ← deref s t;
   decrement_ancestors fuel s (parent n)).
Proof. done. Qed.

Lemma deref_fill s c f t :
  rep s (plug c (fill f t)) ->
  exists n, deref s (frame_addr f) = Ok n /\ parent n = ctx_parent c.
Proof.
  intros H. destruct f; simpl in *;
    rewrite (deref_focus _ _ _ _ _ _ _ _ H); eauto.
Qed.

Lemma decrement_ancestors_spec : forall c fuel s t,
  rep s (plug c t) -> (length c <= fuel)%nat ->
  exists s', decrement_ancestors fuel s (ctx_parent c) = Ok s'
    /\ rep s' (plug (frame_add_weight (-1) <$> c) t)
    /\ tree s' = tree s /\ del_log s' = del_log s
    /\ same_dom s s'.
Proof.
  induction c as [|f c IH]; intros fuel s t H Hlen.
  { exists s. split_and!; try done. by destruct fuel. }
  destruct fuel as [|fuel]; simpl in Hlen; [lia|].
  cbn [ctx_parent]. rewrite decrement_ancestors_unfold.
  destruct (bump_focus (-1) s c f t H) as (n & s1 & _ & _ & Hu & H1 & Ht & Hl & Hd).
  change (fun n => set_weight (wrap_ulong (weight n - 1)) n)
    with (fun n => set_weight (wrap_ulong (weight n + -1)) n).
  rewrite Hu, mbind_Ok.
  destruct (deref_fill _ _ _ _ H1) as (n1 & Hn1 & Hp1).
  replace (frame_addr (frame_add_weight (-1) f)) with (frame_addr f) in Hn1
    by (by destruct f).
  rewrite Hn1, mbind_Ok, Hp1.
  destruct (IH fuel s1 (fill (frame_add_weight (-1) f) t) H1) as (s' & -> & H' & Ht' & Hl' & Hd');
    [lia|].
  exists s'. split_and!; try done; try congruence.
  intros x. by rewrite (Hd' x), Hd.
Qed.

(** ** The splice *)

Lemma call_del_func_with_mem m s k d :
  call_del_func (with_mem m s) k d = with_mem m (call_del_func s k d).
Proof.
  unfold call_del_func, with_mem. simpl.
  destruct (del_func (tree s)) eqn:E; simpl; rewrite ?E; reflexivity.
Qed.

Lemma call_del_func_with_root r s k d :
  call_del_func (with_root r s) k d = with_root r (call_del_func s k d).
Proof.
  unfold call_del_func, with_root. simpl.
  destruct (del_func (tree s)) eqn:E; simpl; rewrite ?E; reflexivity.
Qed.

Lemma del_log_call_del_func s k d :
  del_log (call_del_func s k d) =
    del_log s ++ (if del_func (tree s) then [(k, d)] else []).
Proof.
  unfold call_del_func. destruct (del_func (tree s)); simpl; [done|].
  by rewrite app_nil_r.
Qed.

Lemma root_call_del_func s k d : root (tree (call_del_func s k d)) = root (tree s).
Proof. by rewrite tree_call_del_func. Qed.

Ltac lookup_del_tac :=
  rewrite ?mem_with_root, ?mem_with_mem, ?mem_call_del_func;
  repeat first [ rewrite lookup_insert_eq
               | rewrite lookup_insert_ne by ne_tac
               | rewrite lookup_delete_ne by ne_tac ];
  try eassumption; try reflexivity.

Ltac agree_del_tac :=
  first
  [ eapply repr_tree_agree; [|eassumption]; intros ? ?; lookup_del_tac
  | eapply repr_ctx_agree; [|eassumption]; intros ? ?; lookup_del_tac ].

Ltac splice_finish c :=
  unfold FREE;
  rewrite ?call_del_func_with_mem, ?call_del_func_with_root,
    ?with_mem_with_mem, ?with_mem_with_root, ?mem_with_root, ?mem_with_mem,
    ?mem_call_del_func;
  eexists; split; [reflexivity|]; split_and!;
  [ apply (rep_focus _ c); simpl;
    rewrite ?root_call_del_func;
    split_and!; try done; try lookup_del_tac; try agree_del_tac
  | unfold with_root, with_mem; simpl; by rewrite tree_call_del_func
  | unfold with_root, with_mem; simpl; by rewrite tree_call_del_func
  | unfold with_root, with_mem; simpl; by rewrite tree_call_del_func
  | unfold with_root, with_mem; simpl; unfold call_del_func;
    by destruct (del_func (tree _))
  | let x := fresh "x" in
    intros x;
    rewrite ?mem_with_root, ?mem_with_mem, ?mem_call_del_func,
      lookup_delete_is_Some, ?lookup_insert_is_Some';
    repeat match goal with
    | H : mem _ !! _ = Some _ |- _ => apply mk_is_Some in H
    end;
    naive_solver ];
  try (eapply submseteq_NoDup; [eassumption|solve_submseteq]).

Lemma splice_spec s c l a k d w r out_t :
  rep s (plug c (Node l a k d w r)) ->
  (l = Leaf /\ out_t = r) \/ (r = Leaf /\ out_t = l) ->
  exists s1,
    (n ← deref s a;
     s ← match root_ptr out_t with
         | Some o => update s o (set_parent (parent n))
         | None => Ok s
         end;
     n ← deref s a;
     s ← replace_child s (parent n) a (root_ptr out_t);
     n ← deref s a;
     Ok (parent n, FREE (call_del_func s (key n) (datum n)) a))
      = Ok (ctx_parent c, s1)
    /\ rep s1 (plug c out_t)
    /\ count (tree s1) = count (tree s)
    /\ key_cmp (tree s1) = key_cmp (tree s)
    /\ del_func (tree s1) = del_func (tree s)
    /\ del_log s1 = del_log (call_del_func s k d)
    /\ (forall x, is_Some (mem s1 !! x) <-> x <> a /\ is_Some (mem s !! x)).
Proof.
  intros H Hout.
  apply rep_focus in H as (Hroot & Hc & (Hma & Hl & Hr) & Hnd).
  unfold replace_child.
  assert (Hdom : forall m : gmap Z pr_node, forall x,
            is_Some (m !! x) -> x <> a -> is_Some (delete a m !! x)).
  { intros m x Hx Hne. by rewrite lookup_delete_ne. }
  destruct Hout as [[-> ->]|[-> ->]];
    [destruct r as [|ol o ko do wo or]|destruct l as [|ol o ko do wo or]];
    destruct c as [|[p kp dp wp pr | pl p kp dp wp] c]; simpl in *;
    repeat match goal with
    | H : _ /\ _ |- _ => destruct H
    end.
  all: repeat exec_step.
  - splice_finish (@nil frame).
  - splice_finish (InL p kp dp wp pr :: c).
  - splice_finish (InR pl p kp dp wp :: c).
  - splice_finish (@nil frame).
  - splice_finish (InL p kp dp wp pr :: c).
  - splice_finish (InR pl p kp dp wp :: c).
  - splice_finish (@nil frame).
  - splice_finish (InL p kp dp wp pr :: c).
  - splice_finish (InR pl p kp dp wp :: c).
  - splice_finish (@nil frame).
  - splice_finish (InL p kp dp wp pr :: c).
  - splice_finish (InR pl p kp dp wp :: c).
Qed.

Lemma remove_splice_eq gas s node out :
  remove_splice gas s node out =
  ('(temp, s) ←
     (n ← deref s node;
      s ← match out with
          | Some o => update s o (set_parent (parent n))
          | None => Ok s
          end;
      n ← deref s node;
      s ← replace_child s (parent n) node out;
      n ← deref s node;
      Ok (parent n, FREE (call_del_func s (key n) (datum n)) node));
   s ← decrement_ancestors gas s temp;
   Ok (0, with_count (wrap_uint (count (tree s) - 1)) s)).
Proof.
  unfold remove_splice.
  destruct (deref s node) as [n| |]; [|done|done]. rewrite !mbind_Ok.
  destruct (match out with Some o => _ | None => _ end) as [s1| |]; [|done|done].
  rewrite !mbind_Ok.
  destruct (deref s1 node) as [n1| |]; [|done|done]. rewrite !mbind_Ok.
  destruct (replace_child s1 (parent n1) node out) as [s2| |]; [|done|done].
  rewrite !mbind_Ok.
  destruct (deref s2 node) as [n2| |]; [|done|done]. by rewrite !mbind_Ok.
Qed.

Lemma remove_splice_spec gas s c l a k d w r out_t :
  rep s (plug c (Node l a k d w r)) ->
  (l = Leaf /\ out_t = r) \/ (r = Leaf /\ out_t = l) ->
  (length c <= gas)%nat ->
  exists s',
    remove_splice gas s a (root_ptr out_t) = Ok (0, s')
    /\ rep s' (plug (frame_add_weight (-1) <$> c) out_t)
    /\ count (tree s') = wrap_uint (count (tree s) - 1)
    /\ key_cmp (tree s') = key_cmp (tree s)
    /\ del_func (tree s') = del_func (tree s)
    /\ del_log s' = del_log (call_del_func s k d)
    /\ (forall x, is_Some (mem s' !! x) <-> x <> a /\ is_Some (mem s !! x)).
Proof.
  intros H Hout Hlen. rewrite remove_splice_eq.
  destruct (splice_spec s c l a k d w r out_t H Hout)
    as (s1 & -> & H1 & C1 & K1 & F1 & L1 & D1).
  rewrite mbind_Ok.
  destruct (decrement_ancestors_spec c gas s1 out_t H1 Hlen)
    as (s2 & -> & H2 & T2 & L2 & D2).
  rewrite mbind_Ok.
  eexists; split; [reflexivity|]. split; [by apply rep_with_count|].
  unfold with_count; cbn [count tree mem del_log key_cmp del_func].
  rewrite T2. split_and!; try done; try congruence.
  intros x. by rewrite (D2 x), D1.
Qed.

(** ** The loop of [pr_tree_remove] on the node to delete *)

Lemma remove_loop_unfold gas fuel s k a :
  remove_loop gas (S fuel) s k (Some a) =
  (n ← deref s a;
   let rv := key_cmp (tree s) k (key n) in
   if negb (rv =? 0) then
     remove_loop gas fuel s k (if rv <? 0 then llink n else rlink n)
   else
     match llink n, rlink n with
     | None, _ => remove_splice gas s a (rlink n)
     | Some _, None => remove_splice gas s a (llink n)
     | Some ll, Some rl =>
         wl ← WEIGHT s (llink n);
         wr ← WEIGHT s (rlink n);
         if wr <? wl then
           l ← deref s ll;
           wll ← WEIGHT s (llink l);
           wlr ← WEIGHT s (rlink l);
           s ← (if wll <? wlr then rot_left s ll else Ok s);
           n ← deref s a;
           let out := llink n in
           s ← rot_right s a;
           o ← load s out;
           remove_loop gas fuel s k (rlink o)
         else
           r ← deref s rl;
           wrr ← WEIGHT s (rlink r);
           wrl ← WEIGHT s (llink r);
           s ← (if wrr <? wrl then rot_right s rl else Ok s);
           n ← deref s a;
           let out := rlink n in
           s ← rot_left s a;
           o ← load s out;
           remove_loop gas fuel s k (llink o)
     end).
Proof. done. Qed.

Lemma same_meta_dom_trans s1 s2 s3 :
  same_meta s1 s2 /\ same_dom s1 s2 -> same_meta s2 s3 /\ same_dom s2 s3 ->
  same_meta s1 s3 /\ same_dom s1 s3.
Proof. intros [] []. eauto using same_meta_trans, same_dom_trans. Qed.

Lemma remove_at_spec gas k : forall fuel s c l a k0 d0 w r,
  let t := Node l a k0 d0 w r in
  key_cmp (tree s) k k0 = 0 ->
  rep s (plug c t) -> weights_ok t -> fits t ->
  (size t <= fuel)%nat -> (length c + size t <= gas)%nat ->
  exists s',
    remove_loop gas fuel s k (Some a) = Ok (0, s')
    /\ rep s' (fremove_at fuel c t)
    /\ count (tree s') = wrap_uint (count (tree s) - 1)
    /\ key_cmp (tree s') = key_cmp (tree s)
    /\ del_func (tree s') = del_func (tree s)
    /\ del_log s' = del_log (call_del_func s k0 d0)
    /\ (forall x, is_Some (mem s' !! x) <-> x <> a /\ is_Some (mem s !! x)).
Proof.
  induction fuel as [|fuel IH]; intros s c l a k0 d0 w r t Hk H Hw Hfit Hsz Hgas.
  { simpl in Hsz. lia. }
  subst t. rewrite remove_loop_unfold.
  rewrite (deref_focus _ _ _ _ _ _ _ _ H), mbind_Ok. cbn [key llink rlink].
  cbv zeta. rewrite Hk. cbn [Z.eqb negb].
  destruct l as [|ll la kl dl wl lr].
  { cbn [root_ptr fremove_at].
    apply (remove_splice_spec gas s c Leaf a k0 d0 w r r H); [by left|].
    simpl in Hgas. lia. }
  destruct r as [|rl ra kr dr wr rr].
  { cbn [root_ptr fremove_at].
    apply (remove_splice_spec gas s c _ a k0 d0 w Leaf
             (Node ll la kl dl wl lr) H); [by right|].
    simpl in Hgas. lia. }
  cbn [root_ptr].
  pose proof (WEIGHT_focus s (InL a k0 d0 w (Node rl ra kr dr wr rr) :: c)
                (Node ll la kl dl wl lr) H) as HWL.
  pose proof (WEIGHT_focus s (InR (Node ll la kl dl wl lr) a k0 d0 w :: c)
                (Node rl ra kr dr wr rr) H) as HWR.
  cbn [root_ptr] in HWL, HWR. rewrite HWL, mbind_Ok, HWR, mbind_Ok.
  clear HWL HWR. cbn [fremove_at left right].
  set (L := Node ll la kl dl wl lr) in *. set (R := Node rl ra kr dr wr rr) in *.
  destruct Hw as (Hweq & HwL & HwR).
  assert (HfL : fits L) by (unfold fits in *; simpl in *; lia).
  assert (HfR : fits R) by (unfold fits in *; simpl in *; lia).
  destruct (fweight R <? fweight L) eqn:Ecmp.
  - (* the left side is heavier: rotate right *)
    rewrite (deref_focus s (InL a k0 d0 w R :: c) _ _ _ _ _ _ H), mbind_Ok.
    cbn [llink rlink].
    rewrite (WEIGHT_focus s (InL la kl dl wl lr :: InL a k0 d0 w R :: c) ll H), mbind_Ok.
    rewrite (WEIGHT_focus s (InR ll la kl dl wl :: InL a k0 d0 w R :: c) lr H), mbind_Ok.
    cbn [left right]. 
    assert (exists s1 L',
      (if fweight ll <? fweight lr then rot_left s la else Ok s) = Ok s1
      /\ L' = (if fweight ll <? fweight lr then frot_left L else L)
      /\ rep s1 (plug c (Node L' a k0 d0 w R))
      /\ keeps L L' /\ same_meta s s1 /\ same_dom s s1
      /\ exists A o ko do wo C, L' = Node A o ko do wo C)
      as (s1 & L' & -> & HL' & H1 & KL & M1 & D1 & (A & o & ko & do & wo & C & EL')).
    { destruct (fweight ll <? fweight lr) eqn:E2.
      - apply Z.ltb_lt in E2. destruct HwL as (? & Hwll & Hwlr).
        pose proof (fweight_pos _ Hwll).
        destruct lr as [|lrl lra klr dlr wlr lrr]; [simpl in E2; lia|].
        destruct (rot_left_spec s (InL a k0 d0 w R :: c) _ _ _ _ _ _ _ _ _ _ _ H)
          as (s1 & Hrot & Hrep1 & Mrot1).
        exists s1, (frot_left L).
        split_and!; [done|done|done| |done| |unfold L; simpl; eauto 10].
        + apply keeps_frot_left; [by split_and!|done].
        + by eapply rot_left_same_dom.
      - exists s, L.
        split_and!; [done|done|done|by apply keeps_refl|apply same_meta_refl
                    |done|unfold L; eauto 10]. }
    rewrite mbind_Ok. cbv zeta. rewrite <- HL'. clear HL'. subst L'.
    rewrite (deref_focus _ _ _ _ _ _ _ _ H1), mbind_Ok. cbn [llink root_ptr].
    cbv zeta.
    destruct (rot_right_spec _ _ _ _ _ _ _ _ _ _ _ _ _ H1) as (s2 & Hrot & H2 & M2).
    rewrite Hrot, mbind_Ok. cbn [frot_right] in H2 |- *.
    set (wD := wrap_ulong (fweight C + fweight R)) in *.
    set (wB := wrap_ulong (fweight A + wD)) in *.
    rewrite load_Some.
    rewrite (deref_focus _ _ _ _ _ _ _ _ H2), mbind_Ok. cbn [rlink root_ptr].
    destruct KL as (KLs & KLa & KLe & KLw & KLf).
    assert (Hwt : weights_ok (Node (Node A o ko do wo C) a k0 d0 w R)).
    { cbn [weights_ok]. split; [|split; [exact KLw|exact HwR]].
      rewrite Hweq, <- KLf. reflexivity. }
    assert (Hft : fits (Node (Node A o ko do wo C) a k0 d0 w R)).
    { unfold fits in *. simpl in *. lia. }
    pose proof (weights_ok_frot_right _ Hwt Hft) as Hw2. cbn [frot_right] in Hw2.
    fold wD wB in Hw2. destruct Hw2 as (_ & _ & Hw2).
    edestruct (IH s2 (InR A o ko do wB :: c) C a k0 d0 wD R)
      as (s3 & -> & H3 & C3 & K3 & F3 & L3 & D3); [| exact H2 | exact Hw2 | | | |].
    { destruct M1 as (_ & Mk1 & _). destruct M2 as (_ & Mk2 & _). congruence. }
    { unfold fits in *. simpl in *. lia. }
    { simpl in *. lia. }
    { simpl in *. lia. }
    pose proof (rot_right_same_dom _ _ _ Hrot) as D2.
    destruct M1 as (Mc1 & Mk1 & Mf1 & Ml1). destruct M2 as (Mc2 & Mk2 & Mf2 & Ml2).
    exists s3. split_and!; try done; try congruence.
    + rewrite L3, !del_log_call_del_func. by rewrite Mf2, Mf1, Ml2, Ml1.
    + intros x. by rewrite D3, (D2 x), (D1 x).
  - (* otherwise: rotate left *)
    rewrite (deref_focus s (InR L a k0 d0 w :: c) _ _ _ _ _ _ H), mbind_Ok.
    cbn [llink rlink].
    rewrite (WEIGHT_focus s (InR rl ra kr dr wr :: InR L a k0 d0 w :: c) rr H), mbind_Ok.
    rewrite (WEIGHT_focus s (InL ra kr dr wr rr :: InR L a k0 d0 w :: c) rl H), mbind_Ok.
    cbn [left right].
    assert (exists s1 R',
      (if fweight rr <? fweight rl then rot_right s ra else Ok s) = Ok s1
      /\ R' = (if fweight rr <? fweight rl then frot_right R else R)
      /\ rep s1 (plug c (Node L a k0 d0 w R'))
      /\ keeps R R' /\ same_meta s s1 /\ same_dom s s1
      /\ exists C o ko do wo E, R' = Node C o ko do wo E)
      as (s1 & R' & -> & HR' & H1 & KR & M1 & D1 & (C & o & ko & do & wo & E & ER')).
    { destruct (fweight rr <? fweight rl) eqn:E2.
      - apply Z.ltb_lt in E2. destruct HwR as (? & Hwrl & Hwrr).
        pose proof (fweight_pos _ Hwrr).
        destruct rl as [|rll rla krl drl wrl rlr]; [simpl in E2; lia|].
        destruct (rot_right_spec s (InR L a k0 d0 w :: c) _ _ _ _ _ _ _ _ _ _ _ H)
          as (s1 & Hrot & Hrep1 & Mrot1).
        exists s1, (frot_right R).
        split_and!; [done|done|done| |done| |unfold R; simpl; eauto 10].
        + apply keeps_frot_right; [by split_and!|done].
        + by eapply rot_right_same_dom.
      - exists s, R.
        split_and!; [done|done|done|by apply keeps_refl|apply same_meta_refl
                    |done|unfold R; eauto 10]. }
    rewrite mbind_Ok. cbv zeta. rewrite <- HR'. clear HR'. subst R'.
    rewrite (deref_focus _ _ _ _ _ _ _ _ H1), mbind_Ok. cbn [rlink root_ptr].
    cbv zeta.
    destruct (rot_left_spec _ _ _ _ _ _ _ _ _ _ _ _ _ H1) as (s2 & Hrot & H2 & M2).
    rewrite Hrot, mbind_Ok. cbn [frot_left] in H2 |- *.
    set (wB := wrap_ulong (fweight L + fweight C)) in *.
    set (wD := wrap_ulong (wB + fweight E)) in *.
    rewrite load_Some.
    rewrite (deref_focus _ _ _ _ _ _ _ _ H2), mbind_Ok. cbn [llink root_ptr].
    destruct KR as (KRs & KRa & KRe & KRw & KRf).
    assert (Hwt : weights_ok (Node L a k0 d0 w (Node C o ko do wo E))).
    { cbn [weights_ok]. split; [|split; [exact HwL|exact KRw]].
      rewrite Hweq, <- KRf. reflexivity. }
    assert (Hft : fits (Node L a k0 d0 w (Node C o ko do wo E))).
    { unfold fits in *. simpl in *. lia. }
    pose proof (weights_ok_frot_left _ Hwt Hft) as Hw2. cbn [frot_left] in Hw2.
    fold wB wD in Hw2. destruct Hw2 as (_ & Hw2 & _).
    edestruct (IH s2 (InL o ko do wD E :: c) L a k0 d0 wB C)
      as (s3 & -> & H3 & C3 & K3 & F3 & L3 & D3); [| exact H2 | exact Hw2 | | | |].
    { destruct M1 as (_ & Mk1 & _). destruct M2 as (_ & Mk2 & _). congruence. }
    { unfold fits in *. simpl in *. lia. }
    { simpl in *. lia. }
    { simpl in *. lia. }
    pose proof (rot_left_same_dom _ _ _ Hrot) as D2.
    destruct M1 as (Mc1 & Mk1 & Mf1 & Ml1). destruct M2 as (Mc2 & Mk2 & Mf2 & Ml2).
    exists s3. split_and!; try done; try congruence.
    + rewrite L3, !del_log_call_del_func. by rewrite Mf2, Mf1, Ml2, Ml1.
    + intros x. by rewrite D3, (D2 x), (D1 x).
Qed.

(** ** What [fremove_at] keeps *)

Lemma ctx_stale_weights z c t :
  weights_ok t -> ctx_stale z c (fweight t) -> fits (plug c t) ->
  weights_ok (plug (frame_add_weight z <$> c) t).
Proof.
  revert t; induction c as [|f c IH]; intros t Hw Hst Hfit; [done|].
  cbn [fmap list_fmap plug]. destruct Hst as (Hws & Hweq & Hst).
  assert (Hfit1 : fits (fill f t)) by (by apply (fits_plug c)).
  assert (Hwrap : wrap_ulong (frame_weight f + z) = frame_weight f + z).
  { apply wrap_ulong_small. rewrite Hweq.
    pose proof (fweight_size _ Hw). pose proof (fweight_size _ Hws).
    unfold fits in Hfit1. destruct f; simpl in *; ulia. }
  apply IH.
  - destruct f; simpl in *; rewrite Hwrap; split_and!; try done; lia.
  - rewrite fweight_fill. destruct f; simpl in *; by rewrite Hwrap.
  - unfold fits in *.
    by rewrite (size_plug_congr c _ (fill f t)) by apply size_fill_add_weight.
Qed.

Lemma addrs_plug_fmap z c t :
  addrs (plug (frame_add_weight z <$> c) t) = addrs (plug c t).
Proof.
  revert t; induction c as [|f c IH]; intros t; [done|].
  cbn [fmap list_fmap plug]. rewrite IH.
  apply addrs_plug_congr, addrs_fill_add_weight.
Qed.

Lemma entries_plug_fmap z c t :
  entries (plug (frame_add_weight z <$> c) t) = entries (plug c t).
Proof.
  revert t; induction c as [|f c IH]; intros t; [done|].
  cbn [fmap list_fmap plug]. rewrite IH.
  apply entries_plug_congr, entries_fill_add_weight.
Qed.

Lemma size_plug_fmap z c t :
  size (plug (frame_add_weight z <$> c) t) = size (plug c t).
Proof. by rewrite <- !length_addrs, addrs_plug_fmap. Qed.

Lemma fremove_at_keeps : forall fuel c l a k d w r,
  let t := Node l a k d w r in
  weights_ok t -> ctx_stale 0 c (fweight t) -> fits (plug c t) ->
  (size t <= fuel)%nat ->
  weights_ok (fremove_at fuel c t)
  /\ addrs (plug c t) ≡ₚ a :: addrs (fremove_at fuel c t)
  /\ entries (fremove_at fuel c t)
       = ctx_left c ++ entries l ++ entries r ++ ctx_right c.
Proof.
  induction fuel as [|fuel IH]; intros c l a k d w r t Hw Hst Hfit Hsz.
  { simpl in Hsz. lia. }
  assert (Hsplice : forall out_t,
    (l = Leaf /\ out_t = r) \/ (r = Leaf /\ out_t = l) ->
    weights_ok (plug (frame_add_weight (-1) <$> c) out_t)
    /\ addrs (plug c t) ≡ₚ a :: addrs (plug (frame_add_weight (-1) <$> c) out_t)
    /\ entries (plug (frame_add_weight (-1) <$> c) out_t)
         = ctx_left c ++ entries l ++ entries r ++ ctx_right c).
  { intros out_t Hout.
    assert (weights_ok out_t /\ fweight out_t = w + -1
                  /\ addrs t ≡ₚ a :: addrs out_t
                  /\ entries out_t = entries l ++ entries r
                  /\ (size out_t <= size t)%nat) as (Hwo & Hfo & Hao & Heo & Hso).
    { destruct Hw as (-> & Hwl & Hwr).
      destruct Hout as [[-> ->]|[-> ->]]; simpl;
        rewrite ?app_nil_r; split_and!; try done; try lia.
      solve_Permutation. }
    split_and!.
    - apply ctx_stale_weights; [done| |].
      + rewrite Hfo. by apply ctx_stale_shift.
      + unfold fits in *. rewrite size_plug in *. lia.
    - rewrite addrs_plug_fmap, !addrs_plug, Hao. solve_Permutation.
    - rewrite entries_plug_fmap, entries_plug, Heo. by rewrite <- !app_assoc. }
  subst t. cbn [fremove_at].
  destruct l as [|ll la kl dl wl lr]; [apply Hsplice; by left|].
  destruct r as [|rl ra kr dr wr rr]; [apply Hsplice; by right|].
  clear Hsplice. cbn [fremove_at].
  remember (Node ll la kl dl wl lr) as L eqn:EL.
  remember (Node rl ra kr dr wr rr) as R eqn:ER.
  assert (HsL : (1 <= size L)%nat) by (subst L; simpl; lia).
  assert (HsR : (1 <= size R)%nat) by (subst R; simpl; lia).
  clear EL ER.
  destruct Hw as (Hweq & HwL & HwR).
  assert (HfT : fits (Node L a k d w R)) by (by apply (fits_plug c)).
  assert (HfL : fits L) by (unfold fits in *; simpl in *; lia).
  assert (HfR : fits R) by (unfold fits in *; simpl in *; lia).
  destruct (fweight R <? fweight L) eqn:Ecmp.
  - set (L' := if fweight (left L) <? fweight (right L) then frot_left L else L).
    assert (KL : keeps L L').
    { unfold L'. destruct (fweight (left L) <? fweight (right L));
        [by apply keeps_frot_left|by apply keeps_refl]. }
    assert (exists A o ko do wo C, L' = Node A o ko do wo C)
      as (A & o & ko & do & wo & C & EL').
    { destruct KL as (KLs & _). destruct L'; [simpl in KLs; lia|eauto 10]. }
    clearbody L'. subst L'. destruct KL as (KLs & KLa & KLe & KLw & KLf).
    assert (Hwt : weights_ok (Node (Node A o ko do wo C) a k d w R)).
    { cbn [weights_ok]. split; [|split; [exact KLw|exact HwR]].
      rewrite Hweq, <- KLf. reflexivity. }
    assert (Hft : fits (Node (Node A o ko do wo C) a k d w R)).
    { unfold fits in *. simpl in *. lia. }
    pose proof (weights_ok_frot_right _ Hwt Hft) as Hw2.
    pose proof (fweight_frot_right _ Hwt Hft) as Hf2.
    cbn [frot_right] in Hw2, Hf2 |- *.
    set (wD := wrap_ulong (fweight C + fweight R)) in *.
    set (wB := wrap_ulong (fweight A + wD)) in *.
    cbn [fweight] in Hf2. destruct Hw2 as (HwB & HwA & HwD).
    destruct (IH (InR A o ko do wB :: c) C a k d wD R) as (R1 & R2 & R3).
    + exact HwD.
    + cbn [ctx_stale frame_sibling frame_weight fweight].
      cbn [fweight] in HwB, HwD, Hst.
      split_and!; [done|lia|]. rewrite Z.add_0_r, Hf2. exact Hst.
    + unfold fits in *. cbn [plug fill]. rewrite size_plug in *. simpl in *. lia.
    + simpl in *. lia.
    + split_and!; [done| |].
      * rewrite <- R2. cbn [plug fill]. rewrite !addrs_plug. simpl.
        simpl in KLa. rewrite <- KLa. solve_Permutation.
      * rewrite R3. cbn [ctx_left ctx_right]. simpl in KLe.
        rewrite <- KLe. by rewrite <- !app_assoc.
  - set (R' := if fweight (right R) <? fweight (left R) then frot_right R else R).
    assert (KR : keeps R R').
    { unfold R'. destruct (fweight (right R) <? fweight (left R));
        [by apply keeps_frot_right|by apply keeps_refl]. }
    assert (exists C o ko do wo E, R' = Node C o ko do wo E)
      as (C & o & ko & do & wo & E & ER').
    { destruct KR as (KRs & _). destruct R'; [simpl in KRs; lia|eauto 10]. }
    clearbody R'. subst R'. destruct KR as (KRs & KRa & KRe & KRw & KRf).
    assert (Hwt : weights_ok (Node L a k d w (Node C o ko do wo E))).
    { cbn [weights_ok]. split; [|split; [exact HwL|exact KRw]].
      rewrite Hweq, <- KRf. reflexivity. }
    assert (Hft : fits (Node L a k d w (Node C o ko do wo E))).
    { unfold fits in *. simpl in *. lia. }
    pose proof (weights_ok_frot_left _ Hwt Hft) as Hw2.
    pose proof (fweight_frot_left _ Hwt Hft) as Hf2.
    cbn [frot_left] in Hw2, Hf2 |- *.
    set (wB := wrap_ulong (fweight L + fweight C)) in *.
    set (wD := wrap_ulong (wB + fweight E)) in *.
    cbn [fweight] in Hf2. destruct Hw2 as (HwD & HwB & HwE).
    destruct (IH (InL o ko do wD E :: c) L a k d wB C) as (R1 & R2 & R3).
    + exact HwB.
    + cbn [ctx_stale frame_sibling frame_weight fweight].
      cbn [fweight] in HwB, HwD, Hst.
      split_and!; [done|lia|]. rewrite Z.add_0_r, Hf2. exact Hst.
    + unfold fits in *. cbn [plug fill]. rewrite size_plug in *. simpl in *. lia.
    + simpl in *. lia.
    + split_and!; [done| |].
      * rewrite <- R2. cbn [plug fill]. rewrite !addrs_plug. simpl.
        simpl in KRa. rewrite <- KRa. solve_Permutation.
      * rewrite R3. cbn [ctx_left ctx_right]. simpl in KRe.
        rewrite <- KRe. by rewrite <- !app_assoc.
Qed.

(** ** [pr_tree_remove] *)

Lemma remove_descend_spec gas k : forall t c fuel s,
  rep s (plug c t) -> (size t <= fuel)%nat ->
  match fdescend (key_cmp (tree s)) k c t with
  | (c', Leaf) => remove_loop gas fuel s k (root_ptr t) = Ok (-1, s)
  | (c', Node l a k0 d0 w r) =>
      exists fuel',
        (size (Node l a k0 d0 w r) <= fuel')%nat
        /\ remove_loop gas fuel s k (root_ptr t)
             = remove_loop gas fuel' s k (Some a)
  end.
Proof.
  induction t as [|l IHl a k0 d0 w r IHr]; intros c fuel s H Hsz.
  - by destruct fuel.
  - destruct fuel as [|fuel]; simpl in Hsz; [lia|].
    cbn [root_ptr fdescend].
    destruct (key_cmp (tree s) k k0 <? 0) eqn:E1.
    + specialize (IHl (InL a k0 d0 w r :: c) fuel s H).
      rewrite remove_loop_unfold.
      rewrite (deref_focus _ _ _ _ _ _ _ _ H), mbind_Ok. cbn [key llink rlink].
      cbv zeta. rewrite E1.
      replace (key_cmp (tree s) k k0 =? 0) with false
        by (symmetry; apply Z.eqb_neq; lia).
      cbn [negb]. apply IHl. lia.
    + destruct (0 <? key_cmp (tree s) k k0) eqn:E2.
      * specialize (IHr (InR l a k0 d0 w :: c) fuel s H).
        rewrite remove_loop_unfold.
        rewrite (deref_focus _ _ _ _ _ _ _ _ H), mbind_Ok. cbn [key llink rlink].
        cbv zeta. rewrite E1.
        replace (key_cmp (tree s) k k0 =? 0) with false
          by (symmetry; apply Z.eqb_neq; lia).
        cbn [negb]. apply IHr. lia.
      * exists (S fuel). split; [simpl; lia|done].
Qed.

Lemma pr_tree_remove_spec fuel s t k :
  wf s t -> k <> NULL -> (size t < fuel)%nat ->
  match fdescend (key_cmp (tree s)) k [] t with
  | (c, Leaf) => pr_tree_remove fuel s k = Ok (-1, s)
  | (c, Node l a k0 d0 w r) =>
      exists s' t',
        pr_tree_remove fuel s k = Ok (0, s')
        /\ wf s' t'
        /\ entries t' = ctx_left c ++ entries l ++ entries r ++ ctx_right c
        /\ addrs t ≡ₚ a :: addrs t'
        /\ key_cmp (tree s') = key_cmp (tree s)
        /\ del_func (tree s') = del_func (tree s)
        /\ del_log s' = del_log (call_del_func s k0 d0)
  end.
Proof.
  intros Hwf Hk Hfuel. pose proof Hwf as [Hrep Hw Hr Hcnt Hdom].
  pose proof (remove_descend_spec fuel k t [] fuel s Hrep) as Hd.
  unfold pr_tree_remove, ASSERT.
  replace (k =? NULL) with false by (symmetry; by apply Z.eqb_neq).
  cbn [negb]. rewrite mbind_Ok.
  destruct Hrep as (Hroot & _). rewrite Hroot.
  destruct (fdescend (key_cmp (tree s)) k [] t) as [c t'] eqn:Ed.
  pose proof (fdescend_plug _ _ _ _ _ _ Ed) as Hplug. cbn [plug] in Hplug.
  destruct t' as [|l a k0 d0 w r]; [apply Hd; lia|].
  destruct Hd as (fuel' & Hf' & ->); [lia|].
  pose proof (fdescend_found _ _ _ _ _ _ _ _ _ _ _ Ed) as Hfound.
  rewrite <- Hplug in Hwf, Hw, Hr, Hcnt, Hdom.
  pose proof Hwf as [Hrep' _ _ _ _].
  pose proof (wf_fits _ _ Hwf) as Hfit.
  apply weights_ok_plug in Hw as [Hwt Hst].
  destruct (remove_at_spec fuel k fuel' s c l a k0 d0 w r Hfound Hrep' Hwt)
    as (s' & Hrem & H' & C' & K' & F' & L' & D'); [by eapply fits_plug|done| |].
  { pose proof (length_le_size_plug c (Node l a k0 d0 w r)). rewrite Hplug in *. lia. }
  destruct (fremove_at_keeps fuel' c l a k0 d0 w r Hwt Hst Hfit Hf') as (R1 & R2 & R3).
  exists s', (fremove_at fuel' c (Node l a k0 d0 w r)).
  rewrite <- Hplug. split_and!; try done.
  assert (Hnd : NoDup (a :: addrs (fremove_at fuel' c (Node l a k0 d0 w r)))).
  { rewrite <- R2. by destruct Hrep' as (_ & _ & ?). }
  apply NoDup_cons in Hnd as [Hnin Hnd].
  split.
  - done.
  - done.
  - rewrite R2 in Hr. by apply Forall_cons in Hr as [_ ?].
  - rewrite C', Hcnt, wrap_uint_pred. f_equal.
    apply (f_equal length) in R2 || (apply Permutation_length in R2).
    rewrite length_addrs in R2. simpl in R2. rewrite length_addrs in R2. lia.
  - intros x. rewrite D', Hdom, R2. set_solver.
Qed.

(** * Order of the keys *)

Lemma keys_plug c t :
  keys (plug c t) = (ctx_left c).*1 ++ keys t ++ (ctx_right c).*1.
Proof. unfold keys. by rewrite entries_plug, !fmap_app. Qed.

Lemma keys_node l a k d w r : keys (Node l a k d w r) = keys l ++ k :: keys r.
Proof. unfold keys. simpl. by rewrite fmap_app. Qed.

Lemma keys_plug_node c l a k d w r :
  keys (plug c (Node l a k d w r)) =
    ((ctx_left c).*1 ++ keys l) ++ k :: (keys r ++ (ctx_right c).*1).
Proof. rewrite keys_plug, keys_node. by rewrite <- !app_assoc. Qed.

Section order.
Variable cmp : ptr -> ptr -> Z.
Hypothesis Hcmp : cmp_ok cmp.

Lemma cmp_refl a : cmp a a = 0.
Proof.
  pose proof (cmp_antisym cmp Hcmp a a). lia.
Qed.

Lemma cmp_eq_sym a b : cmp a b = 0 -> cmp b a = 0.
Proof.
  pose proof (cmp_antisym cmp Hcmp a b).
  pose proof (cmp_antisym cmp Hcmp b a). lia.
Qed.

Lemma ascending_app l1 l2 :
  ascending cmp (l1 ++ l2) <->
  (forall x1 x2, x1 ∈ l1 -> x2 ∈ l2 -> cmp x1 x2 < 0)
  /\ ascending cmp l1 /\ ascending cmp l2.
Proof. apply StronglySorted_app. Qed.

Lemma ascending_cons x l :
  ascending cmp (x :: l) <-> (forall y, y ∈ l -> cmp x y < 0) /\ ascending cmp l.
Proof.
  unfold ascending. rewrite StronglySorted_cons, Forall_forall. done.
Qed.

Lemma ascending_nil : ascending cmp [].
Proof. constructor. Qed.

(** The descent keeps the key between the two sides of the position. *)
Lemma fdescend_around k : forall t c c' t',
  ascending cmp (keys (plug c t)) -> around cmp k c ->
  fdescend cmp k c t = (c', t') -> around cmp k c'.
Proof.
  induction t as [|l IHl a k0 d w r IHr]; intros c c' t' Hasc Har; simpl.
  { by intros [= <- <-]. }
  pose proof Hasc as Hasc0.
  rewrite keys_plug, keys_node in Hasc.
  apply ascending_app in Hasc as (_ & _ & Hasc).
  apply ascending_app in Hasc as (_ & Hasc & _).
  apply ascending_app in Hasc as (Hlr & _ & Hasc).
  apply ascending_cons in Hasc as (Hr & _).
  destruct Har as [HL HR].
  destruct (cmp k k0 <? 0) eqn:E1.
  - apply Z.ltb_lt in E1. apply IHl.
    + exact Hasc0.
    + split; [done|]. simpl. intros k' [->|Hk']%elem_of_cons; [done|].
      rewrite fmap_app in Hk'. apply elem_of_app in Hk' as [Hk'|Hk']; [|by apply HR].
      eapply (cmp_trans cmp Hcmp); [exact E1|by apply Hr].
  - destruct (0 <? cmp k k0) eqn:E2; [|by intros [= <- <-]].
    apply Z.ltb_lt in E2. apply IHr.
    + exact Hasc0.
    + split; [|done]. simpl. intros k'.
      rewrite !fmap_app. simpl. rewrite !elem_of_app, list_elem_of_singleton.
      intros [Hk'|[Hk'| ->]]; [by apply HL| |done].
      apply (cmp_antisym cmp Hcmp).
      eapply (cmp_trans cmp Hcmp); [|by apply (cmp_antisym cmp Hcmp)].
      apply Hlr; [done|]. set_solver.
Qed.

Lemma around_nil k : around cmp k [].
Proof. split; intros k'; simpl; by intros ?%elem_of_nil. Qed.

(** A new key goes where the descent ends. *)
Lemma ascending_attach c a k d w :
  ascending cmp (keys (plug c Leaf)) -> around cmp k c ->
  ascending cmp (keys (plug c (Node Leaf a k d w Leaf))).
Proof.
  rewrite !keys_plug, keys_node. unfold keys at 1 2 3. simpl.
  intros Hasc [HL HR]. apply ascending_app in Hasc as (HLR & HaL & HaR).
  apply ascending_app. split_and!; [|done|].
  - intros x1 x2 H1 [->|H2]%elem_of_cons; [|by apply HLR].
    by apply (cmp_antisym cmp Hcmp), HL.
  - apply ascending_cons. split; [|done]. intros y Hy. by apply HR.
Qed.

(** Replacing a key by one that compares equal to it. *)
Lemma ascending_replace (l1 l2 : list ptr) k0 k :
  cmp k k0 = 0 ->
  ascending cmp (l1 ++ k0 :: l2) -> ascending cmp (l1 ++ k :: l2).
Proof.
  intros Heq. rewrite !ascending_app, !ascending_cons.
  intros (H1 & H2 & H3 & H4). split_and!; try done.
  - intros x1 x2 Hx1 [->|Hx2]%elem_of_cons.
    + apply (cmp_eq_r cmp Hcmp _ k0); [done|]. apply H1; set_solver.
    + apply H1; set_solver.
  - intros y Hy. apply (cmp_eq_l cmp Hcmp _ k0); [done|]. by apply H3.
Qed.

Lemma ascending_set_key c l a k0 d0 w r k d :
  cmp k k0 = 0 ->
  ascending cmp (keys (plug c (Node l a k0 d0 w r))) ->
  ascending cmp (keys (plug c (Node l a k d w r))).
Proof.
  intros Heq. rewrite !keys_plug_node. by apply ascending_replace.
Qed.

(** Removing one key. *)
Lemma ascending_delete (l1 l2 : list ptr) k0 :
  ascending cmp (l1 ++ k0 :: l2) -> ascending cmp (l1 ++ l2).
Proof.
  rewrite !ascending_app, !ascending_cons.
  intros (H1 & H2 & H3 & H4). split_and!; try done.
  intros x1 x2 ? ?. apply H1; set_solver.
Qed.

(** ** Where the descent ends *)

Lemma fdescend_in k : forall t c c' l a k0 d0 w r,
  fdescend cmp k c t = (c', Node l a k0 d0 w r) ->
  (k0, d0) ∈ entries t /\ cmp k k0 = 0.
Proof.
  intros t c c' l a k0 d0 w r Hd. split; [|by eapply fdescend_found].
  revert c Hd. induction t as [|l' IHl a' k' d' w' r' IHr]; intros c; simpl; [done|].
  repeat case_match.
  - intros ?%IHl. set_solver.
  - intros ?%IHr. set_solver.
  - intros [= _ _ _ <- <- _ _]. set_solver.
Qed.

Lemma around_absent k c :
  around cmp k c ->
  forall k', k' ∈ keys (plug c Leaf) -> cmp k k' <> 0.
Proof.
  intros [HL HR] k'. rewrite keys_plug. unfold keys at 1. simpl.
  rewrite elem_of_app. intros [H|H]; [apply HL in H|apply HR in H]; lia.
Qed.

(** In an ascending sequence a key has at most one equal. *)
Lemma ascending_unique (l1 l2 : list ptr) k k0 k' :
  ascending cmp (l1 ++ k0 :: l2) ->
  cmp k k0 = 0 -> k' ∈ l1 ++ l2 -> cmp k k' <> 0.
Proof.
  rewrite ascending_app, ascending_cons.
  intros (H1 & _ & H2 & _) Heq [H|H]%elem_of_app Heq'.
  - assert (cmp k' k0 < 0) by (apply H1; set_solver).
    pose proof (cmp_eq_r cmp Hcmp k k0 k' Heq).
    pose proof (cmp_antisym cmp Hcmp k' k). lia.
  - assert (cmp k0 k' < 0) by (by apply H2).
    pose proof (cmp_eq_l cmp Hcmp k k0 k' Heq). lia.
Qed.
End order.

(** * More fuel never changes a result *)

Lemma le_res_refl {A} (r : res A) : le_res r r.
Proof. by intros v. Qed.

Lemma le_res_bind {A B} (c c' : res A) (k k' : A -> res B) :
  le_res c c' -> (forall x, le_res (k x) (k' x)) -> le_res (c ≫= k) (c' ≫= k').
Proof.
  intros Hc Hk v H. apply bind_Ok_inv in H as (x & Hx & H).
  rewrite (Hc _ Hx), mbind_Ok. by apply Hk.
Qed.

Lemma le_res_Timeout {A} (r : res A) : le_res Timeout r.
Proof. by intros v. Qed.

Ltac mono_step :=
  match goal with
  | |- le_res ?x ?x => apply le_res_refl
  | |- le_res Timeout _ => apply le_res_Timeout
  | |- le_res (let _ := _ in _) _ => progress cbv zeta
  | |- le_res (_ ≫= _) (_ ≫= _) => apply le_res_bind; [|intros ?]
  | |- le_res (if ?b then _ else _) (if ?b then _ else _) => destruct b
  | |- le_res (match ?o with Some _ => _ | None => _ end)
              (match ?o with Some _ => _ | None => _ end) => destruct o
  | |- le_res (match ?o with Return _ => _ | Break _ => _ end)
              (match ?o with Return _ => _ | Break _ => _ end) => destruct o
  | |- le_res (let '(_, _) := ?p in _) (let '(_, _) := ?p in _) => destruct p
  | |- le_res (match ?o with O => _ | S _ => _ end) _ => destruct o
  end.

Ltac mono := repeat mono_step.

(** A loop that tests its pointer before its fuel. *)
Ltac loop_base node fuel' :=
  destruct node;
  [ let v := fresh in let H := fresh in intros v H; discriminate H
  | destruct fuel'; apply le_res_refl ].
Ltac loop_step node fuel' :=
  destruct node; [|destruct fuel'; apply le_res_refl];
  destruct fuel'; [lia|].

Lemma search_loop_mono k s : forall fuel fuel' node,
  (fuel <= fuel')%nat ->
  le_res (search_loop fuel s k node) (search_loop fuel' s k node).
Proof.
  induction fuel as [|fuel IH]; intros fuel' node Hle; [loop_base node fuel'|].
  loop_step node fuel'. simpl. mono; apply IH; lia.
Qed.

Lemma fixup_mono : forall fuel fuel' s a,
  (fuel <= fuel')%nat -> le_res (fixup fuel s a) (fixup fuel' s a).
Proof.
  induction fuel as [|fuel IH]; intros fuel' s a Hle; [apply le_res_Timeout|].
  destruct fuel' as [|fuel']; [lia|]. rewrite !fixup_unfold.
  mono; try (apply IH; lia).
Qed.

Lemma insert_ascend_mono gas gas' : forall fuel fuel' s p,
  (gas <= gas')%nat -> (fuel <= fuel')%nat ->
  le_res (insert_ascend gas fuel s p) (insert_ascend gas' fuel' s p).
Proof.
  induction fuel as [|fuel IH]; intros fuel' s p Hg Hle; [loop_base p fuel'|].
  loop_step p fuel'. rewrite !insert_ascend_unfold.
  mono; [by apply fixup_mono|apply IH; lia].
Qed.

Lemma insert_loop_mono s k d ow : forall fuel fuel' node par rv,
  (fuel <= fuel')%nat ->
  le_res (insert_loop fuel s k d ow node par rv)
         (insert_loop fuel' s k d ow node par rv).
Proof.
  induction fuel as [|fuel IH]; intros fuel' node par rv Hle;
    [loop_base node fuel'|].
  loop_step node fuel'. simpl. mono; apply IH; lia.
Qed.

Lemma probe_loop_mono s k : forall fuel fuel' node par rv,
  (fuel <= fuel')%nat ->
  le_res (probe_loop fuel s k node par rv) (probe_loop fuel' s k node par rv).
Proof.
  induction fuel as [|fuel IH]; intros fuel' node par rv Hle;
    [loop_base node fuel'|].
  loop_step node fuel'. simpl. mono; apply IH; lia.
Qed.

Lemma insert_link_mono fuel fuel' s m k d par rv hit :
  (fuel <= fuel')%nat ->
  le_res (insert_link fuel s m k d par rv hit)
         (insert_link fuel' s m k d par rv hit).
Proof.
  intros Hle. unfold insert_link. mono. by apply insert_ascend_mono.
Qed.

Lemma pr_tree_insert_mono fuel fuel' s m k d ow :
  (fuel <= fuel')%nat ->
  le_res (pr_tree_insert fuel s m k d ow) (pr_tree_insert fuel' s m k d ow).
Proof.
  intros Hle. unfold pr_tree_insert.
  apply le_res_bind; [by apply insert_loop_mono|].
  intros [r|[par rv]]; [apply le_res_refl|by apply insert_link_mono].
Qed.

Lemma pr_tree_probe_mono fuel fuel' s m k d :
  (fuel <= fuel')%nat ->
  le_res (pr_tree_probe fuel s m k d) (pr_tree_probe fuel' s m k d).
Proof.
  intros Hle. unfold pr_tree_probe.
  apply le_res_bind; [by apply probe_loop_mono|].
  intros [r|[par rv]]; [apply le_res_refl|].
  apply le_res_bind; [by apply insert_link_mono|intros []; apply le_res_refl].
Qed.

Lemma decrement_ancestors_mono : forall fuel fuel' s p,
  (fuel <= fuel')%nat ->
  le_res (decrement_ancestors fuel s p) (decrement_ancestors fuel' s p).
Proof.
  induction fuel as [|fuel IH]; intros fuel' s p Hle; [loop_base p fuel'|].
  loop_step p fuel'. rewrite !decrement_ancestors_unfold.
  mono; apply IH; lia.
Qed.

Lemma remove_splice_mono gas gas' s node out :
  (gas <= gas')%nat ->
  le_res (remove_splice gas s node out) (remove_splice gas' s node out).
Proof.
  intros Hle. unfold remove_splice. mono. by apply decrement_ancestors_mono.
Qed.

Lemma remove_loop_mono gas gas' k : forall fuel fuel' s node,
  (gas <= gas')%nat -> (fuel <= fuel')%nat ->
  le_res (remove_loop gas fuel s k node) (remove_loop gas' fuel' s k node).
Proof.
  induction fuel as [|fuel IH]; intros fuel' s node Hg Hle;
    [loop_base node fuel'|].
  loop_step node fuel'. rewrite !remove_loop_unfold.
  mono; try (apply IH; lia); try (by apply remove_splice_mono).
Qed.

Lemma pr_tree_remove_mono fuel fuel' s k :
  (fuel <= fuel')%nat ->
  le_res (pr_tree_remove fuel s k) (pr_tree_remove fuel' s k).
Proof.
  intros Hle. unfold pr_tree_remove. mono. by apply remove_loop_mono.
Qed.

Lemma empty_loop_mono : forall fuel fuel' s node,
  (fuel <= fuel')%nat ->
  le_res (empty_loop fuel s node) (empty_loop fuel' s node).
Proof.
  induction fuel as [|fuel IH]; intros fuel' s node Hle; [loop_base node fuel'|].
  loop_step node fuel'. simpl.
  apply le_res_bind; [apply le_res_refl|]. intros n.
  destruct (llink n); [apply IH; lia|].
  destruct (rlink n); [apply IH; lia|].
  mono; apply IH; lia.
Qed.

Lemma pr_tree_empty_mono fuel fuel' s :
  (fuel <= fuel')%nat -> le_res (pr_tree_empty fuel s) (pr_tree_empty fuel' s).
Proof.
  intros Hle. unfold pr_tree_empty. mono. by apply empty_loop_mono.
Qed.

(** * Clearing *)

(** [empty_loop] neither reads nor writes [tree->root]. *)
Lemma rep_with_root s t :
  repr_tree (mem s) None t -> NoDup (addrs t) ->
  rep (with_root (root_ptr t) s) t.
Proof. intros. unfold rep. by split_and!. Qed.

Lemma deref_any_root s r a : deref (with_root r s) a = deref s a.
Proof. done. Qed.

(** Freeing a node without children and clearing its parent's link. *)
Lemma empty_free_spec s c a k d w :
  repr_tree (mem s) None (plug c (Node Leaf a k d w Leaf)) ->
  NoDup (addrs (plug c (Node Leaf a k d w Leaf))) ->
  let s0 := FREE (call_del_func s k d) a in
  exists s',
    match ctx_parent c with
    | Some p =>
        pn ← deref s0 p;
        if bool_decide (llink pn = Some a)
        then update s0 p (set_llink None)
        else update s0 p (set_rlink None)
    | None => Ok s0
    end = Ok s'
    /\ repr_tree (mem s') None (plug c Leaf)
    /\ tree s' = tree s
    /\ del_log s' = del_log (call_del_func s k d)
    /\ (forall x, is_Some (mem s' !! x) <-> x <> a /\ is_Some (mem s !! x)).
Proof.
  intros Hrepr Hnd s0. subst s0.
  apply repr_tree_plug in Hrepr as (Hc & Ha & _). rewrite addrs_plug in Hnd.
  unfold FREE.
  destruct c as [|[p kp dp wp pr | pl p kp dp wp] c]; simpl in *;
    repeat match goal with H : _ /\ _ |- _ => destruct H end.
  - eexists; split; [reflexivity|].
    unfold with_mem; cbn [mem tree del_log].
    rewrite mem_call_del_func, tree_call_del_func.
    split_and!; try done. intros x. rewrite lookup_delete_is_Some. naive_solver.
  - erewrite deref_Some by lookup_del_tac. rewrite mbind_Ok. cbn [llink].
    rewrite bool_decide_eq_true_2 by done.
    erewrite update_Some by lookup_del_tac.
    eexists; split; [reflexivity|].
    rewrite !mem_with_mem, mem_call_del_func.
    split_and!.
    + apply (repr_tree_plug _ (InL p kp dp wp pr :: c)). simpl.
      split_and!; try done; try lookup_del_tac; try agree_del_tac.
    + unfold with_mem; simpl. by rewrite tree_call_del_func.
    + done.
    + intros x. rewrite lookup_insert_is_Some', lookup_delete_is_Some.
      assert (is_Some (mem s !! p)) by (by eexists).
      assert (a <> p) by ne_tac. naive_solver.
  - erewrite deref_Some by lookup_del_tac. rewrite mbind_Ok. cbn [llink].
    rewrite bool_decide_eq_false_2 by slot_ne_tac.
    erewrite update_Some by lookup_del_tac.
    eexists; split; [reflexivity|].
    rewrite !mem_with_mem, mem_call_del_func.
    split_and!.
    + apply (repr_tree_plug _ (InR pl p kp dp wp :: c)). simpl.
      split_and!; try done; try lookup_del_tac; try agree_del_tac.
    + unfold with_mem; simpl. by rewrite tree_call_del_func.
    + done.
    + intros x. rewrite lookup_insert_is_Some', lookup_delete_is_Some.
      assert (is_Some (mem s !! p)) by (by eexists).
      assert (a <> p) by ne_tac. naive_solver.
Qed.

Lemma empty_loop_unfold fuel s a :
  empty_loop (S fuel) s (Some a) =
  (n ← deref s a;
   match llink n, rlink n with
   | Some l, _ => empty_loop fuel s (Some l)
   | None, Some r => empty_loop fuel s (Some r)
   | None, None =>
       let s := call_del_func s (key n) (datum n) in
       let par := parent n in
       let s := FREE s a in
       s ← match par with
           | Some p =>
               pn ← deref s p;
               if bool_decide (llink pn = Some a)
               then update s p (set_llink None)
               else update s p (set_rlink None)
           | None => Ok s
           end;
       empty_loop fuel s par
   end).
Proof. done. Qed.

Lemma deref_repr s c l a k d w r :
  repr_tree (mem s) None (plug c (Node l a k d w r)) ->
  deref s a = Ok (mk_node k d (ctx_parent c) (root_ptr l) (root_ptr r) w).
Proof.
  intros (_ & Ha & _)%repr_tree_plug. by apply deref_Some.
Qed.

Lemma NoDup_plug_sub c t t' :
  addrs t' ⊆+ addrs t -> NoDup (addrs (plug c t)) -> NoDup (addrs (plug c t')).
Proof.
  rewrite !addrs_plug. intros Hsub Hnd.
  eapply submseteq_NoDup; [exact Hnd|]. by apply submseteq_app.
Qed.

(** Clearing the subtree at a position: every node of it is freed, and the
    loop is back at the parent with the link to the subtree cleared. *)
Lemma empty_subtree_spec : forall t c s,
  t <> Leaf ->
  repr_tree (mem s) None (plug c t) -> NoDup (addrs (plug c t)) ->
  exists s',
    (forall fuel,
       empty_loop (2 * size t - 1 + fuel) s (root_ptr t)
       = empty_loop fuel s' (ctx_parent c))
    /\ repr_tree (mem s') None (plug c Leaf)
    /\ tree s' = tree s
    /\ (forall x, is_Some (mem s' !! x) <-> x ∉ addrs t /\ is_Some (mem s !! x))
    /\ del_log s' = del_log s ++ released s (postorder t).
Proof.
  induction t as [|l IHl a k d w r IHr]; intros c s Hne Hrepr Hnd; [done|].
  clear Hne.
  (* the left subtree *)
  assert (exists s1,
    (forall fuel,
       empty_loop (2 * size l + fuel) s (Some a) = empty_loop fuel s1 (Some a))
    /\ repr_tree (mem s1) None (plug c (Node Leaf a k d w r))
    /\ tree s1 = tree s
    /\ (forall x, is_Some (mem s1 !! x) <-> x ∉ addrs l /\ is_Some (mem s !! x))
    /\ del_log s1 = del_log s ++ released s (postorder l))
    as (s1 & Hrun1 & Hrepr1 & Ht1 & Hd1 & Hl1).
  { destruct l as [|ll la kl dl wl lr] eqn:El.
    - exists s. split_and!; try done; [intros x; set_solver|].
      unfold released. destruct (del_func (tree s)); by rewrite app_nil_r.
    - rewrite <- El in *.
      destruct (IHl (InL a k d w r :: c) s) as (s1 & Hrun & Hrepr1 & Ht1 & Hd1 & Hl1);
        [by rewrite El|done|done|].
      exists s1. split_and!; try done. intros fuel.
      replace (2 * size l + fuel)%nat with (S (2 * size l - 1 + fuel))
        by (rewrite El; simpl; lia).
      rewrite empty_loop_unfold, (deref_repr _ _ _ _ _ _ _ _ Hrepr), mbind_Ok.
      assert (Hrp : root_ptr l = Some la) by (by rewrite El).
      cbn [llink]. by rewrite <- Hrun, Hrp. }
  assert (Hnd1 : NoDup (addrs (plug c (Node Leaf a k d w r)))).
  { eapply NoDup_plug_sub; [|exact Hnd]. simpl. solve_submseteq. }
  (* the right subtree *)
  assert (exists s2,
    (forall fuel,
       empty_loop (2 * size r + fuel) s1 (Some a) = empty_loop fuel s2 (Some a))
    /\ repr_tree (mem s2) None (plug c (Node Leaf a k d w Leaf))
    /\ tree s2 = tree s1
    /\ (forall x, is_Some (mem s2 !! x) <-> x ∉ addrs r /\ is_Some (mem s1 !! x))
    /\ del_log s2 = del_log s1 ++ released s1 (postorder r))
    as (s2 & Hrun2 & Hrepr2 & Ht2 & Hd2 & Hl2).
  { destruct r as [|rl ra kr dr wr rr] eqn:Er.
    - exists s1. split_and!; try done; [intros x; set_solver|].
      unfold released. destruct (del_func (tree s1)); by rewrite app_nil_r.
    - rewrite <- Er in *.
      destruct (IHr (InR Leaf a k d w :: c) s1) as (s2 & Hrun & Hrepr2 & Ht2 & Hd2 & Hl2);
        [by rewrite Er|done|done|].
      exists s2. split_and!; try done. intros fuel.
      replace (2 * size r + fuel)%nat with (S (2 * size r - 1 + fuel))
        by (rewrite Er; simpl; lia).
      rewrite empty_loop_unfold, (deref_repr _ _ _ _ _ _ _ _ Hrepr1), mbind_Ok.
      assert (Hrp : root_ptr r = Some ra) by (by rewrite Er).
      cbn [llink rlink root_ptr]. by rewrite <- Hrun, Hrp. }
  assert (Hnd2 : NoDup (addrs (plug c (Node Leaf a k d w Leaf)))).
  { eapply NoDup_plug_sub; [|exact Hnd]. simpl. solve_submseteq. }
  (* the node itself *)
  destruct (empty_free_spec s2 c a k d w Hrepr2 Hnd2) as (s3 & Hfree & Hrepr3 & Ht3 & Hl3 & Hd3).
  exists s3. split_and!; try done; try congruence.
  - intros fuel. cbn [root_ptr size].
    replace (2 * S (size l + size r) - 1 + fuel)%nat
      with (2 * size l + (2 * size r + S fuel))%nat by lia.
    rewrite Hrun1, Hrun2.
    rewrite empty_loop_unfold, (deref_repr _ _ _ _ _ _ _ _ Hrepr2), mbind_Ok.
    cbn [llink rlink root_ptr key datum parent]. cbv zeta.
    by rewrite Hfree, mbind_Ok.
  - intros x. rewrite Hd3, Hd2, Hd1. simpl. set_solver.
  - rewrite Hl3. unfold call_del_func, released in *. rewrite Ht2, Ht1 in *.
    cbn [postorder]. destruct (del_func (tree s)); cbn [del_log].
    + rewrite Hl2, Hl1. by rewrite <- !app_assoc.
    + rewrite Hl2, Hl1. by rewrite !app_nil_r.
Qed.

Lemma empty_loop_None fuel s : empty_loop fuel s None = Ok s.
Proof. by destruct fuel. Qed.

(** [pr_tree_empty] frees every node, returns the old count and leaves the
    empty tree. *)
Lemma pr_tree_empty_spec fuel s t :
  wf s t -> (2 * size t <= fuel)%nat ->
  exists s',
    pr_tree_empty fuel s = Ok (count (tree s), s')
    /\ wf s' Leaf
    /\ key_cmp (tree s') = key_cmp (tree s)
    /\ del_func (tree s') = del_func (tree s)
    /\ del_log s' = del_log s ++ released s (postorder t).
Proof.
  intros [(Hroot & Hrepr & Hnd) Hw Hr Hcnt Hdom] Hfuel.
  unfold pr_tree_empty. rewrite Hroot.
  destruct t as [|l a k d w r] eqn:Et.
  - cbn [root_ptr]. rewrite empty_loop_None, mbind_Ok.
    eexists; split; [done|]. split_and!; try done.
    unfold released. cbn [postorder del_log with_count with_root].
    destruct (del_func (tree s)); by rewrite app_nil_r.
  - rewrite <- Et in *.
    destruct (empty_subtree_spec t [] s) as (s1 & Hrun & Hrepr1 & Ht1 & Hd1 & Hl1);
      [by rewrite Et|done|done|].
    replace fuel with (2 * size t - 1 + (fuel - (2 * size t - 1)))%nat by lia.
    rewrite Hrun. cbn [ctx_parent]. rewrite empty_loop_None, mbind_Ok.
    eexists; split; [done|].
    unfold with_count, with_root; cbn [tree mem count key_cmp del_func root].
    rewrite Ht1. split_and!; try done.
    split; cbn [tree mem count root]; try done.
    all: first [ by split_and!; [done|done|constructor]
               | by constructor
               | intros x; rewrite (Hd1 x), (Hdom x); simpl; set_solver ].
Qed.

(** * The invariant of reachable states *)

Lemma le_res_Ok {A} (r1 r2 : res A) v : le_res r1 r2 -> r1 = Ok v -> r2 = Ok v.
Proof. intros H. apply H. Qed.

(** The number of live nodes is the size of the tree. *)
Lemma wf_size_mem s t : wf s t -> base.size (mem s) = size t.
Proof.
  intros [(_ & _ & Hnd) _ _ _ Hdom].
  rewrite <- size_dom, <- length_addrs.
  assert (dom (mem s) = list_to_set (addrs t)) as ->.
  { apply set_eq. intros x. rewrite elem_of_dom, elem_of_list_to_set. apply Hdom. }
  by apply size_list_to_set.
Qed.

(** What a new node adds to the tree. *)
Lemma finsert_new_keeps gas s t c a k d :
  wf s t -> valid_block s a = true ->
  fdescend (key_cmp (tree s)) k [] t = (c, Leaf) ->
  entries (finsert_new gas (key_cmp (tree s)) a k d t)
    = ctx_left c ++ (k, d) :: ctx_right c
  /\ entries t = ctx_left c ++ ctx_right c
  /\ addrs (finsert_new gas (key_cmp (tree s)) a k d t) ≡ₚ a :: addrs t
  /\ size (finsert_new gas (key_cmp (tree s)) a k d t) = S (size t).
Proof.
  intros Hwf (Hfresh & Hrange)%valid_block_inv Ed.
  pose proof (fdescend_plug _ _ _ _ _ _ Ed) as Hplug. cbn [plug] in Hplug.
  unfold finsert_new. rewrite Ed. cbn [fst].
  rewrite <- Hplug in *. destruct Hwf as [(_ & _ & Hnd) Hw Hr _ Hdom].
  set (t0 := Node Leaf a k d 2 Leaf).
  assert (Hperm : addrs (plug c t0) ≡ₚ a :: addrs (plug c Leaf)).
  { rewrite !addrs_plug. unfold t0. simpl. solve_Permutation. }
  assert (Hna : a ∉ addrs (plug c Leaf)).
  { intros Ha%Hdom. rewrite Hfresh in Ha. by destruct Ha. }
  assert (Hfit : fits (plug c t0)).
  { apply fits_range.
    - rewrite Hperm. by constructor.
    - eapply Forall_range_perm; [symmetry; exact Hperm|]. by constructor. }
  assert (Hst : ctx_stale 1 c (fweight t0)).
  { apply weights_ok_plug in Hw as [_ Hw]. by apply (ctx_stale_shift 1) in Hw. }
  destruct (fascend_keeps gas c t0) as (K1 & K2 & K3 & K4); [done|done|done|].
  rewrite K4, K3, K2, !entries_plug, !size_plug. split_and!; try done.
Qed.

(** A block that is live or outside the address space is no answer of the
    allocator. *)
Lemma insert_link_invalid fuel s a k d par rv hit :
  valid_block s a = false ->
  insert_link fuel s (Some a) k d par rv hit = Fault.
Proof. intros H. unfold insert_link, node_new, MALLOC. by rewrite H. Qed.

Lemma focus_of_addr a : forall t c0,
  a ∈ addrs t ->
  exists c l k d w r, plug c0 t = plug c (Node l a k d w r).
Proof.
  induction t as [|l IHl a0 k d w r IHr]; intros c0 Ha; simpl in Ha.
  - by apply elem_of_nil in Ha.
  - apply elem_of_app in Ha as [Ha|Ha]; [|apply elem_of_cons in Ha as [->|Ha]].
    + apply (IHl (InL a0 k d w r :: c0)) in Ha. exact Ha.
    + by exists c0, l, k, d, w, r.
    + apply (IHr (InR l a0 k d w :: c0)) in Ha. exact Ha.
Qed.

Lemma wf_set_datum s c l a k d0 w r d s' :
  wf s (plug c (Node l a k d0 w r)) ->
  update s a (set_datum d) = Ok s' ->
  wf s' (plug c (Node l a k d w r))
  /\ tree s' = tree s /\ del_log s' = del_log s.
Proof.
  intros [Hrep Hw Hr Hcnt Hdom] H1.
  edestruct (update_focus s c l a k d0 w r (set_datum d) k d w)
    as (s1' & Hu1 & R1 & T1 & L1 & _); [done|done|].
  rewrite H1 in Hu1. injection Hu1 as <-.
  split; [|split; congruence].
  assert (Ha : addrs (plug c (Node l a k d w r)) = addrs (plug c (Node l a k d0 w r)))
    by (by apply addrs_plug_congr).
  split.
  - done.
  - apply weights_ok_plug in Hw as [Hw1 Hw2]. apply weights_ok_plug. done.
  - by rewrite Ha.
  - rewrite T1, Hcnt. f_equal. f_equal. by apply size_plug_congr.
  - intros x. rewrite Ha, <- Hdom. apply (update_same_dom _ _ _ _ H1 x).
Qed.

Lemma tree_inv_new cmp del s : pr_tree_new true cmp del = Some s -> tree_inv s Leaf.
Proof.
  intros [= <-]. split; [|intros _; constructor].
  split; simpl; try done.
  - split_and!; try done. constructor.
  - intros a. rewrite lookup_empty. split; [by intros []|by intros ?%elem_of_nil].
Qed.

(** ** Each operation keeps the invariant, whatever fuel it ran with *)

Lemma ascending_entries cmp t t' :
  entries t' = entries t -> ascending cmp (keys t) -> ascending cmp (keys t').
Proof. unfold keys. by intros ->. Qed.

Lemma tree_inv_insert fuel s t m k d ow rv s' :
  tree_inv s t ->
  pr_tree_insert fuel s m k d ow = Ok (rv, s') ->
  exists t', tree_inv s' t' /\ key_cmp (tree s') = key_cmp (tree s).
Proof.
  intros [Hwf Hasc] Hrun.
  apply (le_res_Ok _ _ _ (pr_tree_insert_mono fuel (fuel `max` S (size t)) s m k d ow
                            ltac:(lia))) in Hrun.
  pose proof (pr_tree_insert_spec (fuel `max` S (size t)) s t m k d ow Hwf ltac:(lia))
    as Hspec.
  destruct (fdescend (key_cmp (tree s)) k [] t) as [c t0] eqn:Ed.
  pose proof (fdescend_plug _ _ _ _ _ _ Ed) as Hplug. cbn [plug] in Hplug.
  destruct t0 as [|l a k0 d0 w r].
  - destruct m as [a|].
    + destruct (valid_block s a) eqn:Hv.
      * destruct (Hspec eq_refl) as (s1 & Hrun1 & Hwf1 & Hk & _).
        rewrite Hrun in Hrun1. injection Hrun1 as -> ->.
        eexists; split; [split; [exact Hwf1|]|done].
        rewrite Hk. intros Hcmp.
        destruct (finsert_new_keeps (fuel `max` S (size t)) s t c a k d Hwf Hv Ed)
          as (He & _).
        apply (ascending_entries _ (plug c (Node Leaf a k d 2 Leaf))).
        { by rewrite He, entries_plug. }
        apply ascending_attach; [done|by rewrite Hplug; apply Hasc|].
        eapply fdescend_around; [done| |by apply around_nil|exact Ed].
        by apply Hasc.
      * exfalso. clear Hspec. unfold pr_tree_insert in Hrun.
        destruct Hwf as [Hrep _ _ _ _].
        pose proof (insert_loop_spec k d ow t [] (fuel `max` S (size t)) s 0 Hrep
                      ltac:(lia) I) as Hloop.
        rewrite Ed in Hloop. destruct Hloop as (rv' & Hloop & _).
        destruct Hrep as (Hroot & _). rewrite Hroot in Hrun.
        cbn [ctx_parent] in Hloop. rewrite Hloop, mbind_Ok in Hrun.
        by rewrite insert_link_invalid in Hrun.
    + rewrite Hrun in Hspec. injection Hspec as -> ->.
      by exists t.
  - destruct (ow =? 0).
    + rewrite Hrun in Hspec. injection Hspec as -> ->. by exists t.
    + destruct Hspec as (s1 & Hrun1 & Hwf1 & Hk & _).
      rewrite Hrun in Hrun1. injection Hrun1 as -> ->.
      eexists; split; [split; [exact Hwf1|]|done].
      rewrite Hk. intros Hcmp.
      apply (ascending_set_key _ Hcmp _ _ _ k0 d0).
      * by eapply fdescend_found.
      * rewrite Hplug. by apply Hasc.
Qed.

Lemma tree_inv_probe fuel s t m k d rv d' s' :
  tree_inv s t ->
  pr_tree_probe fuel s m k d = Ok (rv, d', s') ->
  exists t', tree_inv s' t' /\ key_cmp (tree s') = key_cmp (tree s).
Proof.
  intros [Hwf Hasc] Hrun.
  apply (le_res_Ok _ _ _ (pr_tree_probe_mono fuel (fuel `max` S (size t)) s m k d
                            ltac:(lia))) in Hrun.
  pose proof (pr_tree_probe_spec (fuel `max` S (size t)) s t m k d Hwf ltac:(lia))
    as Hspec.
  destruct (fdescend (key_cmp (tree s)) k [] t) as [c t0] eqn:Ed.
  pose proof (fdescend_plug _ _ _ _ _ _ Ed) as Hplug. cbn [plug] in Hplug.
  destruct t0 as [|l a k0 d0 w r].
  - destruct m as [a|].
    + destruct (valid_block s a) eqn:Hv.
      * destruct (Hspec eq_refl) as (s1 & Hrun1 & Hwf1 & Hk & _).
        rewrite Hrun in Hrun1. injection Hrun1 as -> -> ->.
        eexists; split; [split; [exact Hwf1|]|done].
        rewrite Hk. intros Hcmp.
        destruct (finsert_new_keeps (fuel `max` S (size t)) s t c a k d Hwf Hv Ed)
          as (He & _).
        apply (ascending_entries _ (plug c (Node Leaf a k d 2 Leaf))).
        { by rewrite He, entries_plug. }
        apply ascending_attach; [done|by rewrite Hplug; apply Hasc|].
        eapply fdescend_around; [done| |by apply around_nil|exact Ed].
        by apply Hasc.
      * exfalso. clear Hspec. unfold pr_tree_probe in Hrun.
        destruct Hwf as [Hrep _ _ _ _].
        pose proof (probe_loop_spec k t [] (fuel `max` S (size t)) s 0 Hrep
                      ltac:(lia) I) as Hloop.
        rewrite Ed in Hloop. destruct Hloop as (rv' & Hloop & _).
        destruct Hrep as (Hroot & _). rewrite Hroot in Hrun.
        cbn [ctx_parent] in Hloop. rewrite Hloop, mbind_Ok in Hrun.
        by rewrite insert_link_invalid in Hrun.
    + rewrite Hrun in Hspec. injection Hspec as -> -> ->.
      by exists t.
  - rewrite Hrun in Hspec. injection Hspec as -> -> ->. by exists t.
Qed.

Lemma tree_inv_remove fuel s t k rv s' :
  tree_inv s t ->
  pr_tree_remove fuel s k = Ok (rv, s') ->
  exists t', tree_inv s' t' /\ key_cmp (tree s') = key_cmp (tree s).
Proof.
  intros [Hwf Hasc] Hrun.
  destruct (decide (k = NULL)) as [->|Hk]; [done|].
  apply (le_res_Ok _ _ _ (pr_tree_remove_mono fuel (fuel `max` S (size t)) s k
                            ltac:(lia))) in Hrun.
  pose proof (pr_tree_remove_spec (fuel `max` S (size t)) s t k Hwf Hk ltac:(lia))
    as Hspec.
  destruct (fdescend (key_cmp (tree s)) k [] t) as [c t0] eqn:Ed.
  pose proof (fdescend_plug _ _ _ _ _ _ Ed) as Hplug. cbn [plug] in Hplug.
  destruct t0 as [|l a k0 d0 w r].
  - rewrite Hrun in Hspec. injection Hspec as -> ->. by exists t.
  - destruct Hspec as (s1 & t' & Hrun1 & Hwf1 & He & _ & Hkc & _).
    rewrite Hrun in Hrun1. injection Hrun1 as -> ->.
    exists t'. split; [split; [exact Hwf1|]|done].
    rewrite Hkc. intros Hcmp. specialize (Hasc Hcmp).
    rewrite <- Hplug, keys_plug_node in Hasc.
    apply (ascending_delete _ Hcmp) in Hasc.
    unfold keys in *. rewrite He, !fmap_app. by rewrite <- !app_assoc in Hasc.
Qed.

Lemma tree_inv_empty fuel s t n s' :
  tree_inv s t ->
  pr_tree_empty fuel s = Ok (n, s') ->
  tree_inv s' Leaf /\ key_cmp (tree s') = key_cmp (tree s).
Proof.
  intros [Hwf Hasc] Hrun.
  apply (le_res_Ok _ _ _ (pr_tree_empty_mono fuel (fuel `max` (2 * size t)) s
                            ltac:(lia))) in Hrun.
  destruct (pr_tree_empty_spec (fuel `max` (2 * size t)) s t Hwf ltac:(lia))
    as (s1 & Hrun1 & Hwf1 & Hk & _).
  rewrite Hrun in Hrun1. injection Hrun1 as -> ->.
  split; [split; [done|]|done]. intros _. constructor.
Qed.

Lemma tree_inv_set_data s t it d old_datum rv old s' :
  tree_inv s t ->
  pr_itor_set_data s it d old_datum = Ok (rv, old, s') ->
  exists t', tree_inv s' t' /\ key_cmp (tree s') = key_cmp (tree s)
    /\ keys t' = keys t.
Proof.
  intros [Hwf Hasc] Hrun. unfold pr_itor_set_data in Hrun.
  destruct (itor_node it) as [a|]; [|injection Hrun as _ _ <-; by exists t].
  destruct (deref s a) as [n| |] eqn:Hd; try done.
  rewrite mbind_Ok in Hrun.
  destruct (update s a (set_datum d)) as [s1| |] eqn:Hu; try done.
  rewrite mbind_Ok in Hrun. injection Hrun as _ _ <-.
  assert (Ha : a ∈ addrs t).
  { apply (wf_dom _ _ Hwf). apply deref_inv in Hd. by rewrite Hd. }
  destruct (focus_of_addr a t [] Ha) as (c & l & k & d0 & w & r & Ht).
  cbn [plug] in Ht. subst t.
  destruct (wf_set_datum _ _ _ _ _ _ _ _ d _ Hwf Hu) as (Hwf1 & Ht1 & _).
  assert (Hkeys : keys (plug c (Node l a k d w r)) = keys (plug c (Node l a k d0 w r))).
  { by rewrite !keys_plug_node. }
  eexists; split_and!; [split; [exact Hwf1|]|by rewrite Ht1|done].
  rewrite Ht1, Hkeys. done.
Qed.

(** Every reachable state holds a well-formed tree. *)
Lemma reachable_inv s : reachable s -> exists t, tree_inv s t.
Proof.
  induction 1 as [cmp del s Hnew
                 |s fuel m k d ow rv s' _ [t IH] Hrun
                 |s fuel m k d rv d' s' _ [t IH] Hrun
                 |s fuel k rv s' _ [t IH] Hrun
                 |s fuel n s' _ [t IH] Hrun
                 |s it d od rv old s' _ [t IH] Hrun].
  - exists Leaf. by eapply tree_inv_new.
  - destruct (tree_inv_insert _ _ _ _ _ _ _ _ _ IH Hrun) as (t' & ? & _). by exists t'.
  - destruct (tree_inv_probe _ _ _ _ _ _ _ _ _ IH Hrun) as (t' & ? & _). by exists t'.
  - destruct (tree_inv_remove _ _ _ _ _ _ IH Hrun) as (t' & ? & _). by exists t'.
  - exists Leaf. by eapply tree_inv_empty.
  - destruct (tree_inv_set_data _ _ _ _ _ _ _ _ IH Hrun) as (t' & ? & _). by exists t'.
Qed.

(** * Extremes, neighbours, walk and cursor *)

Lemma addrs_plug_order c t :
  addrs (plug c t) = ctx_before c ++ addrs t ++ ctx_after c.
Proof.
  revert t; induction c as [|[a k d w r|l a k d w] c IH]; intros t; cbn [plug fill].
  - simpl. by rewrite app_nil_r.
  - rewrite IH. simpl. by rewrite <- !app_assoc.
  - rewrite IH. simpl. by rewrite <- !app_assoc.
Qed.

Lemma length_entries t : length (entries t) = length (addrs t).
Proof.
  induction t as [|l IHl a k d w r IHr]; simpl; [done|].
  rewrite !length_app. simpl. lia.
Qed.

Lemma length_ctx_left c : length (ctx_left c) = length (ctx_before c).
Proof.
  induction c as [|[a k d w r|l a k d w] c IH]; simpl; [done|done|].
  rewrite !length_app, length_entries. simpl. lia.
Qed.

Lemma head_app_l {A} (l l' : list A) x : head l = Some x -> head (l ++ l') = Some x.
Proof. by destruct l. Qed.

Lemma last_app_r {A} (l l' : list A) x : last l' = Some x -> last (l ++ l') = Some x.
Proof. intros H. by rewrite last_app, H. Qed.

(** [node_min] ends on the first node of the subtree, in order. *)
Lemma node_min_spec : forall l c fuel s a k d w r,
  rep s (plug c (Node l a k d w r)) -> (size l < fuel)%nat ->
  exists x, node_min fuel s a = Ok x
    /\ head (addrs (Node l a k d w r)) = Some x.
Proof.
  induction l as [|ll IHl la lk ld lw lr _]; intros c fuel s a k d w r H Hf;
    (destruct fuel as [|fuel]; [lia|]); cbn [node_min];
    rewrite (deref_focus _ _ _ _ _ _ _ _ H), mbind_Ok; cbn [llink root_ptr].
  - by exists a.
  - destruct (IHl (InL a k d w r :: c) fuel s la lk ld lw lr) as (x & Hx & Hh);
      [done|simpl in Hf; lia|].
    exists x. split; [done|]. cbn [addrs] in *. by apply head_app_l.
Qed.

Lemma node_max_spec : forall r c fuel s l a k d w,
  rep s (plug c (Node l a k d w r)) -> (size r < fuel)%nat ->
  exists x, node_max fuel s a = Ok x
    /\ last (addrs (Node l a k d w r)) = Some x.
Proof.
  induction r as [|rl _ ra rk rd rw rr IHr]; intros c fuel s l a k d w H Hf;
    (destruct fuel as [|fuel]; [lia|]); cbn [node_max];
    rewrite (deref_focus _ _ _ _ _ _ _ _ H), mbind_Ok; cbn [rlink root_ptr].
  - exists a. split; [done|]. simpl. by apply last_app_r.
  - destruct (IHr (InR l a k d w :: c) fuel s rl ra rk rd rw) as (x & Hx & Hh);
      [done|simpl in Hf; lia|].
    exists x. split; [done|]. cbn [addrs] in *.
    apply last_app_r. rewrite last_cons. by rewrite Hh.
Qed.

(** The ascent from a right child ends at the first node after the
    position. *)
Lemma ascend_from_right_spec : forall c t fuel s a,
  rep s (plug c t) -> root_ptr t = Some a -> (length c <= fuel)%nat ->
  ascend_from_right fuel s a (ctx_parent c) = Ok (head (ctx_after c)).
Proof.
  induction c as [|[p k d w r|l p k d w] c IH]; intros t fuel s a H Ha Hf.
  - by destruct fuel.
  - destruct fuel as [|fuel]; [simpl in Hf; lia|].
    cbn [ctx_parent frame_addr ascend_from_right plug fill] in *.
    rewrite (deref_focus _ _ _ _ _ _ _ _ H), mbind_Ok. cbn [rlink].
    rewrite bool_decide_eq_false_2; [done|].
    destruct H as (_ & _ & Hnd). rewrite addrs_plug in Hnd.
    apply root_ptr_addrs in Ha. intros Hr%root_ptr_addrs.
    simpl in Hnd. nodup_split. set_solver.
  - destruct fuel as [|fuel]; [simpl in Hf; lia|].
    cbn [ctx_parent frame_addr ascend_from_right plug fill ctx_after] in *.
    rewrite (deref_focus _ _ _ _ _ _ _ _ H), mbind_Ok. cbn [rlink parent].
    rewrite bool_decide_eq_true_2 by done.
    apply (IH (Node l p k d w t)); [done|done|simpl in Hf; lia].
Qed.

Lemma ascend_from_left_spec : forall c t fuel s a,
  rep s (plug c t) -> root_ptr t = Some a -> (length c <= fuel)%nat ->
  ascend_from_left fuel s a (ctx_parent c) = Ok (last (ctx_before c)).
Proof.
  induction c as [|[p k d w r|l p k d w] c IH]; intros t fuel s a H Ha Hf.
  - by destruct fuel.
  - destruct fuel as [|fuel]; [simpl in Hf; lia|].
    cbn [ctx_parent frame_addr ascend_from_left plug fill ctx_before] in *.
    rewrite (deref_focus _ _ _ _ _ _ _ _ H), mbind_Ok. cbn [llink parent].
    rewrite bool_decide_eq_true_2 by done.
    apply (IH (Node t p k d w r)); [done|done|simpl in Hf; lia].
  - destruct fuel as [|fuel]; [simpl in Hf; lia|].
    cbn [ctx_parent frame_addr ascend_from_left plug fill ctx_before] in *.
    rewrite (deref_focus _ _ _ _ _ _ _ _ H), mbind_Ok. cbn [llink].
    rewrite bool_decide_eq_false_2.
    + f_equal. rewrite app_assoc. by rewrite last_snoc.
    + destruct H as (_ & _ & Hnd). rewrite addrs_plug in Hnd.
      apply root_ptr_addrs in Ha. intros Hr%root_ptr_addrs.
      simpl in Hnd. nodup_split. set_solver.
Qed.

(** [node_next] and [node_prev] at a position. *)
Lemma node_next_spec c l a k d w r fuel s :
  rep s (plug c (Node l a k d w r)) ->
  (size (plug c (Node l a k d w r)) <= fuel)%nat ->
  node_next fuel s a = Ok (head (addrs r ++ ctx_after c)).
Proof.
  intros H Hf. unfold node_next.
  rewrite (deref_focus _ _ _ _ _ _ _ _ H), mbind_Ok. cbn [rlink parent].
  pose proof (length_le_size_plug c (Node l a k d w r)) as Hlen. simpl in Hlen.
  destruct r as [|rl ra rk rd rw rr]; cbn [root_ptr].
  - simpl. apply (ascend_from_right_spec c (Node l a k d w Leaf)); [done|done|lia].
  - destruct (node_min_spec rl (InR l a k d w :: c) fuel s ra rk rd rw rr)
      as (x & -> & Hx); [done|simpl in Hlen; lia|].
    rewrite mbind_Ok. f_equal. symmetry. by apply head_app_l.
Qed.

Lemma node_prev_spec c l a k d w r fuel s :
  rep s (plug c (Node l a k d w r)) ->
  (size (plug c (Node l a k d w r)) <= fuel)%nat ->
  node_prev fuel s a = Ok (last (ctx_before c ++ addrs l)).
Proof.
  intros H Hf. unfold node_prev.
  rewrite (deref_focus _ _ _ _ _ _ _ _ H), mbind_Ok. cbn [llink parent].
  pose proof (length_le_size_plug c (Node l a k d w r)) as Hlen. simpl in Hlen.
  destruct l as [|ll la lk ld lw lr]; cbn [root_ptr].
  - simpl. rewrite app_nil_r.
    apply (ascend_from_left_spec c (Node Leaf a k d w r)); [done|done|lia].
  - destruct (node_max_spec lr (InL a k d w r :: c) fuel s ll la lk ld lw)
      as (x & -> & Hx); [done|simpl in Hlen; lia|].
    rewrite mbind_Ok. f_equal. symmetry. by apply last_app_r.
Qed.

(** ** Positions by their index in the in-order sequence *)

Lemma focus_at_index : forall t c0 i a,
  addrs t !! i = Some a ->
  exists c l k d w r,
    plug c0 t = plug c (Node l a k d w r)
    /\ length (ctx_before c ++ addrs l) = (length (ctx_before c0) + i)%nat.
Proof.
  induction t as [|l IHl a0 k d w r IHr]; intros c0 i a Hi; simpl in Hi; [done|].
  destruct (decide (i < length (addrs l))%nat) as [Hlt|Hge].
  - rewrite lookup_app_l in Hi by done.
    destruct (IHl (InL a0 k d w r :: c0) i a Hi) as (c & l' & k' & d' & w' & r' & E & L).
    by exists c, l', k', d', w', r'.
  - rewrite lookup_app_r in Hi by lia.
    destruct (i - length (addrs l))%nat as [|j] eqn:Ej; simpl in Hi.
    + injection Hi as ->. exists c0, l, k, d, w, r. split; [done|].
      rewrite length_app. lia.
    + destruct (IHr (InR l a0 k d w :: c0) j a Hi)
        as (c & l' & k' & d' & w' & r' & E & L).
      exists c, l', k', d', w', r'. split; [done|].
      rewrite L. simpl. rewrite !length_app. simpl. lia.
Qed.

Section index.
Context (s : state) (t : ptree) (i : nat) (a : addr).
Hypothesis Hrep : rep s t.
Hypothesis Hi : addrs t !! i = Some a.

Lemma deref_index :
  exists n, deref s a = Ok n /\ entries t !! i = Some (key n, datum n).
Proof.
  destruct (focus_at_index t [] i a Hi) as (c & l & k & d & w & r & E & L).
  cbn [plug] in E. simpl in L. rewrite E in Hrep.
  eexists; split; [by eapply deref_focus|]. cbn [key datum].
  rewrite E, entries_plug. cbn [entries].
  rewrite <- !app_assoc, (app_assoc (ctx_left c)).
  assert (Hlen : length (ctx_left c ++ entries l) = i).
  { by rewrite length_app, length_ctx_left, length_entries, <- length_app. }
  rewrite lookup_app_r by (rewrite Hlen; lia).
  by rewrite Hlen, Nat.sub_diag.
Qed.

Lemma node_next_index fuel :
  (size t <= fuel)%nat -> node_next fuel s a = Ok (addrs t !! S i).
Proof.
  intros Hf.
  destruct (focus_at_index t [] i a Hi) as (c & l & k & d & w & r & E & L).
  cbn [plug] in E. simpl in L. rewrite E in Hrep, Hf.
  rewrite (node_next_spec c l a k d w r fuel s Hrep Hf). f_equal.
  rewrite E, addrs_plug_order. cbn [addrs].
  rewrite <- !app_assoc, (app_assoc (ctx_before c)).
  rewrite lookup_app_r by (rewrite L; lia). rewrite L.
  replace (S i - i)%nat with 1%nat by lia. simpl. by rewrite head_lookup.
Qed.

Lemma node_prev_index fuel :
  (size t <= fuel)%nat ->
  node_prev fuel s a = Ok (match i with O => None | S j => addrs t !! j end).
Proof.
  intros Hf.
  destruct (focus_at_index t [] i a Hi) as (c & l & k & d & w & r & E & L).
  cbn [plug] in E. simpl in L. rewrite E in Hrep, Hf.
  rewrite (node_prev_spec c l a k d w r fuel s Hrep Hf). f_equal.
  rewrite E, addrs_plug_order. cbn [addrs].
  rewrite <- !app_assoc, (app_assoc (ctx_before c)).
  rewrite last_lookup, L. destruct i as [|j]; cbn [pred].
  - by destruct (ctx_before c ++ addrs l).
  - by rewrite (lookup_app_l (ctx_before c ++ addrs l)) by lia.
Qed.
End index.

(** ** Walk *)

Lemma wrap_uint_add_l z n : wrap_uint (wrap_uint z + n) = wrap_uint (z + n).
Proof. unfold wrap_uint. by rewrite Zplus_mod_idemp_l. Qed.

Lemma wrap_uint_idem z : wrap_uint (wrap_uint z) = wrap_uint z.
Proof. unfold wrap_uint. by rewrite Zmod_mod. Qed.

Lemma walk_loop_None gas fuel s visit count seen :
  walk_loop gas fuel s visit None count seen = Ok (count, seen).
Proof. by destruct fuel. Qed.

Lemma walk_loop_spec visit s t gas :
  rep s t -> (size t <= gas)%nat ->
  forall fuel i count seen,
    (size t <= fuel + i)%nat -> wrap_uint count = count ->
    walk_loop gas fuel s visit (addrs t !! i) count seen
    = Ok (wrap_uint (count + Z.of_nat (length (walk_prefix visit (drop i (entries t))))),
          seen ++ walk_prefix visit (drop i (entries t))).
Proof.
  intros Hrep Hgas. induction fuel as [|fuel IH]; intros i count seen Hf Hc.
  - rewrite lookup_ge_None_2 by (rewrite length_addrs; lia).
    rewrite drop_ge by (rewrite length_entries, length_addrs; lia).
    simpl. by rewrite Z.add_0_r, Hc, app_nil_r.
  - destruct (addrs t !! i) as [a|] eqn:Hi.
    + destruct (deref_index s t i a Hrep Hi) as (n & Hd & He).
      cbn [walk_loop]. rewrite Hd, mbind_Ok. cbv zeta.
      rewrite (drop_S _ _ _ He). cbn [walk_prefix].
      destruct (visit (key n) (datum n)).
      * rewrite (node_next_index s t i a Hrep Hi gas Hgas), mbind_Ok.
        rewrite IH; [|lia|apply wrap_uint_idem].
        rewrite wrap_uint_add_l. f_equal. f_equal.
        -- f_equal. cbn [length]. lia.
        -- by rewrite <- app_assoc.
      * done.
    + apply lookup_ge_None_1 in Hi.
      rewrite drop_ge by (rewrite length_entries; lia).
      rewrite walk_loop_None. simpl. by rewrite Z.add_0_r, Hc, app_nil_r.
Qed.

Lemma pr_tree_walk_spec fuel s t visit :
  rep s t -> (size t < fuel)%nat ->
  pr_tree_walk fuel s visit
  = Ok (wrap_uint (Z.of_nat (length (walk_prefix visit (entries t)))),
        walk_prefix visit (entries t)).
Proof.
  intros Hrep Hf. unfold pr_tree_walk. pose proof Hrep as (-> & _).
  destruct t as [|l a k d w r]; [done|]. cbn [root_ptr].
  destruct (node_min_spec l [] fuel s a k d w r) as (x & -> & Hx);
    [done|simpl in Hf; lia|].
  rewrite mbind_Ok. rewrite head_lookup in Hx. rewrite <- Hx.
  rewrite (walk_loop_spec visit s _ fuel Hrep); [|lia|lia|done].
  by rewrite drop_0.
Qed.

(** ** Cursor *)

Lemma pr_itor_first_spec fuel s t it :
  rep s t -> (size t < fuel)%nat ->
  pr_itor_first fuel s it
  = Ok (RETVALID (mk_itor (head (addrs t))), mk_itor (head (addrs t))).
Proof.
  intros Hrep Hf. unfold pr_itor_first. pose proof Hrep as (-> & _).
  destruct t as [|l a k d w r]; [done|]. cbn [root_ptr].
  destruct (node_min_spec l [] fuel s a k d w r) as (x & -> & Hx);
    [done|simpl in Hf; lia|].
  rewrite mbind_Ok. by rewrite Hx.
Qed.

Lemma pr_itor_last_spec fuel s t it :
  rep s t -> (size t < fuel)%nat ->
  pr_itor_last fuel s it
  = Ok (RETVALID (mk_itor (last (addrs t))), mk_itor (last (addrs t))).
Proof.
  intros Hrep Hf. unfold pr_itor_last. pose proof Hrep as (-> & _).
  destruct t as [|l a k d w r]; [done|]. cbn [root_ptr].
  destruct (node_max_spec r [] fuel s l a k d w) as (x & -> & Hx);
    [done|simpl in Hf; lia|].
  rewrite mbind_Ok. by rewrite Hx.
Qed.

Lemma itor_loop_spec s t gas :
  rep s t -> (size t <= gas)%nat ->
  forall fuel i seen,
    (size t <= fuel + i)%nat ->
    itor_loop gas fuel s (mk_itor (addrs t !! i)) seen
    = Ok (seen ++ drop i (keys t)).
Proof.
  intros Hrep Hgas. induction fuel as [|fuel IH]; intros i seen Hf.
  - rewrite lookup_ge_None_2 by (rewrite length_addrs; lia).
    unfold keys. rewrite drop_ge
      by (rewrite length_fmap, length_entries, length_addrs; lia).
    simpl. by rewrite app_nil_r.
  - destruct (addrs t !! i) as [a|] eqn:Hi.
    + destruct (deref_index s t i a Hrep Hi) as (n & Hd & He).
      cbn [itor_loop pr_itor_valid RETVALID itor_node pr_itor_key Z.eqb].
      rewrite Hd, !mbind_Ok. unfold pr_itor_next. cbn [itor_node].
      rewrite (node_next_index s t i a Hrep Hi gas Hgas), !mbind_Ok.
      cbv zeta. cbn iota beta. rewrite IH by lia.
      unfold keys. rewrite <- !fmap_drop, (drop_S _ _ _ He).
      rewrite fmap_cons. cbn [fst]. by rewrite <- app_assoc.
    + apply lookup_ge_None_1 in Hi. unfold keys.
      rewrite drop_ge by (rewrite length_fmap, length_entries; lia).
      simpl. by rewrite app_nil_r.
Qed.

Lemma itor_keys_spec fuel s t it :
  rep s t -> (size t < fuel)%nat -> itor_keys fuel s it = Ok (keys t).
Proof.
  intros Hrep Hf. unfold itor_keys.
  rewrite (pr_itor_first_spec fuel s t it Hrep Hf), mbind_Ok.
  rewrite head_lookup.
  rewrite (itor_loop_spec s t fuel Hrep); [|lia|lia]. by rewrite drop_0.
Qed.

(** * From the tree back to the memory *)

Lemma run_ops_reachable fuel : forall os s s',
  reachable s -> run_ops fuel s os = Ok s' -> reachable s'.
Proof.
  induction os as [|o os IH]; intros s s' Hs Hrun; simpl in Hrun.
  - by injection Hrun as <-.
  - destruct (run_op fuel s o) as [s1| |] eqn:Ho; try done.
    rewrite mbind_Ok in Hrun. apply (IH s1); [|done].
    destruct o as [m k d ow|m k d|k|]; simpl in Ho.
    + destruct (pr_tree_insert fuel s m k d ow) as [[rv s2]| |] eqn:E; try done.
      injection Ho as ->. by eapply reach_insert.
    + destruct (pr_tree_probe fuel s m k d) as [[[rv d'] s2]| |] eqn:E; try done.
      injection Ho as ->. by eapply reach_probe.
    + destruct (pr_tree_remove fuel s k) as [[rv s2]| |] eqn:E; try done.
      injection Ho as ->. by eapply reach_remove.
    + destruct (pr_tree_empty fuel s) as [[n s2]| |] eqn:E; try done.
      injection Ho as ->. by eapply reach_empty.
Qed.

Lemma state_after_reachable fuel os s : state_after fuel os = Some s -> reachable s.
Proof.
  unfold state_after. cbn [pr_tree_new mbind option_bind].
  destruct (run_ops fuel _ os) as [s'| |] eqn:E; try done.
  intros [= <-]. eapply run_ops_reachable; [|exact E].
  by apply (reach_new None false).
Qed.

(** The entries of the tree are what the live nodes hold. *)
Lemma stored_iff s t k d : wf s t -> stored s k d <-> (k, d) ∈ entries t.
Proof.
  intros Hwf. pose proof Hwf as [Hrep _ _ _ Hdom]. split.
  - intros (a & n & Hn & <- & <-).
    assert (Ha : a ∈ addrs t) by (apply Hdom; by rewrite Hn).
    apply list_elem_of_lookup in Ha as [i Hi].
    destruct (deref_index s t i a Hrep Hi) as (n' & Hd & He).
    apply deref_inv in Hd. rewrite Hn in Hd. injection Hd as <-.
    by eapply list_elem_of_lookup_2.
  - intros [i Hi]%list_elem_of_lookup.
    destruct (lookup_lt_is_Some_2 (addrs t) i) as [a Ha].
    { rewrite <- length_entries. by eapply lookup_lt_Some. }
    destruct (deref_index s t i a Hrep Ha) as (n & Hd & He).
    rewrite Hi in He. injection He as -> ->.
    exists a, n. split; [by apply deref_inv|done].
Qed.

Lemma holds_key_iff s t k :
  wf s t ->
  holds_key s k <-> exists k', k' ∈ keys t /\ key_cmp (tree s) k k' = 0.
Proof.
  intros Hwf. split.
  - intros (a & n & Hn & Hk). exists (key n). split; [|done].
    apply list_elem_of_fmap. exists (key n, datum n). split; [done|].
    apply (stored_iff s t _ _ Hwf). by exists a, n.
  - intros (k' & [[k1 d1] [-> Hin]]%list_elem_of_fmap & Hk).
    apply (stored_iff s t _ _ Hwf) in Hin as (a & n & Hn & <- & <-).
    by exists a, n.
Qed.

(** The weight invariant, read from memory. *)
Lemma wf_weight_invariant s t : wf s t -> weight_invariant s.
Proof.
  intros [Hrep Hw _ _ Hdom] a n Hn.
  assert (Ha : a ∈ addrs t) by (apply Hdom; by rewrite Hn).
  destruct (focus_of_addr a t [] Ha) as (c & l & k & d & w & r & Et).
  cbn [plug] in Et. subst t.
  pose proof (deref_focus _ _ _ _ _ _ _ _ Hrep) as Hd.
  apply deref_inv in Hd. rewrite Hn in Hd. injection Hd as ->.
  cbn [llink rlink weight].
  exists (fweight l), (fweight r). split_and!.
  - apply (WEIGHT_focus s (InL a k d w r :: c) l Hrep).
  - apply (WEIGHT_focus s (InR l a k d w :: c) r Hrep).
  - apply weights_ok_plug in Hw as [(Hw & _) _]. done.
Qed.

(** * Search *)

Section search.
Variable cmp : ptr -> ptr -> Z.
Hypothesis Hcmp : cmp_ok cmp.

Lemma fdescend_leaf_absent k t c :
  ascending cmp (keys t) -> fdescend cmp k [] t = (c, Leaf) ->
  forall k', k' ∈ keys t -> cmp k k' <> 0.
Proof.
  intros Hasc Ed.
  pose proof (fdescend_plug _ _ _ _ _ _ Ed) as Hplug. cbn [plug] in Hplug.
  rewrite <- Hplug. apply (around_absent cmp).
  eapply (fdescend_around cmp Hcmp); [|by apply around_nil|exact Ed]. done.
Qed.

Lemma fdescend_node_unique k t c l a k0 d0 w r :
  ascending cmp (keys t) ->
  fdescend cmp k [] t = (c, Node l a k0 d0 w r) ->
  forall k1 d1, (k1, d1) ∈ entries t -> cmp k k1 = 0 -> k1 = k0 /\ d1 = d0.
Proof.
  intros Hasc Ed k1 d1 Hin Hk1.
  pose proof (fdescend_plug _ _ _ _ _ _ Ed) as Hplug. cbn [plug] in Hplug.
  pose proof (fdescend_found _ _ _ _ _ _ _ _ _ _ _ Ed) as Hk0.
  rewrite <- Hplug in Hasc, Hin. rewrite keys_plug_node in Hasc.
  rewrite entries_plug in Hin. cbn [entries] in Hin.
  pose proof (ascending_unique cmp Hcmp _ _ k k0 k1 Hasc Hk0) as Hu.
  rewrite !elem_of_app, elem_of_cons in Hin.
  unfold keys in Hu.
  destruct Hin as [Hin|[[Hin|[Hin|Hin]]|Hin]];
    try (by injection Hin as -> ->);
    exfalso; apply Hu; try done;
    rewrite !elem_of_app, !list_elem_of_fmap.
  - left. left. by exists (k1, d1).
  - left. right. by exists (k1, d1).
  - right. left. by exists (k1, d1).
  - right. right. by exists (k1, d1).
Qed.
End search.

Lemma pr_tree_search_spec fuel s t k :
  rep s t -> (size t <= fuel)%nat ->
  pr_tree_search fuel s k = Ok (fsearch (key_cmp (tree s)) k t).
Proof.
  intros Hrep Hf. unfold pr_tree_search, fsearch.
  pose proof Hrep as (-> & _).
  by apply (search_loop_spec k t [] fuel s).
Qed.

(** Search returns the datum stored with the key. *)
Lemma search_hit fuel s t k k1 d1 :
  tree_inv s t -> cmp_ok (key_cmp (tree s)) -> (size t <= fuel)%nat ->
  stored s k1 d1 -> key_cmp (tree s) k k1 = 0 ->
  pr_tree_search fuel s k = Ok d1.
Proof.
  intros [Hwf Hasc] Hcmp Hf Hst Hk.
  rewrite (pr_tree_search_spec fuel s t k (wf_rep _ _ Hwf) Hf). f_equal.
  apply (stored_iff s t _ _ Hwf) in Hst. unfold fsearch.
  destruct (fdescend (key_cmp (tree s)) k [] t) as [c [|l a k0 d0 w r]] eqn:Ed;
    cbn [snd].
  - exfalso. eapply (fdescend_leaf_absent _ Hcmp k t c); [by apply Hasc|done| |done].
    apply list_elem_of_fmap. by exists (k1, d1).
  - symmetry.
    eapply (fdescend_node_unique _ Hcmp k t); [by apply Hasc|done|done|done].
Qed.

(** Search returns the null pointer for a key that no node holds. *)
Lemma search_miss fuel s t k :
  wf s t -> (size t <= fuel)%nat -> ~ holds_key s k ->
  pr_tree_search fuel s k = Ok NULL.
Proof.
  intros Hwf Hf Hno.
  rewrite (pr_tree_search_spec fuel s t k (wf_rep _ _ Hwf) Hf). f_equal.
  unfold fsearch.
  destruct (fdescend (key_cmp (tree s)) k [] t) as [c [|l a k0 d0 w r]] eqn:Ed;
    cbn [snd]; [done|].
  exfalso. apply Hno. apply (holds_key_iff s t k Hwf). exists k0. split.
  - pose proof (fdescend_plug _ _ _ _ _ _ Ed) as Hplug. cbn [plug] in Hplug.
    rewrite <- Hplug, keys_plug_node. set_solver.
  - by eapply fdescend_found.
Qed.

(** Where the descent ends tells whether the key is held. *)
Lemma descend_leaf_not_held s t k c :
  tree_inv s t -> cmp_ok (key_cmp (tree s)) ->
  fdescend (key_cmp (tree s)) k [] t = (c, Leaf) -> ~ holds_key s k.
Proof.
  intros [Hwf Hasc] Hcmp Ed (k' & Hin & Hk)%(holds_key_iff s t k Hwf).
  by eapply (fdescend_leaf_absent _ Hcmp k t c); [apply Hasc|..].
Qed.

Lemma descend_node_held s t k c l a k0 d0 w r :
  wf s t ->
  fdescend (key_cmp (tree s)) k [] t = (c, Node l a k0 d0 w r) ->
  holds_key s k /\ stored s k0 d0 /\ key_cmp (tree s) k k0 = 0.
Proof.
  intros Hwf Ed.
  pose proof (fdescend_plug _ _ _ _ _ _ Ed) as Hplug. cbn [plug] in Hplug.
  pose proof (fdescend_found _ _ _ _ _ _ _ _ _ _ _ Ed) as Hk0.
  assert (Hin : (k0, d0) ∈ entries t).
  { rewrite <- Hplug, entries_plug. simpl. set_solver. }
  split_and!; [|by apply (stored_iff s t _ _ Hwf)|done].
  apply (holds_key_iff s t k Hwf). exists k0. split; [|done].
  apply list_elem_of_fmap. by exists (k0, d0).
Qed.

(** * Which weights a rotation writes *)

Lemma swe_refl X s : same_weights_except X s s.
Proof. done. Qed.

Lemma swe_trans X s1 s2 s3 :
  same_weights_except X s1 s2 -> same_weights_except X s2 s3 ->
  same_weights_except X s1 s3.
Proof. intros H1 H2 x Hx. by rewrite H2, H1. Qed.

Lemma update_swe X s x f s' :
  update s x f = Ok s' ->
  (forall n, weight (f n) = weight n) \/ x ∈ X ->
  same_weights_except X s s'.
Proof.
  intros (n & Hn & ->)%update_inv Hf y Hy. rewrite mem_with_mem.
  destruct (decide (y = x)) as [->|Hne].
  - rewrite lookup_insert_eq, Hn. simpl. destruct Hf as [Hf|Hf]; [|done].
    by rewrite Hf.
  - by rewrite lookup_insert_ne.
Qed.

Lemma REWEIGH_swe X s x s' :
  REWEIGH s x = Ok s' -> x ∈ X -> same_weights_except X s s'.
Proof.
  unfold REWEIGH. intros H Hx. inv_bind H. eapply update_swe; [done|by right].
Qed.

Lemma replace_child_swe X s par node x s' :
  replace_child s par node x = Ok s' -> same_weights_except X s s'.
Proof.
  unfold replace_child. destruct par as [p|]; [|by intros [= <-]].
  intros H. inv_bind H.
  case_bool_decide; (eapply update_swe; [done|by left]).
Qed.

Ltac to_swe X :=
  repeat match goal with
  | E : update _ _ _ = Ok _ |- _ =>
      apply (update_swe X) in E; [|by left]
  | E : REWEIGH _ _ = Ok _ |- _ =>
      apply (REWEIGH_swe X) in E; [|set_solver]
  | E : replace_child _ _ _ _ = Ok _ |- _ => apply (replace_child_swe X) in E
  | E : match ?o with Some _ => _ | None => _ end = Ok _ |- _ =>
      destruct o; [|injection E as <-]
  end.

(** A rotation writes the weights of the two nodes it rotates and of no
    other node. *)
Lemma rot_left_weights s a s' :
  rot_left s a = Ok s' ->
  exists n b, mem s !! a = Some n /\ rlink n = Some b
    /\ same_weights_except [a; b] s s'.
Proof.
  unfold rot_left. intros H. inv_bind H.
  destruct (rlink x) as [rl|] eqn:Hrl; [|done]. inv_bind H.
  exists x, rl. split_and!; [by apply deref_inv|done|].
  to_swe [a; rl]; eauto 12 using swe_trans, swe_refl.
Qed.

Lemma rot_right_weights s a s' :
  rot_right s a = Ok s' ->
  exists n b, mem s !! a = Some n /\ llink n = Some b
    /\ same_weights_except [a; b] s s'.
Proof.
  unfold rot_right. intros H. inv_bind H.
  destruct (llink x) as [ll|] eqn:Hll; [|done]. inv_bind H.
  exists x, ll. split_and!; [by apply deref_inv|done|].
  to_swe [a; ll]; eauto 12 using swe_trans, swe_refl.
Qed.

(** A new node is a leaf of weight 2. *)
Lemma node_new_weight s m k d p s' :
  node_new s m k d = Ok (Some p, s') ->
  mem s' !! p = Some (mk_node k d None None None 2).
Proof.
  unfold node_new, MALLOC. destruct m as [a|]; [|done].
  destruct (valid_block s a); [|done]. rewrite mbind_Ok.
  intros [= <- <-]. rewrite mem_with_mem. apply lookup_insert_eq.
Qed.

(** * [fixup] on a well-formed tree *)

Lemma fixup_wf fuel s c t a :
  wf s (plug c t) -> root_ptr t = Some a -> (size t <= fuel)%nat ->
  exists s',
    fixup fuel s a = Ok s'
    /\ node_balanced s' a = Ok true
    /\ wf s' (plug c (ffixup fuel t))
    /\ entries (plug c (ffixup fuel t)) = entries (plug c t).
Proof.
  intros Hwf Hroot Hf. pose proof Hwf as [Hrep Hw Hr Hcnt Hdom].
  pose proof (wf_fits _ _ Hwf) as Hfit.
  pose proof Hw as [Hwt Hst]%weights_ok_plug.
  destruct (fixup_spec fuel s c t a Hroot Hrep Hwt (fits_plug c t Hfit) Hf)
    as (s' & Hrun & Hrep' & (Mc & Mk & Mf & Ml)).
  destruct (ffixup_keeps fuel t Hwt (fits_plug c t Hfit)) as (Ks & Ka & Ke & Kw & Kf).
  exists s'. split_and!; [done|by eapply fixup_balanced| |by apply entries_plug_congr].
  assert (Ha : addrs (plug c (ffixup fuel t)) = addrs (plug c t))
    by (by apply addrs_plug_congr).
  split.
  - done.
  - apply weights_ok_plug. split; [done|]. by rewrite Kf.
  - by rewrite Ha.
  - rewrite Mc, Hcnt. f_equal. f_equal. by apply size_plug_congr.
  - intros x. rewrite Ha, <- Hdom. apply (fixup_same_dom _ _ _ _ Hrun x).
Qed.

(** * The rotation loop of remove *)

(** At a node with two children one iteration leaves the node with a
    strictly smaller subtree. *)
Lemma fremove_rot_decreases l a k d w r :
  l <> Leaf -> r <> Leaf ->
  exists f t',
    fremove_rot (Node l a k d w r) = Some (f, t')
    /\ root_ptr t' = Some a
    /\ (size t' < size (Node l a k d w r))%nat
    /\ forall fuel c,
         fremove_at (S fuel) c (Node l a k d w r) = fremove_at fuel (f :: c) t'.
Proof.
  intros Hl Hr.
  destruct l as [|ll la kl dl wl lr]; [done|].
  destruct r as [|rl ra kr dr wr rr]; [done|].
  cbn [fremove_rot fremove_at left right].
  destruct (_ <? _).
  - destruct (fweight ll <? fweight lr).
    + destruct lr as [|lrl lra klr dlr wlr lrr]; cbn [frot_left frot_right];
        eexists _, _; (split_and!; [reflexivity|done|simpl; lia|done]).
    + cbn [frot_right].
      eexists _, _; (split_and!; [reflexivity|done|simpl; lia|done]).
  - destruct (fweight rr <? fweight rl).
    + destruct rl as [|rll rla krl drl wrl rlr]; cbn [frot_left frot_right];
        eexists _, _; (split_and!; [reflexivity|done|simpl; lia|done]).
    + cbn [frot_left].
      eexists _, _; (split_and!; [reflexivity|done|simpl; lia|done]).
Qed.

(** * The pointer comparison *)

Lemma dict_ptr_cmp_ok : cmp_ok dict_ptr_cmp.
Proof.
  unfold dict_ptr_cmp. split; intros;
    repeat match goal with
    | |- context [?x <? ?y] => destruct (Z.ltb_spec x y)
    | H : context [?x <? ?y] |- _ => destruct (Z.ltb_spec x y)
    end; lia.
Qed.

Lemma dict_ptr_cmp_lt k1 k2 : dict_ptr_cmp k1 k2 < 0 <-> k1 < k2.
Proof.
  unfold dict_ptr_cmp.
  repeat match goal with
  | |- context [?x <? ?y] => destruct (Z.ltb_spec x y)
  end; lia.
Qed.

Lemma dict_ptr_cmp_eq k1 k2 : dict_ptr_cmp k1 k2 = 0 <-> k1 = k2.
Proof.
  unfold dict_ptr_cmp.
  repeat match goal with
  | |- context [?x <? ?y] => destruct (Z.ltb_spec x y)
  end; lia.
Qed.

(** A test that no live node holds the key. *)
Lemma not_holds_key_test s k :
  forallb (fun an => negb (key_cmp (tree s) k (key an.2) =? 0))
    (map_to_list (mem s)) = true ->
  ~ holds_key s k.
Proof.
  intros Ht (a & n & Hn & Hk). rewrite forallb_forall in Ht.
  specialize (Ht (a, n)). rewrite <- list_elem_of_In, elem_of_map_to_list in Ht.
  specialize (Ht Hn). cbn [snd] in Ht. rewrite Hk in Ht. done.
Qed.

Lemma holds_key_test s k a :
  (match mem s !! a with
   | Some n => key_cmp (tree s) k (key n) =? 0
   | None => false
   end) = true ->
  holds_key s k.
Proof.
  destruct (mem s !! a) as [n|] eqn:Hn; [|done].
  intros Hk%Z.eqb_eq. by exists a, n.
Qed.

(** A test of the balance condition at every live node. *)
Lemma balance_invariant_test s :
  forallb (fun an => match node_balanced s an.1 with
                     | Ok true => true
                     | _ => false
                     end)
    (map_to_list (mem s)) = true ->
  balance_invariant s.
Proof.
  intros Ht a [n Hn]. rewrite forallb_forall in Ht.
  specialize (Ht (a, n)). rewrite <- list_elem_of_In, elem_of_map_to_list in Ht.
  specialize (Ht Hn). cbn [fst] in Ht.
  by destruct (node_balanced s a) as [[|]| |].
Qed.

(** * The operations on reachable states, case by case *)

Lemma reachable_tree s :
  reachable s -> exists t, tree_inv s t /\ size t = base.size (mem s).
Proof.
  intros [t Ht]%reachable_inv. exists t. split; [done|].
  symmetry. apply wf_size_mem, Ht.
Qed.

Lemma stored_holds s k d :
  cmp_ok (key_cmp (tree s)) -> stored s k d -> holds_key s k.
Proof.
  intros Hcmp (a & n & Hn & <- & _). exists a, n. split; [done|].
  by apply cmp_refl.
Qed.

(** Insertion of a key that no node holds. *)
Lemma insert_new_post fuel s t c a k d :
  tree_inv s t -> cmp_ok (key_cmp (tree s)) ->
  fdescend (key_cmp (tree s)) k [] t = (c, Leaf) ->
  valid_block s a = true ->
  let t' := finsert_new fuel (key_cmp (tree s)) a k d t in
  forall s', wf s' t' -> key_cmp (tree s') = key_cmp (tree s) ->
    tree_inv s' t' /\ size t' = S (size t)
    /\ (forall k' d', stored s' k' d' <-> (k', d') = (k, d) \/ stored s k' d').
Proof.
  intros [Hwf Hasc] Hcmp Ed Hv t' s' Hwf' Hk. subst t'.
  destruct (finsert_new_keeps fuel s t c a k d Hwf Hv Ed) as (He & Het & _ & Hsz).
  pose proof (fdescend_plug _ _ _ _ _ _ Ed) as Hplug. cbn [plug] in Hplug.
  split_and!; [split; [done|]|done|].
  - rewrite Hk. intros _.
    apply (ascending_entries _ (plug c (Node Leaf a k d 2 Leaf))).
    { by rewrite He, entries_plug. }
    apply ascending_attach; [done|by rewrite Hplug; apply Hasc|].
    eapply fdescend_around; [done| |by apply around_nil|exact Ed].
    by apply Hasc.
  - intros k' d'. rewrite (stored_iff s' _ k' d' Hwf'), (stored_iff s t k' d' Hwf).
    rewrite He, Het. set_solver.
Qed.

Lemma pr_tree_insert_cases fuel s t m k d ow :
  tree_inv s t -> cmp_ok (key_cmp (tree s)) -> (size t < fuel)%nat ->
  (holds_key s k /\ ow = 0 /\ pr_tree_insert fuel s m k d ow = Ok (1, s))
  \/ (holds_key s k /\ ow <> 0 /\
      exists s' t' k0 d0,
        pr_tree_insert fuel s m k d ow = Ok (0, s')
        /\ tree_inv s' t' /\ size t' = size t
        /\ stored s' k d /\ stored s k0 d0 /\ key_cmp (tree s) k k0 = 0
        /\ key_cmp (tree s') = key_cmp (tree s)
        /\ del_log s' = del_log (call_del_func s k0 d0))
  \/ (~ holds_key s k /\ m = None /\ pr_tree_insert fuel s m k d ow = Ok (-1, s))
  \/ (~ holds_key s k /\
      exists a s' t',
        m = Some a /\ valid_block s a = true
        /\ pr_tree_insert fuel s m k d ow = Ok (0, s')
        /\ tree_inv s' t' /\ size t' = S (size t)
        /\ (forall k' d', stored s' k' d' <-> (k', d') = (k, d) \/ stored s k' d')
        /\ key_cmp (tree s') = key_cmp (tree s)
        /\ del_log s' = del_log s)
  \/ (~ holds_key s k /\
      exists a, m = Some a /\ valid_block s a = false
        /\ pr_tree_insert fuel s m k d ow = Fault).
Proof.
  intros Hinv Hcmp Hf. pose proof Hinv as [Hwf Hasc].
  pose proof (pr_tree_insert_spec fuel s t m k d ow Hwf Hf) as Hspec.
  destruct (fdescend (key_cmp (tree s)) k [] t) as [c t0] eqn:Ed.
  pose proof (fdescend_plug _ _ _ _ _ _ Ed) as Hplug. cbn [plug] in Hplug.
  destruct t0 as [|l a k0 d0 w r].
  - pose proof (descend_leaf_not_held s t k c Hinv Hcmp Ed) as Hno.
    right. right. destruct m as [a|]; [|by left].
    right. destruct (valid_block s a) eqn:Hv.
    + left. split; [done|].
      destruct (Hspec eq_refl) as (s' & Hrun & Hwf' & Hk & _ & Hlog).
      destruct (insert_new_post fuel s t c a k d Hinv Hcmp Ed Hv s' Hwf' Hk)
        as (Hinv' & Hsz & Hst).
      exists a, s', (finsert_new fuel (key_cmp (tree s)) a k d t).
      by split_and!.
    + right. split; [done|]. exists a. split_and!; [done|done|].
      unfold pr_tree_insert. destruct Hwf as [Hrep _ _ _ _].
      pose proof (insert_loop_spec k d ow t [] fuel s 0 Hrep ltac:(lia) I) as Hloop.
      rewrite Ed in Hloop. destruct Hloop as (rv' & Hloop & _).
      destruct Hrep as (Hroot & _). rewrite Hroot.
      cbn [ctx_parent] in Hloop. rewrite Hloop, mbind_Ok.
      by apply insert_link_invalid.
  - destruct (descend_node_held s t k c l a k0 d0 w r Hwf Ed) as (Hh & Hst0 & Hk0).
    destruct (ow =? 0) eqn:Eow.
    + left. apply Z.eqb_eq in Eow. by split_and!.
    + right. left. apply Z.eqb_neq in Eow. split_and!; [done|done|].
      destruct Hspec as (s' & Hrun & Hwf' & Hk & _ & Hlog).
      exists s', (plug c (Node l a k d w r)), k0, d0.
      split_and!; try done.
      * split; [done|]. rewrite Hk. intros _.
        apply (ascending_set_key _ Hcmp _ _ _ k0 d0); [done|].
        rewrite Hplug. by apply Hasc.
      * rewrite <- Hplug. by apply size_plug_congr.
      * apply (stored_iff s' _ k d Hwf'). rewrite entries_plug. simpl. set_solver.
Qed.

Lemma pr_tree_probe_cases fuel s t m k d :
  tree_inv s t -> cmp_ok (key_cmp (tree s)) -> (size t < fuel)%nat ->
  (holds_key s k /\
   exists k0 d0,
     pr_tree_probe fuel s m k d = Ok (0, d0, s)
     /\ stored s k0 d0 /\ key_cmp (tree s) k k0 = 0)
  \/ (~ holds_key s k /\ m = None /\ pr_tree_probe fuel s m k d = Ok (-1, d, s))
  \/ (~ holds_key s k /\
      exists a s' t',
        m = Some a /\ valid_block s a = true
        /\ pr_tree_probe fuel s m k d = Ok (1, d, s')
        /\ tree_inv s' t' /\ size t' = S (size t)
        /\ (forall k' d', stored s' k' d' <-> (k', d') = (k, d) \/ stored s k' d')
        /\ key_cmp (tree s') = key_cmp (tree s)
        /\ del_log s' = del_log s)
  \/ (~ holds_key s k /\
      exists a, m = Some a /\ valid_block s a = false
        /\ pr_tree_probe fuel s m k d = Fault).
Proof.
  intros Hinv Hcmp Hf. pose proof Hinv as [Hwf Hasc].
  pose proof (pr_tree_probe_spec fuel s t m k d Hwf Hf) as Hspec.
  destruct (fdescend (key_cmp (tree s)) k [] t) as [c t0] eqn:Ed.
  pose proof (fdescend_plug _ _ _ _ _ _ Ed) as Hplug. cbn [plug] in Hplug.
  destruct t0 as [|l a k0 d0 w r].
  - pose proof (descend_leaf_not_held s t k c Hinv Hcmp Ed) as Hno.
    right. destruct m as [a|]; [|by left].
    right. destruct (valid_block s a) eqn:Hv.
    + left. split; [done|].
      destruct (Hspec eq_refl) as (s' & Hrun & Hwf' & Hk & _ & Hlog).
      destruct (insert_new_post fuel s t c a k d Hinv Hcmp Ed Hv s' Hwf' Hk)
        as (Hinv' & Hsz & Hst).
      exists a, s', (finsert_new fuel (key_cmp (tree s)) a k d t).
      by split_and!.
    + right. split; [done|]. exists a. split_and!; [done|done|].
      unfold pr_tree_probe. destruct Hwf as [Hrep _ _ _ _].
      pose proof (probe_loop_spec k t [] fuel s 0 Hrep ltac:(lia) I) as Hloop.
      rewrite Ed in Hloop. destruct Hloop as (rv' & Hloop & _).
      destruct Hrep as (Hroot & _). rewrite Hroot.
      cbn [ctx_parent] in Hloop. rewrite Hloop, mbind_Ok.
      by rewrite insert_link_invalid.
  - destruct (descend_node_held s t k c l a k0 d0 w r Hwf Ed) as (Hh & Hst0 & Hk0).
    left. split; [done|]. by exists k0, d0.
Qed.

Lemma pr_tree_remove_cases fuel s t k :
  tree_inv s t -> cmp_ok (key_cmp (tree s)) -> (size t < fuel)%nat ->
  k <> NULL ->
  (~ holds_key s k /\ pr_tree_remove fuel s k = Ok (-1, s))
  \/ (holds_key s k /\
      exists s' t' k0 d0,
        pr_tree_remove fuel s k = Ok (0, s')
        /\ tree_inv s' t' /\ size t = S (size t')
        /\ ~ holds_key s' k
        /\ stored s k0 d0 /\ key_cmp (tree s) k k0 = 0
        /\ (forall k' d', stored s k' d' <-> (k', d') = (k0, d0) \/ stored s' k' d')
        /\ key_cmp (tree s') = key_cmp (tree s)
        /\ del_log s' = del_log (call_del_func s k0 d0)).
Proof.
  intros Hinv Hcmp Hf Hk. pose proof Hinv as [Hwf Hasc].
  pose proof (pr_tree_remove_spec fuel s t k Hwf Hk Hf) as Hspec.
  destruct (fdescend (key_cmp (tree s)) k [] t) as [c t0] eqn:Ed.
  pose proof (fdescend_plug _ _ _ _ _ _ Ed) as Hplug. cbn [plug] in Hplug.
  destruct t0 as [|l a k0 d0 w r].
  - left. split; [|done]. by eapply descend_leaf_not_held.
  - destruct (descend_node_held s t k c l a k0 d0 w r Hwf Ed) as (Hh & Hst0 & Hk0).
    right. split; [done|].
    destruct Hspec as (s' & t' & Hrun & Hwf' & He & Ha & Hkc & _ & Hlog).
    specialize (Hasc Hcmp). rewrite <- Hplug, keys_plug_node in Hasc.
    assert (Hkeys : keys t' = ((ctx_left c).*1 ++ keys l) ++ keys r ++ (ctx_right c).*1).
    { unfold keys. rewrite He, !fmap_app. by rewrite <- !app_assoc. }
    exists s', t', k0, d0. split_and!; try done.
    + split; [done|]. rewrite Hkc. intros _. rewrite Hkeys.
      by apply (ascending_delete _ Hcmp) in Hasc.
    + rewrite <- !length_addrs, Ha. done.
    + intros (k' & Hin & Hk')%(holds_key_iff s' t' k Hwf'). rewrite Hkc in Hk'.
      rewrite Hkeys in Hin.
      by apply (ascending_unique _ Hcmp _ _ k k0 k' Hasc Hk0 Hin).
    + intros k' d'. rewrite (stored_iff s' t' k' d' Hwf'), (stored_iff s t k' d' Hwf).
      rewrite He, <- Hplug, entries_plug. simpl. set_solver.
Qed.

Lemma pr_itor_search_cases fuel s t it k :
  tree_inv s t -> cmp_ok (key_cmp (tree s)) -> (size t <= fuel)%nat ->
  (holds_key s k /\
   exists a n, pr_itor_search fuel s it k = Ok (1, mk_itor (Some a))
     /\ mem s !! a = Some n /\ key_cmp (tree s) k (key n) = 0)
  \/ (~ holds_key s k /\ pr_itor_search fuel s it k = Ok (0, mk_itor None)).
Proof.
  intros Hinv Hcmp Hf. pose proof Hinv as [Hwf Hasc].
  pose proof (wf_rep _ _ Hwf) as Hrep.
  pose proof (itor_search_loop_spec k t [] fuel s Hrep Hf) as Hloop.
  unfold pr_itor_search. pose proof Hrep as (Hroot & _). rewrite Hroot, Hloop.
  rewrite mbind_Ok.
  destruct (fdescend (key_cmp (tree s)) k [] t) as [c t0] eqn:Ed.
  pose proof (fdescend_plug _ _ _ _ _ _ Ed) as Hplug. cbn [plug] in Hplug.
  destruct t0 as [|l a k0 d0 w r]; cbn [snd root_ptr].
  - right. split; [|done]. by eapply descend_leaf_not_held.
  - destruct (descend_node_held s t k c l a k0 d0 w r Hwf Ed) as (Hh & Hst0 & Hk0).
    left. split; [done|]. rewrite <- Hplug in Hrep.
    pose proof (deref_focus _ _ _ _ _ _ _ _ Hrep) as Hd. apply deref_inv in Hd.
    eexists a, _. split_and!; [done|exact Hd|done].
Qed.

Lemma walk_prefix_all (l : list (ptr * ptr)) :
  walk_prefix (fun _ _ => true) l = l.
Proof. induction l as [|[k d] l IH]; simpl; [done|]. by rewrite IH. Qed.

(** The scenarios are reachable states. *)
Lemma final_state_reachable fuel os :
  is_Some (state_after fuel os) -> reachable (final_state fuel os).
Proof.
  intros [s Hs]. unfold final_state. rewrite Hs. simpl.
  by eapply state_after_reachable.
Qed.

(** * The steps of insert and remove, as seen in memory *)

(** ** The ancestors of a position *)

Lemma plug_app c1 c2 t : plug (c1 ++ c2) t = plug c2 (plug c1 t).
Proof. revert t; induction c1 as [|f c1 IH]; intros t; simpl; [done|]. apply IH. Qed.

Lemma frame_lookup s f c t :
  rep s (plug (f :: c) t) ->
  mem s !! frame_addr f = Some (frame_node f (ctx_parent c) (root_ptr t)).
Proof.
  intros H. apply deref_inv.
  destruct f; simpl in *; by rewrite (deref_focus _ _ _ _ _ _ _ _ H).
Qed.

Lemma frame_lookup_mid s c1 f c2 t :
  rep s (plug (c1 ++ f :: c2) t) ->
  mem s !! frame_addr f
  = Some (frame_node f (ctx_parent c2) (root_ptr (plug c1 t))).
Proof. rewrite plug_app. apply frame_lookup. Qed.

Lemma weight_frame_node f par hole :
  weight (frame_node f par hole) = frame_weight f.
Proof. by destruct f. Qed.

Lemma parent_frame_node f par hole : parent (frame_node f par hole) = par.
Proof. by destruct f. Qed.

Lemma frame_addr_add_weight z f :
  frame_addr (frame_add_weight z f) = frame_addr f.
Proof. by destruct f. Qed.

Lemma ctx_parent_add_weight z c :
  ctx_parent (frame_add_weight z <$> c) = ctx_parent c.
Proof. destruct c as [|f c]; [done|]. simpl. by rewrite frame_addr_add_weight. Qed.

Lemma parent_chain_ctx s : forall c l a k d w r,
  rep s (plug c (Node l a k d w r)) -> parent_chain s a (frame_addr <$> c).
Proof.
  induction c as [|f c IH]; intros l a k d w r H.
  - pose proof (deref_inv _ _ _ (deref_focus _ _ _ _ _ _ _ _ H)) as Hn.
    by eapply chain_root.
  - pose proof (deref_inv _ _ _ (deref_focus _ _ _ _ _ _ _ _ H)) as Hn.
    cbn [fmap list_fmap]. eapply chain_step; [exact Hn|done|].
    cbn [plug] in H. destruct f; simpl in *; by eapply IH.
Qed.

Lemma parent_chain_fun s a l1 :
  parent_chain s a l1 -> forall l2, parent_chain s a l2 -> l1 = l2.
Proof.
  induction 1 as [a n Hn Hp|a n p l Hn Hp _ IH]; intros l2 H2;
    destruct H2 as [a n2 Hn2 Hp2|a n2 p2 l2 Hn2 Hp2 H2];
    rewrite Hn in Hn2; injection Hn2 as <-; try congruence.
  rewrite Hp in Hp2. injection Hp2 as <-. f_equal. by apply IH.
Qed.

Lemma frame_addrs_submseteq c : frame_addr <$> c ⊆+ ctx_addrs c.
Proof.
  induction c as [|f c IH]; simpl; [done|].
  apply submseteq_skip. etrans; [exact IH|]. apply submseteq_inserts_l. done.
Qed.

Lemma frame_addrs_NoDup s c t : rep s (plug c t) -> NoDup (frame_addr <$> c).
Proof.
  intros (_ & _ & _ & Hnd)%rep_focus. apply NoDup_app in Hnd as (Hnd & _).
  eapply submseteq_NoDup; [exact Hnd|apply frame_addrs_submseteq].
Qed.

(** ** The ascent of insert *)

Lemma ascent_impl gas (P Q : state -> addr -> state -> Prop) s l s' :
  (forall s a s2, P s a s2 -> Q s a s2) ->
  ascent gas P s l s' -> ascent gas Q s l s'.
Proof.
  intros HPQ. induction 1 as [s|s a n s2 l s' Hn Hfix HP _ IH];
    [constructor|].
  eapply ascent_at; eauto.
Qed.

(** The ascent visits the ancestors of the position it starts below, each
    once and nearest first.  At each of them the stored weight is still the
    one of the frame, [W] of its address; it is incremented without
    wrapping around; and [fixup] returns with the node balanced. *)
Lemma insert_ascend_run gas (W : addr -> option Z) : forall c fuel s t,
  rep s (plug c t) ->
  weights_ok t -> ctx_stale 1 c (fweight t) -> fits (plug c t) ->
  (length c <= fuel)%nat -> (size (plug c t) <= gas)%nat ->
  Forall (fun f => W (frame_addr f) = Some (frame_weight f)) c ->
  exists s',
    insert_ascend gas fuel s (ctx_parent c) = Ok s'
    /\ ascent gas
         (fun si x s2 =>
            node_balanced s2 x = Ok true /\ weight <$> mem si !! x = W x)
         s (frame_addr <$> c) s'
    /\ same_meta s s'.
Proof.
  induction c as [|f c IH]; intros fuel s t H Hw Hst Hfit Hlen Hgas HW.
  { exists s. split_and!; [by destruct fuel|constructor|apply same_meta_refl]. }
  destruct fuel as [|fuel]; [simpl in Hlen; lia|].
  cbn [ctx_parent]. rewrite insert_ascend_unfold.
  destruct Hst as (Hws & Hweq & Hst).
  apply Forall_cons in HW as [HWf HW].
  assert (Hsz1 : size (plug c (fill (frame_add_weight 1 f) t))
                 = size (plug (f :: c) t)).
  { cbn [plug]. apply size_plug_congr, size_fill_add_weight. }
  assert (Hfit1 : fits (fill (frame_add_weight 1 f) t)).
  { apply (fits_plug c). unfold fits in *. by rewrite Hsz1. }
  assert (Hwrap : wrap_ulong (frame_weight f + 1) = frame_weight f + 1).
  { pose proof (fweight_size _ Hw). pose proof (fweight_size _ Hws).
    unfold fits in Hfit1.
    destruct f; simpl in *; rewrite wrap_ulong_small; ulia. }
  assert (Hw1 : weights_ok (fill (frame_add_weight 1 f) t)).
  { pose proof (fweight_size _ Hw). pose proof (fweight_size _ Hws).
    unfold fits in Hfit1.
    destruct f; simpl in *; split_and!; try done;
      rewrite wrap_ulong_small; ulia. }
  pose proof (frame_lookup s f c t H) as Hn.
  set (n := frame_node f (ctx_parent c) (root_ptr t)) in *.
  destruct (bump_focus 1 s c f t H) as (n' & s1 & Hd & Hp & Hu & H1 & Ht & Hl & _).
  apply deref_inv in Hd. rewrite Hn in Hd. injection Hd as <-.
  assert (Hs1 : s1 = with_mem (<[frame_addr f := set_weight (weight n + 1) n]>
                                 (mem s)) s).
  { unfold update, deref in Hu. rewrite Hn in Hu. simpl in Hu.
    injection Hu as <-. unfold n at 1. rewrite weight_frame_node, Hwrap.
    unfold n. by rewrite weight_frame_node. }
  unfold deref at 1. rewrite Hn. cbn [mbind]. rewrite mbind_Ok, Hu, mbind_Ok, Hp.
  edestruct (fixup_spec gas s1 c (fill (frame_add_weight 1 f) t) (frame_addr f))
    as (s2 & Hfix & H2 & M2); [by destruct f|exact H1|done|done| |].
  { pose proof (size_plug_le c (fill (frame_add_weight 1 f) t)). lia. }
  rewrite Hfix, mbind_Ok.
  destruct (ffixup_keeps gas _ Hw1 Hfit1) as (Ksz & Kad & Ken & Kw & Kfw).
  edestruct (IH fuel s2 (ffixup gas (fill (frame_add_weight 1 f) t)))
    as (s3 & Hrun & Hasc & M3); [exact H2|done| | | | |done|].
  { rewrite Kfw, fweight_fill.
    pose proof (fweight_size _ Hw). pose proof (fweight_size _ Hws).
    unfold fits in Hfit1.
    destruct f; simpl in *; rewrite wrap_ulong_small; try done; ulia. }
  { unfold fits in *. rewrite (size_plug_congr c _ _ Ksz). by rewrite Hsz1. }
  { simpl in Hlen. lia. }
  { rewrite (size_plug_congr c _ _ Ksz), Hsz1. done. }
  exists s3. split_and!; [done| |].
  - cbn [fmap list_fmap]. eapply ascent_at; [exact Hn| |split|exact Hasc].
    + by rewrite <- Hs1.
    + by eapply fixup_balanced.
    + rewrite Hn. simpl. unfold n. by rewrite weight_frame_node, HWf.
  - apply (same_meta_trans s s1); [|by apply (same_meta_trans s1 s2)].
    unfold same_meta. by rewrite Ht, Hl.
Qed.

Lemma frame_weights_stored s : forall c t,
  rep s (plug c t) ->
  Forall (fun f => weight <$> mem s !! frame_addr f = Some (frame_weight f)) c.
Proof.
  induction c as [|f c IH]; intros t H; constructor.
  - by rewrite (frame_lookup s f c t H); simpl; rewrite weight_frame_node.
  - by apply (IH (fill f t)).
Qed.

(** What insert and probe do below the position where the descent has left
    the tree: the new leaf is linked there, and the ascent goes through its
    ancestors. *)
Lemma insert_link_run fuel s c a k d rv hit :
  wf s (plug c Leaf) -> slot_ok rv c -> valid_block s a = true ->
  (size (plug c Leaf) < fuel)%nat ->
  exists s0 s1,
    leaf_linked s a k d s0
    /\ parent_chain s0 a (frame_addr <$> c)
    /\ NoDup (frame_addr <$> c)
    /\ ascent fuel
         (fun si x s2 =>
            node_balanced s2 x = Ok true
            /\ weight <$> mem si !! x = weight <$> mem s !! x)
         s0 (frame_addr <$> c) s1
    /\ insert_link fuel s (Some a) k d (ctx_parent c) rv hit
       = Ok (hit, with_count (wrap_uint (count (tree s) + 1)) s1).
Proof.
  intros Hwf Hslot Hv Hfuel. pose proof Hwf as [Hrep Hw Hr Hcnt Hdom].
  pose proof Hv as (Hfresh & Hrange)%valid_block_inv.
  destruct (attach_spec s c a k d rv Hrep Hfresh Hslot)
    as (s2 & s3 & Hu2 & Hu3 & H3 & M3 & D3).
  { intros x Hx. by apply Hdom. }
  set (t := Node Leaf a k d 2 Leaf) in *.
  assert (Hsz : size (plug c t) = S (size (plug c Leaf))).
  { rewrite !size_plug. simpl. lia. }
  assert (Hperm : addrs (plug c t) ≡ₚ a :: addrs (plug c Leaf)).
  { rewrite !addrs_plug. unfold t. simpl. solve_Permutation. }
  assert (Hr' : Forall (fun a => 0 < a < ULONG_MOD - 1) (addrs (plug c t))).
  { eapply Forall_range_perm; [symmetry; exact Hperm|]. by constructor. }
  assert (Hfit : fits (plug c t)).
  { apply fits_range; [|done]. by destruct H3 as (_ & _ & ?). }
  assert (Hst : ctx_stale 1 c (fweight t)).
  { apply weights_ok_plug in Hw as [_ Hw]. by apply (ctx_stale_shift 1) in Hw. }
  apply update_inv in Hu2 as (n2 & Hn2 & Hs2).
  rewrite mem_with_mem, lookup_insert_eq in Hn2. injection Hn2 as <-.
  rewrite mem_with_mem, insert_insert_eq, with_mem_with_mem in Hs2.
  change (set_parent (ctx_parent c) (mk_node k d None None None 2))
    with (mk_node k d (ctx_parent c) None None 2) in Hs2.
  assert (Hlink :
    insert_link fuel s (Some a) k d (ctx_parent c) rv hit
    = match ctx_parent c with
      | None =>
          _ ← ASSERT (count (tree s2) =? 0);
          Ok (hit, with_count 1 (with_root (Some a) s2))
      | Some p =>
          s ← update s2 p
                (if rv <? 0 then set_llink (Some a) else set_rlink (Some a));
          s ← insert_ascend fuel fuel s (ctx_parent c);
          Ok (hit, with_count (wrap_uint (count (tree s) + 1)) s)
      end).
  { unfold insert_link, node_new, MALLOC. rewrite Hv. rewrite !mbind_Ok.
    erewrite (update_Some _ a) by (rewrite mem_with_mem; apply lookup_insert_eq).
    rewrite mbind_Ok, mem_with_mem, insert_insert_eq, with_mem_with_mem.
    change (set_parent (ctx_parent c) (mk_node k d None None None 2))
      with (mk_node k d (ctx_parent c) None None 2).
    by rewrite <- Hs2. }
  rewrite Hlink. clear Hlink. destruct M3 as (Mc & Mk & Mf & Ml).
  destruct c as [|f c]; cbn [ctx_parent] in *.
  - subst s3. unfold ASSERT.
    replace (count (tree s2)) with (count (tree s)) by (by rewrite Hs2).
    rewrite Hcnt. cbn [plug size]. change (wrap_uint (Z.of_nat 0) =? 0) with true.
    cbn iota. rewrite mbind_Ok.
    exists (with_root (Some a) s2), (with_root (Some a) s2).
    split_and!.
    + left. split; [by destruct Hrep as (-> & _)|by rewrite Hs2].
    + by apply (parent_chain_ctx _ [] Leaf a k d 2 Leaf).
    + constructor.
    + constructor.
    + done.
  - pose proof Hu3 as Hu3'.
    apply update_inv in Hu3 as (np & Hnp & Hs3).
    pose proof (frame_lookup s f c Leaf Hrep) as Hf.
    assert (Hne : a <> frame_addr f).
    { intros E. rewrite <- E in Hf. congruence. }
    rewrite Hs2, mem_with_mem, lookup_insert_ne in Hnp by done.
    rewrite Hf in Hnp. injection Hnp as <-.
    edestruct (insert_ascend_run fuel (fun x => weight <$> mem s !! x)
                 (f :: c) fuel s3 t)
      as (s4 & Ha & Hasc & M4); [exact H3|done|done|done| | | |].
    { pose proof (length_le_size_plug (f :: c) t). lia. }
    { lia. }
    { by apply (frame_weights_stored s (f :: c) Leaf). }
    exists s3, s4. split_and!.
    + right. rewrite Hs2, mem_with_mem, with_mem_with_mem in Hs3.
      destruct f as [p kp dp wp pr|pl p kp dp wp]; simpl in Hslot, Hs3, Hf.
      * apply Z.ltb_lt in Hslot. rewrite Hslot in Hs3.
        eexists p, _, _. split; [exact Hf|].
        split; [left; split; [done|reflexivity]|exact Hs3].
      * apply Z.ltb_nlt in Hslot. rewrite Hslot in Hs3.
        eexists p, _, _. split; [exact Hf|].
        split; [right; split; [done|reflexivity]|exact Hs3].
    + by apply (parent_chain_ctx _ (f :: c) Leaf a k d 2 Leaf).
    + by eapply frame_addrs_NoDup.
    + exact Hasc.
    + cbn [ctx_parent] in Ha. rewrite Hu3', mbind_Ok, Ha, mbind_Ok.
      destruct M4 as (Mc4 & _). by rewrite Mc4, Mc.
Qed.

(** An insert of a key that no node holds, with a fresh block: the new
    leaf is linked, the ascent runs through its ancestors, and the count is
    incremented. *)
Lemma insert_run s t fuel a k d ow :
  wf s t -> (size t < fuel)%nat -> ~ holds_key s k ->
  valid_block s a = true ->
  exists s0 l s1,
    leaf_linked s a k d s0
    /\ parent_chain s0 a l
    /\ NoDup l
    /\ ascent fuel
         (fun si x s2 =>
            node_balanced s2 x = Ok true
            /\ weight <$> mem si !! x = weight <$> mem s !! x)
         s0 l s1
    /\ pr_tree_insert fuel s (Some a) k d ow
       = Ok (0, with_count (wrap_uint (count (tree s) + 1)) s1).
Proof.
  intros Hwf Hf Hno Hv. pose proof (wf_rep _ _ Hwf) as Hrep.
  destruct (fdescend (key_cmp (tree s)) k [] t) as [c t0] eqn:Ed.
  destruct t0 as [|l0 a0 k0 d0 w0 r0]; cycle 1.
  { exfalso. apply Hno.
    by destruct (descend_node_held s t k c l0 a0 k0 d0 w0 r0 Hwf Ed). }
  pose proof (fdescend_plug _ _ _ _ _ _ Ed) as Hplug. cbn [plug] in Hplug.
  pose proof (insert_loop_spec k d ow t [] fuel s 0 Hrep ltac:(lia) I) as Hi.
  rewrite Ed in Hi. destruct Hi as (rv & Hi & Hslot).
  rewrite <- Hplug in Hwf, Hf.
  destruct (insert_link_run fuel s c a k d rv 0 Hwf Hslot Hv Hf)
    as (s0 & s1 & Hl & Hc & Hnd & Hasc & Hrun).
  exists s0, (frame_addr <$> c), s1. split_and!; try done.
  unfold pr_tree_insert. destruct Hrep as (-> & _).
  cbn [ctx_parent] in Hi. by rewrite Hi, mbind_Ok.
Qed.

(** The same for a probe. *)
Lemma probe_run s t fuel a k d :
  wf s t -> (size t < fuel)%nat -> ~ holds_key s k ->
  valid_block s a = true ->
  exists s0 l s1,
    leaf_linked s a k d s0
    /\ parent_chain s0 a l
    /\ NoDup l
    /\ ascent fuel
         (fun si x s2 =>
            node_balanced s2 x = Ok true
            /\ weight <$> mem si !! x = weight <$> mem s !! x)
         s0 l s1
    /\ pr_tree_probe fuel s (Some a) k d
       = Ok (1, d, with_count (wrap_uint (count (tree s) + 1)) s1).
Proof.
  intros Hwf Hf Hno Hv. pose proof (wf_rep _ _ Hwf) as Hrep.
  destruct (fdescend (key_cmp (tree s)) k [] t) as [c t0] eqn:Ed.
  destruct t0 as [|l0 a0 k0 d0 w0 r0]; cycle 1.
  { exfalso. apply Hno.
    by destruct (descend_node_held s t k c l0 a0 k0 d0 w0 r0 Hwf Ed). }
  pose proof (fdescend_plug _ _ _ _ _ _ Ed) as Hplug. cbn [plug] in Hplug.
  pose proof (probe_loop_spec k t [] fuel s 0 Hrep ltac:(lia) I) as Hp.
  rewrite Ed in Hp. destruct Hp as (rv & Hp & Hslot).
  rewrite <- Hplug in Hwf, Hf.
  destruct (insert_link_run fuel s c a k d rv 1 Hwf Hslot Hv Hf)
    as (s0 & s1 & Hl & Hc & Hnd & Hasc & Hrun).
  exists s0, (frame_addr <$> c), s1. split_and!; try done.
  unfold pr_tree_probe. destruct Hrep as (-> & _).
  cbn [ctx_parent] in Hp. by rewrite Hp, mbind_Ok, Hrun, mbind_Ok.
Qed.

(** ** The splice of remove *)

(** The tree that the loop of remove leaves: the target, rotated down below
    the nodes of [c'], is spliced out, and every ancestor, old or new, has
    its weight decremented. *)
Lemma fremove_at_shape : forall fuel c l a k d w r,
  (size (Node l a k d w r) <= fuel)%nat ->
  exists c' out,
    fremove_at fuel c (Node l a k d w r)
    = plug (frame_add_weight (-1) <$> (c' ++ c)) out.
Proof.
  induction fuel as [|fuel IH]; intros c l a k d w r Hsz; [simpl in Hsz; lia|].
  destruct l as [|ll la kl dl wl lr].
  { by exists [], r. }
  destruct r as [|rl ra kr dr wr rr].
  { by exists [], (Node ll la kl dl wl lr). }
  destruct (fremove_rot_decreases (Node ll la kl dl wl lr) a k d w
              (Node rl ra kr dr wr rr)) as (f & t' & _ & Hroot & Hlt & Heq);
    [done|done|].
  rewrite Heq. destruct t' as [|l' a' k' d' w' r']; [done|].
  destruct (IH (f :: c) l' a' k' d' w' r') as (c' & out & ->); [lia|].
  exists (c' ++ [f]), out. by rewrite <- app_assoc.
Qed.

Lemma frame_weight_bounds : forall c t,
  weights_ok (plug c t) -> fits (plug c t) ->
  Forall (fun f => 2 <= frame_weight f < ULONG_MOD) c.
Proof.
  induction c as [|f c IH]; intros t Hw Hfit; constructor.
  - cbn [plug] in Hw, Hfit.
    apply weights_ok_plug in Hw as [Hw _]. apply fits_plug in Hfit.
    pose proof (fweight_size _ Hw) as E. rewrite fweight_fill in E.
    unfold fits in Hfit. destruct f; simpl in *; lia.
  - by apply (IH (fill f t)).
Qed.

(** The loop that follows the splice subtracts one from the weight of each
    ancestor, and touches nothing else. *)
Lemma decrement_ancestors_run : forall c fuel s t,
  rep s (plug c t) ->
  Forall (fun f => 2 <= frame_weight f < ULONG_MOD) c ->
  (length c <= fuel)%nat ->
  exists s',
    decrement_ancestors fuel s (ctx_parent c) = Ok s'
    /\ tree s' = tree s /\ del_log s' = del_log s
    /\ forall x,
         mem s' !! x
         = (fun nx => if bool_decide (x ∈ frame_addr <$> c)
                      then set_weight (weight nx - 1) nx else nx)
             <$> mem s !! x.
Proof.
  induction c as [|f c IH]; intros fuel s t H Hb Hlen.
  { exists s. split_and!; [by destruct fuel|done|done|].
    intros x. by destruct (mem s !! x). }
  destruct fuel as [|fuel]; simpl in Hlen; [lia|].
  apply Forall_cons in Hb as [Hbf Hb].
  cbn [ctx_parent]. rewrite decrement_ancestors_unfold.
  pose proof (frame_lookup s f c t H) as Hn.
  set (n := frame_node f (ctx_parent c) (root_ptr t)) in *.
  destruct (bump_focus (-1) s c f t H) as (n' & s1 & _ & _ & Hu & H1 & Ht & Hl & _).
  change (fun n => set_weight (wrap_ulong (weight n + -1)) n)
    with (fun n => set_weight (wrap_ulong (weight n - 1)) n) in Hu.
  rewrite Hu, mbind_Ok.
  rewrite (update_Some _ _ _ _ Hn) in Hu. injection Hu as Hs1.
  assert (Hwrap : wrap_ulong (weight n - 1) = weight n - 1).
  { unfold n. rewrite weight_frame_node. apply wrap_ulong_small. lia. }
  rewrite Hwrap in Hs1.
  assert (Hn1 : mem s1 !! frame_addr f = Some (set_weight (weight n - 1) n)).
  { by rewrite <- Hs1, mem_with_mem, lookup_insert_eq. }
  rewrite (deref_Some _ _ _ Hn1), mbind_Ok.
  replace (parent (set_weight (weight n - 1) n)) with (ctx_parent c)
    by (unfold n; by destruct f).
  destruct (IH fuel s1 (fill (frame_add_weight (-1) f) t) H1 Hb)
    as (s' & Hrun & Ht' & Hl' & Hlook); [lia|].
  exists s'. split_and!; [done|congruence|congruence|].
  intros x. rewrite Hlook. cbn [fmap list_fmap].
  pose proof (frame_addrs_NoDup s (f :: c) t H) as Hnd.
  cbn [fmap list_fmap] in Hnd. apply NoDup_cons in Hnd as [Hnin _].
  destruct (decide (x = frame_addr f)) as [->|Hne].
  - rewrite Hn1, Hn. simpl.
    rewrite (bool_decide_eq_false_2 _ Hnin).
    by rewrite bool_decide_eq_true_2 by set_solver.
  - rewrite <- Hs1, mem_with_mem, lookup_insert_ne by done.
    destruct (mem s !! x) as [nx|]; [|done]. simpl. f_equal.
    rewrite (bool_decide_ext (x ∈ frame_addr <$> c)
               (x ∈ frame_addr f :: (frame_addr <$> c))); [done|].
    set_solver.
Qed.

Ltac splice_cases :=
  repeat match goal with
  | |- context [bool_decide (None = Some _)] =>
      rewrite (bool_decide_eq_false_2 (None = Some _)) by done
  | Hx : mem ?s !! ?x = Some ?nx
    |- context [bool_decide (Some ?o = Some ?x)] =>
      destruct (decide (x = o)) as [->|?];
      [ rewrite (bool_decide_eq_true_2 (Some o = Some o)) by done
      | rewrite (bool_decide_eq_false_2 (Some o = Some x)) by congruence ]
  end.

Ltac splice_lookups :=
  repeat first [ rewrite lookup_insert_eq
               | rewrite lookup_insert_ne by first [done|congruence|ne_tac] ];
  try match goal with
  | Hx : mem ?s !! ?x = Some ?nx, Hy : mem ?s !! ?x = Some _ |- _ =>
      rewrite Hy in Hx; injection Hx as <-
  end;
  cbn [llink rlink parent key datum weight];
  rewrite ?bool_decide_eq_true_2 by reflexivity;
  rewrite ?bool_decide_eq_false_2 by slot_ne_tac;
  first [done | reflexivity | idtac].

(** The memory after the splice itself: the child of the target is given the
    parent of the target, that parent is given the child in the place of
    the target, and the target is freed. *)
Lemma splice_lookup s c l a k d w r out_t p1 s1 :
  rep s (plug c (Node l a k d w r)) ->
  (l = Leaf /\ out_t = r) \/ (r = Leaf /\ out_t = l) ->
  (n ← deref s a;
   s ← match root_ptr out_t with
       | Some o => update s o (set_parent (parent n))
       | None => Ok s
       end;
   n ← deref s a;
   s ← replace_child s (parent n) a (root_ptr out_t);
   n ← deref s a;
   Ok (parent n, FREE (call_del_func s (key n) (datum n)) a))
    = Ok (p1, s1) ->
  root (tree s1)
  = match ctx_parent c with
    | None => root_ptr out_t
    | Some _ => root (tree s)
    end
  /\ forall x nx,
       x <> a -> mem s !! x = Some nx ->
       mem s1 !! x
       = Some (splice_links a
                 (mk_node k d (ctx_parent c) (root_ptr l) (root_ptr r) w)
                 x nx).
Proof.
  intros H Hout. revert p1 s1.
  apply rep_focus in H as (Hroot & Hc & (Hma & Hl & Hr) & Hnd).
  unfold replace_child.
  destruct Hout as [[-> ->]|[-> ->]];
    [destruct r as [|ol o ko do wo or]|destruct l as [|ol o ko do wo or]];
    destruct c as [|[p kp dp wp pr | pl p kp dp wp] c]; simpl in *;
    repeat match goal with
    | H : _ /\ _ |- _ => destruct H
    end.
  all: repeat exec_step.
  all: intros p1 s1 [= <- <-].
  all: unfold FREE;
    rewrite ?call_del_func_with_mem, ?call_del_func_with_root,
      ?with_mem_with_mem, ?with_mem_with_root, ?mem_with_root, ?mem_with_mem,
      ?mem_call_del_func.
  all: split; [unfold with_root, with_mem; simpl; by rewrite ?tree_call_del_func|].
  all: intros x nx Hne Hx.
  all: rewrite ?mem_with_root, ?mem_with_mem, ?mem_call_del_func.
  all: rewrite lookup_delete_ne by done.
  all: unfold splice_links, only_child; cbn [llink rlink parent root_ptr].
  all: splice_cases; splice_lookups.
Qed.

Lemma weight_splice_links a n x nx :
  weight (splice_links a n x nx) = weight nx.
Proof. unfold splice_links. by repeat case_bool_decide. Qed.

Lemma set_weight_same n : set_weight (weight n) n = n.
Proof. by destruct n. Qed.

(** The splice of a node with at most one child, as a whole: apart from the
    relinking around the node and the decrement of its ancestors' weights,
    every node is left as it is. *)
Lemma remove_splice_run gas s c l a k d w r out_t :
  rep s (plug c (Node l a k d w r)) ->
  weights_ok (plug c (Node l a k d w r)) ->
  fits (plug c (Node l a k d w r)) ->
  (l = Leaf /\ out_t = r) \/ (r = Leaf /\ out_t = l) ->
  (length c <= gas)%nat ->
  exists s',
    remove_splice gas s a (root_ptr out_t) = Ok (0, s')
    /\ root (tree s')
       = match ctx_parent c with
         | None => root_ptr out_t
         | Some _ => root (tree s)
         end
    /\ forall x nx,
         x <> a -> mem s !! x = Some nx ->
         mem s' !! x
         = Some (set_weight
                   (if bool_decide (x ∈ frame_addr <$> c)
                    then weight nx - 1 else weight nx)
                   (splice_links a
                      (mk_node k d (ctx_parent c) (root_ptr l) (root_ptr r) w)
                      x nx)).
Proof.
  intros H Hw Hfit Hout Hlen. rewrite remove_splice_eq.
  destruct (splice_spec s c l a k d w r out_t H Hout)
    as (s1 & Hs & H1 & _).
  destruct (splice_lookup s c l a k d w r out_t _ _ H Hout Hs) as (Hroot & Hlook).
  rewrite Hs, mbind_Ok.
  destruct (decrement_ancestors_run c gas s1 out_t H1
              (frame_weight_bounds _ _ Hw Hfit) Hlen)
    as (s2 & -> & Ht2 & _ & Hlook2).
  rewrite mbind_Ok. eexists; split; [reflexivity|]. split.
  - unfold with_count; cbn [root tree]. by rewrite Ht2.
  - intros x nx Hne Hx. unfold with_count; cbn [mem].
    rewrite Hlook2, (Hlook x nx Hne Hx). simpl. f_equal.
    set (n := mk_node k d (ctx_parent c) (root_ptr l) (root_ptr r) w).
    case_bool_decide; [by rewrite weight_splice_links|].
    by rewrite <- (weight_splice_links a n x nx), set_weight_same.
Qed.

(** ** A remove that finds its key *)

Lemma remove_run s t fuel k :
  tree_inv s t -> cmp_ok (key_cmp (tree s)) -> (size t < fuel)%nat ->
  k <> NULL -> holds_key s k ->
  exists s' a n l,
    pr_tree_remove fuel s k = Ok (0, s')
    /\ mem s !! a = Some n /\ key_cmp (tree s) k (key n) = 0
    /\ parent_chain s a l /\ NoDup l
    /\ mem s' !! a = None
    /\ (forall x nx,
          x ∈ l -> mem s !! x = Some nx ->
          exists nx',
            mem s' !! x = Some nx'
            /\ weight nx' = weight nx - 1
            /\ key nx' = key nx /\ datum nx' = datum nx
            /\ parent nx' = parent nx)
    /\ (llink n = None \/ rlink n = None ->
        root (tree s')
        = match parent n with
          | None => only_child n
          | Some _ => root (tree s)
          end
        /\ forall x nx,
             x <> a -> mem s !! x = Some nx ->
             mem s' !! x
             = Some (set_weight
                       (if bool_decide (x ∈ l)
                        then weight nx - 1 else weight nx)
                       (splice_links a n x nx))).
Proof.
  intros Hinv Hcmp Hfuel Hk Hh. pose proof Hinv as [Hwf _].
  pose proof Hwf as [Hrep Hw Hr Hcnt Hdom].
  pose proof (remove_descend_spec fuel k t [] fuel s Hrep) as Hd.
  destruct (fdescend (key_cmp (tree s)) k [] t) as [c t0] eqn:Ed.
  destruct t0 as [|l0 a k0 d0 w0 r0].
  { exfalso. by apply (descend_leaf_not_held s t k c Hinv Hcmp Ed). }
  pose proof (fdescend_plug _ _ _ _ _ _ Ed) as Hplug. cbn [plug] in Hplug.
  pose proof (fdescend_found _ _ _ _ _ _ _ _ _ _ _ Ed) as Hfound.
  destruct Hd as (fuel' & Hf' & Hloop); [lia|].
  set (T := Node l0 a k0 d0 w0 r0) in *.
  rewrite <- Hplug in Hwf, Hrep, Hw, Hr, Hcnt, Hdom, Hfuel, Hloop.
  pose proof (wf_fits _ _ Hwf) as Hfit.
  pose proof Hw as [Hwt Hst]%weights_ok_plug.
  assert (Hlen : (length c + size T <= fuel)%nat).
  { pose proof (length_le_size_plug c T). lia. }
  destruct (remove_at_spec fuel k fuel' s c l0 a k0 d0 w0 r0 Hfound Hrep Hwt)
    as (s' & Hrem & H' & _ & _ & _ & _ & D'); [by eapply fits_plug|done|done|].
  assert (Hrun : pr_tree_remove fuel s k = Ok (0, s')).
  { unfold pr_tree_remove, ASSERT.
    replace (k =? NULL) with false by (symmetry; by apply Z.eqb_neq).
    cbn [negb]. rewrite mbind_Ok. destruct Hrep as (-> & _).
    by rewrite root_ptr_plug in Hloop |- *; rewrite Hloop. }
  pose proof (deref_inv _ _ _ (deref_focus _ _ _ _ _ _ _ _ Hrep)) as Hn.
  set (n := mk_node k0 d0 (ctx_parent c) (root_ptr l0) (root_ptr r0) w0) in *.
  exists s', a, n, (frame_addr <$> c).
  split_and!; [done|done|done|by eapply parent_chain_ctx
              |by eapply frame_addrs_NoDup| | |].
  - destruct (mem s' !! a) eqn:E; [|done].
    assert (is_Some (mem s' !! a)) as [? _]%D' by (by rewrite E). done.
  - intros x nx (f & -> & Hin)%list_elem_of_fmap Hx.
    apply list_elem_of_split in Hin as (c1 & c2 & ->).
    rewrite (frame_lookup_mid s c1 f c2 T Hrep) in Hx. injection Hx as <-.
    destruct (fremove_at_shape fuel' (c1 ++ f :: c2) l0 a k0 d0 w0 r0 Hf')
      as (c' & out & E).
    rewrite E in H'.
    rewrite (app_assoc c' c1), fmap_app, fmap_cons in H'.
    pose proof (frame_lookup_mid s' _ _ _ _ H') as Hx'.
    rewrite frame_addr_add_weight in Hx'.
    eexists; split; [exact Hx'|].
    pose proof (frame_weight_bounds _ _ Hw Hfit) as Hb.
    rewrite Forall_forall in Hb.
    assert (2 <= frame_weight f < ULONG_MOD) as Hbf by (apply Hb; set_solver).
    rewrite !weight_frame_node, !parent_frame_node, ctx_parent_add_weight.
    split_and!; [|by destruct f|by destruct f|done].
    destruct f; simpl in *; apply wrap_ulong_small; lia.
  - intros Hone.
    assert (Hout : exists out_t,
              ((l0 = Leaf /\ out_t = r0) \/ (r0 = Leaf /\ out_t = l0))
              /\ only_child n = root_ptr out_t
              /\ remove_loop fuel fuel' s k (Some a)
                 = remove_splice fuel s a (root_ptr out_t)).
    { destruct fuel' as [|fuel']; [simpl in Hf'; lia|].
      rewrite remove_loop_unfold, (deref_Some _ _ _ Hn), mbind_Ok.
      cbv zeta. unfold only_child, n. cbn [key llink rlink].
      rewrite Hfound. cbn [negb Z.eqb].
      destruct l0 as [|ll la kl dl wl lr]; cbn [root_ptr].
      - exists r0. split_and!; [by left|done|done].
      - destruct Hone as [Hone|Hone]; [done|]. cbn [rlink] in Hone.
        destruct r0 as [|rl ra kr dr wr rr]; [|done]. cbn [root_ptr].
        eexists. split_and!; [by right|done|done]. }
    destruct Hout as (out_t & Hout & Hoc & Hsplice).
    destruct (remove_splice_run fuel s c l0 a k0 d0 w0 r0 out_t Hrep Hw Hfit Hout)
      as (s'' & Hrun' & Hroot & Hlook); [lia|].
    rewrite Hsplice, Hrun' in Hrem. injection Hrem as <-.
    rewrite Hoc. split; [exact Hroot|exact Hlook].
Qed.

(** ** Rotations in a well-formed tree *)

Lemma wf_plug_replace s s' c t t' :
  wf s (plug c t) -> rep s' (plug c t') -> same_meta s s' -> same_dom s s' ->
  weights_ok t' -> size t' = size t -> addrs t' = addrs t ->
  fweight t' = fweight t ->
  wf s' (plug c t').
Proof.
  intros [Hrep Hw Hr Hcnt Hdom] Hrep' (Mc & _) Hd Hw' Hs Ha Hf.
  pose proof Hw as [Hwt Hst]%weights_ok_plug.
  assert (Hap : addrs (plug c t') = addrs (plug c t))
    by (by apply addrs_plug_congr).
  split.
  - done.
  - apply weights_ok_plug. split; [done|]. by rewrite Hf.
  - by rewrite Hap.
  - rewrite Mc, Hcnt. f_equal. f_equal. by apply size_plug_congr.
  - intros x. rewrite Hap, <- Hdom. apply (Hd x).
Qed.

Lemma rot_left_keeps_wf s t a n b :
  wf s t -> mem s !! a = Some n -> rlink n = Some b ->
  exists s' c A ka da wa C kb db wb E,
    t = plug c (Node A a ka da wa (Node C b kb db wb E))
    /\ rot_left s a = Ok s'
    /\ wf s' (plug c (frot_left (Node A a ka da wa (Node C b kb db wb E))))
    /\ same_meta s s'.
Proof.
  intros Hwf Hn Hb. pose proof (wf_rep _ _ Hwf) as Hrep.
  assert (Ha : a ∈ addrs t) by (apply (wf_dom _ _ Hwf); by rewrite Hn).
  destruct (focus_of_addr a t [] Ha) as (c & A & ka & da & wa & r & Et).
  cbn [plug] in Et. subst t.
  pose proof (deref_focus _ _ _ _ _ _ _ _ Hrep) as Hd.
  apply deref_inv in Hd. rewrite Hn in Hd. injection Hd as ->.
  cbn [rlink] in Hb. destruct r as [|C b' kb db wb E]; [done|].
  cbn [root_ptr] in Hb. injection Hb as ->.
  destruct (rot_left_spec s c A a ka da wa C b kb db wb E Hrep)
    as (s' & Hrun & Hrep' & Hm).
  exists s', c, A, ka, da, wa, C, kb, db, wb, E.
  split_and!; [done|done| |done].
  pose proof (wf_weights _ _ Hwf) as [Hwt _]%weights_ok_plug.
  pose proof (fits_plug _ _ (wf_fits _ _ Hwf)) as Hfit.
  apply (wf_plug_replace s s' c _ _ Hwf Hrep' Hm).
  - by eapply rot_left_same_dom.
  - by apply weights_ok_frot_left.
  - apply size_frot_left.
  - apply addrs_frot_left.
  - by apply fweight_frot_left.
Qed.

Lemma rot_right_keeps_wf s t a n b :
  wf s t -> mem s !! a = Some n -> llink n = Some b ->
  exists s' c A kb db wb C ka da wa E,
    t = plug c (Node (Node A b kb db wb C) a ka da wa E)
    /\ rot_right s a = Ok s'
    /\ wf s' (plug c (frot_right (Node (Node A b kb db wb C) a ka da wa E)))
    /\ same_meta s s'.
Proof.
  intros Hwf Hn Hb. pose proof (wf_rep _ _ Hwf) as Hrep.
  assert (Ha : a ∈ addrs t) by (apply (wf_dom _ _ Hwf); by rewrite Hn).
  destruct (focus_of_addr a t [] Ha) as (c & l & ka & da & wa & E & Et).
  cbn [plug] in Et. subst t.
  pose proof (deref_focus _ _ _ _ _ _ _ _ Hrep) as Hd.
  apply deref_inv in Hd. rewrite Hn in Hd. injection Hd as ->.
  cbn [llink] in Hb. destruct l as [|A b' kb db wb C]; [done|].
  cbn [root_ptr] in Hb. injection Hb as ->.
  destruct (rot_right_spec s c A b kb db wb C a ka da wa E Hrep)
    as (s' & Hrun & Hrep' & Hm).
  exists s', c, A, kb, db, wb, C, ka, da, wa, E.
  split_and!; [done|done| |done].
  pose proof (wf_weights _ _ Hwf) as [Hwt _]%weights_ok_plug.
  pose proof (fits_plug _ _ (wf_fits _ _ Hwf)) as Hfit.
  apply (wf_plug_replace s s' c _ _ Hwf Hrep' Hm).
  - by eapply rot_right_same_dom.
  - by apply weights_ok_frot_right.
  - apply size_frot_right.
  - apply addrs_frot_right.
  - by apply fweight_frot_right.
Qed.

(** * The claims of the specification *)

Lemma sample_state_reachable : reachable sample_state.
Proof. apply final_state_reachable. vm_compute. eauto. Qed.

Lemma spliced_state_reachable : reachable spliced_state.
Proof. apply final_state_reachable. vm_compute. eauto. Qed.

Lemma leaning_state_reachable : reachable leaning_state.
Proof. apply final_state_reachable. vm_compute. eauto. Qed.

Lemma sample_state_cmp : cmp_ok (key_cmp (tree sample_state)).
Proof. apply dict_ptr_cmp_ok. Qed.

Lemma spliced_state_cmp : cmp_ok (key_cmp (tree spliced_state)).
Proof. apply dict_ptr_cmp_ok. Qed.

(** ** C1: balance *)

(** C1, as stated, fails: in the state reached by inserting the keys 2, 1,
    3, 4 and removing 1, the root (key 2, at address 100) has no left child,
    so its left weight is 1, while its right grandchild (key 4) has
    weight 2.  The balance condition does not hold at the root after this
    remove. *)
Lemma balance_fails_after_remove :
  ~ (forall s, reachable s -> balance_invariant s).
Proof.
  intros H.
  assert (Hlive : is_Some (mem spliced_state !! 100)) by (vm_compute; eauto).
  assert (Hbad : node_balanced spliced_state 100 = Ok false)
    by (vm_compute; reflexivity).
  specialize (H spliced_state spliced_state_reachable 100 Hlive).
  rewrite Hbad in H. discriminate H.
Qed.

(** Nor is balance kept by insertions alone: after the fifteen insertions of
    [leaning_ops] the node of key 14 has a left subtree of weight 2 and a
    right-left grandchild of weight 3. *)
Lemma balance_fails_after_insert :
  node_balanced leaning_state 101 = Ok false
  /\ balance_invariant (final_state 20 (take 14 leaning_ops)).
Proof.
  split; [vm_compute; reflexivity|].
  apply balance_invariant_test. vm_compute. reflexivity.
Qed.

(** C1 (amended): an insert that adds a node links the new leaf and then
    goes through the ancestors of the leaf, each once, from its parent up
    to the root: it increments the weight of the ancestor and calls [fixup]
    on it; every one of these calls returns, and when it returns the
    path-reduction balance condition holds at the node it was called on.
    A probe that adds a node does the same.  A remove whose target has at
    most one child splices the target out and subtracts one from the weight
    of each of its ancestors; no other weight and no other link of any node
    changes, so nothing is rebalanced.  (The condition is thus established
    where and when [fixup] runs; it is not an invariant of every node.) *)
Theorem fixup_runs_in_insert_only s fuel :
  reachable s -> (base.size (mem s) < fuel)%nat ->
  (forall a k d ow,
     ~ holds_key s k -> valid_block s a = true ->
     exists s0 l s1,
       leaf_linked s a k d s0
       /\ parent_chain s0 a l /\ NoDup l
       /\ ascent fuel (fun _ x s2 => node_balanced s2 x = Ok true) s0 l s1
       /\ pr_tree_insert fuel s (Some a) k d ow
          = Ok (0, with_count (wrap_uint (count (tree s) + 1)) s1))
  /\ (forall a k d,
        ~ holds_key s k -> valid_block s a = true ->
        exists s0 l s1,
          leaf_linked s a k d s0
          /\ parent_chain s0 a l /\ NoDup l
          /\ ascent fuel (fun _ x s2 => node_balanced s2 x = Ok true) s0 l s1
          /\ pr_tree_probe fuel s (Some a) k d
             = Ok (1, d, with_count (wrap_uint (count (tree s) + 1)) s1))
  /\ (forall k,
        cmp_ok (key_cmp (tree s)) -> k <> NULL -> holds_key s k ->
        exists s' a n l,
          pr_tree_remove fuel s k = Ok (0, s')
          /\ mem s !! a = Some n /\ key_cmp (tree s) k (key n) = 0
          /\ parent_chain s a l
          /\ mem s' !! a = None
          /\ (llink n = None \/ rlink n = None ->
              root (tree s')
              = match parent n with
                | None => only_child n
                | Some _ => root (tree s)
                end
              /\ forall x nx,
                   x <> a -> mem s !! x = Some nx ->
                   mem s' !! x
                   = Some (set_weight
                             (if bool_decide (x ∈ l)
                              then weight nx - 1 else weight nx)
                             (splice_links a n x nx)))).
Proof.
  intros (t & Hinv & Hsz)%reachable_tree Hf. rewrite <- Hsz in Hf.
  pose proof Hinv as [Hwf _]. split_and!.
  - intros a k d ow Hno Hv.
    destruct (insert_run s t fuel a k d ow Hwf Hf Hno Hv)
      as (s0 & l & s1 & Hl & Hc & Hnd & Hasc & Hrun).
    exists s0, l, s1. split_and!; try done.
    eapply ascent_impl; [|exact Hasc]. by intros ? ? ? [? _].
  - intros a k d Hno Hv.
    destruct (probe_run s t fuel a k d Hwf Hf Hno Hv)
      as (s0 & l & s1 & Hl & Hc & Hnd & Hasc & Hrun).
    exists s0, l, s1. split_and!; try done.
    eapply ascent_impl; [|exact Hasc]. by intros ? ? ? [? _].
  - intros k Hcmp Hk Hh.
    destruct (remove_run s t fuel k Hinv Hcmp Hf Hk Hh)
      as (s' & a & n & l & Hrun & Hn & Hkn & Hc & _ & Hfree & _ & Hone).
    by exists s', a, n, l.
Qed.

Lemma fixup_runs_in_insert_only_witness :
  (exists s0 l s1,
     leaf_linked sample_state 104 7 70 s0
     /\ parent_chain s0 104 l /\ NoDup l
     /\ ascent 10 (fun _ x s2 => node_balanced s2 x = Ok true) s0 l s1
     /\ pr_tree_insert 10 sample_state (Some 104) 7 70 0
        = Ok (0, with_count (wrap_uint (count (tree sample_state) + 1)) s1))
  /\ (exists s' a n l,
        pr_tree_remove 10 sample_state 1 = Ok (0, s')
        /\ mem sample_state !! a = Some n
        /\ key_cmp (tree sample_state) 1 (key n) = 0
        /\ parent_chain sample_state a l
        /\ mem s' !! a = None
        /\ (llink n = None \/ rlink n = None ->
            root (tree s')
            = match parent n with
              | None => only_child n
              | Some _ => root (tree sample_state)
              end
            /\ forall x nx,
                 x <> a -> mem sample_state !! x = Some nx ->
                 mem s' !! x
                 = Some (set_weight
                           (if bool_decide (x ∈ l)
                            then weight nx - 1 else weight nx)
                           (splice_links a n x nx)))).
Proof.
  destruct (fixup_runs_in_insert_only sample_state 10) as (Hins & _ & Hrem).
  - exact sample_state_reachable.
  - vm_compute. lia.
  - split.
    + apply Hins.
      * apply not_holds_key_test. vm_compute. reflexivity.
      * vm_compute. reflexivity.
    + apply Hrem.
      * exact sample_state_cmp.
      * done.
      * apply (holds_key_test _ _ 101). vm_compute. reflexivity.
Defined.

(** ** C2: weights *)

(** C2: in every reachable state each node's weight is the sum of the
    weights of its children, an absent child counting for 1.  [node_new]
    with a fresh block returns, and a node it makes is a leaf of weight 2.
    A rotation, in any state, writes the weights of the two rotated nodes
    and of no other node; in a reachable state, at a node that has the
    child to rotate up, it returns and the weight invariant holds
    afterwards.  An insert that adds a node goes through the ancestors of
    the new leaf, each once, from its parent up to the root; each of them
    still has, when the ascent reaches it, the weight it had before the
    insert, and that weight is incremented by exactly one (before [fixup]
    runs there); the weight invariant holds again when insert returns.  A
    remove that finds its key leaves every ancestor of the removed node
    with its weight decremented by exactly one, and the weight invariant
    holds again when it returns. *)
Theorem weights_are_kept s fuel :
  reachable s -> (base.size (mem s) < fuel)%nat ->
  weight_invariant s
  /\ (forall a k d,
        valid_block s a = true ->
        exists s', node_new s (Some a) k d = Ok (Some a, s')
          /\ mem s' !! a = Some (mk_node k d None None None 2))
  /\ (forall m k d p s',
        node_new s m k d = Ok (Some p, s') ->
        mem s' !! p = Some (mk_node k d None None None 2))
  /\ (forall s0 a s',
        rot_left s0 a = Ok s' ->
        exists n b, mem s0 !! a = Some n /\ rlink n = Some b
          /\ same_weights_except [a; b] s0 s')
  /\ (forall s0 a s',
        rot_right s0 a = Ok s' ->
        exists n b, mem s0 !! a = Some n /\ llink n = Some b
          /\ same_weights_except [a; b] s0 s')
  /\ (forall a n b,
        mem s !! a = Some n -> rlink n = Some b ->
        exists s', rot_left s a = Ok s'
          /\ same_weights_except [a; b] s s' /\ weight_invariant s')
  /\ (forall a n b,
        mem s !! a = Some n -> llink n = Some b ->
        exists s', rot_right s a = Ok s'
          /\ same_weights_except [a; b] s s' /\ weight_invariant s')
  /\ (forall a k d ow,
        ~ holds_key s k -> valid_block s a = true ->
        exists s0 l s1 s',
          leaf_linked s a k d s0
          /\ parent_chain s0 a l /\ NoDup l
          /\ ascent fuel
               (fun si x _ => weight <$> mem si !! x = weight <$> mem s !! x)
               s0 l s1
          /\ s' = with_count (wrap_uint (count (tree s) + 1)) s1
          /\ pr_tree_insert fuel s (Some a) k d ow = Ok (0, s')
          /\ weight_invariant s')
  /\ (forall k,
        cmp_ok (key_cmp (tree s)) -> k <> NULL -> holds_key s k ->
        exists s' a n l,
          pr_tree_remove fuel s k = Ok (0, s')
          /\ mem s !! a = Some n /\ key_cmp (tree s) k (key n) = 0
          /\ parent_chain s a l /\ NoDup l
          /\ mem s' !! a = None
          /\ (forall x nx,
                x ∈ l -> mem s !! x = Some nx ->
                exists nx',
                  mem s' !! x = Some nx' /\ weight nx' = weight nx - 1)
          /\ weight_invariant s').
Proof.
  intros Hreach Hf.
  destruct (reachable_tree s Hreach) as (t & Hinv & Hsz). rewrite <- Hsz in Hf.
  pose proof Hinv as [Hwf _].
  assert (Hwi : forall s', reachable s' -> weight_invariant s').
  { intros s' (t' & [Hwf' _] & _)%reachable_tree.
    by eapply wf_weight_invariant. }
  split_and!.
  - by apply Hwi.
  - intros a k d Hv. unfold node_new, MALLOC. rewrite Hv, mbind_Ok.
    eexists; split; [reflexivity|]. by rewrite mem_with_mem, lookup_insert_eq.
  - intros m k d p s'. apply node_new_weight.
  - intros s0 a s'. apply rot_left_weights.
  - intros s0 a s'. apply rot_right_weights.
  - intros a n b Hn Hb.
    destruct (rot_left_keeps_wf s t a n b Hwf Hn Hb)
      as (s' & c & A & ka & da & wa & C & kb & db & wb & E
          & _ & Hrun & Hwf' & _).
    exists s'. split_and!; [done| |by eapply wf_weight_invariant].
    destruct (rot_left_weights s a s' Hrun) as (n0 & b0 & Hn0 & Hb0 & Hswe).
    rewrite Hn in Hn0. injection Hn0 as <-. rewrite Hb in Hb0.
    by injection Hb0 as <-.
  - intros a n b Hn Hb.
    destruct (rot_right_keeps_wf s t a n b Hwf Hn Hb)
      as (s' & c & A & kb & db & wb & C & ka & da & wa & E
          & _ & Hrun & Hwf' & _).
    exists s'. split_and!; [done| |by eapply wf_weight_invariant].
    destruct (rot_right_weights s a s' Hrun) as (n0 & b0 & Hn0 & Hb0 & Hswe).
    rewrite Hn in Hn0. injection Hn0 as <-. rewrite Hb in Hb0.
    by injection Hb0 as <-.
  - intros a k d ow Hno Hv.
    destruct (insert_run s t fuel a k d ow Hwf Hf Hno Hv)
      as (s0 & l & s1 & Hl & Hc & Hnd & Hasc & Hrun).
    exists s0, l, s1, (with_count (wrap_uint (count (tree s) + 1)) s1).
    split_and!; try done.
    + eapply ascent_impl; [|exact Hasc]. by intros ? ? ? [_ ?].
    + apply Hwi. by eapply reach_insert.
  - intros k Hcmp Hk Hh.
    destruct (remove_run s t fuel k Hinv Hcmp Hf Hk Hh)
      as (s' & a & n & l & Hrun & Hn & Hkn & Hc & Hnd & Hfree & Hanc & _).
    exists s', a, n, l. split_and!; try done.
    + intros x nx Hx Hnx.
      destruct (Hanc x nx Hx Hnx) as (nx' & ? & ? & _). by exists nx'.
    + apply Hwi. by eapply reach_remove.
Qed.

Lemma weights_are_kept_witness :
  weight_invariant leaning_state
  /\ (exists s0 l s1 s',
        leaf_linked leaning_state 115 6 60 s0
        /\ parent_chain s0 115 l /\ NoDup l
        /\ ascent 20
             (fun si x _ =>
                weight <$> mem si !! x = weight <$> mem leaning_state !! x)
             s0 l s1
        /\ s' = with_count (wrap_uint (count (tree leaning_state) + 1)) s1
        /\ pr_tree_insert 20 leaning_state (Some 115) 6 60 0 = Ok (0, s')
        /\ weight_invariant s')
  /\ (exists s' a n l,
        pr_tree_remove 20 leaning_state 14 = Ok (0, s')
        /\ mem leaning_state !! a = Some n
        /\ key_cmp (tree leaning_state) 14 (key n) = 0
        /\ parent_chain leaning_state a l /\ NoDup l
        /\ mem s' !! a = None
        /\ (forall x nx,
              x ∈ l -> mem leaning_state !! x = Some nx ->
              exists nx',
                mem s' !! x = Some nx' /\ weight nx' = weight nx - 1)
        /\ weight_invariant s').
Proof.
  destruct (weights_are_kept leaning_state 20)
    as (Hinv & _ & _ & _ & _ & _ & _ & Hins & Hrem).
  - exact leaning_state_reachable.
  - vm_compute. lia.
  - split_and!.
    + exact Hinv.
    + apply Hins.
      * apply not_holds_key_test. vm_compute. reflexivity.
      * vm_compute. reflexivity.
    + apply Hrem.
      * apply dict_ptr_cmp_ok.
      * done.
      * apply (holds_key_test _ _ 101). vm_compute. reflexivity.
Defined.

(** ** C3: insert, remove and search *)

(** C3: in a reachable state whose comparator is an order, for a key that
    no node holds, an insert that gets a block from the allocator returns 0
    and a search for the key then returns the inserted value; for a key that
    some node holds, remove returns 0 and a search for the key then returns
    the null pointer, no node holding the key any more; for a key that no
    node holds, remove returns -1 and leaves the state as it is. *)
Theorem insert_remove_then_search s fuel k :
  reachable s -> cmp_ok (key_cmp (tree s)) ->
  (base.size (mem s) < fuel)%nat ->
  (~ holds_key s k ->
   forall a d ow, valid_block s a = true ->
     exists s',
       pr_tree_insert fuel s (Some a) k d ow = Ok (0, s')
       /\ pr_tree_search fuel s' k = Ok d)
  /\ (k <> NULL -> holds_key s k ->
      exists s',
        pr_tree_remove fuel s k = Ok (0, s')
        /\ pr_tree_search fuel s' k = Ok NULL
        /\ ~ holds_key s' k)
  /\ (k <> NULL -> ~ holds_key s k -> pr_tree_remove fuel s k = Ok (-1, s)).
Proof.
  intros (t & Hinv & Hsz)%reachable_tree Hcmp Hf. rewrite <- Hsz in Hf.
  split_and!.
  - intros Hno a d ow Hv.
    destruct (pr_tree_insert_cases fuel s t (Some a) k d ow Hinv Hcmp Hf)
      as [(Hh & _)|[(Hh & _)|[(_ & Hm & _)|[(_ & Hnew)|(_ & Hbad)]]]];
      try done.
    + destruct Hnew as (a' & s' & t' & [= <-] & _ & Hrun & Hinv' & Hsz' & Hst & Hk & _).
      exists s'. split; [done|].
      apply (search_hit fuel s' t' k k d Hinv'); [by rewrite Hk|lia| |].
      * apply Hst. by left.
      * rewrite Hk. by apply cmp_refl.
    + destruct Hbad as (a' & [= <-] & Hv' & _). congruence.
  - intros Hk Hh.
    destruct (pr_tree_remove_cases fuel s t k Hinv Hcmp Hf Hk)
      as [(Hno & _)|(_ & s' & t' & k0 & d0 & Hrun & Hinv' & Hsz' & Hno' & _)];
      [done|].
    exists s'. split_and!; [done| |done].
    apply (search_miss fuel s' t' k); [apply Hinv'|lia|done].
  - intros Hk Hno.
    destruct (pr_tree_remove_cases fuel s t k Hinv Hcmp Hf Hk)
      as [(_ & Hrun)|(Hh & _)]; done.
Qed.

Lemma insert_remove_then_search_witness :
  (exists s',
     pr_tree_insert 10 sample_state (Some 104) 7 70 0 = Ok (0, s')
     /\ pr_tree_search 10 s' 7 = Ok 70)
  /\ (exists s',
        pr_tree_remove 10 sample_state 3 = Ok (0, s')
        /\ pr_tree_search 10 s' 3 = Ok NULL
        /\ ~ holds_key s' 3)
  /\ pr_tree_remove 10 sample_state 7 = Ok (-1, sample_state).
Proof.
  pose proof (insert_remove_then_search sample_state 10 7
                sample_state_reachable sample_state_cmp) as H7.
  pose proof (insert_remove_then_search sample_state 10 3
                sample_state_reachable sample_state_cmp) as H3.
  assert (Hf : (base.size (mem sample_state) < 10)%nat) by (vm_compute; lia).
  assert (Hno : ~ holds_key sample_state 7)
    by (apply not_holds_key_test; by vm_compute).
  destruct (H7 Hf) as (Hins & _ & Hmiss).
  destruct (H3 Hf) as (_ & Hrem & _).
  split_and!.
  - apply Hins; [exact Hno|by vm_compute].
  - apply Hrem; [done|]. apply (holds_key_test _ _ 102). by vm_compute.
  - apply Hmiss; [done|exact Hno].
Defined.

(** ** C4: the results of insert *)

Ltac solve_iff := solve [intuition (first [lia | congruence | done])].

(** C4: in a reachable state whose comparator is an order, with an allocator
    that answers with a fresh block or with a failure, insert returns 0, 1
    or -1: 0 when the key is new and a node is allocated, or when a node
    holds the key and overwrite is enabled, and then a search for the key
    returns the value; 1 when a node holds the key and overwrite is
    disabled; -1 when the key is new and the allocation fails.  Whenever the
    result is not 0 the state is left as it is.  After an insert that did
    not fail, a second insert of the key with overwrite disabled returns 1
    and changes nothing. *)
Theorem insert_outcomes s fuel m k d ow :
  reachable s -> cmp_ok (key_cmp (tree s)) ->
  (S (base.size (mem s)) < fuel)%nat ->
  match m with Some a => valid_block s a = true | None => True end ->
  exists rv s',
    pr_tree_insert fuel s m k d ow = Ok (rv, s')
    /\ (rv = 0 \/ rv = 1 \/ rv = -1)
    /\ (rv = 0 <-> (~ holds_key s k /\ m <> None) \/ (holds_key s k /\ ow <> 0))
    /\ (rv = 1 <-> holds_key s k /\ ow = 0)
    /\ (rv = -1 <-> ~ holds_key s k /\ m = None)
    /\ (rv = 0 -> stored s' k d /\ pr_tree_search fuel s' k = Ok d)
    /\ (rv <> 0 -> s' = s)
    /\ (rv <> -1 ->
        forall m' d', pr_tree_insert fuel s' m' k d' 0 = Ok (1, s')).
Proof.
  intros (t & Hinv & Hsz)%reachable_tree Hcmp Hf Hm. rewrite <- Hsz in Hf.
  assert (Hagain : forall s1 t1,
    tree_inv s1 t1 -> key_cmp (tree s1) = key_cmp (tree s) ->
    (size t1 < fuel)%nat -> holds_key s1 k ->
    forall m' d', pr_tree_insert fuel s1 m' k d' 0 = Ok (1, s1)).
  { intros s1 t1 Hinv1 Hk1 Hf1 Hh1 m' d'.
    destruct (pr_tree_insert_cases fuel s1 t1 m' k d' 0 Hinv1)
      as [(_ & _ & Hrun)|[(_ & Hne & _)|[(Hno & _)|[(Hno & _)|(Hno & _)]]]];
      try done.
    by rewrite Hk1. }
  destruct (pr_tree_insert_cases fuel s t m k d ow Hinv Hcmp ltac:(lia))
    as [(Hh & Hzero & Hrun)
       |[(Hh & Hne & s' & t' & k0 & d0 & Hrun & Hinv' & Hsz' & Hst & _ & _ & Hk & _)
       |[(Hno & -> & Hrun)
       |[(Hno & a & s' & t' & -> & Hv & Hrun & Hinv' & Hsz' & Hst & Hk & _)
        |(Hno & a & -> & Hv & _)]]]].
  - exists 1, s.
    split_and!;
      [done|lia|solve_iff|solve_iff|solve_iff
      |intros ?; exfalso; lia|done|].
    intros _. apply (Hagain s t); [done|done|lia|done].
  - assert (Hkd : holds_key s' k) by (apply (stored_holds s' k d); [by rewrite Hk|done]).
    exists 0, s'.
    split_and!;
      [done|lia|solve_iff|solve_iff|solve_iff| |intros ?; exfalso; lia|].
    + intros _. split; [done|].
      apply (search_hit fuel s' t' k k d Hinv'); [by rewrite Hk|lia|done|].
      rewrite Hk. by apply cmp_refl.
    + intros _. apply (Hagain s' t'); [done|done|lia|done].
  - exists (-1), s.
    split_and!;
      [done|lia|solve_iff|solve_iff|solve_iff
      |intros ?; exfalso; lia|done|intros ?; exfalso; lia].
  - assert (Hst' : stored s' k d) by (apply Hst; by left).
    assert (Hkd : holds_key s' k) by (apply (stored_holds s' k d); [by rewrite Hk|done]).
    exists 0, s'.
    split_and!;
      [done|lia|solve_iff|solve_iff|solve_iff| |intros ?; exfalso; lia|].
    + intros _. split; [done|].
      apply (search_hit fuel s' t' k k d Hinv'); [by rewrite Hk|lia|done|].
      rewrite Hk. by apply cmp_refl.
    + intros _. apply (Hagain s' t'); [done|done|lia|done].
  - simpl in Hm. congruence.
Qed.

Lemma insert_outcomes_witness :
  exists rv s',
    pr_tree_insert 10 sample_state (Some 104) 7 70 0 = Ok (rv, s')
    /\ (rv = 0 \/ rv = 1 \/ rv = -1)
    /\ (rv = 0 <-> (~ holds_key sample_state 7 /\ Some 104 <> None)
                   \/ (holds_key sample_state 7 /\ 0 <> 0))
    /\ (rv = 1 <-> holds_key sample_state 7 /\ 0 = 0)
    /\ (rv = -1 <-> ~ holds_key sample_state 7 /\ Some 104 = None)
    /\ (rv = 0 -> stored s' 7 70 /\ pr_tree_search 10 s' 7 = Ok 70)
    /\ (rv <> 0 -> s' = sample_state)
    /\ (rv <> -1 ->
        forall m' d', pr_tree_insert 10 s' m' 7 d' 0 = Ok (1, s')).
Proof.
  apply (insert_outcomes sample_state 10 (Some 104) 7 70 0).
  - exact sample_state_reachable.
  - exact sample_state_cmp.
  - vm_compute. lia.
  - by vm_compute.
Defined.

(** ** C5: probe *)

(** C5: in a reachable state whose comparator is an order, probe with a key
    that some node holds returns 0 and the value stored with the key, which
    is what search returns, and leaves the state as it is; with a key that
    no node holds, and a block from the allocator, it returns 1, keeps the
    supplied value in the slot and stores it, so that a search for the key
    then returns it. *)
Theorem probe_outcomes s fuel m k d :
  reachable s -> cmp_ok (key_cmp (tree s)) ->
  (base.size (mem s) < fuel)%nat ->
  (holds_key s k ->
   exists k0 d0,
     pr_tree_probe fuel s m k d = Ok (0, d0, s)
     /\ stored s k0 d0 /\ key_cmp (tree s) k k0 = 0
     /\ pr_tree_search fuel s k = Ok d0)
  /\ (~ holds_key s k ->
      forall a, m = Some a -> valid_block s a = true ->
        exists s',
          pr_tree_probe fuel s m k d = Ok (1, d, s')
          /\ stored s' k d
          /\ pr_tree_search fuel s' k = Ok d).
Proof.
  intros (t & Hinv & Hsz)%reachable_tree Hcmp Hf. rewrite <- Hsz in Hf.
  pose proof (pr_tree_probe_cases fuel s t m k d Hinv Hcmp Hf) as Hcases.
  split.
  - intros Hh.
    destruct Hcases as [(_ & k0 & d0 & Hrun & Hst & Hk)
                       |[(Hno & _)|[(Hno & _)|(Hno & _)]]]; try done.
    exists k0, d0. split_and!; try done.
    apply (search_hit fuel s t k k0 d0 Hinv Hcmp); [lia|done|done].
  - intros Hno a -> Hv.
    destruct Hcases as [(Hh & _)|[(_ & [=] & _)|[(_ & Hnew)|(_ & Hbad)]]];
      try done.
    + destruct Hnew as (a' & s' & t' & [= <-] & _ & Hrun & Hinv' & Hsz' & Hst & Hk & _).
      assert (Hkd : stored s' k d) by (apply Hst; by left).
      exists s'. split_and!; [done|done|].
      apply (search_hit fuel s' t' k k d Hinv'); [by rewrite Hk|lia|done|].
      rewrite Hk. by apply cmp_refl.
    + destruct Hbad as (a' & [= <-] & Hv' & _). congruence.
Qed.

Lemma probe_outcomes_witness :
  (exists k0 d0,
     pr_tree_probe 10 sample_state (Some 104) 3 99 = Ok (0, d0, sample_state)
     /\ stored sample_state k0 d0
     /\ key_cmp (tree sample_state) 3 k0 = 0
     /\ pr_tree_search 10 sample_state 3 = Ok d0)
  /\ (exists s',
        pr_tree_probe 10 sample_state (Some 104) 7 70 = Ok (1, 70, s')
        /\ stored s' 7 70
        /\ pr_tree_search 10 s' 7 = Ok 70).
Proof.
  assert (Hf : (base.size (mem sample_state) < 10)%nat) by (vm_compute; lia).
  split.
  - apply (probe_outcomes sample_state 10 (Some 104) 3 99
             sample_state_reachable sample_state_cmp Hf).
    apply (holds_key_test _ _ 102). by vm_compute.
  - apply (probe_outcomes sample_state 10 (Some 104) 7 70
             sample_state_reachable sample_state_cmp Hf) with 104.
    + apply not_holds_key_test. by vm_compute.
    + done.
    + by vm_compute.
Defined.

(** ** C6: walk and cursor traversal *)

(** C6: in a reachable state whose comparator is an order, a walk whose
    visitor never stops visits exactly the stored entries, returns their
    number, and shows the keys in strictly ascending order; a cursor
    traversal from [pr_itor_first] by [pr_itor_next] until the cursor is
    unbound reads the same sequence of keys. *)
Theorem walk_ascending_as_cursor s fuel it :
  reachable s -> cmp_ok (key_cmp (tree s)) ->
  (base.size (mem s) < fuel)%nat ->
  exists es,
    pr_tree_walk fuel s (fun _ _ => true) = Ok (count (tree s), es)
    /\ ascending (key_cmp (tree s)) es.*1
    /\ (forall k d, (k, d) ∈ es <-> stored s k d)
    /\ itor_keys fuel s it = Ok es.*1.
Proof.
  intros (t & [Hwf Hasc] & Hsz)%reachable_tree Hcmp Hf. rewrite <- Hsz in Hf.
  pose proof (wf_rep _ _ Hwf) as Hrep.
  exists (entries t). split_and!.
  - rewrite (pr_tree_walk_spec fuel s t _ Hrep Hf), walk_prefix_all.
    by rewrite (wf_count _ _ Hwf), length_entries, length_addrs.
  - by apply Hasc.
  - intros k d. symmetry. by apply stored_iff.
  - by apply itor_keys_spec.
Qed.

Lemma walk_ascending_as_cursor_witness :
  exists es,
    pr_tree_walk 10 sample_state (fun _ _ => true)
      = Ok (count (tree sample_state), es)
    /\ ascending (key_cmp (tree sample_state)) es.*1
    /\ (forall k d, (k, d) ∈ es <-> stored sample_state k d)
    /\ itor_keys 10 sample_state (mk_itor None) = Ok es.*1.
Proof.
  apply (walk_ascending_as_cursor sample_state 10 (mk_itor None)).
  - exact sample_state_reachable.
  - exact sample_state_cmp.
  - vm_compute. lia.
Defined.

(** ** C7: remove terminates *)

(** C7: in a reachable state, remove of a non-null key returns, with 0 or
    -1, as soon as the fuel exceeds the number of nodes.  Standing on the
    node that holds the key, the loop ends within as many iterations as the
    subtree of that node has nodes: at a node with two children one
    iteration (an optional rotation of the heavier child, then the rotation
    of the node down to the lighter side) leaves the node with a strictly
    smaller subtree, and a node with at most one child is spliced out. *)
Theorem remove_terminates s fuel k :
  reachable s -> k <> NULL -> (base.size (mem s) < fuel)%nat ->
  (exists rv s',
     pr_tree_remove fuel s k = Ok (rv, s') /\ (rv = 0 \/ rv = -1))
  /\ (forall c l a k0 d0 w r n,
        wf s (plug c (Node l a k0 d0 w r)) ->
        key_cmp (tree s) k k0 = 0 ->
        (size (Node l a k0 d0 w r) <= n)%nat ->
        exists s', remove_loop fuel n s k (Some a) = Ok (0, s'))
  /\ (forall l a k0 d0 w r,
        l <> Leaf -> r <> Leaf ->
        exists f t',
          fremove_rot (Node l a k0 d0 w r) = Some (f, t')
          /\ root_ptr t' = Some a
          /\ (size t' < size (Node l a k0 d0 w r))%nat
          /\ forall n c,
               fremove_at (S n) c (Node l a k0 d0 w r)
               = fremove_at n (f :: c) t').
Proof.
  intros (t & [Hwf _] & Hsz)%reachable_tree Hk Hf. rewrite <- Hsz in Hf.
  split_and!.
  - pose proof (pr_tree_remove_spec fuel s t k Hwf Hk Hf) as Hspec.
    destruct (fdescend (key_cmp (tree s)) k [] t) as [c [|l a k0 d0 w r]].
    + exists (-1), s. split; [done|by right].
    + destruct Hspec as (s' & t' & Hrun & _). exists 0, s'. split; [done|by left].
  - intros c l a k0 d0 w r n Hwf' Hk0 Hn.
    assert (Hsize : size (plug c (Node l a k0 d0 w r)) = size t).
    { rewrite <- (wf_size_mem _ _ Hwf'). by apply wf_size_mem. }
    pose proof (wf_weights _ _ Hwf') as [Hw _]%weights_ok_plug.
    pose proof (fits_plug _ _ (wf_fits _ _ Hwf')) as Hfit.
    destruct (remove_at_spec fuel k n s c l a k0 d0 w r Hk0 (wf_rep _ _ Hwf')
                Hw Hfit Hn) as (s' & Hrun & _).
    { pose proof (length_le_size_plug c (Node l a k0 d0 w r)). lia. }
    by exists s'.
  - intros l a k0 d0 w r. apply fremove_rot_decreases.
Qed.

Lemma remove_terminates_witness :
  exists rv s',
    pr_tree_remove 10 sample_state 2 = Ok (rv, s') /\ (rv = 0 \/ rv = -1).
Proof.
  apply (remove_terminates sample_state 10 2).
  - exact sample_state_reachable.
  - done.
  - vm_compute. lia.
Defined.

(** ** C8: the cursor *)

Lemma nodes_hold_keys s t :
  rep s t ->
  Forall2 (fun a k => exists n, mem s !! a = Some n /\ key n = k)
    (addrs t) (keys t).
Proof.
  intros Hrep. apply Forall2_same_length_lookup_2.
  - unfold keys. by rewrite length_fmap, length_entries.
  - intros i a k Ha Hk.
    destruct (deref_index s t i a Hrep Ha) as (n & Hd & He).
    exists n. split; [by apply deref_inv|].
    unfold keys in Hk. rewrite list_lookup_fmap, He in Hk. by injection Hk.
Qed.

(** C8: in a reachable state whose comparator is an order, the live nodes
    form a sequence [nodes] along which the keys ascend strictly.  A new
    cursor stands on the first node, and is unbound when there is none;
    [pr_itor_first] and [pr_itor_last] go to the first and the last node;
    on an unbound cursor [pr_itor_next] is [pr_itor_first] and
    [pr_itor_prev] is [pr_itor_last]; on a cursor at the node of index [i],
    [pr_itor_next] goes to the node of index [i + 1] and [pr_itor_prev] to
    the node of index [i - 1], the cursor becoming unbound when there is no
    such node.  The result is 1 for a bound and 0 for an unbound cursor. *)
Theorem cursor_moves s fuel :
  reachable s -> cmp_ok (key_cmp (tree s)) ->
  (base.size (mem s) < fuel)%nat ->
  exists (nodes : list addr) (ks : list ptr),
    NoDup nodes
    /\ (forall a, a ∈ nodes <-> is_Some (mem s !! a))
    /\ Forall2 (fun a k => exists n, mem s !! a = Some n /\ key n = k) nodes ks
    /\ ascending (key_cmp (tree s)) ks
    /\ pr_itor_new fuel s true = Ok (Some (mk_itor (head nodes)))
    /\ (forall it,
          pr_itor_first fuel s it
            = Ok (RETVALID (mk_itor (head nodes)), mk_itor (head nodes))
          /\ pr_itor_last fuel s it
            = Ok (RETVALID (mk_itor (last nodes)), mk_itor (last nodes)))
    /\ (forall it, itor_node it = None ->
          pr_itor_next fuel s it = pr_itor_first fuel s it
          /\ pr_itor_prev fuel s it = pr_itor_last fuel s it)
    /\ (forall i a, nodes !! i = Some a ->
          pr_itor_next fuel s (mk_itor (Some a))
            = Ok (RETVALID (mk_itor (nodes !! S i)), mk_itor (nodes !! S i))
          /\ pr_itor_prev fuel s (mk_itor (Some a))
            = Ok (RETVALID (mk_itor (match i with
                                     | O => None
                                     | S j => nodes !! j
                                     end)),
                  mk_itor (match i with O => None | S j => nodes !! j end))).
Proof.
  intros (t & [Hwf Hasc] & Hsz)%reachable_tree Hcmp Hf. rewrite <- Hsz in Hf.
  pose proof (wf_rep _ _ Hwf) as Hrep.
  exists (addrs t), (keys t). split_and!.
  - apply Hrep.
  - intros a. symmetry. apply (wf_dom _ _ Hwf).
  - by apply nodes_hold_keys.
  - by apply Hasc.
  - unfold pr_itor_new.
    by rewrite (pr_itor_first_spec fuel s t _ Hrep Hf), mbind_Ok.
  - intros it. split.
    + by apply pr_itor_first_spec.
    + by apply pr_itor_last_spec.
  - intros it Hit. unfold pr_itor_next, pr_itor_prev. by rewrite Hit.
  - intros i a Hi. unfold pr_itor_next, pr_itor_prev. cbn [itor_node]. split.
    + by rewrite (node_next_index s t i a Hrep Hi fuel) by lia.
    + by rewrite (node_prev_index s t i a Hrep Hi fuel) by lia.
Qed.

Lemma cursor_moves_witness :
  exists (nodes : list addr) (ks : list ptr),
    NoDup nodes
    /\ (forall a, a ∈ nodes <-> is_Some (mem sample_state !! a))
    /\ Forall2 (fun a k => exists n, mem sample_state !! a = Some n /\ key n = k)
         nodes ks
    /\ ascending (key_cmp (tree sample_state)) ks
    /\ pr_itor_new 10 sample_state true = Ok (Some (mk_itor (head nodes)))
    /\ (forall it,
          pr_itor_first 10 sample_state it
            = Ok (RETVALID (mk_itor (head nodes)), mk_itor (head nodes))
          /\ pr_itor_last 10 sample_state it
            = Ok (RETVALID (mk_itor (last nodes)), mk_itor (last nodes)))
    /\ (forall it, itor_node it = None ->
          pr_itor_next 10 sample_state it = pr_itor_first 10 sample_state it
          /\ pr_itor_prev 10 sample_state it = pr_itor_last 10 sample_state it)
    /\ (forall i a, nodes !! i = Some a ->
          pr_itor_next 10 sample_state (mk_itor (Some a))
            = Ok (RETVALID (mk_itor (nodes !! S i)), mk_itor (nodes !! S i))
          /\ pr_itor_prev 10 sample_state (mk_itor (Some a))
            = Ok (RETVALID (mk_itor (match i with
                                     | O => None
                                     | S j => nodes !! j
                                     end)),
                  mk_itor (match i with O => None | S j => nodes !! j end))).
Proof.
  apply (cursor_moves sample_state 10).
  - exact sample_state_reachable.
  - exact sample_state_cmp.
  - vm_compute. lia.
Defined.

(** ** C9: the null comparator *)

Lemma StronglySorted_weaken {A} (R R' : A -> A -> Prop) (l : list A) :
  (forall x y, R x y -> R' x y) -> StronglySorted R l -> StronglySorted R' l.
Proof.
  intros HR. induction 1 as [|x l Hl IH Hx]; constructor; [done|].
  eapply Forall_impl; [exact Hx|]. intros y. apply HR.
Qed.

(** C9: whether [pr_tree_new] succeeds does not depend on the comparator
    passed; with a null comparator the new tree compares keys by
    [dict_ptr_cmp], the order of the addresses, which is an order as the
    tree needs it; and in every state reached from such a tree a walk shows
    the keys in strictly ascending order of their addresses. *)
Theorem null_comparator_orders_by_address del :
  (exists s,
     pr_tree_new true None del = Some s
     /\ key_cmp (tree s) = dict_ptr_cmp
     /\ root (tree s) = None /\ count (tree s) = 0)
  /\ (forall ok f,
        is_Some (pr_tree_new ok None del)
        <-> is_Some (pr_tree_new ok (Some f) del))
  /\ cmp_ok dict_ptr_cmp
  /\ (forall k1 k2,
        (dict_ptr_cmp k1 k2 < 0 <-> k1 < k2)
        /\ (dict_ptr_cmp k1 k2 = 0 <-> k1 = k2)
        /\ (0 < dict_ptr_cmp k1 k2 <-> k2 < k1))
  /\ (forall s fuel,
        reachable s -> key_cmp (tree s) = dict_ptr_cmp ->
        (base.size (mem s) < fuel)%nat ->
        exists es,
          pr_tree_walk fuel s (fun _ _ => true) = Ok (count (tree s), es)
          /\ StronglySorted Z.lt es.*1).
Proof.
  split_and!.
  - eexists. by split_and!.
  - intros ok f. by destruct ok.
  - apply dict_ptr_cmp_ok.
  - intros k1 k2. split_and!.
    + apply dict_ptr_cmp_lt.
    + apply dict_ptr_cmp_eq.
    + rewrite <- (cmp_antisym _ dict_ptr_cmp_ok). apply dict_ptr_cmp_lt.
  - intros s fuel (t & [Hwf Hasc] & Hsz)%reachable_tree Hk Hf.
    rewrite <- Hsz in Hf. pose proof (wf_rep _ _ Hwf) as Hrep.
    exists (entries t). split.
    + rewrite (pr_tree_walk_spec fuel s t _ Hrep Hf), walk_prefix_all.
      by rewrite (wf_count _ _ Hwf), length_entries, length_addrs.
    + rewrite Hk in Hasc. specialize (Hasc dict_ptr_cmp_ok).
      unfold ascending in Hasc. fold (keys t).
      eapply StronglySorted_weaken; [|exact Hasc].
      intros k1 k2. apply dict_ptr_cmp_lt.
Qed.

(** ** C10: the null pointer as the absent marker *)

(** C10: in a reachable state whose comparator is an order, search returns
    the null pointer for a key that no node holds and the stored value
    itself for a key that a node holds; the key and the value read through
    an unbound cursor are the null pointer.  So for a key stored with a
    null value search returns what it returns for a key that is not stored,
    while [pr_itor_search] tells the two apart (it binds the cursor for the
    first and leaves it unbound for the second), as does probe (0 for the
    first, not 0 for the second). *)
Theorem null_marks_absence s fuel :
  reachable s -> cmp_ok (key_cmp (tree s)) ->
  (base.size (mem s) < fuel)%nat ->
  (forall k, ~ holds_key s k -> pr_tree_search fuel s k = Ok NULL)
  /\ (forall k k0 d0,
        stored s k0 d0 -> key_cmp (tree s) k k0 = 0 ->
        pr_tree_search fuel s k = Ok d0
        /\ pr_tree_csearch fuel s k = Ok d0)
  /\ (forall it, itor_node it = None ->
        pr_itor_key s it = Ok NULL
        /\ pr_itor_data s it = Ok NULL
        /\ pr_itor_cdata s it = Ok NULL)
  /\ (forall k1 k2 it m d,
        stored s k1 NULL -> ~ holds_key s k2 ->
        pr_tree_search fuel s k1 = pr_tree_search fuel s k2
        /\ (exists a, pr_itor_search fuel s it k1 = Ok (1, mk_itor (Some a)))
        /\ pr_itor_search fuel s it k2 = Ok (0, mk_itor None)
        /\ (exists d0, pr_tree_probe fuel s m k1 d = Ok (0, d0, s))
        /\ (forall rv d' s', pr_tree_probe fuel s m k2 d = Ok (rv, d', s') ->
              rv <> 0)).
Proof.
  intros (t & Hinv & Hsz)%reachable_tree Hcmp Hf. rewrite <- Hsz in Hf.
  pose proof Hinv as [Hwf _].
  split_and!.
  - intros k Hno. apply (search_miss fuel s t k Hwf); [lia|done].
  - intros k k0 d0 Hst Hk. unfold pr_tree_csearch.
    split; apply (search_hit fuel s t k k0 d0 Hinv Hcmp); (lia || done).
  - intros it Hit. unfold pr_itor_cdata, pr_itor_key, pr_itor_data.
    by rewrite Hit.
  - intros k1 k2 it m d Hst Hno.
    assert (Hh : holds_key s k1) by (by eapply stored_holds).
    split_and!.
    + rewrite (search_miss fuel s t k2 Hwf) by (lia || done).
      apply (search_hit fuel s t k1 k1 NULL Hinv Hcmp); [lia|done|].
      by apply cmp_refl.
    + destruct (pr_itor_search_cases fuel s t it k1 Hinv Hcmp)
        as [(_ & a & n & Hrun & _)|(Hno1 & _)]; [lia| |done].
      by exists a.
    + destruct (pr_itor_search_cases fuel s t it k2 Hinv Hcmp)
        as [(Hh2 & _)|(_ & Hrun)]; [lia|done|done].
    + destruct (pr_tree_probe_cases fuel s t m k1 d Hinv Hcmp Hf)
        as [(_ & k0 & d0 & Hrun & _)|[(Hn & _)|[(Hn & _)|(Hn & _)]]];
        try done.
      by exists d0.
    + intros rv d' s' Hrun.
      destruct (pr_tree_probe_cases fuel s t m k2 d Hinv Hcmp Hf)
        as [(Hh2 & _)|[(_ & _ & Hr)|[(_ & a & s1 & t1 & _ & _ & Hr & _)
                                    |(_ & a & _ & _ & Hr)]]];
        try done; rewrite Hr in Hrun; try done; injection Hrun as <- _ _; lia.
Qed.

Lemma null_marks_absence_witness :
  (forall k, ~ holds_key sample_state k ->
     pr_tree_search 10 sample_state k = Ok NULL)
  /\ (forall it, itor_node it = None ->
        pr_itor_key sample_state it = Ok NULL
        /\ pr_itor_data sample_state it = Ok NULL
        /\ pr_itor_cdata sample_state it = Ok NULL).
Proof.
  destruct (null_marks_absence sample_state 10) as (H1 & _ & H3 & _).
  - exact sample_state_reachable.
  - exact sample_state_cmp.
  - vm_compute. lia.
  - split; [exact H1|exact H3].
Defined.

(** * Further properties of the tree and of its memory *)

Lemma postorder_entries t : postorder t ≡ₚ entries t.
Proof.
  induction t as [|l IHl a k d w r IHr]; simpl; [done|].
  rewrite IHl, IHr. solve_Permutation.
Qed.

(** ** The links *)

Lemma wf_links_ok s t : wf s t -> links_ok s.
Proof.
  intros [Hrep _ _ _ Hdom]. split.
  - intros r Hr. destruct t as [|l a k d w r0].
    + destruct Hrep as (Hroot & _). rewrite Hroot in Hr. done.
    + pose proof (deref_focus s [] l a k d w r0 Hrep) as Hd.
      destruct Hrep as (Hroot & _). rewrite Hroot in Hr. injection Hr as <-.
      apply deref_inv in Hd. eexists; split; [exact Hd|done].
  - intros a n Hn.
    assert (Ha : a ∈ addrs t) by (apply Hdom; by rewrite Hn).
    destruct (focus_of_addr a t [] Ha) as (c & l & k & d & w & r & Et).
    cbn [plug] in Et. subst t.
    pose proof (deref_focus _ _ _ _ _ _ _ _ Hrep) as Hd.
    apply deref_inv in Hd. rewrite Hn in Hd. injection Hd as ->.
    cbn [llink rlink parent]. split_and!.
    + intros b Hb. destruct l as [|ll la kl dl wl lr]; [done|].
      injection Hb as <-.
      pose proof (deref_focus s (InL a k d w r :: c) ll la kl dl wl lr Hrep) as Hd.
      apply deref_inv in Hd. eexists; split; [exact Hd|done].
    + intros b Hb. destruct r as [|rl ra kr dr wr rr]; [done|].
      injection Hb as <-.
      pose proof (deref_focus s (InR l a k d w :: c) rl ra kr dr wr rr Hrep) as Hd.
      apply deref_inv in Hd. eexists; split; [exact Hd|done].
    + intros Hl Heq. destruct l as [|ll la kl dl wl lr]; [done|].
      destruct r as [|rl ra kr dr wr rr]; [done|]. injection Heq as ->.
      destruct Hrep as (_ & _ & Hnd). rewrite addrs_plug in Hnd. simpl in Hnd.
      apply NoDup_app in Hnd as (_ & _ & Hnd).
      apply NoDup_app in Hnd as (_ & Hnd & _).
      apply (Hnd ra); set_solver.
    + destruct c as [|[p kp dp wp rp|lp p kp dp wp] c]; cbn [ctx_parent frame_addr].
      * by destruct Hrep as (Hroot & _).
      * pose proof (deref_focus s c (Node l a k d w r) p kp dp wp rp Hrep) as Hd.
        apply deref_inv in Hd. eexists; split; [exact Hd|by left].
      * pose proof (deref_focus s c lp p kp dp wp (Node l a k d w r) Hrep) as Hd.
        apply deref_inv in Hd. eexists; split; [exact Hd|by right].
Qed.

(** ** Shape metrics *)

Lemma wrap_uint_small z : 0 <= z < UINT_MOD -> wrap_uint z = z.
Proof. intros H. unfold wrap_uint. by apply Z.mod_small. Qed.

Lemma wrap_uint_add_r z n : wrap_uint (z + wrap_uint n) = wrap_uint (z + n).
Proof. unfold wrap_uint. by rewrite Zplus_mod_idemp_r. Qed.

Lemma levels_le_size t : (levels t <= size t)%nat.
Proof. induction t; simpl; lia. Qed.

Lemma full_levels_le_levels t : (full_levels t <= levels t)%nat.
Proof. induction t; simpl; lia. Qed.

Lemma size_lt_pow_levels t : Z.of_nat (size t) + 1 <= 2 ^ Z.of_nat (levels t).
Proof.
  induction t as [|l IHl a k d w r IHr]; [done|].
  cbn [size levels]. rewrite !Nat2Z.inj_succ, Z.pow_succ_r by lia.
  assert (2 ^ Z.of_nat (levels l) <= 2 ^ Z.of_nat (levels l `max` levels r))
    by (apply Z.pow_le_mono_r; lia).
  assert (2 ^ Z.of_nat (levels r) <= 2 ^ Z.of_nat (levels l `max` levels r))
    by (apply Z.pow_le_mono_r; lia).
  lia.
Qed.

Lemma pow_full_levels_le_size t :
  2 ^ Z.of_nat (full_levels t) <= Z.of_nat (size t) + 1.
Proof.
  induction t as [|l IHl a k d w r IHr]; [done|].
  cbn [size full_levels]. rewrite !Nat2Z.inj_succ, Z.pow_succ_r by lia.
  assert (2 ^ Z.of_nat (full_levels l `min` full_levels r)
          <= 2 ^ Z.of_nat (full_levels l)) by (apply Z.pow_le_mono_r; lia).
  assert (2 ^ Z.of_nat (full_levels l `min` full_levels r)
          <= 2 ^ Z.of_nat (full_levels r)) by (apply Z.pow_le_mono_r; lia).
  lia.
Qed.

Lemma node_height_spec : forall t c fuel s a,
  rep s (plug c t) -> root_ptr t = Some a ->
  (size t <= fuel)%nat -> Z.of_nat (size t) < UINT_MOD ->
  node_height fuel s a = Ok (Z.of_nat (levels t) - 1).
Proof.
  induction t as [|l IHl a0 k d w r IHr]; intros c fuel s a H Ha Hf Hsz; [done|].
  injection Ha as <-. destruct fuel as [|fuel]; [simpl in Hf; lia|].
  cbn [size] in Hf, Hsz. cbn [node_height].
  rewrite (deref_focus _ _ _ _ _ _ _ _ H), mbind_Ok. cbn [llink rlink].
  pose proof (levels_le_size l). pose proof (levels_le_size r).
  assert (Hl : match root_ptr l with
               | Some ll => h ← node_height fuel s ll; Ok (wrap_uint (h + 1))
               | None => Ok 0
               end = Ok (Z.of_nat (levels l))).
  { destruct l as [|ll la kl dl wl lr] eqn:El; [done|]. rewrite <- El in *.
    replace (root_ptr l) with (Some la) by (by rewrite El).
    rewrite (IHl (InL a0 k d w r :: c) fuel s la); [|done|by rewrite El|lia|lia].
    rewrite mbind_Ok. f_equal.
    replace (Z.of_nat (levels l) - 1 + 1) with (Z.of_nat (levels l)) by lia.
    apply wrap_uint_small. lia. }
  assert (Hr : match root_ptr r with
               | Some rl => h ← node_height fuel s rl; Ok (wrap_uint (h + 1))
               | None => Ok 0
               end = Ok (Z.of_nat (levels r))).
  { destruct r as [|rl ra kr dr wr rr] eqn:Er; [done|]. rewrite <- Er in *.
    replace (root_ptr r) with (Some ra) by (by rewrite Er).
    rewrite (IHr (InR l a0 k d w :: c) fuel s ra); [|done|by rewrite Er|lia|lia].
    rewrite mbind_Ok. f_equal.
    replace (Z.of_nat (levels r) - 1 + 1) with (Z.of_nat (levels r)) by lia.
    apply wrap_uint_small. lia. }
  rewrite Hl, mbind_Ok, Hr, mbind_Ok. f_equal. cbn [levels]. lia.
Qed.

Lemma node_mheight_spec : forall t c fuel s a,
  rep s (plug c t) -> root_ptr t = Some a ->
  (size t <= fuel)%nat -> Z.of_nat (size t) < UINT_MOD ->
  node_mheight fuel s a = Ok (Z.of_nat (full_levels t) - 1).
Proof.
  induction t as [|l IHl a0 k d w r IHr]; intros c fuel s a H Ha Hf Hsz; [done|].
  injection Ha as <-. destruct fuel as [|fuel]; [simpl in Hf; lia|].
  cbn [size] in Hf, Hsz. cbn [node_mheight].
  rewrite (deref_focus _ _ _ _ _ _ _ _ H), mbind_Ok. cbn [llink rlink].
  pose proof (levels_le_size l). pose proof (levels_le_size r).
  pose proof (full_levels_le_levels l). pose proof (full_levels_le_levels r).
  assert (Hl : match root_ptr l with
               | Some ll => h ← node_mheight fuel s ll; Ok (wrap_uint (h + 1))
               | None => Ok 0
               end = Ok (Z.of_nat (full_levels l))).
  { destruct l as [|ll la kl dl wl lr] eqn:El; [done|]. rewrite <- El in *.
    replace (root_ptr l) with (Some la) by (by rewrite El).
    rewrite (IHl (InL a0 k d w r :: c) fuel s la); [|done|by rewrite El|lia|lia].
    rewrite mbind_Ok. f_equal.
    replace (Z.of_nat (full_levels l) - 1 + 1) with (Z.of_nat (full_levels l)) by lia.
    apply wrap_uint_small. lia. }
  assert (Hr : match root_ptr r with
               | Some rl => h ← node_mheight fuel s rl; Ok (wrap_uint (h + 1))
               | None => Ok 0
               end = Ok (Z.of_nat (full_levels r))).
  { destruct r as [|rl ra kr dr wr rr] eqn:Er; [done|]. rewrite <- Er in *.
    replace (root_ptr r) with (Some ra) by (by rewrite Er).
    rewrite (IHr (InR l a0 k d w :: c) fuel s ra); [|done|by rewrite Er|lia|lia].
    rewrite mbind_Ok. f_equal.
    replace (Z.of_nat (full_levels r) - 1 + 1) with (Z.of_nat (full_levels r)) by lia.
    apply wrap_uint_small. lia. }
  rewrite Hl, mbind_Ok, Hr, mbind_Ok. f_equal. cbn [full_levels]. lia.
Qed.

Lemma node_pathlen_spec : forall t c fuel s a lv lv0,
  rep s (plug c t) -> root_ptr t = Some a ->
  (size t <= fuel)%nat -> lv = wrap_uint lv0 ->
  node_pathlen fuel s a lv = Ok (wrap_uint (fpathlen t lv0)).
Proof.
  induction t as [|l IHl a0 k d w r IHr]; intros c fuel s a lv lv0 H Ha Hf Hlv;
    [done|].
  injection Ha as <-. destruct fuel as [|fuel]; [simpl in Hf; lia|].
  cbn [size] in Hf. cbn [node_pathlen].
  rewrite (deref_focus _ _ _ _ _ _ _ _ H), mbind_Ok. cbn [llink rlink]. cbv zeta.
  set (pl := match l with Leaf => 0 | _ => lv0 + fpathlen l (lv0 + 1) end).
  set (pr := match r with Leaf => 0 | _ => lv0 + fpathlen r (lv0 + 1) end).
  assert (Hl : match root_ptr l with
               | Some ll =>
                   p ← node_pathlen fuel s ll (wrap_uint (lv + 1));
                   Ok (wrap_uint (0 + wrap_uint (lv + p)))
               | None => Ok 0
               end = Ok (wrap_uint pl)).
  { subst pl. destruct l as [|ll la kl dl wl lr] eqn:El; [done|]. rewrite <- El in *.
    replace (root_ptr l) with (Some la) by (by rewrite El).
    rewrite (IHl (InL a0 k d w r :: c) fuel s la _ (lv0 + 1));
      [|done|by rewrite El|lia|by rewrite Hlv, wrap_uint_add_l].
    rewrite mbind_Ok. f_equal. rewrite El at 1. rewrite <- El.
    rewrite Z.add_0_l, wrap_uint_idem, wrap_uint_add_r, Hlv.
    by rewrite wrap_uint_add_l. }
  assert (Hr : forall n0,
            match root_ptr r with
            | Some rl =>
                p ← node_pathlen fuel s rl (wrap_uint (lv + 1));
                Ok (wrap_uint (wrap_uint n0 + wrap_uint (lv + p)))
            | None => Ok (wrap_uint n0)
            end = Ok (wrap_uint (n0 + pr))).
  { intros n0. subst pr.
    destruct r as [|rl ra kr dr wr rr] eqn:Er; [by rewrite Z.add_0_r|].
    rewrite <- Er in *.
    replace (root_ptr r) with (Some ra) by (by rewrite Er).
    rewrite (IHr (InR l a0 k d w :: c) fuel s ra _ (lv0 + 1));
      [|done|by rewrite Er|lia|by rewrite Hlv, wrap_uint_add_l].
    rewrite mbind_Ok. f_equal. rewrite Er at 1. rewrite <- Er.
    rewrite wrap_uint_add_l, !wrap_uint_add_r, Hlv.
    rewrite (Z.add_comm (wrap_uint lv0)), !Z.add_assoc, wrap_uint_add_r.
    replace (n0 + wrap_uint (fpathlen r (lv0 + 1)) + lv0)
      with (n0 + lv0 + wrap_uint (fpathlen r (lv0 + 1))) by lia.
    by rewrite wrap_uint_add_r. }
  rewrite Hl, mbind_Ok, Hr. done.
Qed.

(** ** Several steps of a cursor *)

Lemma nextn_loop_spec s t fuel :
  rep s t -> (size t <= fuel)%nat ->
  forall n i, nextn_loop fuel s n (addrs t !! i) = Ok (addrs t !! (i + n)%nat).
Proof.
  intros Hrep Hf. induction n as [|n IH]; intros i.
  - rewrite Nat.add_0_r. by destruct (addrs t !! i).
  - destruct (addrs t !! i) as [a|] eqn:Hi; cbn [nextn_loop].
    + rewrite (node_next_index s t i a Hrep Hi fuel Hf), mbind_Ok, IH.
      do 2 f_equal. lia.
    + f_equal. symmetry. apply lookup_ge_None.
      apply lookup_ge_None in Hi. lia.
Qed.

Lemma prevn_loop_spec s t fuel :
  rep s t -> (size t <= fuel)%nat ->
  forall n i, (i < length (addrs t))%nat ->
    prevn_loop fuel s n (addrs t !! i)
    = Ok (if decide (n <= i)%nat then addrs t !! (i - n)%nat else None).
Proof.
  intros Hrep Hf. induction n as [|n IH]; intros i Hi.
  - rewrite Nat.sub_0_r. rewrite decide_True by lia. by destruct (addrs t !! i).
  - destruct (lookup_lt_is_Some_2 _ _ Hi) as [a Ha]. rewrite Ha.
    cbn [prevn_loop].
    rewrite (node_prev_index s t i a Hrep Ha fuel Hf), mbind_Ok.
    destruct i as [|j].
    + rewrite decide_False by lia. by destruct n.
    + rewrite IH by lia. f_equal.
      destruct (decide (n <= j)%nat); [rewrite decide_True by lia|rewrite decide_False by lia];
        done.
Qed.

(** ** Extremes *)

Lemma pr_tree_min_spec fuel s t :
  rep s t -> (size t < fuel)%nat ->
  pr_tree_min fuel s = Ok (default NULL (head (keys t))).
Proof.
  intros Hrep Hf. unfold pr_tree_min. pose proof Hrep as (-> & _).
  destruct t as [|l a k d w r] eqn:Et; [done|]. rewrite <- Et in *.
  replace (root_ptr t) with (Some a) by (by rewrite Et).
  destruct (node_min_spec l [] fuel s a k d w r) as (x & -> & Hx).
  { cbn [plug]. by rewrite <- Et. }
  { rewrite Et in Hf. simpl in Hf. lia. }
  rewrite mbind_Ok. rewrite <- Et, head_lookup in Hx.
  destruct (deref_index s t 0 x Hrep Hx) as (n & -> & He).
  rewrite mbind_Ok. unfold keys.
  by rewrite head_lookup, list_lookup_fmap, He.
Qed.

Lemma pr_tree_max_spec fuel s t :
  rep s t -> (size t < fuel)%nat ->
  pr_tree_max fuel s = Ok (default NULL (last (keys t))).
Proof.
  intros Hrep Hf. unfold pr_tree_max. pose proof Hrep as (-> & _).
  destruct t as [|l a k d w r] eqn:Et; [done|]. rewrite <- Et in *.
  replace (root_ptr t) with (Some a) by (by rewrite Et).
  destruct (node_max_spec r [] fuel s l a k d w) as (x & -> & Hx).
  { cbn [plug]. by rewrite <- Et. }
  { rewrite Et in Hf. simpl in Hf. lia. }
  rewrite mbind_Ok. rewrite <- Et, last_lookup in Hx.
  destruct (deref_index s t _ x Hrep Hx) as (n & -> & He).
  rewrite mbind_Ok. unfold keys.
  rewrite last_lookup, list_lookup_fmap, length_fmap, length_entries.
  by rewrite He.
Qed.

(** A key is stored once. *)
Lemma stored_unique s t k d1 d2 :
  tree_inv s t -> cmp_ok (key_cmp (tree s)) ->
  stored s k d1 -> stored s k d2 -> d1 = d2.
Proof.
  intros Hinv Hcmp H1 H2.
  pose proof (search_hit (S (size t)) s t k k d1 Hinv Hcmp ltac:(lia) H1
                (cmp_refl _ Hcmp k)) as E1.
  pose proof (search_hit (S (size t)) s t k k d2 Hinv Hcmp ltac:(lia) H2
                (cmp_refl _ Hcmp k)) as E2.
  congruence.
Qed.

Lemma fpathlen_child_bounds t lv :
  0 <= lv ->
  ((Z.of_nat (size t) - 1) * (lv + 1) <= fpathlen t (lv + 1)
   /\ 2 * fpathlen t (lv + 1)
      <= 2 * (Z.of_nat (size t) - 1) * (lv + 1)
         + (Z.of_nat (size t) - 1) * (Z.of_nat (size t) - 2)
   \/ t = Leaf) ->
  Z.of_nat (size t) * lv
    <= match t with Leaf => 0 | _ => lv + fpathlen t (lv + 1) end
  /\ 2 * match t with Leaf => 0 | _ => lv + fpathlen t (lv + 1) end
     <= 2 * Z.of_nat (size t) * lv + Z.of_nat (size t) * (Z.of_nat (size t) - 1).
Proof.
  intros Hlv [[H1 H2]| ->]; [|simpl; lia].
  destruct t as [|l a k d w r] eqn:Et; [simpl; lia|]. rewrite <- Et in *.
  assert (1 <= Z.of_nat (size t)) by (rewrite Et; simpl; lia).
  nia.
Qed.

Lemma fpathlen_bounds : forall t lv,
  0 <= lv ->
  (Z.of_nat (size t) - 1) * lv <= fpathlen t lv
  /\ 2 * fpathlen t lv
     <= 2 * (Z.of_nat (size t) - 1) * lv
        + (Z.of_nat (size t) - 1) * (Z.of_nat (size t) - 2)
  \/ t = Leaf.
Proof.
  induction t as [|l IHl a k d w r IHr]; intros lv Hlv; [by right|left].
  pose proof (fpathlen_child_bounds l lv Hlv (IHl (lv + 1) ltac:(lia))) as [Hl1 Hl2].
  pose proof (fpathlen_child_bounds r lv Hlv (IHr (lv + 1) ltac:(lia))) as [Hr1 Hr2].
  cbn [fpathlen size]. rewrite Nat2Z.inj_succ, Nat2Z.inj_add.
  assert (0 <= Z.of_nat (size l)) by lia.
  assert (0 <= Z.of_nat (size r)) by lia.
  split; nia.
Qed.

(** ** Where a new node goes *)

Lemma finsert_new_order gas s t c a k d :
  wf s t -> valid_block s a = true ->
  fdescend (key_cmp (tree s)) k [] t = (c, Leaf) ->
  addrs (finsert_new gas (key_cmp (tree s)) a k d t)
    = ctx_before c ++ a :: ctx_after c
  /\ entries (finsert_new gas (key_cmp (tree s)) a k d t)
     = ctx_left c ++ (k, d) :: ctx_right c.
Proof.
  intros Hwf (Hfresh & Hrange)%valid_block_inv Ed.
  pose proof (fdescend_plug _ _ _ _ _ _ Ed) as Hplug. cbn [plug] in Hplug.
  unfold finsert_new. rewrite Ed. cbn [fst].
  rewrite <- Hplug in *. destruct Hwf as [(_ & _ & Hnd) Hw Hr _ Hdom].
  set (t0 := Node Leaf a k d 2 Leaf).
  assert (Hperm : addrs (plug c t0) ≡ₚ a :: addrs (plug c Leaf)).
  { rewrite !addrs_plug. unfold t0. simpl. solve_Permutation. }
  assert (Hna : a ∉ addrs (plug c Leaf)).
  { intros Ha%Hdom. rewrite Hfresh in Ha. by destruct Ha. }
  assert (Hfit : fits (plug c t0)).
  { apply fits_range.
    - rewrite Hperm. by constructor.
    - eapply Forall_range_perm; [symmetry; exact Hperm|]. by constructor. }
  assert (Hst : ctx_stale 1 c (fweight t0)).
  { apply weights_ok_plug in Hw as [_ Hw]. by apply (ctx_stale_shift 1) in Hw. }
  destruct (fascend_keeps gas c t0) as (K1 & K2 & K3 & K4); [done|done|done|].
  by rewrite K3, K4, addrs_plug_order, entries_plug.
Qed.

Lemma new_node_holds_pair gas s s' t c a k d :
  wf s t -> valid_block s a = true ->
  fdescend (key_cmp (tree s)) k [] t = (c, Leaf) ->
  wf s' (finsert_new gas (key_cmp (tree s)) a k d t) ->
  exists n, mem s' !! a = Some n /\ key n = k /\ datum n = d.
Proof.
  intros Hwf Hv Ed Hwf'.
  destruct (finsert_new_order gas s t c a k d Hwf Hv Ed) as (Ha & He).
  pose proof (wf_rep _ _ Hwf') as Hrep'.
  assert (Hi : addrs (finsert_new gas (key_cmp (tree s)) a k d t)
               !! length (ctx_before c) = Some a).
  { rewrite Ha. by rewrite lookup_app_r, Nat.sub_diag by lia. }
  destruct (deref_index s' _ _ a Hrep' Hi) as (n & Hd & Hn).
  rewrite He, <- length_ctx_left in Hn.
  rewrite lookup_app_r, Nat.sub_diag in Hn by lia. injection Hn as -> ->.
  exists n. split; [by apply deref_inv|done].
Qed.

(** ** Sorted lists *)

Lemma StronglySorted_fmap_inv {A B} (f : A -> B) (R : relation B) (l : list A) :
  StronglySorted R (f <$> l) -> StronglySorted (fun x y => R (f x) (f y)) l.
Proof.
  induction l as [|x l IH]; csimpl; intros H; [constructor|].
  apply StronglySorted_inv in H as [H1 H2]. constructor; [by apply IH|].
  by rewrite Forall_fmap in H2.
Qed.

Lemma StronglySorted_NoDup {A} (R : relation A) (l : list A) :
  (forall x, ~ R x x) -> StronglySorted R l -> NoDup l.
Proof.
  intros Hirr. induction 1 as [|x l _ IH Hx]; constructor; [|done].
  intros Hin. rewrite Forall_forall in Hx. by apply (Hirr x), Hx.
Qed.

Lemma StronglySorted_lookup_lt {A} (R : relation A) (l : list A) i j x y :
  StronglySorted R l -> l !! i = Some x -> l !! j = Some y -> (i < j)%nat ->
  R x y.
Proof.
  intros H. revert i j.
  induction H as [|z l Hs IH Hz]; intros [|i] [|j] Hi Hj Hlt;
    try done; try lia; simpl in *.
  - injection Hi as ->. rewrite Forall_forall in Hz. apply Hz.
    by eapply list_elem_of_lookup_2.
  - eapply IH; eauto. lia.
Qed.

(** The stored pairs determine the in-order sequence of the entries. *)
Lemma entries_determined s1 s2 t1 t2 :
  tree_inv s1 t1 -> tree_inv s2 t2 ->
  key_cmp (tree s1) = key_cmp (tree s2) -> cmp_ok (key_cmp (tree s1)) ->
  (forall k d, stored s1 k d <-> stored s2 k d) ->
  entries t1 = entries t2.
Proof.
  intros [Hwf1 Hasc1] [Hwf2 Hasc2] Hc Hcmp Hst.
  rewrite <- Hc in Hasc2. specialize (Hasc1 Hcmp). specialize (Hasc2 Hcmp).
  set (cmp := key_cmp (tree s1)) in *.
  apply (StronglySorted_fmap_inv fst) in Hasc1, Hasc2.
  apply (StronglySorted_unique_strong
           (fun x y : ptr * ptr => cmp x.1 y.1 < 0)); [|done|done|].
  - intros x1 x2 _ _ H1 H2. apply (cmp_antisym cmp Hcmp) in H2. lia.
  - assert (Hirr : forall x : ptr * ptr, ~ cmp x.1 x.1 < 0).
    { intros x. rewrite (cmp_refl cmp Hcmp). lia. }
    apply NoDup_Permutation;
      [exact (StronglySorted_NoDup _ _ Hirr Hasc1)
      |exact (StronglySorted_NoDup _ _ Hirr Hasc2)|].
    intros [k d].
    by rewrite <- (stored_iff s1 t1 k d Hwf1), <- (stored_iff s2 t2 k d Hwf2).
Qed.

(** In an ordered tree, the nodes whose keys compare equal are one node. *)
Lemma key_address_unique s t a1 a2 n1 n2 :
  tree_inv s t -> cmp_ok (key_cmp (tree s)) ->
  mem s !! a1 = Some n1 -> mem s !! a2 = Some n2 ->
  key_cmp (tree s) (key n1) (key n2) = 0 -> a1 = a2.
Proof.
  intros [Hwf Hasc] Hcmp H1 H2 Hk. specialize (Hasc Hcmp).
  pose proof (wf_rep _ _ Hwf) as Hrep.
  assert (Hi : a1 ∈ addrs t) by (apply (wf_dom _ _ Hwf); by rewrite H1).
  assert (Hj : a2 ∈ addrs t) by (apply (wf_dom _ _ Hwf); by rewrite H2).
  apply list_elem_of_lookup in Hi as [i Hi], Hj as [j Hj].
  destruct (deref_index s t i a1 Hrep Hi) as (n1' & Hd1 & He1).
  destruct (deref_index s t j a2 Hrep Hj) as (n2' & Hd2 & He2).
  apply deref_inv in Hd1, Hd2. rewrite H1 in Hd1. rewrite H2 in Hd2.
  injection Hd1 as <-. injection Hd2 as <-.
  assert (Hk1 : keys t !! i = Some (key n1)).
  { unfold keys. by rewrite list_lookup_fmap, He1. }
  assert (Hk2 : keys t !! j = Some (key n2)).
  { unfold keys. by rewrite list_lookup_fmap, He2. }
  destruct (lt_eq_lt_dec i j) as [[Hlt| ->]|Hlt].
  - pose proof (StronglySorted_lookup_lt _ _ _ _ _ _ Hasc Hk1 Hk2 Hlt) as H.
    simpl in H. lia.
  - congruence.
  - pose proof (StronglySorted_lookup_lt _ _ _ _ _ _ Hasc Hk2 Hk1 Hlt) as H.
    simpl in H. apply (cmp_antisym _ Hcmp) in H. lia.
Qed.

(** A test that every pair stored in [s1] is stored in [s2]. *)
Lemma stored_incl_test s1 s2 :
  forallb (fun p : addr * pr_node =>
             existsb (fun q : addr * pr_node =>
                        (key p.2 =? key q.2) && (datum p.2 =? datum q.2))
               (map_to_list (mem s2)))
    (map_to_list (mem s1)) = true ->
  forall k d, stored s1 k d -> stored s2 k d.
Proof.
  intros Ht k d (a & n & Hn & <- & <-). rewrite forallb_forall in Ht.
  specialize (Ht (a, n)). rewrite <- list_elem_of_In, elem_of_map_to_list in Ht.
  apply Ht, existsb_exists in Hn as ([a2 n2] & Hin & Hq).
  rewrite <- list_elem_of_In, elem_of_map_to_list in Hin. cbn [snd] in Hq.
  apply andb_true_iff in Hq as [Hk%Z.eqb_eq Hd%Z.eqb_eq].
  by exists a2, n2.
Qed.

(** * Further properties of the operations *)

Lemma logged_state_reachable : reachable logged_state.
Proof.
  apply (run_ops_reachable 10 sample_ops
           (mk_state ∅ (mk_tree None 0 dict_ptr_cmp true) [])).
  - by apply (reach_new None true).
  - vm_compute. reflexivity.
Qed.

Lemma released_entries s t es :
  wf s t -> es ≡ₚ entries t ->
  (forall k d, (k, d) ∈ es <-> stored s k d)
  /\ length es = base.size (mem s).
Proof.
  intros Hwf Hes. split.
  - intros k d. by rewrite Hes, (stored_iff s t k d Hwf).
  - by rewrite Hes, length_entries, length_addrs, (wf_size_mem s t Hwf).
Qed.

(** ** Clearing and destroying *)

(** X1: in a reachable state, [pr_tree_empty] with enough fuel returns the
    count of the tree and leaves a tree with no node at all: every block is
    freed, the root is null and the count is 0, the comparator and the
    [del_func] are kept.  When the tree has a [del_func] it is called once
    on every stored pair (the pairs of the children before the pair of
    their parent), and not at all otherwise. *)
Theorem pr_tree_empty_frees_all s fuel :
  reachable s -> (2 * base.size (mem s) <= fuel)%nat ->
  exists s' es,
    pr_tree_empty fuel s = Ok (count (tree s), s')
    /\ mem s' = ∅
    /\ root (tree s') = None /\ count (tree s') = 0
    /\ key_cmp (tree s') = key_cmp (tree s)
    /\ del_func (tree s') = del_func (tree s)
    /\ (forall k d, (k, d) ∈ es <-> stored s k d)
    /\ length es = base.size (mem s)
    /\ del_log s' = del_log s ++ (if del_func (tree s) then es else []).
Proof.
  intros (t & [Hwf _] & Hsz)%reachable_tree Hf. rewrite <- Hsz in Hf.
  destruct (pr_tree_empty_spec fuel s t Hwf Hf)
    as (s' & Hrun & Hwf' & Hk & Hd & Hlog).
  destruct (released_entries s t (postorder t) Hwf (postorder_entries t))
    as (Hes & Hlen).
  exists s', (postorder t). split_and!; try done.
  - apply map_empty. intros a. apply eq_None_not_Some.
    rewrite (wf_dom _ _ Hwf' a). by intros ?%elem_of_nil.
  - by destruct Hwf' as [(Hroot & _) _ _ _ _].
  - by rewrite (wf_count _ _ Hwf').
Qed.

Lemma pr_tree_empty_frees_all_witness :
  exists s' es,
    pr_tree_empty 8 logged_state = Ok (count (tree logged_state), s')
    /\ mem s' = ∅
    /\ root (tree s') = None /\ count (tree s') = 0
    /\ key_cmp (tree s') = key_cmp (tree logged_state)
    /\ del_func (tree s') = del_func (tree logged_state)
    /\ (forall k d, (k, d) ∈ es <-> stored logged_state k d)
    /\ length es = base.size (mem logged_state)
    /\ del_log s' = del_log logged_state
                    ++ (if del_func (tree logged_state) then es else []).
Proof.
  apply (pr_tree_empty_frees_all logged_state 8).
  - exact logged_state_reachable.
  - vm_compute. lia.
Defined.

(** X2: in a reachable state, [pr_tree_destroy] returns the count of the
    tree, also for the empty tree, whose count is 0; the [del_func], when
    there is one, has then been called once on every stored pair. *)
Theorem pr_tree_destroy_returns_count s fuel :
  reachable s -> (2 * base.size (mem s) <= fuel)%nat ->
  exists es,
    pr_tree_destroy fuel s
    = Ok (count (tree s),
          del_log s ++ (if del_func (tree s) then es else []))
    /\ (forall k d, (k, d) ∈ es <-> stored s k d)
    /\ length es = base.size (mem s).
Proof.
  intros (t & [Hwf _] & Hsz)%reachable_tree Hf. rewrite <- Hsz in Hf.
  destruct (pr_tree_empty_spec fuel s t Hwf Hf)
    as (s' & Hrun & Hwf' & Hk & Hd & Hlog).
  destruct (released_entries s t (postorder t) Hwf (postorder_entries t))
    as (Hes & Hlen).
  exists (postorder t). split_and!; try done.
  unfold pr_tree_destroy. destruct (root (tree s)) as [r|] eqn:Hr.
  - by rewrite Hrun, mbind_Ok, Hlog.
  - destruct t as [|l a k d w r].
    + rewrite (wf_count _ _ Hwf). simpl.
      destruct (del_func (tree s)); by rewrite app_nil_r.
    + destruct Hwf as [(Hroot & _) _ _ _ _]. rewrite Hroot in Hr. done.
Qed.

Lemma pr_tree_destroy_returns_count_witness :
  exists es,
    pr_tree_destroy 8 logged_state
    = Ok (count (tree logged_state),
          del_log logged_state
          ++ (if del_func (tree logged_state) then es else []))
    /\ (forall k d, (k, d) ∈ es <-> stored logged_state k d)
    /\ length es = base.size (mem logged_state).
Proof.
  apply (pr_tree_destroy_returns_count logged_state 8).
  - exact logged_state_reachable.
  - vm_compute. lia.
Defined.

(** ** Structure of the memory *)

(** X3: in every reachable state [pr_tree_count] is the number of live
    nodes (as an [unsigned]); the root is null exactly when there is no live
    node; and the links of the live nodes are consistent: the root has no
    parent, each child's [parent] is the node that links to it, the two
    children of a node are different nodes, and every node other than the
    root is a child of its parent. *)
Theorem count_and_links_invariant s :
  reachable s ->
  pr_tree_count s = wrap_uint (Z.of_nat (base.size (mem s)))
  /\ (root (tree s) = None <-> mem s = ∅)
  /\ links_ok s.
Proof.
  intros (t & [Hwf _] & Hsz)%reachable_tree. split_and!.
  - unfold pr_tree_count. by rewrite (wf_count _ _ Hwf), Hsz.
  - destruct Hwf as [(Hroot & _) _ _ _ Hdom]. rewrite Hroot. split.
    + intros Ht. destruct t; [|done]. apply map_empty. intros a.
      apply eq_None_not_Some. rewrite (Hdom a). by intros ?%elem_of_nil.
    + intros Hm. destruct t as [|l a k d w r]; [done|].
      assert (Ha : is_Some (mem s !! a)) by (apply Hdom; simpl; set_solver).
      rewrite Hm, lookup_empty in Ha. by destruct Ha.
  - by eapply wf_links_ok.
Qed.

Lemma count_and_links_invariant_witness :
  pr_tree_count spliced_state
  = wrap_uint (Z.of_nat (base.size (mem spliced_state)))
  /\ (root (tree spliced_state) = None <-> mem spliced_state = ∅)
  /\ links_ok spliced_state.
Proof.
  apply (count_and_links_invariant spliced_state).
  exact spliced_state_reachable.
Defined.

(** ** Extremes *)

Lemma ascending_head cmp k ks :
  ascending cmp (k :: ks) -> forall k', k' ∈ k :: ks -> k' = k \/ cmp k k' < 0.
Proof.
  intros [_ Hk]%StronglySorted_inv k' [->|Hin]%elem_of_cons; [by left|].
  right. rewrite Forall_forall in Hk. by apply Hk.
Qed.

Lemma ascending_last cmp ks k :
  ascending cmp (ks ++ [k]) ->
  forall k', k' ∈ ks ++ [k] -> k' = k \/ cmp k' k < 0.
Proof.
  intros (Hk & _)%StronglySorted_app k' [Hin|Hin]%elem_of_app.
  - right. apply Hk; [done|]. set_solver.
  - left. set_solver.
Qed.

(** X4: in a reachable state whose comparator is an order, [pr_tree_min]
    and [pr_tree_max] return the null pointer when the tree has no node;
    otherwise [pr_tree_min] returns a stored key that is below every other
    stored key and [pr_tree_max] a stored key that is above every other
    one.  They are the keys under a cursor moved by [pr_itor_first] and by
    [pr_itor_last]. *)
Theorem min_max_are_extremes s fuel :
  reachable s -> cmp_ok (key_cmp (tree s)) ->
  (base.size (mem s) < fuel)%nat ->
  exists kmin kmax,
    pr_tree_min fuel s = Ok kmin /\ pr_tree_max fuel s = Ok kmax
    /\ (mem s = ∅ -> kmin = NULL /\ kmax = NULL)
    /\ (mem s <> ∅ ->
        (exists d, stored s kmin d) /\ (exists d, stored s kmax d)
        /\ forall k d, stored s k d ->
             (k = kmin \/ key_cmp (tree s) kmin k < 0)
             /\ (k = kmax \/ key_cmp (tree s) k kmax < 0))
    /\ (forall it it1 it2 rv1 rv2,
          pr_itor_first fuel s it = Ok (rv1, it1) ->
          pr_itor_last fuel s it = Ok (rv2, it2) ->
          pr_itor_key s it1 = Ok kmin /\ pr_itor_key s it2 = Ok kmax).
Proof.
  intros (t & [Hwf Hasc] & Hsz)%reachable_tree Hcmp Hf. rewrite <- Hsz in Hf.
  pose proof (wf_rep _ _ Hwf) as Hrep. specialize (Hasc Hcmp).
  exists (default NULL (head (keys t))), (default NULL (last (keys t))).
  split_and!.
  - by apply pr_tree_min_spec.
  - by apply pr_tree_max_spec.
  - intros Hm. destruct t as [|l a k d w r]; [done|].
    assert (Ha : is_Some (mem s !! a))
      by (apply (wf_dom _ _ Hwf); simpl; set_solver).
    rewrite Hm, lookup_empty in Ha. by destruct Ha.
  - intros Hm.
    assert (Hne : keys t <> []).
    { intros Hk. apply Hm, map_empty. intros a. apply eq_None_not_Some.
      rewrite (wf_dom _ _ Hwf a). intros Ha%list_elem_of_lookup.
      destruct Ha as [i Hi]. apply lookup_lt_Some in Hi.
      assert (length (keys t) = 0%nat) by (by rewrite Hk).
      unfold keys in *. rewrite length_fmap, length_entries in *. lia. }
    assert (Hst : forall k, k ∈ keys t -> exists d, stored s k d).
    { intros k [[k1 d1] [-> Hin]]%list_elem_of_fmap. exists d1.
      by apply (stored_iff s t _ _ Hwf). }
    assert (Hin : forall k d, stored s k d -> k ∈ keys t).
    { intros k d Hs%(stored_iff s t _ _ Hwf). apply list_elem_of_fmap.
      by exists (k, d). }
    split_and!.
    + apply Hst. destruct (keys t) as [|k ks]; [done|]. simpl. set_solver.
    + apply Hst. destruct (keys t) as [|k ks] using rev_ind; [done|].
      rewrite last_snoc. simpl. set_solver.
    + intros k d Hs%Hin. split.
      * destruct (keys t) as [|k0 ks]; [done|]. simpl.
        by apply (ascending_head _ _ _ Hasc).
      * destruct (keys t) as [|k0 ks _] using rev_ind; [done|].
        rewrite last_snoc. simpl. by apply (ascending_last _ _ _ Hasc).
  - intros it it1 it2 rv1 rv2.
    rewrite (pr_itor_first_spec fuel s t it Hrep Hf),
      (pr_itor_last_spec fuel s t it Hrep Hf).
    intros [= _ <-] [= _ <-]. unfold pr_itor_key. cbn [itor_node]. split.
    + destruct (head (addrs t)) as [a|] eqn:Ha.
      * rewrite head_lookup in Ha.
        destruct (deref_index s t 0 a Hrep Ha) as (n & -> & He).
        rewrite mbind_Ok. unfold keys.
        by rewrite head_lookup, list_lookup_fmap, He.
      * apply head_None in Ha. unfold keys.
        assert (entries t = []) as ->; [|done].
        apply nil_length_inv. by rewrite length_entries, Ha.
    + destruct (last (addrs t)) as [a|] eqn:Ha.
      * rewrite last_lookup in Ha.
        destruct (deref_index s t _ a Hrep Ha) as (n & -> & He).
        rewrite mbind_Ok. unfold keys.
        rewrite last_lookup, list_lookup_fmap, length_fmap, length_entries.
        by rewrite He.
      * apply last_None in Ha. unfold keys.
        assert (entries t = []) as ->; [|done].
        apply nil_length_inv. by rewrite length_entries, Ha.
Qed.

Lemma min_max_are_extremes_witness :
  exists kmin kmax,
    pr_tree_min 10 sample_state = Ok kmin
    /\ pr_tree_max 10 sample_state = Ok kmax
    /\ (mem sample_state = ∅ -> kmin = NULL /\ kmax = NULL)
    /\ (mem sample_state <> ∅ ->
        (exists d, stored sample_state kmin d)
        /\ (exists d, stored sample_state kmax d)
        /\ forall k d, stored sample_state k d ->
             (k = kmin \/ key_cmp (tree sample_state) kmin k < 0)
             /\ (k = kmax \/ key_cmp (tree sample_state) k kmax < 0))
    /\ (forall it it1 it2 rv1 rv2,
          pr_itor_first 10 sample_state it = Ok (rv1, it1) ->
          pr_itor_last 10 sample_state it = Ok (rv2, it2) ->
          pr_itor_key sample_state it1 = Ok kmin
          /\ pr_itor_key sample_state it2 = Ok kmax).
Proof.
  apply (min_max_are_extremes sample_state 10).
  - exact sample_state_reachable.
  - exact sample_state_cmp.
  - vm_compute. lia.
Defined.

(** ** Walk with a visitor that stops *)

(** X5: in a reachable state a walk calls the visitor on the stored pairs
    in order, up to and including the first pair on which the visitor
    returns false, and returns the number of calls (as an [unsigned]); the
    pairs in order are those that a walk with a visitor that never stops
    sees, all the stored pairs.  This holds for any comparator. *)
Theorem walk_stops_at_first_refusal s fuel :
  reachable s -> (base.size (mem s) < fuel)%nat ->
  exists es,
    pr_tree_walk fuel s (fun _ _ => true) = Ok (count (tree s), es)
    /\ (forall k d, (k, d) ∈ es <-> stored s k d)
    /\ forall visit,
         pr_tree_walk fuel s visit
         = Ok (wrap_uint (Z.of_nat (length (walk_prefix visit es))),
               walk_prefix visit es).
Proof.
  intros (t & [Hwf _] & Hsz)%reachable_tree Hf. rewrite <- Hsz in Hf.
  pose proof (wf_rep _ _ Hwf) as Hrep.
  exists (entries t). split_and!.
  - rewrite (pr_tree_walk_spec fuel s t _ Hrep Hf), walk_prefix_all.
    by rewrite (wf_count _ _ Hwf), length_entries, length_addrs.
  - intros k d. symmetry. by apply stored_iff.
  - intros visit. by apply pr_tree_walk_spec.
Qed.

Lemma walk_stops_at_first_refusal_witness :
  exists es,
    pr_tree_walk 10 sample_state (fun _ _ => true)
      = Ok (count (tree sample_state), es)
    /\ (forall k d, (k, d) ∈ es <-> stored sample_state k d)
    /\ forall visit,
         pr_tree_walk 10 sample_state visit
         = Ok (wrap_uint (Z.of_nat (length (walk_prefix visit es))),
               walk_prefix visit es).
Proof.
  apply (walk_stops_at_first_refusal sample_state 10).
  - exact sample_state_reachable.
  - vm_compute. lia.
Defined.

(** ** Several steps of a cursor *)

(** X6: in a reachable state, with [nodes] the live nodes in order,
    [pr_itor_nextn] with a count of 0 leaves the cursor where it is; with a
    count [n > 0] it moves a cursor at index [i] to index [i + n], and an
    unbound cursor to index [n - 1]; [pr_itor_prevn] moves a cursor at index
    [i] to index [i - n], and an unbound cursor to the index [n - 1] from
    the end.  The cursor is unbound when there is no such index: a cursor
    that runs off the sequence does not start again at the other end.  The
    result is 1 for a bound and 0 for an unbound cursor. *)
Theorem nextn_prevn_move_by_index s fuel :
  reachable s -> (base.size (mem s) < fuel)%nat ->
  exists nodes : list addr,
    (forall a, a ∈ nodes <-> is_Some (mem s !! a))
    /\ NoDup nodes
    /\ (forall it,
          pr_itor_nextn fuel s it 0 = Ok (RETVALID it, it)
          /\ pr_itor_prevn fuel s it 0 = Ok (RETVALID it, it))
    /\ forall n, 0 < n < UINT_MOD ->
         (forall i a, nodes !! i = Some a ->
            pr_itor_nextn fuel s (mk_itor (Some a)) n
            = Ok (RETVALID (mk_itor (nodes !! (i + Z.to_nat n)%nat)),
                  mk_itor (nodes !! (i + Z.to_nat n)%nat))
            /\ pr_itor_prevn fuel s (mk_itor (Some a)) n
            = Ok (RETVALID (mk_itor (if decide (Z.to_nat n <= i)%nat
                                     then nodes !! (i - Z.to_nat n)%nat
                                     else None)),
                  mk_itor (if decide (Z.to_nat n <= i)%nat
                           then nodes !! (i - Z.to_nat n)%nat
                           else None)))
         /\ pr_itor_nextn fuel s (mk_itor None) n
            = Ok (RETVALID (mk_itor (nodes !! (Z.to_nat n - 1)%nat)),
                  mk_itor (nodes !! (Z.to_nat n - 1)%nat))
         /\ pr_itor_prevn fuel s (mk_itor None) n
            = Ok (RETVALID (mk_itor (if decide (Z.to_nat n <= length nodes)%nat
                                     then nodes !! (length nodes - Z.to_nat n)%nat
                                     else None)),
                  mk_itor (if decide (Z.to_nat n <= length nodes)%nat
                           then nodes !! (length nodes - Z.to_nat n)%nat
                           else None)).
Proof.
  intros (t & [Hwf _] & Hsz)%reachable_tree Hf. rewrite <- Hsz in Hf.
  pose proof (wf_rep _ _ Hwf) as Hrep.
  exists (addrs t). split_and!.
  - intros a. symmetry. apply (wf_dom _ _ Hwf).
  - apply Hrep.
  - done.
  - intros n Hn.
    assert (Hz : (n =? 0) = false) by (apply Z.eqb_neq; lia).
    assert (Hw : wrap_uint (n - 1) = n - 1) by (apply wrap_uint_small; lia).
    unfold pr_itor_nextn, pr_itor_prevn. rewrite Hz. split_and!.
    + intros i a Hi. cbn [itor_node]. rewrite !mbind_Ok. cbn [itor_node].
      rewrite <- Hi. split.
      * by rewrite (nextn_loop_spec s t fuel Hrep) by lia.
      * rewrite (prevn_loop_spec s t fuel Hrep); [done|lia|].
        by eapply lookup_lt_Some.
    + cbn [itor_node].
      rewrite (pr_itor_first_spec fuel s t _ Hrep Hf), !mbind_Ok.
      cbn [itor_node]. rewrite Hw, head_lookup.
      rewrite (nextn_loop_spec s t fuel Hrep) by lia. rewrite mbind_Ok.
      replace (0 + Z.to_nat (n - 1))%nat with (Z.to_nat n - 1)%nat by lia.
      done.
    + cbn [itor_node].
      rewrite (pr_itor_last_spec fuel s t _ Hrep Hf), !mbind_Ok.
      cbn [itor_node]. rewrite Hw, last_lookup.
      destruct (addrs t) as [|a0 l0] eqn:Ea.
      * cbn [length pred lookup]. rewrite decide_False by (simpl; lia).
        replace (Z.to_nat (n - 1)) with (Z.to_nat n - 1)%nat by lia.
        by destruct (Z.to_nat n - 1)%nat.
      * rewrite <- Ea.
        assert (Hlen : (0 < length (addrs t))%nat) by (rewrite Ea; simpl; lia).
        rewrite (prevn_loop_spec s t fuel Hrep) by lia. rewrite mbind_Ok.
        destruct (decide (Z.to_nat n <= length (addrs t))%nat).
        -- rewrite decide_True by lia.
           replace (pred (length (addrs t)) - Z.to_nat (n - 1))%nat
             with (length (addrs t) - Z.to_nat n)%nat by lia.
           done.
        -- by rewrite decide_False by lia.
Qed.

Lemma nextn_prevn_move_by_index_witness :
  exists nodes : list addr,
    (forall a, a ∈ nodes <-> is_Some (mem sample_state !! a))
    /\ NoDup nodes
    /\ (forall it,
          pr_itor_nextn 10 sample_state it 0 = Ok (RETVALID it, it)
          /\ pr_itor_prevn 10 sample_state it 0 = Ok (RETVALID it, it))
    /\ forall n, 0 < n < UINT_MOD ->
         (forall i a, nodes !! i = Some a ->
            pr_itor_nextn 10 sample_state (mk_itor (Some a)) n
            = Ok (RETVALID (mk_itor (nodes !! (i + Z.to_nat n)%nat)),
                  mk_itor (nodes !! (i + Z.to_nat n)%nat))
            /\ pr_itor_prevn 10 sample_state (mk_itor (Some a)) n
            = Ok (RETVALID (mk_itor (if decide (Z.to_nat n <= i)%nat
                                     then nodes !! (i - Z.to_nat n)%nat
                                     else None)),
                  mk_itor (if decide (Z.to_nat n <= i)%nat
                           then nodes !! (i - Z.to_nat n)%nat
                           else None)))
         /\ pr_itor_nextn 10 sample_state (mk_itor None) n
            = Ok (RETVALID (mk_itor (nodes !! (Z.to_nat n - 1)%nat)),
                  mk_itor (nodes !! (Z.to_nat n - 1)%nat))
         /\ pr_itor_prevn 10 sample_state (mk_itor None) n
            = Ok (RETVALID (mk_itor (if decide (Z.to_nat n <= length nodes)%nat
                                     then nodes !! (length nodes - Z.to_nat n)%nat
                                     else None)),
                  mk_itor (if decide (Z.to_nat n <= length nodes)%nat
                           then nodes !! (length nodes - Z.to_nat n)%nat
                           else None)).
Proof.
  apply (nextn_prevn_move_by_index sample_state 10).
  - exact sample_state_reachable.
  - vm_compute. lia.
Defined.

(** ** Shape metrics *)

(** X7: in a reachable state with fewer than 2^32 nodes, [n] of them,
    [pr_tree_height], [pr_tree_mheight] and [pr_tree_pathlen] return; all
    three are 0 for the tree without node; otherwise the minimal height [m]
    and the height [h] satisfy [m <= h < n] and
    [2^(m+1) <= n + 1 <= 2^(h+1)], and the path length is, as an
    [unsigned], a sum [e] of depths with [n - 1 <= e <= n (n - 1) / 2]. *)
Theorem shape_metrics_bounds s fuel :
  reachable s -> (base.size (mem s) < fuel)%nat ->
  Z.of_nat (base.size (mem s)) < UINT_MOD ->
  exists h m e,
    pr_tree_height fuel s = Ok h
    /\ pr_tree_mheight fuel s = Ok m
    /\ pr_tree_pathlen fuel s = Ok (wrap_uint e)
    /\ (mem s = ∅ -> h = 0 /\ m = 0 /\ e = 0)
    /\ (mem s <> ∅ ->
        let n := Z.of_nat (base.size (mem s)) in
        0 <= m <= h /\ h < n
        /\ 2 ^ (m + 1) <= n + 1 <= 2 ^ (h + 1)
        /\ n - 1 <= e /\ 2 * e <= n * (n - 1)).
Proof.
  intros (t & [Hwf _] & Hsz)%reachable_tree Hf Hn. rewrite <- Hsz in *.
  pose proof (wf_rep _ _ Hwf) as Hrep.
  unfold pr_tree_height, pr_tree_mheight, pr_tree_pathlen.
  pose proof Hrep as (-> & _).
  destruct t as [|l a k d w r] eqn:Et.
  - exists 0, 0, 0. split_and!; try done. intros Hm. exfalso. apply Hm.
    apply map_empty. intros x. apply eq_None_not_Some.
    rewrite (wf_dom _ _ Hwf x). by intros ?%elem_of_nil.
  - rewrite <- Et in *. replace (root_ptr t) with (Some a) by (by rewrite Et).
    exists (Z.of_nat (levels t) - 1), (Z.of_nat (full_levels t) - 1),
      (fpathlen t 1).
    split_and!.
    + apply (node_height_spec t [] fuel s a); [done|by rewrite Et|lia|done].
    + apply (node_mheight_spec t [] fuel s a); [done|by rewrite Et|lia|done].
    + apply (node_pathlen_spec t [] fuel s a 1 1); [done|by rewrite Et|lia|done].
    + intros Hm.
      assert (Ha : is_Some (mem s !! a))
        by (apply (wf_dom _ _ Hwf); rewrite Et; simpl; set_solver).
      rewrite Hm, lookup_empty in Ha. by destruct Ha.
    + intros _. cbv zeta.
      pose proof (levels_le_size t). pose proof (full_levels_le_levels t).
      pose proof (size_lt_pow_levels t). pose proof (pow_full_levels_le_size t).
      assert (1 <= full_levels t)%nat by (rewrite Et; simpl; lia).
      replace (Z.of_nat (full_levels t) - 1 + 1) with (Z.of_nat (full_levels t))
        by lia.
      replace (Z.of_nat (levels t) - 1 + 1) with (Z.of_nat (levels t)) by lia.
      destruct (fpathlen_bounds t 1) as [[Hp1 Hp2]|E]; [lia| |congruence].
      split_and!; lia || nia.
Qed.

Lemma shape_metrics_bounds_witness :
  exists h m e,
    pr_tree_height 10 sample_state = Ok h
    /\ pr_tree_mheight 10 sample_state = Ok m
    /\ pr_tree_pathlen 10 sample_state = Ok (wrap_uint e)
    /\ (mem sample_state = ∅ -> h = 0 /\ m = 0 /\ e = 0)
    /\ (mem sample_state <> ∅ ->
        let n := Z.of_nat (base.size (mem sample_state)) in
        0 <= m <= h /\ h < n
        /\ 2 ^ (m + 1) <= n + 1 <= 2 ^ (h + 1)
        /\ n - 1 <= e /\ 2 * e <= n * (n - 1)).
Proof.
  apply (shape_metrics_bounds sample_state 10).
  - exact sample_state_reachable.
  - vm_compute. lia.
  - vm_compute. reflexivity.
Defined.

(** ** Search by cursor, and assignment through a cursor *)

(** X8: in a reachable state whose comparator is an order,
    [pr_itor_search] returns 1 and binds the cursor when some node holds
    the key, and returns 0 and unbinds it when none does; the value then
    read through the cursor is what [pr_tree_search] returns for the key,
    and the key read through it is the stored key, equal to the searched
    one for the comparator, or the null pointer. *)
Theorem itor_search_agrees_with_search s fuel it k :
  reachable s -> cmp_ok (key_cmp (tree s)) ->
  (base.size (mem s) < fuel)%nat ->
  exists rv it' k0,
    pr_itor_search fuel s it k = Ok (rv, it')
    /\ rv = pr_itor_valid it'
    /\ (rv = 1 <-> holds_key s k) /\ (rv = 0 <-> ~ holds_key s k)
    /\ pr_itor_data s it' = pr_tree_search fuel s k
    /\ pr_itor_key s it' = Ok k0
    /\ (holds_key s k ->
        key_cmp (tree s) k k0 = 0 /\ exists d0, stored s k0 d0)
    /\ (~ holds_key s k -> k0 = NULL).
Proof.
  intros (t & Hinv & Hsz)%reachable_tree Hcmp Hf. rewrite <- Hsz in Hf.
  pose proof Hinv as [Hwf _].
  destruct (pr_itor_search_cases fuel s t it k Hinv Hcmp ltac:(lia))
    as [(Hh & a & n & Hrun & Hn & Hk)|(Hno & Hrun)].
  - exists 1, (mk_itor (Some a)), (key n).
    assert (Hst : stored s (key n) (datum n)) by (by exists a, n).
    unfold pr_itor_data, pr_itor_key, deref. cbn [itor_node]. rewrite Hn.
    rewrite !mbind_Ok.
    split_and!; try done;
      first
      [ split; [done|lia]
      | split; [lia|done]
      | symmetry;
        apply (search_hit fuel s t k (key n) (datum n) Hinv Hcmp);
        [lia|done|done]
      | intros _; split; [done|]; by exists (datum n) ].
  - exists 0, (mk_itor None), NULL.
    split_and!; try done;
      first
      [ split; [lia|done]
      | split; [done|lia]
      | symmetry; apply (search_miss fuel s t k Hwf); [lia|done] ].
Qed.

Lemma itor_search_agrees_with_search_witness :
  exists rv it' k0,
    pr_itor_search 10 sample_state (mk_itor None) 3 = Ok (rv, it')
    /\ rv = pr_itor_valid it'
    /\ (rv = 1 <-> holds_key sample_state 3)
    /\ (rv = 0 <-> ~ holds_key sample_state 3)
    /\ pr_itor_data sample_state it' = pr_tree_search 10 sample_state 3
    /\ pr_itor_key sample_state it' = Ok k0
    /\ (holds_key sample_state 3 ->
        key_cmp (tree sample_state) 3 k0 = 0
        /\ exists d0, stored sample_state k0 d0)
    /\ (~ holds_key sample_state 3 -> k0 = NULL).
Proof.
  apply (itor_search_agrees_with_search sample_state 10 (mk_itor None) 3).
  - exact sample_state_reachable.
  - exact sample_state_cmp.
  - vm_compute. lia.
Defined.

(** X9: [pr_itor_set_data] on an unbound cursor returns -1 and changes
    nothing.  In a reachable state whose comparator is an order, on a
    cursor bound to a live node it returns 0, hands back the previous value
    when asked to, and replaces the value stored with the key of that node:
    a search for the key then returns the new value, every other stored
    pair is kept, the count is the same and [del_func] is not called. *)
Theorem set_data_replaces_value s fuel it d old_datum :
  reachable s -> cmp_ok (key_cmp (tree s)) ->
  (base.size (mem s) < fuel)%nat ->
  (itor_node it = None ->
   pr_itor_set_data s it d old_datum = Ok (-1, None, s))
  /\ (forall a n,
        itor_node it = Some a -> mem s !! a = Some n ->
        exists s',
          pr_itor_set_data s it d old_datum
          = Ok (0, if old_datum then Some (datum n) else None, s')
          /\ pr_tree_search fuel s' (key n) = Ok d
          /\ pr_itor_data s' it = Ok d
          /\ (forall k' d',
                stored s' k' d' <->
                (k' = key n /\ d' = d) \/ (k' <> key n /\ stored s k' d'))
          /\ tree s' = tree s /\ del_log s' = del_log s).
Proof.
  intros (t & Hinv & Hsz)%reachable_tree Hcmp Hf. rewrite <- Hsz in Hf.
  pose proof Hinv as [Hwf Hasc]. split.
  - intros Hit. unfold pr_itor_set_data. by rewrite Hit.
  - intros a n Hit Hn. unfold pr_itor_set_data. rewrite Hit.
    assert (Ha : a ∈ addrs t) by (apply (wf_dom _ _ Hwf); by rewrite Hn).
    destruct (focus_of_addr a t [] Ha) as (c & l & k & d0 & w & r & Et).
    cbn [plug] in Et. subst t.
    pose proof (deref_focus _ _ _ _ _ _ _ _ (wf_rep _ _ Hwf)) as Hd.
    pose proof Hd as Hd'. apply deref_inv in Hd'. rewrite Hn in Hd'.
    injection Hd' as ->. rewrite Hd, mbind_Ok. cbn [datum key].
    edestruct (update_focus s c l a k d0 w r (set_datum d) k d w)
      as (s' & Hu & Hrep' & Ht & Hl & Hm); [apply Hwf|done|].
    destruct (wf_set_datum _ _ _ _ _ _ _ _ d _ Hwf Hu) as (Hwf' & _ & _).
    rewrite Hu, mbind_Ok. exists s'.
    assert (Hkeys : keys (plug c (Node l a k d w r))
                    = keys (plug c (Node l a k d0 w r)))
      by (by rewrite !keys_plug_node).
    assert (Hinv' : tree_inv s' (plug c (Node l a k d w r))).
    { split; [done|]. rewrite Ht, Hkeys. done. }
    assert (Hnew : stored s' k d).
    { apply (stored_iff _ _ _ _ Hwf'). rewrite entries_plug. simpl. set_solver. }
    assert (Hold : stored s k d0).
    { apply (stored_iff _ _ _ _ Hwf). rewrite entries_plug. simpl. set_solver. }
    split_and!; try done.
    + apply (search_hit fuel s' _ k k d Hinv'); [by rewrite Ht| |done|].
      * rewrite (size_plug_congr c _ (Node l a k d0 w r)) by done. lia.
      * rewrite Ht. by apply cmp_refl.
    + unfold pr_itor_data. rewrite Hit.
      by rewrite (deref_focus _ _ _ _ _ _ _ _ Hrep'), mbind_Ok.
    + intros k' d'. split.
      * intros Hs'. destruct (decide (k' = k)) as [->|Hne].
        -- left. split; [done|].
           eapply (stored_unique s' _ k d' d Hinv'); [by rewrite Ht|done|done].
        -- right. split; [done|].
           apply (stored_iff _ _ _ _ Hwf') in Hs'.
           apply (stored_iff _ _ _ _ Hwf).
           rewrite entries_plug in *. simpl in *.
           rewrite !elem_of_app, elem_of_cons in *.
           destruct Hs' as [?|[[?|[[= -> ->]|?]]|?]]; try done; tauto.
      * intros [[-> ->]|[Hne Hs]]; [done|].
        apply (stored_iff _ _ _ _ Hwf) in Hs.
        apply (stored_iff _ _ _ _ Hwf').
        rewrite entries_plug in *. simpl in *.
        rewrite !elem_of_app, elem_of_cons in *.
        destruct Hs as [?|[[?|[[= -> ->]|?]]|?]]; try done; tauto.
Qed.

Lemma set_data_replaces_value_witness :
  exists s',
    pr_itor_set_data sample_state (mk_itor (Some 102)) 33 true
    = Ok (0, Some 30, s')
    /\ pr_tree_search 10 s' 3 = Ok 33.
Proof.
  destruct (set_data_replaces_value sample_state 10 (mk_itor (Some 102)) 33 true)
    as (_ & H).
  - exact sample_state_reachable.
  - exact sample_state_cmp.
  - vm_compute. lia.
  - destruct (H 102 (mk_node 3 30 (Some 100) None (Some 103) 3) eq_refl)
      as (s' & Hrun & Hsearch & _).
    + vm_compute. reflexivity.
    + exists s'. split; [exact Hrun|exact Hsearch].
Defined.

(** ** What remove and insert change *)

Lemma del_log_released s k d :
  del_log (call_del_func s k d)
  = del_log s ++ (if del_func (tree s) then [(k, d)] else []).
Proof.
  unfold call_del_func. destruct (del_func (tree s)); [done|].
  by rewrite app_nil_r.
Qed.

(** What remove does to a held key, on the tree that the state holds. *)
Lemma remove_held_post s t fuel k :
  tree_inv s t -> cmp_ok (key_cmp (tree s)) ->
  (size t < fuel)%nat -> k <> NULL -> holds_key s k ->
  exists s' a n,
    pr_tree_remove fuel s k = Ok (0, s')
    /\ mem s !! a = Some n /\ key_cmp (tree s) k (key n) = 0
    /\ (forall x, is_Some (mem s' !! x) <-> x <> a /\ is_Some (mem s !! x))
    /\ (forall k' d', stored s' k' d' <-> stored s k' d' /\ k' <> key n)
    /\ pr_tree_count s' = wrap_uint (pr_tree_count s - 1)
    /\ del_log s'
       = del_log s ++ (if del_func (tree s) then [(key n, datum n)] else [])
    /\ key_cmp (tree s') = key_cmp (tree s)
    /\ del_func (tree s') = del_func (tree s).
Proof.
  intros Hinv Hcmp Hf Hk Hh.
  pose proof Hinv as [Hwf Hasc].
  pose proof (pr_tree_remove_spec fuel s t k Hwf Hk Hf) as Hspec.
  destruct (pr_tree_remove_cases fuel s t k Hinv Hcmp Hf Hk)
    as [(Hno & _)|(_ & s1 & t1 & k1 & d1 & Hrun1 & Hinv1 & _ & Hno1 & _)];
    [done|].
  destruct (fdescend (key_cmp (tree s)) k [] t) as [c t0] eqn:Ed.
  pose proof (fdescend_plug _ _ _ _ _ _ Ed) as Hplug. cbn [plug] in Hplug.
  destruct t0 as [|l a k0 d0 w r]; [by rewrite Hspec in Hrun1|].
  destruct Hspec as (s' & t' & Hrun & Hwf' & He & Ha & Hkc & Hdf & Hlog).
  rewrite Hrun in Hrun1. injection Hrun1 as <-.
  pose proof (fdescend_found _ _ _ _ _ _ _ _ _ _ _ Ed) as Hk0.
  pose proof (wf_rep _ _ Hwf) as Hrep. rewrite <- Hplug in Hrep.
  pose proof (deref_focus _ _ _ _ _ _ _ _ Hrep) as Hd. apply deref_inv in Hd.
  eexists s', a, _. split_and!; [done|exact Hd|done| | | | |done|done];
    cbn [key datum].
  - intros x. rewrite (wf_dom _ _ Hwf' x), (wf_dom _ _ Hwf x), Ha.
    assert (Hnd : NoDup (a :: addrs t')).
    { rewrite <- Ha. apply Hwf. }
    apply NoDup_cons in Hnd as [Hna _]. rewrite elem_of_cons.
    split; [intros Hx; split; [by intros ->|by right]|].
    intros [Hne [->|Hx]]; done.
  - intros k' d'.
    rewrite (stored_iff _ _ _ _ Hwf'), (stored_iff _ _ _ _ Hwf).
    rewrite He, <- Hplug, entries_plug. cbn [entries]. split.
    + intros Hin. split; [set_solver|].
      intros ->. apply Hno1. apply (holds_key_iff s' t' k Hwf').
      exists k0. split; [|by rewrite Hkc].
      apply list_elem_of_fmap. exists (k0, d'). split; [done|]. by rewrite He.
    + intros [Hin Hne]. rewrite !elem_of_app, elem_of_cons in Hin.
      rewrite !elem_of_app.
      destruct Hin as [?|[[?|[[= -> ->]|?]]|?]]; try done; tauto.
  - unfold pr_tree_count.
    rewrite (wf_count _ _ Hwf'), (wf_count _ _ Hwf), wrap_uint_pred.
    f_equal. rewrite <- !length_addrs, Ha. simpl. lia.
  - by rewrite Hlog, del_log_released.
Qed.

(** X10: in a reachable state whose comparator is an order, remove of a
    key that some node holds returns 0 and frees the block of exactly that
    node; every pair stored under another key is kept and no pair is left
    under the removed key; the count goes down by one; and [del_func], when
    the tree has one, is called once, on the stored key and value (not on
    the key passed to remove). *)
Theorem remove_takes_one_node s fuel k :
  reachable s -> cmp_ok (key_cmp (tree s)) ->
  (base.size (mem s) < fuel)%nat -> k <> NULL -> holds_key s k ->
  exists s' a n,
    pr_tree_remove fuel s k = Ok (0, s')
    /\ mem s !! a = Some n /\ key_cmp (tree s) k (key n) = 0
    /\ (forall x, is_Some (mem s' !! x) <-> x <> a /\ is_Some (mem s !! x))
    /\ (forall k' d', stored s' k' d' <-> stored s k' d' /\ k' <> key n)
    /\ pr_tree_count s' = wrap_uint (pr_tree_count s - 1)
    /\ del_log s'
       = del_log s ++ (if del_func (tree s) then [(key n, datum n)] else [])
    /\ key_cmp (tree s') = key_cmp (tree s)
    /\ del_func (tree s') = del_func (tree s).
Proof.
  intros (t & Hinv & Hsz)%reachable_tree Hcmp Hf Hk Hh. rewrite <- Hsz in Hf.
  exact (remove_held_post s t fuel k Hinv Hcmp Hf Hk Hh).
Qed.

Lemma remove_takes_one_node_witness :
  exists s' a n,
    pr_tree_remove 10 logged_state 3 = Ok (0, s')
    /\ mem logged_state !! a = Some n
    /\ key_cmp (tree logged_state) 3 (key n) = 0
    /\ (forall x, is_Some (mem s' !! x)
                  <-> x <> a /\ is_Some (mem logged_state !! x))
    /\ (forall k' d',
          stored s' k' d' <-> stored logged_state k' d' /\ k' <> key n)
    /\ pr_tree_count s' = wrap_uint (pr_tree_count logged_state - 1)
    /\ del_log s'
       = del_log logged_state
         ++ (if del_func (tree logged_state)
             then [(key n, datum n)] else [])
    /\ key_cmp (tree s') = key_cmp (tree logged_state)
    /\ del_func (tree s') = del_func (tree logged_state).
Proof.
  apply (remove_takes_one_node logged_state 10 3).
  - exact logged_state_reachable.
  - apply dict_ptr_cmp_ok.
  - vm_compute. lia.
  - done.
  - apply (holds_key_test _ _ 102). vm_compute. reflexivity.
Defined.

(** X11: in a reachable state whose comparator is an order, insert with
    overwrite enabled of a key that some node holds returns 0 and writes
    the new key and the new value into that node, changing no other node
    and allocating nothing; the count and the root are the same;
    [del_func], when the tree has one, is called once, on the key and the
    value that the node held. *)
Theorem insert_overwrite_rewrites_node s fuel m k d ow :
  reachable s -> cmp_ok (key_cmp (tree s)) ->
  (base.size (mem s) < fuel)%nat -> holds_key s k -> ow <> 0 ->
  exists s' a n,
    pr_tree_insert fuel s m k d ow = Ok (0, s')
    /\ mem s !! a = Some n /\ key_cmp (tree s) k (key n) = 0
    /\ mem s' = <[a := set_datum d (set_key k n)]> (mem s)
    /\ tree s' = tree s
    /\ del_log s'
       = del_log s ++ (if del_func (tree s) then [(key n, datum n)] else []).
Proof.
  intros (t & Hinv & Hsz)%reachable_tree Hcmp Hf Hh How. rewrite <- Hsz in Hf.
  pose proof Hinv as [Hwf Hasc]. pose proof (wf_rep _ _ Hwf) as Hrep.
  pose proof (insert_loop_spec k d ow t [] fuel s 0 Hrep ltac:(lia) I) as Hloop.
  destruct (fdescend (key_cmp (tree s)) k [] t) as [c t0] eqn:Ed.
  pose proof (fdescend_plug _ _ _ _ _ _ Ed) as Hplug. cbn [plug] in Hplug.
  destruct t0 as [|l a k0 d0 w r].
  { exfalso. by eapply descend_leaf_not_held. }
  pose proof (fdescend_found _ _ _ _ _ _ _ _ _ _ _ Ed) as Hk0.
  replace (ow =? 0) with false in Hloop by (symmetry; by apply Z.eqb_neq).
  unfold pr_tree_insert. pose proof Hrep as (Hroot & _). rewrite Hroot.
  cbn [ctx_parent] in Hloop. rewrite Hloop. clear Hloop.
  rewrite <- Hplug in Hrep.
  assert (Hrep0 : rep (call_del_func s k0 d0) (plug c (Node l a k0 d0 w r)))
    by (by apply rep_call_del_func).
  edestruct (update_focus (call_del_func s k0 d0) c l a k0 d0 w r (set_key k) k d0 w)
    as (s1 & Hu1 & R1 & T1 & L1 & M1); [done|done|].
  edestruct (update_focus s1 c l a k d0 w r (set_datum d) k d w)
    as (s2 & Hu2 & R2 & T2 & L2 & M2); [done|done|].
  rewrite Hu1, !mbind_Ok, Hu2, !mbind_Ok.
  pose proof (deref_focus _ _ _ _ _ _ _ _ Hrep) as Hd. apply deref_inv in Hd.
  eexists s2, a, _. split_and!; [done|exact Hd|done| | |].
  - rewrite M2, M1, mem_call_del_func. by rewrite insert_insert_eq.
  - by rewrite T2, T1, tree_call_del_func.
  - by rewrite L2, L1, del_log_released.
Qed.

Lemma insert_overwrite_rewrites_node_witness :
  exists s' a n,
    pr_tree_insert 10 logged_state None 3 33 1 = Ok (0, s')
    /\ mem logged_state !! a = Some n
    /\ key_cmp (tree logged_state) 3 (key n) = 0
    /\ mem s' = <[a := set_datum 33 (set_key 3 n)]> (mem logged_state)
    /\ tree s' = tree logged_state
    /\ del_log s'
       = del_log logged_state
         ++ (if del_func (tree logged_state)
             then [(key n, datum n)] else []).
Proof.
  apply (insert_overwrite_rewrites_node logged_state 10 None 3 33 1).
  - exact logged_state_reachable.
  - apply dict_ptr_cmp_ok.
  - vm_compute. lia.
  - apply (holds_key_test _ _ 102). vm_compute. reflexivity.
  - done.
Defined.

(** What insert does with a key that is not held, on the tree that the
    state holds. *)
Lemma insert_fresh_post s t fuel a k d ow :
  tree_inv s t -> cmp_ok (key_cmp (tree s)) ->
  (size t < fuel)%nat ->
  ~ holds_key s k -> valid_block s a = true ->
  exists s' n,
    pr_tree_insert fuel s (Some a) k d ow = Ok (0, s')
    /\ mem s' !! a = Some n /\ key n = k /\ datum n = d
    /\ (forall x, is_Some (mem s' !! x) <-> x = a \/ is_Some (mem s !! x))
    /\ (forall k' d',
          stored s' k' d' <-> (k', d') = (k, d) \/ stored s k' d')
    /\ pr_tree_count s' = wrap_uint (pr_tree_count s + 1)
    /\ del_log s' = del_log s
    /\ key_cmp (tree s') = key_cmp (tree s)
    /\ del_func (tree s') = del_func (tree s).
Proof.
  intros Hinv Hcmp Hf Hno Hv.
  pose proof Hinv as [Hwf Hasc].
  pose proof (pr_tree_insert_spec fuel s t (Some a) k d ow Hwf Hf) as Hspec.
  destruct (fdescend (key_cmp (tree s)) k [] t) as [c t0] eqn:Ed.
  destruct t0 as [|l a0 k0 d0 w r].
  - destruct (Hspec Hv) as (s' & Hrun & Hwf' & Hk & Hdf & Hlog).
    destruct (insert_new_post fuel s t c a k d Hinv Hcmp Ed Hv s' Hwf' Hk)
      as (Hinv' & Hsz' & Hst).
    destruct (finsert_new_keeps fuel s t c a k d Hwf Hv Ed) as (_ & _ & Ha & _).
    destruct (new_node_holds_pair fuel s s' t c a k d Hwf Hv Ed Hwf')
      as (n & Hn & Hkn & Hdn).
    exists s', n. split_and!; try done.
    + intros x. rewrite (wf_dom _ _ Hwf' x), (wf_dom _ _ Hwf x), Ha.
      by rewrite elem_of_cons.
    + unfold pr_tree_count.
      rewrite (wf_count _ _ Hwf'), (wf_count _ _ Hwf), wrap_uint_succ, Hsz'.
      f_equal. lia.
  - exfalso. apply Hno.
    by destruct (descend_node_held s t k c l a0 k0 d0 w r Hwf Ed) as (? & _).
Qed.

(** X12: in a reachable state whose comparator is an order, insert of a key
    that no node holds, with a fresh block from the allocator, returns 0;
    the block becomes the one new live node and holds the new key and
    value; every stored pair is kept; the count goes up by one; and
    [del_func] is not called. *)
Theorem insert_new_adds_one_node s fuel a k d ow :
  reachable s -> cmp_ok (key_cmp (tree s)) ->
  (base.size (mem s) < fuel)%nat ->
  ~ holds_key s k -> valid_block s a = true ->
  exists s' n,
    pr_tree_insert fuel s (Some a) k d ow = Ok (0, s')
    /\ mem s' !! a = Some n /\ key n = k /\ datum n = d
    /\ (forall x, is_Some (mem s' !! x) <-> x = a \/ is_Some (mem s !! x))
    /\ (forall k' d',
          stored s' k' d' <-> (k', d') = (k, d) \/ stored s k' d')
    /\ pr_tree_count s' = wrap_uint (pr_tree_count s + 1)
    /\ del_log s' = del_log s
    /\ key_cmp (tree s') = key_cmp (tree s)
    /\ del_func (tree s') = del_func (tree s).
Proof.
  intros (t & Hinv & Hsz)%reachable_tree Hcmp Hf Hno Hv. rewrite <- Hsz in Hf.
  exact (insert_fresh_post s t fuel a k d ow Hinv Hcmp Hf Hno Hv).
Qed.

Lemma insert_new_adds_one_node_witness :
  exists s' n,
    pr_tree_insert 10 sample_state (Some 104) 7 70 0 = Ok (0, s')
    /\ mem s' !! 104 = Some n /\ key n = 7 /\ datum n = 70
    /\ (forall x, is_Some (mem s' !! x)
                  <-> x = 104 \/ is_Some (mem sample_state !! x))
    /\ (forall k' d',
          stored s' k' d' <-> (k', d') = (7, 70) \/ stored sample_state k' d')
    /\ pr_tree_count s' = wrap_uint (pr_tree_count sample_state + 1)
    /\ del_log s' = del_log sample_state
    /\ key_cmp (tree s') = key_cmp (tree sample_state)
    /\ del_func (tree s') = del_func (tree sample_state).
Proof.
  apply (insert_new_adds_one_node sample_state 10 104 7 70 0).
  - exact sample_state_reachable.
  - exact sample_state_cmp.
  - vm_compute. lia.
  - apply not_holds_key_test. vm_compute. reflexivity.
  - vm_compute. reflexivity.
Defined.

(** ** Probe *)

(** X13: in a reachable state whose comparator is an order, with an
    allocator that answers with a fresh block or with a failure, probe
    returns 0, 1 or -1: 0 exactly when some node holds the key, -1 exactly
    when none does and the allocation fails, 1 otherwise.  Unless it
    returns 1 the state is left as it is, and unless it returns 0 the value
    in the slot is left as it is.  Probe never calls [del_func] and never
    drops or changes a stored pair. *)
Theorem probe_never_overwrites s fuel m k d :
  reachable s -> cmp_ok (key_cmp (tree s)) ->
  (base.size (mem s) < fuel)%nat ->
  match m with Some a => valid_block s a = true | None => True end ->
  exists rv d' s',
    pr_tree_probe fuel s m k d = Ok (rv, d', s')
    /\ (rv = 0 \/ rv = 1 \/ rv = -1)
    /\ (rv = 0 <-> holds_key s k)
    /\ (rv = -1 <-> ~ holds_key s k /\ m = None)
    /\ (rv <> 1 -> s' = s)
    /\ (rv <> 0 -> d' = d)
    /\ del_log s' = del_log s
    /\ (forall k' d', stored s k' d' -> stored s' k' d').
Proof.
  intros (t & Hinv & Hsz)%reachable_tree Hcmp Hf Hm. rewrite <- Hsz in Hf.
  destruct (pr_tree_probe_cases fuel s t m k d Hinv Hcmp Hf)
    as [(Hh & k0 & d0 & Hrun & _)
       |[(Hno & -> & Hrun)
       |[(Hno & a & s' & t' & -> & Hv & Hrun & _ & _ & Hst & _ & Hlog)
        |(Hno & a & -> & Hv & _)]]].
  - exists 0, d0, s.
    split_and!; [done|lia|solve_iff|solve_iff|done|done|done|done].
  - exists (-1), d, s.
    split_and!; [done|lia|solve_iff|solve_iff|done|done|done|done].
  - exists 1, d, s'.
    split_and!; [done|lia|solve_iff|solve_iff|done|done|done|].
    intros k' d' Hs. apply Hst. by right.
  - simpl in Hm. congruence.
Qed.

Lemma probe_never_overwrites_witness :
  exists rv d' s',
    pr_tree_probe 10 sample_state None 7 70 = Ok (rv, d', s')
    /\ (rv = 0 \/ rv = 1 \/ rv = -1)
    /\ (rv = 0 <-> holds_key sample_state 7)
    /\ (rv = -1 <-> ~ holds_key sample_state 7 /\ @None addr = None)
    /\ (rv <> 1 -> s' = sample_state)
    /\ (rv <> 0 -> d' = 70)
    /\ del_log s' = del_log sample_state
    /\ (forall k' d', stored sample_state k' d' -> stored s' k' d').
Proof.
  apply (probe_never_overwrites sample_state 10 None 7 70).
  - exact sample_state_reachable.
  - exact sample_state_cmp.
  - vm_compute. lia.
  - exact I.
Defined.

(** ** No fault, whatever the comparator *)

(** X14: in a reachable state, and for any comparator at all, the
    operations return without a fault (no null or dangling pointer is
    followed and no assertion fails) once the fuel exceeds the number of
    nodes: search returns the null pointer or the value of a stored pair
    whose key compares equal to the searched key; insert and probe return
    when the allocator answers with a fresh block or with a failure;
    remove of a non-null key returns; a walk returns; a cursor search
    returns. *)
Theorem operations_never_fault s fuel :
  reachable s -> (base.size (mem s) < fuel)%nat ->
  (forall k,
     exists d, pr_tree_search fuel s k = Ok d
       /\ (d = NULL
           \/ exists k0, stored s k0 d /\ key_cmp (tree s) k k0 = 0))
  /\ (forall m k d ow,
        match m with Some a => valid_block s a = true | None => True end ->
        exists rv s', pr_tree_insert fuel s m k d ow = Ok (rv, s'))
  /\ (forall m k d,
        match m with Some a => valid_block s a = true | None => True end ->
        exists rv d' s', pr_tree_probe fuel s m k d = Ok (rv, d', s'))
  /\ (forall k, k <> NULL ->
        exists rv s', pr_tree_remove fuel s k = Ok (rv, s'))
  /\ (forall visit, exists n es, pr_tree_walk fuel s visit = Ok (n, es))
  /\ (forall it k,
        exists rv it', pr_itor_search fuel s it k = Ok (rv, it')).
Proof.
  intros (t & [Hwf _] & Hsz)%reachable_tree Hf. rewrite <- Hsz in Hf.
  pose proof (wf_rep _ _ Hwf) as Hrep. split_and!.
  - intros k. rewrite (pr_tree_search_spec fuel s t k Hrep) by lia.
    eexists; split; [done|]. unfold fsearch.
    destruct (fdescend (key_cmp (tree s)) k [] t) as [c [|l a k0 d0 w r]] eqn:Ed;
      cbn [snd]; [by left|].
    right. exists k0.
    by destruct (descend_node_held s t k c l a k0 d0 w r Hwf Ed) as (_ & ? & ?).
  - intros m k d ow Hm.
    pose proof (pr_tree_insert_spec fuel s t m k d ow Hwf Hf) as Hspec.
    destruct (fdescend (key_cmp (tree s)) k [] t) as [c [|l a k0 d0 w r]].
    + destruct m as [a|]; [|by eauto].
      destruct (Hspec Hm) as (s' & Hrun & _). by eauto.
    + destruct (ow =? 0); [by eauto|].
      destruct Hspec as (s' & Hrun & _). by eauto.
  - intros m k d Hm.
    pose proof (pr_tree_probe_spec fuel s t m k d Hwf Hf) as Hspec.
    destruct (fdescend (key_cmp (tree s)) k [] t) as [c [|l a k0 d0 w r]].
    + destruct m as [a|]; [|by eauto].
      destruct (Hspec Hm) as (s' & Hrun & _). by eauto.
    + by eauto.
  - intros k Hk.
    pose proof (pr_tree_remove_spec fuel s t k Hwf Hk Hf) as Hspec.
    destruct (fdescend (key_cmp (tree s)) k [] t) as [c [|l a k0 d0 w r]].
    + by eauto.
    + destruct Hspec as (s' & t' & Hrun & _). by eauto.
  - intros visit. rewrite (pr_tree_walk_spec fuel s t visit Hrep Hf). by eauto.
  - intros it k. unfold pr_itor_search. pose proof Hrep as (-> & _).
    rewrite (itor_search_loop_spec k t [] fuel s Hrep) by lia.
    rewrite mbind_Ok. by eauto.
Qed.

Lemma operations_never_fault_witness :
  (forall k,
     exists d, pr_tree_search 10 spliced_state k = Ok d
       /\ (d = NULL
           \/ exists k0, stored spliced_state k0 d
                /\ key_cmp (tree spliced_state) k k0 = 0))
  /\ (forall m k d ow,
        match m with
        | Some a => valid_block spliced_state a = true
        | None => True
        end ->
        exists rv s', pr_tree_insert 10 spliced_state m k d ow = Ok (rv, s'))
  /\ (forall m k d,
        match m with
        | Some a => valid_block spliced_state a = true
        | None => True
        end ->
        exists rv d' s', pr_tree_probe 10 spliced_state m k d = Ok (rv, d', s'))
  /\ (forall k, k <> NULL ->
        exists rv s', pr_tree_remove 10 spliced_state k = Ok (rv, s'))
  /\ (forall visit,
        exists n es, pr_tree_walk 10 spliced_state visit = Ok (n, es))
  /\ (forall it k,
        exists rv it', pr_itor_search 10 spliced_state it k = Ok (rv, it')).
Proof.
  apply (operations_never_fault spliced_state 10).
  - exact spliced_state_reachable.
  - vm_compute. lia.
Defined.

(** ** The stored pairs determine every answer *)

Lemma resorted_state_reachable : reachable resorted_state.
Proof. apply final_state_reachable. vm_compute. eauto. Qed.

(** X15: two reachable states with the same comparator, an order, and the
    same stored pairs answer alike, whatever the order of the insertions
    and removals that built them and whatever the shape and the blocks of
    their trees: the same count, the same search result for every key, the
    same sequence of visits in a walk, the same minimum and maximum, and
    the same keys under a cursor run from first to the end. *)
Theorem stored_pairs_determine_answers s1 s2 fuel :
  reachable s1 -> reachable s2 ->
  key_cmp (tree s1) = key_cmp (tree s2) -> cmp_ok (key_cmp (tree s1)) ->
  (forall k d, stored s1 k d <-> stored s2 k d) ->
  (base.size (mem s1) < fuel)%nat ->
  pr_tree_count s1 = pr_tree_count s2
  /\ (forall k, pr_tree_search fuel s1 k = pr_tree_search fuel s2 k)
  /\ (forall visit, pr_tree_walk fuel s1 visit = pr_tree_walk fuel s2 visit)
  /\ pr_tree_min fuel s1 = pr_tree_min fuel s2
  /\ pr_tree_max fuel s1 = pr_tree_max fuel s2
  /\ (forall it1 it2, itor_keys fuel s1 it1 = itor_keys fuel s2 it2).
Proof.
  intros (t1 & Hinv1 & Hsz1)%reachable_tree (t2 & Hinv2 & Hsz2)%reachable_tree
         Hc Hcmp Hst Hf.
  rewrite <- Hsz1 in Hf.
  pose proof (entries_determined s1 s2 t1 t2 Hinv1 Hinv2 Hc Hcmp Hst) as He.
  assert (Hsize : size t2 = size t1).
  { by rewrite <- !length_addrs, <- !length_entries, He. }
  assert (Hkeys : keys t2 = keys t1) by (unfold keys; by rewrite He).
  pose proof Hinv1 as [Hwf1 _]. pose proof Hinv2 as [Hwf2 _].
  pose proof (wf_rep _ _ Hwf1) as Hrep1. pose proof (wf_rep _ _ Hwf2) as Hrep2.
  assert (Hcmp2 : cmp_ok (key_cmp (tree s2))) by (by rewrite <- Hc).
  split_and!.
  - unfold pr_tree_count.
    by rewrite (wf_count _ _ Hwf1), (wf_count _ _ Hwf2), Hsize.
  - intros k.
    rewrite (pr_tree_search_spec fuel s1 t1 k Hrep1) by lia. unfold fsearch.
    destruct (fdescend (key_cmp (tree s1)) k [] t1)
      as [c [|l a k0 d0 w r]] eqn:Ed; cbn [snd].
    + symmetry. apply (search_miss fuel s2 t2 k Hwf2); [lia|].
      intros (a & n & Hn & Hk).
      apply (descend_leaf_not_held s1 t1 k c Hinv1 Hcmp Ed).
      assert (Hs : stored s1 (key n) (datum n)) by (apply Hst; by exists a, n).
      destruct Hs as (a1 & n1 & Hn1 & Hk1 & _).
      exists a1, n1. split; [done|]. by rewrite Hk1, Hc.
    + destruct (descend_node_held s1 t1 k c l a k0 d0 w r Hwf1 Ed)
        as (_ & Hs & Hk).
      symmetry. apply (search_hit fuel s2 t2 k k0 d0 Hinv2 Hcmp2); [lia| |].
      * by apply Hst.
      * by rewrite <- Hc.
  - intros visit.
    rewrite (pr_tree_walk_spec fuel s1 t1 visit Hrep1) by lia.
    rewrite (pr_tree_walk_spec fuel s2 t2 visit Hrep2) by lia.
    by rewrite He.
  - rewrite (pr_tree_min_spec fuel s1 t1 Hrep1) by lia.
    rewrite (pr_tree_min_spec fuel s2 t2 Hrep2) by lia. by rewrite Hkeys.
  - rewrite (pr_tree_max_spec fuel s1 t1 Hrep1) by lia.
    rewrite (pr_tree_max_spec fuel s2 t2 Hrep2) by lia. by rewrite Hkeys.
  - intros it1 it2.
    rewrite (itor_keys_spec fuel s1 t1 it1 Hrep1) by lia.
    rewrite (itor_keys_spec fuel s2 t2 it2 Hrep2) by lia. by rewrite Hkeys.
Qed.

Lemma stored_pairs_determine_answers_witness :
  mem sample_state <> mem resorted_state
  /\ pr_tree_count sample_state = pr_tree_count resorted_state
  /\ (forall k,
        pr_tree_search 10 sample_state k = pr_tree_search 10 resorted_state k)
  /\ (forall visit,
        pr_tree_walk 10 sample_state visit
        = pr_tree_walk 10 resorted_state visit)
  /\ pr_tree_min 10 sample_state = pr_tree_min 10 resorted_state
  /\ pr_tree_max 10 sample_state = pr_tree_max 10 resorted_state
  /\ (forall it1 it2,
        itor_keys 10 sample_state it1 = itor_keys 10 resorted_state it2).
Proof.
  split.
  - intros E. apply (f_equal (fun m => bool_decide (is_Some (m !! 100)))) in E.
    vm_compute in E. discriminate E.
  - apply (stored_pairs_determine_answers sample_state resorted_state 10).
    + exact sample_state_reachable.
    + exact resorted_state_reachable.
    + reflexivity.
    + exact sample_state_cmp.
    + intros k d. split; apply stored_incl_test; vm_compute; reflexivity.
    + vm_compute. lia.
Defined.

(** ** Insert, then remove *)

(** X16: in a reachable state whose comparator is an order, insert of a
    non-null key that no node holds, into a fresh block, followed by remove
    of the same key, both return 0 and restore the state as a user sees it:
    the same live blocks (the block of the insert is freed again), the same
    stored pairs and the same count.  [del_func], when the tree has one, is
    called once, on the inserted pair. *)
Theorem insert_then_remove_restores s fuel a k d ow :
  reachable s -> cmp_ok (key_cmp (tree s)) ->
  (S (base.size (mem s)) < fuel)%nat ->
  k <> NULL -> ~ holds_key s k -> valid_block s a = true ->
  exists s1 s2,
    pr_tree_insert fuel s (Some a) k d ow = Ok (0, s1)
    /\ pr_tree_remove fuel s1 k = Ok (0, s2)
    /\ (forall x, is_Some (mem s2 !! x) <-> is_Some (mem s !! x))
    /\ (forall k' d', stored s2 k' d' <-> stored s k' d')
    /\ pr_tree_count s2 = pr_tree_count s
    /\ del_log s2
       = del_log s ++ (if del_func (tree s) then [(k, d)] else []).
Proof.
  intros Hr Hcmp Hf Hk Hno Hv.
  destruct (reachable_tree s Hr) as (t & Hinv & Hsz).
  destruct (insert_fresh_post s t fuel a k d ow Hinv Hcmp ltac:(lia) Hno Hv)
    as (s1 & n & Hrun1 & Hn & Hkn & Hdn & Hdom1 & Hst1 & Hcnt1 & Hlog1
        & Hc1 & Hdf1).
  assert (Hr1 : reachable s1) by (by eapply reach_insert).
  assert (Hcmp1 : cmp_ok (key_cmp (tree s1))) by (by rewrite Hc1).
  assert (Hh1 : holds_key s1 k).
  { exists a, n. split; [done|]. rewrite Hkn, Hc1. by apply cmp_refl. }
  destruct (reachable_tree s1 Hr1) as (t1 & Hinv1 & Hsz1).
  assert (Hf1 : (size t1 < fuel)%nat).
  { rewrite Hsz1.
    assert (base.size (mem s1) <= S (base.size (mem s)))%nat; [|lia].
    rewrite <- (size_dom (D := gset Z) (mem s1)).
    rewrite <- (size_dom (D := gset Z) (mem s)).
    assert (Hsub : dom (mem s1) ⊆ {[a]} ∪ dom (mem s)).
    { intros x. rewrite elem_of_union, elem_of_singleton, !elem_of_dom.
      apply Hdom1. }
    apply subseteq_size in Hsub. rewrite size_union_alt in Hsub.
    rewrite size_singleton in Hsub.
    pose proof (subseteq_size (dom (mem s) ∖ {[a]}) (dom (mem s))
                  ltac:(set_solver)). lia. }
  destruct (remove_held_post s1 t1 fuel k Hinv1 Hcmp1 Hf1 Hk Hh1)
    as (s2 & a' & n' & Hrun2 & Hn' & Hk' & Hdom2 & Hst2 & Hcnt2 & Hlog2 & _).
  assert (Ha : a = a').
  { apply (key_address_unique s1 t1 a a' n n' Hinv1 Hcmp1 Hn Hn').
    by rewrite Hkn. }
  subst a'. rewrite Hn in Hn'. injection Hn' as <-.
  exists s1, s2. split_and!; [done|done| | | |].
  - intros x. rewrite Hdom2, Hdom1. split.
    + intros [Hne [->|Hx]]; done.
    + intros Hx. split; [|by right]. intros ->.
      apply valid_block_inv in Hv as [Hv _]. destruct Hx as [? Hx].
      congruence.
  - intros k' d'. rewrite Hst2, Hst1, Hkn. split.
    + intros [[[= -> ->]|Hs] Hne]; done.
    + intros Hs. split; [by right|]. intros ->. apply Hno.
      destruct Hs as (a0 & n0 & Hn0 & Hk0 & _). exists a0, n0.
      split; [done|]. rewrite Hk0. by apply cmp_refl.
  - rewrite Hcnt2, Hcnt1, wrap_uint_pred.
    replace (pr_tree_count s + 1 - 1) with (pr_tree_count s) by lia.
    unfold pr_tree_count.
    by rewrite (wf_count _ _ (proj1 Hinv)), wrap_uint_idem.
  - by rewrite Hlog2, Hlog1, Hdf1, Hkn, Hdn.
Qed.

Lemma insert_then_remove_restores_witness :
  exists s1 s2,
    pr_tree_insert 10 logged_state (Some 104) 7 70 0 = Ok (0, s1)
    /\ pr_tree_remove 10 s1 7 = Ok (0, s2)
    /\ (forall x, is_Some (mem s2 !! x) <-> is_Some (mem logged_state !! x))
    /\ (forall k' d', stored s2 k' d' <-> stored logged_state k' d')
    /\ pr_tree_count s2 = pr_tree_count logged_state
    /\ del_log s2
       = del_log logged_state
         ++ (if del_func (tree logged_state) then [(7, 70)] else []).
Proof.
  apply (insert_then_remove_restores logged_state 10 104 7 70 0).
  - exact logged_state_reachable.
  - apply dict_ptr_cmp_ok.
  - vm_compute. lia.
  - done.
  - apply not_holds_key_test. vm_compute. reflexivity.
  - vm_compute. reflexivity.
Defined.

(** ** Rotations *)

(** X17: in a reachable state, [rot_left] at a live node that has no right
    child fails its assertion.  At a live node [a] with the right child
    [b] it returns: [b] takes the place of [a] under the parent of [a], [a]
    becomes the left child of [b] and keeps its own left child, and the
    former left child of [b] becomes the right child of [a].  The live
    nodes, the stored pairs, the count and the in-order walk are the same
    as before, the weight invariant and the consistency of the links hold
    afterwards, and only [a] and [b] can have a new weight. *)
Theorem rot_left_keeps_order s fuel a n :
  reachable s -> (base.size (mem s) < fuel)%nat -> mem s !! a = Some n ->
  match rlink n with
  | None => rot_left s a = Fault
  | Some b =>
      exists s' na nb nb0,
        rot_left s a = Ok s'
        /\ mem s !! b = Some nb0
        /\ mem s' !! a = Some na /\ mem s' !! b = Some nb
        /\ parent nb = parent n /\ llink nb = Some a /\ rlink nb = rlink nb0
        /\ parent na = Some b /\ llink na = llink n /\ rlink na = llink nb0
        /\ (forall x, is_Some (mem s' !! x) <-> is_Some (mem s !! x))
        /\ (forall k d, stored s' k d <-> stored s k d)
        /\ pr_tree_count s' = pr_tree_count s
        /\ (forall visit,
              pr_tree_walk fuel s' visit = pr_tree_walk fuel s visit)
        /\ weight_invariant s' /\ links_ok s'
        /\ same_weights_except [a; b] s s'
  end.
Proof.
  intros (t & [Hwf _] & Hsz)%reachable_tree Hf Hn. rewrite <- Hsz in Hf.
  destruct (rlink n) as [b|] eqn:Hb.
  - destruct (rot_left_keeps_wf s t a n b Hwf Hn Hb)
      as (s' & c & A & ka & da & wa & C & kb & db & wb & E
          & -> & Hrun & Hwf' & Hm).
    cbn [frot_left] in Hwf'.
    pose proof (wf_rep _ _ Hwf) as Hrep. pose proof (wf_rep _ _ Hwf') as Hrep'.
    pose proof (deref_inv _ _ _ (deref_focus s c _ a _ _ _ _ Hrep)) as Dn.
    pose proof (deref_inv _ _ _
      (deref_focus s (InR A a ka da wa :: c) C b kb db wb E Hrep)) as Dnb0.
    pose proof (deref_inv _ _ _ (deref_focus s' c _ b _ _ _ _ Hrep')) as Dnb.
    pose proof (deref_inv _ _ _
      (deref_focus s' (InL b kb db _ E :: c) A a ka da _ C Hrep')) as Dna.
    rewrite Hn in Dn. injection Dn as ->.
    do 4 eexists.
    split_and!; [exact Hrun|exact Dnb0|exact Dna|exact Dnb|done..| | | | | | |].
    + by eapply rot_left_same_dom.
    + intros k d.
      rewrite (stored_iff _ _ _ _ Hwf'), (stored_iff _ _ _ _ Hwf).
      rewrite !entries_plug. cbn [entries].
      by rewrite <- (app_assoc (entries A)).
    + unfold pr_tree_count. by destruct Hm as (-> & _).
    + intros visit.
      rewrite (pr_tree_walk_spec fuel s' _ visit Hrep').
      2:{ rewrite size_plug in *. simpl in *. lia. }
      rewrite (pr_tree_walk_spec fuel s _ visit Hrep) by done.
      rewrite !entries_plug. cbn [entries].
      by rewrite <- (app_assoc (entries A)).
    + by eapply wf_weight_invariant.
    + by eapply wf_links_ok.
    + destruct (rot_left_weights s a s' Hrun) as (n0 & b0 & Hn0 & Hb0 & Hswe).
      rewrite Hn in Hn0. injection Hn0 as <-. cbn [rlink root_ptr] in Hb0.
      by injection Hb0 as <-.
  - unfold rot_left, deref. by rewrite Hn, mbind_Ok, Hb.
Qed.

Lemma rot_left_keeps_order_witness :
  exists s' na nb nb0,
    rot_left sample_state 100 = Ok s'
    /\ mem sample_state !! 102 = Some nb0
    /\ mem s' !! 100 = Some na /\ mem s' !! 102 = Some nb
    /\ parent nb = None /\ llink nb = Some 100 /\ rlink nb = rlink nb0
    /\ parent na = Some 102 /\ llink na = Some 101 /\ rlink na = llink nb0
    /\ (forall x, is_Some (mem s' !! x) <-> is_Some (mem sample_state !! x))
    /\ (forall k d, stored s' k d <-> stored sample_state k d)
    /\ pr_tree_count s' = pr_tree_count sample_state
    /\ (forall visit,
          pr_tree_walk 10 s' visit = pr_tree_walk 10 sample_state visit)
    /\ weight_invariant s' /\ links_ok s'
    /\ same_weights_except [100; 102] sample_state s'.
Proof.
  apply (rot_left_keeps_order sample_state 10 100
           (mk_node 2 20 None (Some 101) (Some 102) 5)).
  - exact sample_state_reachable.
  - vm_compute. lia.
  - vm_compute. reflexivity.
Defined.

(** X18: in a reachable state, [rot_right] at a live node that has no left
    child fails its assertion.  At a live node [a] with the left child [b]
    it returns: [b] takes the place of [a] under the parent of [a], [a]
    becomes the right child of [b] and keeps its own right child, and the
    former right child of [b] becomes the left child of [a].  The live
    nodes, the stored pairs, the count and the in-order walk are the same
    as before, the weight invariant and the consistency of the links hold
    afterwards, and only [a] and [b] can have a new weight. *)
Theorem rot_right_keeps_order s fuel a n :
  reachable s -> (base.size (mem s) < fuel)%nat -> mem s !! a = Some n ->
  match llink n with
  | None => rot_right s a = Fault
  | Some b =>
      exists s' na nb nb0,
        rot_right s a = Ok s'
        /\ mem s !! b = Some nb0
        /\ mem s' !! a = Some na /\ mem s' !! b = Some nb
        /\ parent nb = parent n /\ rlink nb = Some a /\ llink nb = llink nb0
        /\ parent na = Some b /\ rlink na = rlink n /\ llink na = rlink nb0
        /\ (forall x, is_Some (mem s' !! x) <-> is_Some (mem s !! x))
        /\ (forall k d, stored s' k d <-> stored s k d)
        /\ pr_tree_count s' = pr_tree_count s
        /\ (forall visit,
              pr_tree_walk fuel s' visit = pr_tree_walk fuel s visit)
        /\ weight_invariant s' /\ links_ok s'
        /\ same_weights_except [a; b] s s'
  end.
Proof.
  intros (t & [Hwf _] & Hsz)%reachable_tree Hf Hn. rewrite <- Hsz in Hf.
  destruct (llink n) as [b|] eqn:Hb; cycle 1.
  { unfold rot_right, deref. by rewrite Hn, mbind_Ok, Hb. }
  destruct (rot_right_keeps_wf s t a n b Hwf Hn Hb)
    as (s' & c & A & kb & db & wb & C & ka & da & wa & E
        & -> & Hrun & Hwf' & Hm).
  cbn [frot_right] in Hwf'.
  pose proof (wf_rep _ _ Hwf) as Hrep. pose proof (wf_rep _ _ Hwf') as Hrep'.
  assert (Hent : entries (plug c (Node A b kb db
                   (wrap_ulong (fweight A + wrap_ulong (fweight C + fweight E)))
                   (Node C a ka da (wrap_ulong (fweight C + fweight E)) E)))
                 = entries (plug c (Node (Node A b kb db wb C) a ka da wa E))).
  { rewrite !entries_plug. cbn [entries].
    by rewrite <- (app_assoc (entries A) ((kb, db) :: entries C)
                    ((ka, da) :: entries E)). }
  assert (Dn : mem s !! a
               = Some (mk_node ka da (ctx_parent c) (Some b) (root_ptr E) wa)).
  { apply deref_inv. apply (deref_focus s c _ a _ _ _ _ Hrep). }
  assert (Dnb0 : mem s !! b
                 = Some (mk_node kb db (Some a) (root_ptr A) (root_ptr C) wb)).
  { apply deref_inv.
    apply (deref_focus s (InL a ka da wa E :: c) A b kb db wb C Hrep). }
  rewrite Hn in Dn. injection Dn as ->.
  exists s'. eexists. eexists. eexists.
  split; [exact Hrun|]. split; [exact Dnb0|].
  split; [apply deref_inv;
          apply (deref_focus s' (InR A b kb db _ :: c) C a ka da _ E Hrep')|].
  split; [apply deref_inv; apply (deref_focus s' c _ b _ _ _ _ Hrep')|].
  cbn [parent llink rlink ctx_parent frame_addr root_ptr].
  split_and!; try done.
  - by eapply rot_right_same_dom.
  - intros k d.
    by rewrite (stored_iff _ _ _ _ Hwf'), (stored_iff _ _ _ _ Hwf), Hent.
  - unfold pr_tree_count. by destruct Hm as (-> & _).
  - intros visit.
    rewrite (pr_tree_walk_spec fuel s' _ visit Hrep').
    2:{ rewrite size_plug in *. simpl in *. lia. }
    rewrite (pr_tree_walk_spec fuel s _ visit Hrep) by done.
    by rewrite Hent.
  - by eapply wf_weight_invariant.
  - by eapply wf_links_ok.
  - destruct (rot_right_weights s a s' Hrun) as (n0 & b0 & Hn0 & Hb0 & Hswe).
    rewrite Hn in Hn0. injection Hn0 as <-. cbn [llink] in Hb0.
    by injection Hb0 as <-.
Qed.

Lemma rot_right_keeps_order_witness :
  exists s' na nb nb0,
    rot_right resorted_state 201 = Ok s'
    /\ mem resorted_state !! 202 = Some nb0
    /\ mem s' !! 201 = Some na /\ mem s' !! 202 = Some nb
    /\ parent nb = None /\ rlink nb = Some 201 /\ llink nb = llink nb0
    /\ parent na = Some 202 /\ rlink na = Some 200 /\ llink na = rlink nb0
    /\ (forall x, is_Some (mem s' !! x) <-> is_Some (mem resorted_state !! x))
    /\ (forall k d, stored s' k d <-> stored resorted_state k d)
    /\ pr_tree_count s' = pr_tree_count resorted_state
    /\ (forall visit,
          pr_tree_walk 10 s' visit = pr_tree_walk 10 resorted_state visit)
    /\ weight_invariant s' /\ links_ok s'
    /\ same_weights_except [201; 202] resorted_state s'.
Proof.
  apply (rot_right_keeps_order resorted_state 10 201
           (mk_node 3 30 None (Some 202) (Some 200) 5)).
  - exact resorted_state_reachable.
  - vm_compute. lia.
  - vm_compute. reflexivity.
Defined.

(** ** A tree without nodes *)

(** X19: a reachable state with no live node (a new tree, or one that has
    been emptied) answers as an empty dictionary, with any fuel: the count
    is 0; search returns the null pointer; remove of a non-null key returns
    -1 and changes nothing; a walk calls the visitor not once and returns
    0; the minimum and the maximum are the null pointer; first and last
    leave the cursor invalid and return 0; and empty and destroy return 0
    and call [del_func] not once. *)
Theorem tree_without_nodes_answers s fuel :
  reachable s -> mem s = ∅ ->
  pr_tree_count s = 0
  /\ (forall k, pr_tree_search fuel s k = Ok NULL)
  /\ (forall k, k <> NULL -> pr_tree_remove fuel s k = Ok (-1, s))
  /\ (forall visit, pr_tree_walk fuel s visit = Ok (0, []))
  /\ pr_tree_min fuel s = Ok NULL
  /\ pr_tree_max fuel s = Ok NULL
  /\ (forall it, pr_itor_first fuel s it = Ok (0, mk_itor None))
  /\ (forall it, pr_itor_last fuel s it = Ok (0, mk_itor None))
  /\ pr_tree_empty fuel s = Ok (0, s)
  /\ pr_tree_destroy fuel s = Ok (0, del_log s).
Proof.
  intros (t & [Hwf _] & Hsz)%reachable_tree Hm.
  rewrite Hm, map_size_empty in Hsz.
  destruct t as [|l a k d w r]; [|simpl in Hsz; lia].
  pose proof (wf_rep _ _ Hwf) as (Hroot & _). cbn [root_ptr] in Hroot.
  pose proof (wf_count _ _ Hwf) as Hcnt. change (count (tree s) = 0) in Hcnt.
  assert (He : pr_tree_empty fuel s = Ok (0, s)).
  { unfold pr_tree_empty. rewrite Hroot, empty_loop_None, mbind_Ok, Hcnt.
    destruct s as [m [r c cmp del] lg]. simpl in Hroot, Hcnt. by subst. }
  split_and!.
  - done.
  - intros k. unfold pr_tree_search. rewrite Hroot. by destruct fuel.
  - intros k Hk. unfold pr_tree_remove. rewrite Hroot.
    apply Z.eqb_neq in Hk. rewrite Hk. by destruct fuel.
  - intros visit. unfold pr_tree_walk. by rewrite Hroot.
  - unfold pr_tree_min. by rewrite Hroot.
  - unfold pr_tree_max. by rewrite Hroot.
  - intros it. unfold pr_itor_first. by rewrite Hroot.
  - intros it. unfold pr_itor_last. by rewrite Hroot.
  - done.
  - unfold pr_tree_destroy. by rewrite Hroot.
Qed.

Lemma tree_without_nodes_answers_witness :
  pr_tree_count emptied_state = 0
  /\ (forall k, pr_tree_search 0 emptied_state k = Ok NULL)
  /\ (forall k, k <> NULL ->
        pr_tree_remove 0 emptied_state k = Ok (-1, emptied_state))
  /\ (forall visit, pr_tree_walk 0 emptied_state visit = Ok (0, []))
  /\ pr_tree_min 0 emptied_state = Ok NULL
  /\ pr_tree_max 0 emptied_state = Ok NULL
  /\ (forall it, pr_itor_first 0 emptied_state it = Ok (0, mk_itor None))
  /\ (forall it, pr_itor_last 0 emptied_state it = Ok (0, mk_itor None))
  /\ pr_tree_empty 0 emptied_state = Ok (0, emptied_state)
  /\ pr_tree_destroy 0 emptied_state = Ok (0, del_log emptied_state).
Proof.
  apply (tree_without_nodes_answers emptied_state 0).
  - apply final_state_reachable. vm_compute. eauto.
  - vm_compute. reflexivity.
Defined.
